(** * CONL for JavaScript: lexer, stream validator and tree builder

    A shallow embedding of the CONL implementation:
    - [Utils]      src/utils.ts       (line scanner, literal splitter, literal decoder)
    - [Lexer]      src/types.ts       (the tolerant lexer: [tokenize] and [tokens],
                   with [TokenKind] tokens carrying an optional [error])
    - [Tokenizer]  src/tokenizer.ts   (the single-pass tokenizer that throws)
    - [Parser]     src/parser.ts      ([sectionToValue] and [parse] with a reviver)

    JavaScript strings are sequences of UTF-16 code units; they are modelled as
    lists of code units ([list N]).  Regular expressions are kept as syntax
    trees and run by a backtracking matcher that follows the ECMAScript
    semantics for the constructs the sources use. *)

From Stdlib Require Import String Ascii Bool Arith NArith ZArith Lia List.
Import ListNotations.

Set Implicit Arguments.

(* ================================================================== *)
(** ** JavaScript strings *)

Module JS.

Definition str := list N.

(** ASCII text of a Rocq string literal as code units. *)
Definition u (s : string) : str := map N_of_ascii (list_ascii_of_string s).

Definition TAB : N := 9.
Definition LF : N := 10.
Definition CR : N := 13.
Definition SP : N := 32.
Definition QUOTE : N := 34.
Definition PLUS : N := 43.
Definition MINUS : N := 45.
Definition SEMI : N := 59.
Definition EQUALS : N := 61.
Definition BSLASH : N := 92.
Definition LBRACE : N := 123.
Definition RBRACE : N := 125.
Definition LS : N := 8232.   (* U+2028 *)
Definition PS : N := 8233.   (* U+2029 *)

Fixpoint str_eqb (a b : str) : bool :=
  match a, b with
  | [], [] => true
  | x :: a', y :: b' => N.eqb x y && str_eqb a' b'
  | _, _ => false
  end.

Definition isEmpty (s : str) : bool :=
  match s with [] => true | _ => false end.

(** [s.startsWith(p)] *)
Fixpoint startsWith (s p : str) {struct p} : bool :=
  match p with
  | [] => true
  | y :: p' => match s with
               | [] => false
               | x :: s' => N.eqb x y && startsWith s' p'
               end
  end.

(** [s.endsWith(p)] *)
Definition endsWith (s p : str) : bool := startsWith (rev s) (rev p).

(** [s.substring(a)]: indices past the end are clamped. *)
Definition substringFrom (s : str) (a : nat) : str := skipn a s.

(** [s.substring(a, b)]: both indices are clamped to the length and swapped
    when [a > b]. *)
Definition substring (s : str) (a b : nat) : str :=
  let a' := Nat.min a (length s) in
  let b' := Nat.min b (length s) in
  firstn (Nat.max a' b' - Nat.min a' b') (skipn (Nat.min a' b') s).

(** [s.indexOf(c)] for a one-character needle; [None] stands for -1. *)
Fixpoint indexOf (c : N) (s : str) : option nat :=
  match s with
  | [] => None
  | x :: s' => if N.eqb x c then Some 0
               else match indexOf c s' with
                    | Some i => Some (S i)
                    | None => None
                    end
  end.

(** [s.indexOf(c, from)] *)
Definition indexOfFrom (c : N) (s : str) (from : nat) : option nat :=
  match indexOf c (skipn from s) with
  | Some i => if from <=? length s then Some (from + i) else None
  | None => None
  end.

(** [chars.includes(c)] for a one-character argument. *)
Definition includes (chars : str) (c : N) : bool := existsb (N.eqb c) chars.

Fixpoint takeWhile (p : N -> bool) (s : str) : str :=
  match s with
  | [] => []
  | x :: s' => if p x then x :: takeWhile p s' else []
  end.

Fixpoint dropWhile (p : N -> bool) (s : str) : str :=
  match s with
  | [] => []
  | x :: s' => if p x then dropWhile p s' else s
  end.

(** The characters ECMAScript calls LineTerminator: the regular expression
    atom [.] (without the [s] flag) matches everything else. *)
Definition isLineTerminator (c : N) : bool :=
  N.eqb c LF || N.eqb c CR || N.eqb c LS || N.eqb c PS.

(** WhiteSpace and LineTerminator, as stripped by [trimEnd] and skipped by
    [parseInt]. *)
Definition isJsSpace (c : N) : bool :=
  N.eqb c 9 || N.eqb c 10 || N.eqb c 11 || N.eqb c 12 || N.eqb c 13
  || N.eqb c 32 || N.eqb c 160 || N.eqb c 5760
  || (N.leb 8192 c && N.leb c 8202)
  || N.eqb c 8232 || N.eqb c 8233 || N.eqb c 8239 || N.eqb c 8287
  || N.eqb c 12288 || N.eqb c 65279.

(** [s.trimEnd()] *)
Definition trimEnd (s : str) : str := rev (dropWhile isJsSpace (rev s)).

(** Value of a hexadecimal digit. *)
Definition hexDigit (c : N) : option N :=
  if N.leb 48 c && N.leb c 57 then Some (c - 48)%N
  else if N.leb 65 c && N.leb c 70 then Some (c - 55)%N
  else if N.leb 97 c && N.leb c 102 then Some (c - 87)%N
  else None.

Definition isHexDigit (c : N) : bool :=
  match hexDigit c with Some _ => true | None => false end.

(** Value of a string of hexadecimal digits read left to right, starting
    from the accumulator [acc]; characters that are not digits count 0. *)
Fixpoint hexValue (acc : N) (s : str) : N :=
  match s with
  | [] => acc
  | c :: s' => hexValue (16 * acc + match hexDigit c with Some d => d | None => 0 end)%N s'
  end.

(** [parseInt(s, 16)]: leading white space is skipped, then an optional
    sign and an optional [0x]/[0X] prefix; the longest run of hexadecimal
    digits that follows is the value and the rest is ignored.  [None] is NaN.
    (The value is kept exact; the sources only compare it with bounds below
    2^53 and pass it on when it is below [0x110000].) *)
Definition parseInt16 (s : str) : option Z :=
  let s1 := dropWhile isJsSpace s in
  let '(neg, s2) :=
    match s1 with
    | c :: t => if N.eqb c MINUS then (true, t)
                else if N.eqb c PLUS then (false, t)
                else (false, s1)
    | [] => (false, s1)
    end in
  let s3 :=
    match s2 with
    | c0 :: cx :: t => if N.eqb c0 48 && (N.eqb cx 120 || N.eqb cx 88) then t else s2
    | _ => s2
    end in
  let digits := takeWhile isHexDigit s3 in
  match digits with
  | [] => None
  | _ => let v := Z.of_N (hexValue 0 digits) in
         Some (if neg then (- v)%Z else v)
  end.

(** [parseInt(undefined, 16)] reads the text "undefined", which has no digit. *)
Definition parseInt16_opt (s : option str) : option Z :=
  match s with
  | Some s' => parseInt16 s'
  | None => None
  end.

(** [String.fromCodePoint(cp)]: a RangeError ([None]) outside
    [0 .. 0x10FFFF], otherwise the UTF-16 encoding of [cp]. *)
Definition fromCodePoint (cp : Z) : option str :=
  if (cp <? 0)%Z || (1114111 <? cp)%Z then None
  else
    let n := Z.to_N cp in
    if N.leb n 65535 then Some [n]
    else
      let n' := (n - 65536)%N in
      Some [(55296 + n' / 1024)%N; (56320 + n' mod 1024)%N].

(** Decimal digits of a number, as [String(n)] prints a non-negative
    integer; [fuel] bounds the number of digits. *)
Fixpoint decimalDigits (fuel : nat) (n : nat) (acc : str) : str :=
  match fuel with
  | O => acc
  | S fuel' =>
      let acc' := (48 + N.of_nat (n mod 10))%N :: acc in
      if n / 10 =? 0 then acc' else decimalDigits fuel' (n / 10) acc'
  end.

Definition numberToString (n : nat) : str := decimalDigits (S n) n [].

End JS.

Import JS.

(* ================================================================== *)
(** ** Regular expressions

    The sources lean on regular expressions.  They are kept here as syntax
    trees, written next to the pattern they stand for, and run by a
    backtracking matcher in continuation-passing style: greedy quantifiers,
    ordered alternation, capture groups, [$] and negative lookahead, with the
    ECMAScript rule that an iteration of [*] must consume input. *)

Module Regex.

Inductive regex : Type :=
| Eps                                  (* the empty pattern *)
| Class (p : N -> bool)                (* one code unit satisfying [p] *)
| Seq (r1 r2 : regex)
| Alt (r1 r2 : regex)                  (* r1|r2 *)
| Star (r : regex)                     (* r*, greedy *)
| Group (i : nat) (r : regex)          (* capture group number i *)
| Eol                                  (* $ *)
| NegLook (r : regex).                 (* (?!r) *)

Definition chr (c : N) : regex := Class (N.eqb c).
Definition oneOf (l : list N) : regex := Class (fun x => existsb (N.eqb x) l).
Definition noneOf (l : list N) : regex := Class (fun x => negb (existsb (N.eqb x) l)).
Definition dot : regex := Class (fun x => negb (isLineTerminator x)).
Definition Opt (r : regex) : regex := Alt r Eps.
Definition Plus (r : regex) : regex := Seq r (Star r).
Fixpoint lit (s : str) : regex :=
  match s with
  | [] => Eps
  | c :: s' => Seq (chr c) (lit s')
  end.

(** Captures: group number to the text it matched last. *)
Definition caps := list (nat * str).

Fixpoint getCap (i : nat) (c : caps) : option str :=
  match c with
  | [] => None
  | (j, s) :: c' => if Nat.eqb i j then Some s else getCap i c'
  end.

(** The loop of a greedy [r*]: [step] matches [r] once.  An iteration has
    to consume input (an empty iteration is given up, as in ECMAScript), so
    [n], which starts as the length of the input, bounds the number of
    iterations; when one more iteration fails, the continuation [k] is
    tried where the loop stands. *)
Fixpoint starLoop (A : Type)
         (step : str -> caps -> (str -> caps -> option A) -> option A)
         (k : str -> caps -> option A) (n : nat) (s : str) (c : caps) {struct n}
  : option A :=
  match n with
  | O => k s c
  | S n' =>
      match step s c (fun s' c' => if length s' <? length s
                                   then starLoop step k n' s' c' else None) with
      | Some a => Some a
      | None => k s c
      end
  end.

(** [rmatch r s c k] matches [r] at the front of [s] and hands what is left
    of the input, with the captures, to the continuation [k]; when [k]
    fails the matcher backtracks into [r]. *)
Fixpoint rmatch (r : regex) (A : Type) (s : str) (c : caps)
         (k : str -> caps -> option A) {struct r} : option A :=
  match r with
  | Eps => k s c
  | Class p =>
      match s with
      | x :: s' => if p x then k s' c else None
      | [] => None
      end
  | Seq r1 r2 => rmatch r1 s c (fun s' c' => rmatch r2 s' c' k)
  | Alt r1 r2 =>
      match rmatch r1 s c k with
      | Some a => Some a
      | None => rmatch r2 s c k
      end
  | Star r1 => starLoop (fun s' c' k' => rmatch r1 s' c' k') k (length s) s c
  | Group i r1 =>
      rmatch r1 s c
        (fun s' c' => k s' ((i, firstn (length s - length s') s) :: c'))
  | Eol =>
      match s with
      | [] => k s c
      | _ => None
      end
  | NegLook r1 =>
      match rmatch r1 s c (fun _ _ => Some tt) with
      | Some _ => None
      | None => k s c
      end
  end.

(** A match of [r] at the very front of [s]: the matched text, the rest of
    the input and the captures. *)
Definition matchPrefix (r : regex) (s : str) : option (str * str * caps) :=
  rmatch r s [] (fun s' c => Some (firstn (length s - length s') s, s', c)).

(** One piece of a scan of the whole string: a code unit no match covers,
    or a match. *)
Inductive segment : Type :=
| SLit (c : N)
| SMatch (matched : str) (c : caps).

(** All matches of a global ([/g]) regular expression from left to right, as
    [exec] in a loop, [replace] and [split] find them: the next match is
    searched from the end of the previous one; after an empty match the
    search moves on by one code unit.  [skip] counts the code units still
    covered by the last match. *)
Fixpoint scan (r : regex) (skip : nat) (s : str) {struct s} : list segment :=
  match s with
  | [] =>
      match skip with
      | O => match matchPrefix r [] with
             | Some (m, _, c) => [SMatch m c]
             | None => []
             end
      | S _ => []
      end
  | x :: s' =>
      match skip with
      | S k => scan r k s'
      | O =>
          match matchPrefix r s with
          | Some (m, _, c) =>
              match length m with
              | O => SMatch m c :: SLit x :: scan r 0 s'
              | S k => SMatch m c :: scan r k s'
              end
          | None => SLit x :: scan r 0 s'
          end
      end
  end.

(** [s.replace(/r/g, f)] *)
Definition replaceAll (r : regex) (f : str -> caps -> str) (s : str) : str :=
  flat_map (fun g => match g with
                     | SLit c => [c]
                     | SMatch m c => f m c
                     end) (scan r 0 s).

(** [s.replace(/r/, f)]: only the leftmost match is replaced. *)
Fixpoint replaceFirst (r : regex) (f : str -> caps -> str) (s : str) : str :=
  match matchPrefix r s with
  | Some (m, rest, c) => f m c ++ rest
  | None =>
      match s with
      | [] => []
      | x :: s' => x :: replaceFirst r f s'
      end
  end.

(** [s.split(/r/)] for a pattern without capture groups that cannot match
    the empty string: the pieces between the matches. *)
Fixpoint splitSegments (cur : str) (l : list segment) : list str :=
  match l with
  | [] => [rev cur]
  | SLit c :: l' => splitSegments (c :: cur) l'
  | SMatch _ _ :: l' => rev cur :: splitSegments [] l'
  end.

Definition split (r : regex) (s : str) : list str := splitSegments [] (scan r 0 s).

End Regex.

Import Regex.

(* ================================================================== *)
(** ** Errors and generators *)

(** The parse errors the lexers report, by message. *)
Inductive errorInfo : Type :=
| UnclosedQuotes
| CharactersAfterQuotes
| InvalidEscape (code : str)
| UnexpectedIndent
| UnexpectedListItem
| UnexpectedMapKey
| MissingMultilineValue.

Definition message (e : errorInfo) : str :=
  match e with
  | UnclosedQuotes => u "unclosed quotes"
  | CharactersAfterQuotes => u "characters after quotes"
  | InvalidEscape code => u "invalid escape code: " ++ code
  | UnexpectedIndent => u "unexpected indent"
  | UnexpectedListItem => u "unexpected list item"
  | UnexpectedMapKey => u "unexpected map key"
  | MissingMultilineValue => u "missing multiline value"
  end.

(** What a function can throw: an [Error] the sources construct themselves
    (with the line number the message starts with, when there is one), or
    an exception of the JavaScript runtime. *)
Inductive exn : Type :=
| ParseError (lno : option nat) (e : errorInfo)
| RangeError          (* String.fromCodePoint on an invalid code point *)
| TypeError           (* destructuring null, or a property of undefined *)
| UnknownTokenKind.   (* new Error('Unknown token kind') *)

Inductive outcome (A : Type) : Type :=
| Ret (a : A)
| Throw (e : exn).

Arguments Ret {A} a.
Arguments Throw {A} e.

(** A generator that yields values of type [T]: what it has yielded, and how
    it ended (a final value, or an exception raised after the last yield). *)
Definition gen (T A : Type) : Type := (list T * outcome A)%type.

Definition ret {T A} (a : A) : gen T A := ([], Ret a).
Definition yield {T} (t : T) : gen T unit := ([t], Ret tt).
Definition throw {T A} (e : exn) : gen T A := ([], Throw e).
Definition bind {T A B} (m : gen T A) (k : A -> gen T B) : gen T B :=
  match m with
  | (ts, Ret a) => let '(ts', r) := k a in (ts ++ ts', r)
  | (ts, Throw e) => (ts, Throw e)
  end.
Definition lift {T A} (o : outcome A) : gen T A := ([], o).

Notation "x <- m ;; k" := (bind m (fun x => k))
  (at level 61, m at next level, right associativity).
Notation "m ;;; k" := (bind m (fun _ => k))
  (at level 61, right associativity).

(* ================================================================== *)
(** ** src/utils.ts *)

Module Utils.

(** The pattern  \r\n|\r|\n  with the flag g. *)
Definition lineRegexp : regex := Alt (lit [CR; LF]) (Alt (chr CR) (chr LF)).

Fixpoint linesSegments (inputEmpty : bool) (lno : nat) (cur : str) (l : list segment)
  : list (nat * str) :=
  match l with
  | [] =>
      (* the last line: [lastIndex < input.length || input.length === 0] *)
      if negb (isEmpty cur) || inputEmpty then [(lno, rev cur)] else []
  | SLit c :: l' => linesSegments inputEmpty lno (c :: cur) l'
  | SMatch _ _ :: l' => (lno, rev cur) :: linesSegments inputEmpty (S lno) [] l'
  end.

(** [lines(input)]: the numbered lines, in the order the generator yields them. *)
Definition lines (input : str) : list (nat * str) :=
  linesSegments (isEmpty input) 1 [] (scan lineRegexp 0 input).

(** [splitUnquoted(input, key)] *)
Definition splitUnquoted (input : str) (key : bool) : str * str :=
  let plain :=
    match indexOf SEMI input with
    | Some semicolonIndex =>
        (trimEnd (substring input 0 semicolonIndex), substringFrom input semicolonIndex)
    | None => (trimEnd input, [])
    end in
  if key then
    match indexOf EQUALS input with
    | Some equalsIndex =>
        let before := substring input 0 equalsIndex in
        match indexOf SEMI before with
        | Some semicolonIndex =>
            (trimEnd (substring before 0 semicolonIndex), substringFrom input semicolonIndex)
        | None => (trimEnd before, substringFrom input equalsIndex)
        end
    | None => plain
    end
  else plain.

(** The loop of [splitLiteral] over a quoted literal: [tail] is [input] from
    index [i] on. *)
Fixpoint splitQuoted (input : str) (key : bool) (i : nat) (wasEscape : bool) (tail : str)
  : str * str :=
  match tail with
  | [] => (input, [])
  | c :: tail' =>
      if N.eqb c QUOTE && negb wasEscape then
        let '(before, after) := splitUnquoted (substringFrom input (i + 1)) key in
        if negb (isEmpty before)
        then (substring input 0 (i + 1) ++ before, after)
        else (substring input 0 (i + 1), after)
      else splitQuoted input key (S i) (N.eqb c BSLASH && negb wasEscape) tail'
  end.

(** [splitLiteral(input, key)] *)
Definition splitLiteral (input : str) (key : bool) : str * str :=
  if startsWith input [QUOTE]
  then splitQuoted input key 1 false (substringFrom input 1)
  else splitUnquoted input key.

(** The pattern  ^Q((?:\\.|[^\\Q])* )Q$  where Q is the double quote. *)
Definition literalRegex : regex :=
  Seq (chr QUOTE)
      (Seq (Group 1 (Star (Alt (Seq (chr BSLASH) dot) (noneOf [BSLASH; QUOTE]))))
           (Seq (chr QUOTE) Eol)).

(** The state of the decoding loop of [decodeLiteral]. *)
Record decodeState : Type := mkDecode {
  result : str;
  badEscape : str
}.

(** One turn of the [while (i < content.length)] loop at index [i], where
    [c] is [content[i]]: the new state and the new value of [i]. *)
Definition decodeStep (content : str) (i : nat) (c : N) (st : decodeState)
  : outcome (decodeState * nat) :=
  if N.eqb c BSLASH && (i + 1 <? length content) then
    let nextChar := nth (i + 1) content 0%N in
    if N.eqb nextChar 110 then Ret (mkDecode (result st ++ [LF]) (badEscape st), i + 2)
    else if N.eqb nextChar 114 then Ret (mkDecode (result st ++ [CR]) (badEscape st), i + 2)
    else if N.eqb nextChar 116 then Ret (mkDecode (result st ++ [TAB]) (badEscape st), i + 2)
    else if N.eqb nextChar QUOTE then Ret (mkDecode (result st ++ [QUOTE]) (badEscape st), i + 2)
    else if N.eqb nextChar BSLASH then Ret (mkDecode (result st ++ [BSLASH]) (badEscape st), i + 2)
    else if N.eqb nextChar LBRACE then
      let bad (closeIndex : option nat) :=
        match closeIndex with
        | None => true
        | Some ci => (ci =? i + 2) || (10 <? ci - i)
        end in
      let closeIndex := indexOfFrom RBRACE content (i + 2) in
      match closeIndex with
      | Some ci =>
          if bad closeIndex then
            Ret (mkDecode (result st ++ substring content i (i + 2))
                          (if isEmpty (badEscape st)
                           then substring content i (Nat.min (i + 12) (length content))
                           else badEscape st), i + 2)
          else
            let hexCode := substring content (i + 2) ci in
            match parseInt16 hexCode with
            | Some codePoint =>
                if (1114111 <? codePoint)%Z
                   || ((55296 <=? codePoint)%Z && (codePoint <=? 57343)%Z) then
                  Ret (mkDecode (result st ++ substring content i (ci + 1))
                                (if isEmpty (badEscape st)
                                 then substring content i (ci + 1)
                                 else badEscape st), ci + 1)
                else
                  match fromCodePoint codePoint with
                  | Some s => Ret (mkDecode (result st ++ s) (badEscape st), ci + 1)
                  | None => Throw RangeError
                  end
            | None =>
                Ret (mkDecode (result st ++ substring content i (ci + 1))
                              (if isEmpty (badEscape st)
                               then substring content i (ci + 1)
                               else badEscape st), ci + 1)
            end
      | None =>
          Ret (mkDecode (result st ++ substring content i (i + 2))
                        (if isEmpty (badEscape st)
                         then substring content i (Nat.min (i + 12) (length content))
                         else badEscape st), i + 2)
      end
    else
      Ret (mkDecode (result st ++ substring content i (i + 2))
                    (if isEmpty (badEscape st) then [BSLASH; nextChar] else badEscape st),
           i + 2)
  else Ret (mkDecode (result st ++ [c]) (badEscape st), i + 1).

(** The loop itself: [tail] is [content] from index [i] on, and [skip]
    counts the code units before the index the last turn moved to. *)
Fixpoint decodeLoop (content : str) (i : nat) (skip : nat) (tail : str) (st : decodeState)
  : outcome decodeState :=
  match tail with
  | [] => Ret st
  | c :: tail' =>
      match skip with
      | S k => decodeLoop content (S i) k tail' st
      | O =>
          match decodeStep content i c st with
          | Ret (st', i') => decodeLoop content (S i) (i' - i - 1) tail' st'
          | Throw e => Throw e
          end
      end
  end.

(** [decodeLiteral(input)]: the decoded text and the error, if any. *)
Definition decodeLiteral (input : str) : outcome (str * option errorInfo) :=
  if negb (startsWith input [QUOTE]) then Ret (input, None)
  else
    match matchPrefix literalRegex input with
    | None =>
        if negb (endsWith input [QUOTE])
        then Ret ([], Some UnclosedQuotes)
        else Ret ([], Some CharactersAfterQuotes)
    | Some (_, _, c) =>
        let content := match getCap 1 c with Some s => s | None => [] end in
        match decodeLoop content 0 0 content (mkDecode [] []) with
        | Throw e => Throw e
        | Ret st =>
            if negb (isEmpty (badEscape st))
            then Ret ([], Some (InvalidEscape (badEscape st)))
            else Ret (result st, None)
        end
    end.

(** [checkUtf8(content)] *)
Definition checkUtf8 (_content : str) : option errorInfo := None.

(** The pattern  ^([ \t]* )(.* )  *)
Definition trimLeftRegex : regex :=
  Seq (Group 1 (Star (oneOf [SP; TAB]))) (Group 2 (Star dot)).

(** [trimLeft(str)] *)
Definition trimLeft (s : str) : str * str :=
  match matchPrefix trimLeftRegex s with
  | Some (_, _, c) =>
      (match getCap 1 c with Some a => a | None => [] end,
       match getCap 2 c with Some b => b | None => [] end)
  | None => ([], s)
  end.

(** [cutPrefix(str, prefix)] *)
Definition cutPrefix (s prefix : str) : str * bool :=
  if startsWith s prefix then (substringFrom s (length prefix), true) else (s, false).

(** [trimRight(str, chars)] *)
Definition trimRight (s chars : str) : str :=
  rev (dropWhile (includes chars) (rev s)).

End Utils.

(* ================================================================== *)
(** ** The tolerant lexer: raw tokenizer and stream validator *)

Module Lexer.

Import Utils.

Inductive TokenKind : Type :=
| Comment | Indent | Outdent | MapKey | ListItem
| Scalar | NoValue | MultilineScalar | MultilineHint.

Definition TokenKind_eqb (a b : TokenKind) : bool :=
  match a, b with
  | Comment, Comment | Indent, Indent | Outdent, Outdent | MapKey, MapKey
  | ListItem, ListItem | Scalar, Scalar | NoValue, NoValue
  | MultilineScalar, MultilineScalar | MultilineHint, MultilineHint => true
  | _, _ => false
  end.

Record Token : Type := mkToken {
  lno : nat;
  kind : TokenKind;
  content : str;
  error : option errorInfo
}.

(** *** The raw tokenizer [tokenize] *)

(** The local variables of [tokenize].  The head of [stack] is the top of
    the indentation stack, [stack[stack.length - 1]]. *)
Record tokenizeState : Type := mkState {
  stack : list str;
  multiline : bool;
  multilinePrefix : str;
  multilineValue : str;
  multilineLno : nat
}.

Definition initialState : tokenizeState := mkState [[]] false [] [] 0.

Definition top (stk : list str) : str :=
  match stk with
  | t :: _ => t
  | [] => []
  end.

(** "Handle outdents": pop while the indentation does not start with the top
    of the stack.  The bottom entry is the empty string, which every
    indentation starts with, so the loop stops there at the latest. *)
Fixpoint popOutdents (lno : nat) (indent : str) (stk : list str) : list str * list Token :=
  match stk with
  | [] => ([], [])
  | t :: below =>
      if startsWith indent t then (stk, [])
      else let '(stk', out) := popOutdents lno indent below in
           (stk', mkToken lno Outdent [] None :: out)
  end.

(** "Handle indent" *)
Definition pushIndent (lno : nat) (indent : str) (stk : list str) : list str * list Token :=
  if negb (str_eqb indent (top stk))
  then (indent :: stk, [mkToken lno Indent indent None])
  else (stk, []).

(** A comment that follows on the line, if there is one. *)
Definition commentOf (lno : nat) (after : str) : list Token :=
  let '(comment, found) := cutPrefix after [SEMI] in
  if found then [mkToken lno Comment comment (checkUtf8 comment)] else [].

(** The part of the loop body after the list item or the map key:
    [currentRest] is what is left of the line. *)
Definition tokenizeValue (st : tokenizeState) (lno : nat) (currentRest : str)
  : gen Token tokenizeState :=
  let '(comment, found) := cutPrefix currentRest [SEMI] in
  if found then
    yield (mkToken lno Comment comment (checkUtf8 comment)) ;;; ret st
  else
    let '(indicator, hasMultiline) := cutPrefix currentRest [QUOTE; QUOTE; QUOTE] in
    if hasMultiline then
      let '(hint, afterHint) := splitLiteral indicator false in
      let st' := mkState (stack st) true (multilinePrefix st) (multilineValue st) lno in
      yield (mkToken lno MultilineHint hint (checkUtf8 hint)) ;;;
      (commentOf lno afterHint, Ret st')
    else
      let '(value, afterValue) := splitLiteral currentRest false in
      (if negb (isEmpty value) then
         d <- lift (decodeLiteral value) ;;
         yield (mkToken lno Scalar (fst d) (snd d))
       else ret tt) ;;;
      (commentOf lno afterValue, Ret st).

(** The loop body for a line that the multiline collector did not take:
    blank lines, comment lines, then outdents, indent, list item or map key,
    and the value. *)
Definition tokenizeEntry (st : tokenizeState) (lno : nat) (indent rest : str)
  : gen Token tokenizeState :=
  if isEmpty rest then ret st
  else
    let '(comment, found) := cutPrefix rest [SEMI] in
    if found then
      yield (mkToken lno Comment comment (checkUtf8 comment)) ;;; ret st
    else
      let '(stk1, outdents) := popOutdents lno indent (stack st) in
      let '(stk2, indents) := pushIndent lno indent stk1 in
      let st2 := mkState stk2 (multiline st) (multilinePrefix st) (multilineValue st)
                         (multilineLno st) in
      (outdents ++ indents, Ret tt) ;;;
      let '(list, isListItem) := cutPrefix rest [EQUALS] in
      if isListItem then
        let trimmedList := snd (trimLeft list) in
        yield (mkToken lno ListItem [] None) ;;;
        tokenizeValue st2 lno trimmedList
      else
        let '(key, afterKey) := splitLiteral rest true in
        d <- lift (decodeLiteral key) ;;
        yield (mkToken lno MapKey (fst d) (snd d)) ;;;
        let trimmedRest := snd (trimLeft afterKey) in
        let afterEquals := fst (cutPrefix trimmedRest [EQUALS]) in
        let currentRest :=
          if negb (str_eqb trimmedRest afterEquals)
          then snd (trimLeft afterEquals)
          else trimmedRest in
        tokenizeValue st2 lno currentRest.

(** The whole loop body for one line [(lno, content)]. *)
Definition tokenizeLine (st : tokenizeState) (line : nat * str) : gen Token tokenizeState :=
  let '(lno, content) := line in
  let '(indent, rest) := trimLeft content in
  if multiline st then
    if isEmpty (multilinePrefix st) then
      if startsWith indent (top (stack st)) && negb (str_eqb indent (top (stack st))) then
        ret (mkState (stack st) true indent rest lno)
      else if isEmpty rest then ret st
      else
        yield (mkToken (multilineLno st) MultilineScalar [] (Some MissingMultilineValue)) ;;;
        tokenizeEntry
          (mkState (stack st) false (multilinePrefix st) (multilineValue st) (multilineLno st))
          lno indent rest
    else
      if startsWith content (multilinePrefix st) then
        let restContent := substringFrom content (length (multilinePrefix st)) in
        ret (mkState (stack st) true (multilinePrefix st)
                     (multilineValue st ++ [LF] ++ restContent) (multilineLno st))
      else if isEmpty rest then
        ret (mkState (stack st) true (multilinePrefix st)
                     (multilineValue st ++ [LF]) (multilineLno st))
      else
        let finalContent := trimRight (multilineValue st) [SP; TAB; CR; LF] in
        yield (mkToken (multilineLno st) MultilineScalar finalContent (checkUtf8 finalContent)) ;;;
        tokenizeEntry (mkState (stack st) false [] [] (multilineLno st)) lno indent rest
  else tokenizeEntry st lno indent rest.

(** The [for] loop over the lines. *)
Fixpoint tokenizeLines (st : tokenizeState) (ls : list (nat * str)) : gen Token tokenizeState :=
  match ls with
  | [] => ret st
  | l :: ls' => st' <- tokenizeLine st l ;; tokenizeLines st' ls'
  end.

(** "Handle any remaining multiline" *)
Definition tokenizeFlush (st : tokenizeState) : list Token :=
  if multiline st then
    if negb (isEmpty (multilineValue st)) then
      let finalContent := trimRight (multilineValue st) [SP; TAB; CR; LF] in
      [mkToken (multilineLno st) MultilineScalar finalContent (checkUtf8 finalContent)]
    else
      [mkToken (multilineLno st) MultilineScalar [] (Some MissingMultilineValue)]
  else [].

(** [tokenize(input)] *)
Definition tokenize (input : str) : gen Token unit :=
  st <- tokenizeLines initialState (lines input) ;;
  (tokenizeFlush st, Ret tt).

(** *** The stream validator [tokens] *)

Record ParseState : Type := mkParseState {
  skind : TokenKind;     (* the field [kind]; [Comment] stands for "not set" *)
  hasKey : bool
}.

(** The local variables of [tokens].  The head of [states] is
    [states[states.length - 1]]. *)
Record validatorState : Type := mkValidator {
  states : list ParseState;
  lastLine : nat
}.

Definition initialValidator : validatorState :=
  mkValidator [mkParseState Comment false] 0.

(** The body of the [for] loop of [tokens] for one raw token.  Reading a
    field of [state] when the stack of states is empty is a TypeError. *)
Definition tokensStep (v : validatorState) (token : Token) : gen Token validatorState :=
  let pass (sts : list ParseState) : gen Token validatorState :=
    yield token ;;; ret (mkValidator sts (lno token)) in
  match kind token with
  | Comment | MultilineHint => pass (states v)
  | NoValue => throw UnknownTokenKind
  | _ =>
    match states v with
    | [] => throw TypeError
    | state :: below =>
      match kind token with
      | Indent =>
          (if hasKey state then ret tt
           else
             let kind := match skind state with Comment => MapKey | k => k end in
             yield (mkToken (lno token) kind [] (Some UnexpectedIndent))) ;;;
          pass (mkParseState Comment false :: mkParseState (skind state) false :: below)
      | Outdent =>
          (if hasKey state then yield (mkToken (lno token) NoValue [] None) else ret tt) ;;;
          pass below
      | ListItem | MapKey =>
          let kind' := match skind state with Comment => kind token | k => k end in
          (if hasKey state then yield (mkToken (lno token) NoValue [] None) else ret tt) ;;;
          let sts := mkParseState kind' true :: below in
          if TokenKind_eqb kind' MapKey && TokenKind_eqb (kind token) ListItem then
            yield (mkToken (lno token) MapKey [] (Some UnexpectedListItem)) ;;;
            ret (mkValidator sts (lastLine v))
          else if TokenKind_eqb kind' ListItem && TokenKind_eqb (kind token) MapKey then
            yield (mkToken (lno token) ListItem [] (Some UnexpectedMapKey)) ;;;
            ret (mkValidator sts (lastLine v))
          else pass sts
      | _ (* Scalar, MultilineScalar *) =>
          pass (mkParseState (skind state) false :: below)
      end
    end
  end.

Fixpoint tokensLoop (v : validatorState) (raw : list Token) : gen Token validatorState :=
  match raw with
  | [] => ret v
  | t :: raw' => v' <- tokensStep v t ;; tokensLoop v' raw'
  end.

(** "Handle remaining states" *)
Fixpoint tokensFlush (lastLine : nat) (sts : list ParseState) : list Token :=
  match sts with
  | [] => []
  | state :: below =>
      (if hasKey state then [mkToken lastLine NoValue [] None] else [])
      ++ (if 1 <? length sts then [mkToken lastLine Outdent [] None] else [])
      ++ tokensFlush lastLine below
  end.

(** [tokens(input)] for a string: the validator pulls the raw tokens one by
    one, so an exception in [tokenize] surfaces after the tokens that came
    before it were handled, and ends the stream there. *)
Definition tokens (input : str) : gen Token unit :=
  let '(raw, r) := tokenize input in
  v <- tokensLoop initialValidator raw ;;
  match r with
  | Ret _ => (tokensFlush (lastLine v) (states v), Ret tt)
  | Throw e => throw e
  end.

End Lexer.

(* ================================================================== *)
(** ** src/tokenizer.ts: the tokenizer [parse] pulls from *)

Module Tokenizer.

Inductive TokenKind : Type :=
| indent
| outdent
| item
| key (content : str)
| scalar (content : str)
| null.

Record Token : Type := mkToken {
  lno : nat;
  kind : TokenKind
}.

(** What [tokenizeLine] yields: a token kind, or the marker of a multiline
    value. *)
Inductive lineToken : Type :=
| LT (k : TokenKind)
| multiline.

(** The pattern  \\\{([^}]* )\}|\\(.)|(Q)  with the flag g, where Q is the
    double quote. *)
Definition escapeRegex : regex :=
  Alt (Seq (chr BSLASH) (Seq (chr LBRACE) (Seq (Group 1 (Star (noneOf [RBRACE]))) (chr RBRACE))))
      (Alt (Seq (chr BSLASH) (Group 2 dot))
           (Group 3 (chr QUOTE))).

(** The callback [decodeLiteral] hands to [replace]. *)
Definition unescape (lno : nat) (m : str) (c : caps) : outcome str :=
  match getCap 3 c with
  | Some (_ :: _) => Throw (ParseError (Some (lno + 1)) CharactersAfterQuotes)
  | _ =>
      let simple :=
        match getCap 2 c with
        | Some [x] =>
            if N.eqb x 110 then Some [LF]
            else if N.eqb x 114 then Some [CR]
            else if N.eqb x 116 then Some [TAB]
            else if N.eqb x QUOTE then Some [QUOTE]
            else if N.eqb x BSLASH then Some [BSLASH]
            else None
        | _ => None
        end in
      match simple with
      | Some s => Ret s
      | None =>
          let hex := getCap 1 c in
          let tooLong := match hex with Some h => 8 <? length h | None => false end in
          match parseInt16_opt hex with
          | None => Throw (ParseError (Some (lno + 1)) (InvalidEscape m))
          | Some codePoint =>
              if tooLong
                 || (1114111 <? codePoint)%Z
                 || ((55296 <=? codePoint)%Z && (codePoint <=? 57343)%Z)
              then Throw (ParseError (Some (lno + 1)) (InvalidEscape m))
              else match fromCodePoint codePoint with
                   | Some s => Ret s
                   | None => Throw RangeError
                   end
          end
      end
  end.

(** [replace] calls the callback match by match, left to right; the first
    exception ends it. *)
Fixpoint replaceSegments (lno : nat) (l : list segment) : outcome str :=
  match l with
  | [] => Ret []
  | SLit c :: l' =>
      match replaceSegments lno l' with
      | Ret s => Ret (c :: s)
      | Throw e => Throw e
      end
  | SMatch m c :: l' =>
      match unescape lno m c with
      | Throw e => Throw e
      | Ret r =>
          match replaceSegments lno l' with
          | Ret s => Ret (r ++ s)
          | Throw e => Throw e
          end
      end
  end.

(** [decodeLiteral(lno, input)] *)
Definition decodeLiteral (lno : nat) (input : str) : outcome str :=
  if negb (startsWith input [QUOTE]) then Ret input
  else if negb (endsWith input [QUOTE]) then Throw (ParseError (Some (lno + 1)) UnclosedQuotes)
  else replaceSegments lno (scan escapeRegex 0 (substring input 1 (length input - 1))).

Definition ws : regex := oneOf [SP; TAB].

(** A quoted literal,  Q(?:[^Q\\]|\\.)*Q  *)
Definition quoted : regex :=
  Seq (chr QUOTE)
      (Seq (Star (Alt (noneOf [QUOTE; BSLASH]) (Seq (chr BSLASH) dot))) (chr QUOTE)).

(** [SPLIT_LINE], without its leading anchor (it is matched at index 0):
    group 1 is the key, group 2 the value. *)
Definition SPLIT_LINE : regex :=
  Seq (Group 1
         (Seq (Opt quoted)
              (Star (Alt (noneOf [EQUALS; SEMI; SP; TAB])
                         (Seq ws (noneOf [EQUALS; SEMI; SP; TAB]))))))
      (Seq (Opt (Seq (Star ws)
                     (Seq (chr EQUALS)
                          (Seq (Star ws)
                               (Group 2
                                  (Seq (Opt quoted)
                                       (Star (Alt (noneOf [SEMI; SP; TAB])
                                                  (Seq ws (noneOf [SEMI; SP; TAB]))))))))))
           (Seq (Star ws) (Alt (chr SEMI) Eol))).

(** The pattern that recognises a multiline marker: three double quotes
    not followed by blanks and a fourth. *)
Definition multilineRegex : regex :=
  Seq (lit [QUOTE; QUOTE; QUOTE]) (NegLook (Seq (Star ws) (chr QUOTE))).

(** The pattern  [ \t]*(?:\r\n|\r|\n)  the input is split on. *)
Definition newlineRegex : regex :=
  Seq (Star ws) (Alt (lit [CR; LF]) (Alt (chr CR) (chr LF))).

(** The pattern  ^([ \t]* )(.* )$  that cuts a line into indent and content. *)
Definition lineRegex : regex :=
  Seq (Group 1 (Star ws)) (Seq (Group 2 (Star dot)) Eol).

Record line : Type := mkLine {
  lindent : str;
  lcontent : str
}.

(** [input.split(...).map(...)]: a line the pattern does not match makes
    the destructuring fail with a TypeError. *)
Fixpoint splitLines (ls : list str) : outcome (list line) :=
  match ls with
  | [] => Ret []
  | l :: ls' =>
      match matchPrefix lineRegex l with
      | None => Throw TypeError
      | Some (_, _, c) =>
          match splitLines ls' with
          | Throw e => Throw e
          | Ret r =>
              Ret (mkLine (match getCap 1 c with Some a => a | None => [] end)
                          (match getCap 2 c with Some b => b | None => [] end) :: r)
          end
      end
  end.

(** One entry of the indentation stack; the head of the list is
    [stack.at(-1)]. *)
Inductive sectionKind : Type := kItem | kKey.

Record frame : Type := mkFrame {
  findent : str;
  fkind : option sectionKind
}.

Definition topIndent (stk : list frame) : str :=
  match stk with
  | f :: _ => findent f
  | [] => []
  end.

Fixpoint popOutdents (ind : str) (stk : list frame) : list frame * list lineToken :=
  match stk with
  | [] => ([], [])
  | f :: below =>
      if startsWith ind (findent f) then (stk, [])
      else let '(stk', out) := popOutdents ind below in (stk', LT outdent :: out)
  end.

(** [tokenizeLine(indent, line)], run at line index [lno]: the indentation
    stack as the line leaves it (the stack is shared with [tokens], and all
    pops and pushes come before the first line token that [tokens] looks at
    the stack for), and the generator. *)
Definition tokenizeLine (stk : list frame) (lno : nat) (ind content : str)
  : list frame * gen lineToken unit :=
  if isEmpty content || startsWith content [SEMI] then (stk, ret tt)
  else
    let '(stk1, outdents) := popOutdents ind stk in
    let '(stk2, indents) :=
      if negb (str_eqb ind (topIndent stk1))
      then (mkFrame ind None :: stk1, [LT indent])
      else (stk1, []) in
    (stk2,
     (outdents ++ indents, Ret tt) ;;;
     match matchPrefix SPLIT_LINE content with
     | None => throw TypeError
     | Some (_, _, c) =>
         let key' := match getCap 1 c with Some k => k | None => [] end in
         let tail := getCap 2 c in
         (if negb (isEmpty key') then
            k <- lift (decodeLiteral lno key') ;; yield (LT (key k))
          else yield (LT item)) ;;;
         match tail with
         | None => ret tt
         | Some tail' =>
             match matchPrefix multilineRegex tail' with
             | Some _ => yield multiline
             | None =>
                 if negb (isEmpty tail') then
                   v <- lift (decodeLiteral lno tail') ;; yield (LT (scalar v))
                 else ret tt
             end
         end
     end).

(** [s.replace(pat, "")] with a string pattern: the first occurrence of
    [pat] is removed. *)
Fixpoint removeFirst (pat s : str) : str :=
  if startsWith s pat then skipn (length pat) s
  else match s with
       | [] => []
       | x :: s' => x :: removeFirst pat s'
       end.

(** The pattern  \n+$  *)
Definition trailingNewlines : regex := Seq (Plus (chr LF)) Eol.

(** The first loop of [consumeMultiline]: the number of lines with empty
    content at the front of [rest]. *)
Fixpoint blankLines (rest : list line) : nat :=
  match rest with
  | l :: rest' => if isEmpty (lcontent l) then S (blankLines rest') else 0
  | [] => 0
  end.

(** The second loop of [consumeMultiline]: the text gathered and the number
    of lines taken. *)
Fixpoint collect (prefix result : str) (rest : list line) : str * nat :=
  match rest with
  | l :: rest' =>
      if startsWith (lindent l) prefix || isEmpty (lcontent l) then
        let '(r, n) :=
          collect prefix (result ++ [LF] ++ removeFirst prefix (lindent l) ++ lcontent l) rest' in
        (r, S n)
      else (result, 0)
  | [] => (result, 0)
  end.

(** [consumeMultiline(indent)], called at line index [lno] with the lines
    [rest] that follow: the scalar and the number of lines it moved [lno]
    forward by. *)
Definition consumeMultiline (lno : nat) (ind : str) (rest : list line)
  : outcome (TokenKind * nat) :=
  let nb := blankLines rest in
  match skipn nb rest with
  | [] => Throw (ParseError (Some (lno + nb + 1)) MissingMultilineValue)
  | l :: rest' =>
      if negb (startsWith (lindent l) ind) || str_eqb (lindent l) ind
      then Throw (ParseError (Some (lno + nb + 1)) MissingMultilineValue)
      else
        let '(result, n) := collect (lindent l) (lcontent l) rest' in
        Ret (scalar (replaceFirst trailingNewlines (fun _ _ => []) result), nb + 1 + n)
  end.

(** The local variables of [tokens]; [lastLno = None] stands for -1. *)
Record tokensState : Type := mkTokensState {
  stack : list frame;
  lastLno : option nat
}.

Definition nullBefore (st : tokensState) : list Token :=
  match lastLno st with
  | Some l => [mkToken l null]
  | None => []
  end.

(** The body of the [for] loop of [tokens] for one line token at line index
    [lno]: the new state and the number of following lines a multiline
    value took. *)
Definition handleToken (st : tokensState) (lno : nat) (ind : str) (rest : list line)
           (token : lineToken) : gen Token (tokensState * nat) :=
  let entry (k : sectionKind) (t : TokenKind) : gen Token (tokensState * nat) :=
    match stack st with
    | [] => throw TypeError
    | f :: below =>
        let go (stk : list frame) : gen Token (tokensState * nat) :=
          (nullBefore st ++ [mkToken lno t], Ret (mkTokensState stk (Some lno), 0)) in
        match fkind f, k with
        | None, _ => go (mkFrame (findent f) (Some k) :: below)
        | Some kItem, kKey => throw (ParseError (Some (lno + 1)) UnexpectedMapKey)
        | Some kKey, kItem => throw (ParseError (Some (lno + 1)) UnexpectedListItem)
        | Some _, _ => go (stack st)
        end
    end in
  match token with
  | LT outdent =>
      (nullBefore st ++ [mkToken lno outdent], Ret (mkTokensState (stack st) None, 0))
  | LT indent =>
      match lastLno st with
      | None => throw (ParseError (Some (lno + 1)) UnexpectedIndent)
      | Some _ => ([mkToken lno indent], Ret (mkTokensState (stack st) None, 0))
      end
  | LT item => entry kItem item
  | LT (key c) => entry kKey (key c)
  | LT (scalar c) => ([mkToken lno (scalar c)], Ret (mkTokensState (stack st) None, 0))
  | LT null => ([mkToken lno null], Ret (st, 0))
  | multiline =>
      r <- lift (consumeMultiline lno ind rest) ;;
      ([mkToken lno (fst r)], Ret (mkTokensState (stack st) None, snd r))
  end.

Fixpoint handleTokens (st : tokensState) (lno : nat) (ind : str) (rest : list line)
         (lts : list lineToken) (skip : nat) : gen Token (tokensState * nat) :=
  match lts with
  | [] => ret (st, skip)
  | t :: lts' =>
      r <- handleToken st lno ind rest t ;;
      handleTokens (fst r) lno ind rest lts' (skip + snd r)
  end.

(** The [while (lno < lines.length)] loop; [skip] counts the lines a
    multiline value has taken already.  The result carries the final
    value of [lno]. *)
Fixpoint tokensLoop (st : tokensState) (lno : nat) (skip : nat) (ls : list line)
  : gen Token (tokensState * nat) :=
  match ls with
  | [] => ret (st, lno)
  | l :: ls' =>
      match skip with
      | S k => tokensLoop st (S lno) k ls'
      | O =>
          let '(stk, (lts, r)) := tokenizeLine (stack st) lno (lindent l) (lcontent l) in
          h <- handleTokens (mkTokensState stk (lastLno st)) lno (lindent l) ls' lts 0 ;;
          match r with
          | Throw e => throw e
          | Ret _ => tokensLoop (fst h) (S lno) (snd h) ls'
          end
      end
  end.

(** The closing loop: one [outdent] for every entry above the bottom of the
    stack. *)
Fixpoint closeStack (lno : nat) (stk : list frame) : list Token :=
  match stk with
  | _ :: ((_ :: _) as below) => mkToken lno outdent :: closeStack lno below
  | _ => []
  end.

(** [tokens(input)] *)
Definition tokens (input : str) : gen Token unit :=
  ls <- lift (splitLines (split newlineRegex input)) ;;
  r <- tokensLoop (mkTokensState [mkFrame [] None] None) 0 0 ls ;;
  (nullBefore (fst r) ++ closeStack (snd r) (stack (fst r)), Ret tt).

End Tokenizer.

(* ================================================================== *)
(** ** src/parser.ts

    [parse] takes [tokens] from the index of the package; the token kinds
    [sectionToValue] switches on (item, key, scalar, null, indent, outdent)
    are those of src/tokenizer.ts, and the errors [parse] is tested to
    throw are the ones that tokenizer throws. *)

Module Parser.

Import Tokenizer.

(** The values [parse] builds: [Conl] is a string, null, a map or a list.
    A reviver may return anything; [VNumber] stands for the numbers it can
    put in.  [VMap m] is an object as [{}] creates it, with the prototype
    [Object.prototype]; [m] holds its properties in the order in which
    the object enumerates them.  [VObject p m] is such an object after an
    assignment to  __proto__  has made [p], null or an object, its
    prototype. *)
#[warnings="-register-all"] Inductive value : Type :=
| VString (s : str)
| VNull
| VNumber (n : Z)
| VMap (m : list (str * value))
| VList (l : list value)
| VObject (proto : value) (m : list (str * value)).

(** The value of a string of decimal digits read left to right, starting
    from [acc]; [None] when a code unit is no digit. *)
Fixpoint decimalValue (acc : N) (s : str) : option N :=
  match s with
  | [] => Some acc
  | c :: s' =>
      if N.leb 48 c && N.leb c 57 then decimalValue (10 * acc + (c - 48))%N s' else None
  end.

(** An array index: a property name that is the decimal notation, without
    a leading zero, of an integer below 2^32 - 1. *)
Definition arrayIndex (k : str) : option N :=
  match k with
  | [] => None
  | c :: rest =>
      if N.eqb c 48 && negb (isEmpty rest) then None
      else match decimalValue 0 k with
           | Some n => if N.ltb n 4294967295 then Some n else None
           | None => None
           end
  end.

(** Whether a new property [k] is enumerated before the property [k']:
    an object enumerates its array indices first, in ascending order, and
    then its other properties in the order in which they were created. *)
Definition enumeratedBefore (k k' : str) : bool :=
  match arrayIndex k, arrayIndex k' with
  | Some i, Some j => N.ltb i j
  | Some _, None => true
  | None, _ => false
  end.

Definition hasKey (k : str) (m : list (str * value)) : bool :=
  existsb (fun e => str_eqb k (fst e)) m.

Fixpoint replaceKey (k : str) (v : value) (m : list (str * value)) : list (str * value) :=
  match m with
  | [] => []
  | (k', v') :: m' => if str_eqb k k' then (k, v) :: m' else (k', v') :: replaceKey k v m'
  end.

Fixpoint insertKey (k : str) (v : value) (m : list (str * value)) : list (str * value) :=
  match m with
  | [] => [(k, v)]
  | (k', v') :: m' =>
      if enumeratedBefore k k' then (k, v) :: m else (k', v') :: insertKey k v m'
  end.

(** Writing the property [k] of an object itself: the value of a property
    the object has is replaced in place, a new property takes its place
    in the order of enumeration. *)
Definition setKey (k : str) (v : value) (m : list (str * value)) : list (str * value) :=
  if hasKey k m then replaceKey k v m else insertKey k v m.

(** The one property name that [Object.prototype] has an accessor for. *)
Definition PROTO : str := u "__proto__".

(** Whether the search for a property  __proto__  that starts at the
    prototype [p] ends at the accessor of [Object.prototype]: it does not
    when an object on the way has a property of that name itself, or when
    the chain of prototypes ends at null. *)
Fixpoint reachesAccessor (p : value) : bool :=
  match p with
  | VMap m => negb (hasKey PROTO m)
  | VList _ => true
  | VObject p' m => negb (hasKey PROTO m) && reachesAccessor p'
  | _ => false
  end.

(** The setter of the accessor: null or an object becomes the prototype,
    any other value is ignored. *)
Definition setPrototype (v : value) (m : list (str * value)) (obj : value) : value :=
  match v with
  | VNull => VObject VNull m
  | VMap _ | VList _ | VObject _ _ => VObject v m
  | _ => obj
  end.

(** [obj[k] = v] for an object [obj] that is no array.  The assignment
    writes a property of the object itself, but for the name  __proto__
    when the object has no such property and the search along its
    prototypes ends at the accessor: then the setter is called, and no
    property is written. *)
Definition assignKey (k : str) (v obj : value) : value :=
  match obj with
  | VMap m =>
      if str_eqb k PROTO && negb (hasKey PROTO m) then setPrototype v m obj
      else VMap (setKey k v m)
  | VObject p m =>
      if str_eqb k PROTO && negb (hasKey PROTO m) && reachesAccessor p
      then setPrototype v m obj
      else VObject p (setKey k v m)
  | _ => obj
  end.

(** The token iterator: the tokens not yet pulled, and how the generator
    ends after them. *)
Definition iterator : Type := gen Token unit.

(** The local variable [result] of [sectionToValue]: null, a map or a list. *)
Definition resultToValue (result : option value) : value :=
  match result with
  | Some v => v
  | None => VNull
  end.

Definition reviver : Type := str -> value -> value.

(** One call of the reviver, as the log records it. *)
Definition call : Type := (str * value)%type.

(** What running out of fuel, an exception, or a return looks like. *)
Inductive run (A : Type) : Type :=
| Done (a : A)
| Raise (e : exn)
| OutOfFuel.

Arguments Done {A} a.
Arguments Raise {A} e.
Arguments OutOfFuel {A}.

(** Storing a value in [result]: pushed on a list, or assigned to the
    current key of a map; the reviver sees it first.  Gives the new
    [result], the new [currentKey] and the reviver calls made. *)
Definition store (f : reviver) (result : option value) (currentKey : option str) (v : value)
  : option value * option str * list call :=
  match result with
  | Some (VList l) =>
      let k := numberToString (length l) in
      (Some (VList (l ++ [f k v])), currentKey, [(k, v)])
  | Some ((VMap _ | VObject _ _) as obj) =>
      match currentKey with
      | Some k => (Some (assignKey k (f k v) obj), None, [(k, v)])
      | None => (result, currentKey, [])
      end
  | _ => (result, currentKey, [])
  end.

(** [sectionToValue(tokenIterator, reviver)], with the loop state [result]
    and [currentKey] as arguments: the value of the section, the iterator
    where the section ends, and the log of reviver calls.  Every turn of
    the loop and every nested section takes one unit of [fuel]. *)
Fixpoint sectionToValue (fuel : nat) (f : reviver) (result : option value)
         (currentKey : option str) (it : iterator) : run (value * iterator * list call) :=
  match fuel with
  | O => OutOfFuel
  | S fuel' =>
      match it with
      | ([], Ret _) => Done (resultToValue result, it, [])
      | ([], Throw e) => Raise e
      | (token :: ts, r) =>
          match kind token with
          | item =>
              sectionToValue fuel' f
                (match result with None => Some (VList []) | _ => result end)
                currentKey (ts, r)
          | key c =>
              sectionToValue fuel' f
                (match result with None => Some (VMap []) | _ => result end)
                (Some c) (ts, r)
          | scalar c =>
              let '(result', key', log) := store f result currentKey (VString c) in
              match sectionToValue fuel' f result' key' (ts, r) with
              | Done (v, it', log') => Done (v, it', log ++ log')
              | other => other
              end
          | null =>
              let '(result', key', log) := store f result currentKey VNull in
              match sectionToValue fuel' f result' key' (ts, r) with
              | Done (v, it', log') => Done (v, it', log ++ log')
              | other => other
              end
          | indent =>
              match sectionToValue fuel' f None None (ts, r) with
              | Done (nestedValue, it', nestedLog) =>
                  let '(result', key', log) := store f result currentKey nestedValue in
                  match sectionToValue fuel' f result' key' it' with
                  | Done (v, it'', log') => Done (v, it'', nestedLog ++ log ++ log')
                  | other => other
                  end
              | other => other
              end
          | outdent => Done (resultToValue result, (ts, r), [])
          end
      end
  end.

(** The default reviver, [(_, value) => value]. *)
Definition identity : reviver := fun _ v => v.

(** [parse(input, reviver)] with its log: the value returned and the
    reviver calls in the order they were made.  The fuel covers one turn of
    the loop per token and one more. *)
Definition parseLog (input : str) (reviver' : option reviver) : run (value * list call) :=
  let f := match reviver' with Some g => g | None => identity end in
  let tokenIterator := tokens input in
  match sectionToValue (S (length (fst tokenIterator))) f None None tokenIterator with
  | Done (v, _, log) =>
      let result := match v with VNull => VMap [] | _ => v end in
      Done (f [] result, log ++ [([], result)])
  | Raise e => Raise e
  | OutOfFuel => OutOfFuel
  end.

(** [parse(input, reviver)] *)
Definition parse (input : str) (reviver' : option reviver) : run value :=
  match parseLog input reviver' with
  | Done (v, _) => Done v
  | Raise e => Raise e
  | OutOfFuel => OutOfFuel
  end.

End Parser.

(* ================================================================== *)
(** ** Notions the properties are stated with *)

(** A space or a tab, the class [[ \t]] of the patterns. *)
Definition isBlank (x : N) : bool := existsb (N.eqb x) [SP; TAB].

(** What the atom [.] matches. *)
Definition notLineTerminator (x : N) : bool := negb (isLineTerminator x).

Module LexerSpec.

Import Lexer.

(** The number of tokens of kind [k]. *)
Definition countKind (k : TokenKind) (ts : list Token) : nat :=
  length (filter (fun t => TokenKind_eqb (kind t) k) ts).

(** Replaying a token stream on a stack of open sections, of which only the
    depth matters: [Indent] opens one, [Outdent] closes one and fails
    ([None]) when none is open. *)
Fixpoint replay (depth : nat) (ts : list Token) : option nat :=
  match ts with
  | [] => Some depth
  | t :: ts' =>
      match kind t with
      | Indent => replay (S depth) ts'
      | Outdent => match depth with
                   | O => None
                   | S d => replay d ts'
                   end
      | _ => replay depth ts'
      end
  end.

(** Tokens that neither open nor close a section. *)
Definition flat (t : Token) : bool :=
  match kind t with
  | Indent | Outdent => false
  | _ => true
  end.

(** The kinds of the [ListItem] and [MapKey] tokens of the section that
    is open at the start of [ts], leaving out the sections nested in it:
    [depth] counts the nested sections that are open. *)
Fixpoint sectionEntries (depth : nat) (ts : list Token) : list TokenKind :=
  match ts with
  | [] => []
  | t :: ts' =>
      match kind t with
      | Indent => sectionEntries (S depth) ts'
      | Outdent => match depth with
                   | O => []
                   | S d => sectionEntries d ts'
                   end
      | ListItem | MapKey =>
          match depth with
          | O => kind t :: sectionEntries depth ts'
          | S _ => sectionEntries depth ts'
          end
      | _ => sectionEntries depth ts'
      end
  end.

(** [l.join(sep)] *)
Fixpoint join (sep : str) (l : list str) : str :=
  match l with
  | [] => []
  | [x] => x
  | x :: l' => x ++ sep ++ join sep l'
  end.

(** A line the multiline collector takes once the prefix is [prefix]: it
    starts with the prefix, or it is blank. *)
Definition bodyLine (prefix content : str) : bool :=
  startsWith content prefix || forallb isBlank content.

(** What such a line adds to the value: the line without the prefix; nothing
    for a blank line that does not reach the prefix. *)
Definition bodyOf (prefix content : str) : str :=
  if startsWith content prefix then substringFrom content (length prefix) else [].

(** A code unit of a bare key or value before a comment: no semicolon and
    no double quote. *)
Definition bare (x : N) : bool := negb (N.eqb x SEMI) && negb (N.eqb x QUOTE).

Definition noSemi (s : str) : bool := forallb (fun x => negb (N.eqb x SEMI)) s.
Definition noEquals (s : str) : bool := forallb (fun x => negb (N.eqb x EQUALS)) s.

(** The text between the quotes of a quoted literal, as [splitLiteral]
    scans it: no double quote stands in it unless a backslash escapes it,
    and it does not end in the middle of an escape.  [wasEscape] tells
    whether the code unit before was an escaping backslash. *)
Fixpoint closedQuote (wasEscape : bool) (inner : str) : bool :=
  match inner with
  | [] => negb wasEscape
  | c :: t =>
      if N.eqb c QUOTE && negb wasEscape then false
      else closedQuote (N.eqb c BSLASH && negb wasEscape) t
  end.

(** What a value can be, the blanks before it included: bare text without
    semicolon and double quote; a quoted literal, closed, with text
    without semicolon after it, that is no multiline marker and on which
    [decodeLiteral] raises no exception; a multiline marker with its
    hint. *)
Inductive valueText : str -> Prop :=
| value_bare b :
    forallb bare b = true -> valueText b
| value_quoted bl inner b :
    forallb isBlank bl = true ->
    closedQuote false inner = true ->
    noSemi b = true ->
    startsWith (QUOTE :: inner ++ QUOTE :: b) [QUOTE; QUOTE; QUOTE] = false ->
    (forall e, Utils.decodeLiteral (QUOTE :: inner ++ QUOTE :: trimEnd b) <> Throw e) ->
    valueText (bl ++ QUOTE :: inner ++ QUOTE :: b)
| value_hint bl h :
    forallb isBlank bl = true ->
    noSemi h = true ->
    startsWith h [QUOTE] = false ->
    valueText (bl ++ [QUOTE; QUOTE; QUOTE] ++ h).

(** What a key can be: bare text without semicolon and equals sign, that
    starts with neither a blank nor a double quote; or a quoted literal,
    closed, with text without semicolon and equals sign after it, on which
    [decodeLiteral] raises no exception. *)
Inductive keyText : str -> Prop :=
| key_bare x b :
    N.eqb x QUOTE = false -> isBlank x = false ->
    noSemi (x :: b) = true -> noEquals (x :: b) = true ->
    keyText (x :: b)
| key_quoted inner b :
    closedQuote false inner = true ->
    noSemi b = true -> noEquals b = true ->
    (forall e, Utils.decodeLiteral (QUOTE :: inner ++ QUOTE :: trimEnd b) <> Throw e) ->
    keyText (QUOTE :: inner ++ QUOTE :: b).

(** The text of a line between its indentation and its comment: nothing,
    a list item, a key, or a key and a value. *)
Inductive entryText : str -> Prop :=
| entry_none : entryText []
| entry_item v : valueText v -> entryText (EQUALS :: v)
| entry_key k : keyText k -> entryText k
| entry_key_value k v : keyText k -> valueText v -> entryText (k ++ EQUALS :: v).

(** The bottom of the indentation stack is the empty string. *)
Definition bottomed (stk : list str) : Prop := exists l, stk = l ++ [[]].

(** The section kinds of the validator are [Comment] (not set), [MapKey]
    or [ListItem]. *)
Definition entryKind (k : TokenKind) : bool :=
  match k with
  | Comment | MapKey | ListItem => true
  | _ => false
  end.

(** A placeholder token for an unexpected indent. *)
Definition indentPlaceholder (t : Token) : bool :=
  match error t with
  | Some UnexpectedIndent => true
  | _ => false
  end.

(** Replaying a token stream on the stack of the open sections, each with
    the kind of its entries once one has been seen.  The replay fails
    ([None]) at an [Outdent] when no section is open and at a [ListItem] or
    [MapKey] in a section of the other kind; the placeholders for an
    unexpected indent are passed over. *)
Definition sectionStep (stk : list (option TokenKind)) (t : Token)
  : option (list (option TokenKind)) :=
  match kind t with
  | Indent => Some (None :: stk)
  | Outdent => match stk with
               | _ :: below => Some below
               | [] => None
               end
  | ListItem | MapKey =>
      if indentPlaceholder t then Some stk
      else match stk with
           | [] => None
           | None :: below => Some (Some (kind t) :: below)
           | Some k :: below => if TokenKind_eqb k (kind t) then Some stk else None
           end
  | _ => Some stk
  end.

Fixpoint sections (stk : list (option TokenKind)) (ts : list Token)
  : option (list (option TokenKind)) :=
  match ts with
  | [] => Some stk
  | t :: ts' =>
      match sectionStep stk t with
      | Some stk' => sections stk' ts'
      | None => None
      end
  end.

(** The kinds the replay holds are those of the validator's states. *)
Definition agree (sts : list ParseState) (stk : list (option TokenKind)) : Prop :=
  Forall2 (fun s o => match o with
                      | None => True
                      | Some k => skind s = k /\ k <> Comment
                      end) sts stk.

(** [indent] is that of the section with more after it. *)
Definition moreIndented (indent : str) (st : tokenizeState) : bool :=
  startsWith indent (top (stack st)) && negb (str_eqb indent (top (stack st))).

(** A blank line that is not indented more than the section. *)
Definition blankLine (st : tokenizeState) (line : nat * str) : bool :=
  let '(indent, rest) := Utils.trimLeft (snd line) in
  isEmpty rest && negb (moreIndented indent st).

(** A line that is not blank and not indented more than the section. *)
Definition entryLine (st : tokenizeState) (line : nat * str) : bool :=
  let '(indent, rest) := Utils.trimLeft (snd line) in
  negb (isEmpty rest) && negb (moreIndented indent st).

(** The collector holds no text when it has no prefix, and no prefix when
    it is not collecting. *)
Definition collectorIdle (st : tokenizeState) : Prop :=
  (multiline st = false -> multilinePrefix st = []) /\
  (multilinePrefix st = [] -> multilineValue st = []).

(** The raw tokenizer yields no [NoValue]. *)
Definition rawKind (t : Token) : bool := negb (TokenKind_eqb (kind t) NoValue).

(** The invariant of the raw tokenizer at depth [d]: no [NoValue] among
    the tokens, a replay that stays at or above the bottom, and either a
    final state whose stack has the depth the replay ends at, or a
    RangeError. *)
Definition rawOK (d : nat) (m : gen Token tokenizeState) : Prop :=
  forallb rawKind (fst m) = true /\
  exists d', replay d (fst m) = Some d' /\
    match snd m with
    | Ret st' => bottomed (stack st') /\ length (stack st') = S d'
    | Throw e => e = RangeError
    end.

(** The section kinds of the validator's states are [Comment], [MapKey]
    or [ListItem]. *)
Definition kindsOK (sts : list ParseState) : Prop :=
  forallb (fun s => entryKind (skind s)) sts = true.

End LexerSpec.

Module TokenizerSpec.

Import Tokenizer.

Definition isIndent (t : Token) : bool :=
  match kind t with indent => true | _ => false end.

Definition isOutdent (t : Token) : bool :=
  match kind t with outdent => true | _ => false end.

(** Replaying the tokens of the tokenizer on the depth of nesting:
    [indent] opens a section, [outdent] closes one and fails ([None]) when
    none is open. *)
Fixpoint nesting (depth : nat) (ts : list Token) : option nat :=
  match ts with
  | [] => Some depth
  | t :: ts' =>
      match kind t with
      | indent => nesting (S depth) ts'
      | outdent => match depth with
                   | O => None
                   | S d => nesting d ts'
                   end
      | _ => nesting depth ts'
      end
  end.

(** The same for the line tokens of [tokenizeLine]. *)
Fixpoint lineNesting (depth : nat) (lts : list lineToken) : option nat :=
  match lts with
  | [] => Some depth
  | LT indent :: lts' => lineNesting (S depth) lts'
  | LT outdent :: lts' => match depth with
                          | O => None
                          | S d => lineNesting d lts'
                          end
  | _ :: lts' => lineNesting depth lts'
  end.

(** Line tokens that neither open nor close a section. *)
Definition flatLine (t : lineToken) : bool :=
  match t with
  | LT indent | LT outdent => false
  | _ => true
  end.

End TokenizerSpec.

Module ParserSpec.

Import Tokenizer Parser.

(** A map or a list. *)
Definition isContainer (v : value) : bool :=
  match v with
  | VMap _ | VList _ | VObject _ _ => true
  | _ => false
  end.

(** A line that holds nothing, or a comment only: after its leading
    blanks it ends or starts with a semicolon. *)
Definition blankOrComment (l : str) : bool :=
  match dropWhile isBlank l with
  | [] => true
  | x :: _ => N.eqb x SEMI
  end.

(** Tokens that produce a value: a scalar, a missing value, a nested section. *)
Definition producesValue (t : Token) : bool :=
  match kind t with
  | scalar _ | null | indent => true
  | _ => false
  end.

(** The number of tokens that produce a value. *)
Definition countProduces (ts : list Token) : nat := length (filter producesValue ts).

(** The reviver of the example: under the key  timeout  the string  3s
    becomes the number 3000; everything else stays. *)
Definition timeoutReviver : reviver :=
  fun key value =>
    if str_eqb key (u "timeout") then
      match value with
      | VString s => if str_eqb s (u "3s") then VNumber 3000 else value
      | _ => value
      end
    else value.

(** What [sectionToValue] builds up is a map or a list, if anything. *)
Definition container (result : option value) : Prop :=
  match result with
  | Some v => isContainer v = true
  | None => True
  end.

End ParserSpec.

Module LiteralSpec.

(** A code unit that stands for itself inside a quoted literal: neither the
    backslash nor the double quote. *)
Definition plain (x : N) : bool := negb (N.eqb x BSLASH) && negb (N.eqb x QUOTE).

(** The text of the escape for the hexadecimal digits [hex]: backslash,
    opening brace, the digits, closing brace. *)
Definition escapeOf (hex : str) : str := [BSLASH; LBRACE] ++ hex ++ [RBRACE].

(** A scalar value is a code point that is no surrogate. *)
Definition isScalarValue (v : Z) : bool :=
  (0 <=? v)%Z && (v <=? 1114111)%Z && negb ((55296 <=? v)%Z && (v <=? 57343)%Z).

(** Reading UTF-16: a high surrogate followed by a low one is one code
    point. *)
Fixpoint utf16Decode (s : str) : list Z :=
  match s with
  | [] => []
  | x :: s' =>
      match s' with
      | y :: s'' =>
          if (N.leb 55296 x && N.leb x 56319 && N.leb 56320 y && N.leb y 57343)%bool
          then Z.of_N (65536 + (x - 55296) * 1024 + (y - 56320)) :: utf16Decode s''
          else Z.of_N x :: utf16Decode s'
      | [] => [Z.of_N x]
      end
  end.

(** The text between the quotes of a closed quoted literal: every backslash
    is followed by a code unit that is no line terminator, and no double
    quote stands without a backslash before it. *)
Fixpoint wellEscaped (s : str) : bool :=
  match s with
  | [] => true
  | x :: s' =>
      if N.eqb x BSLASH then
        match s' with
        | y :: s'' => notLineTerminator y && wellEscaped s''
        | [] => false
        end
      else negb (N.eqb x QUOTE) && wellEscaped s'
  end.

(** The part under the star of the pattern of [Utils.literalRegex]. *)
Definition literalBody : regex := Alt (Seq (chr BSLASH) dot) (noneOf [BSLASH; QUOTE]).

(** What stands between the quotes of a literal, piece by piece: a code
    unit that stands for itself, a backslash with one of the letters
    n, r, t, the double quote or the backslash, or the escape of a code
    point in hexadecimal digits. *)
Inductive piece : Type :=
| PPlain (c : N)
| PSimple (c : N)
| PHex (hex : str).

(** What the letter after a backslash stands for. *)
Definition simpleEscape (c : N) : option N :=
  if N.eqb c 110 then Some LF
  else if N.eqb c 114 then Some CR
  else if N.eqb c 116 then Some TAB
  else if N.eqb c QUOTE then Some QUOTE
  else if N.eqb c BSLASH then Some BSLASH
  else None.

Definition pieceOK (p : piece) : bool :=
  match p with
  | PPlain c => plain c
  | PSimple c => match simpleEscape c with Some _ => true | None => false end
  | PHex hex => forallb isHexDigit hex && (1 <=? length hex) && (length hex <=? 8)
  end.

Definition pieceText (p : piece) : str :=
  match p with
  | PPlain c => [c]
  | PSimple c => [BSLASH; c]
  | PHex hex => escapeOf hex
  end.

(** What a piece decodes to; nothing for the escape of a surrogate or of a
    value above 0x10FFFF. *)
Definition pieceValue (p : piece) : option str :=
  match p with
  | PPlain c => Some [c]
  | PSimple c => match simpleEscape c with Some x => Some [x] | None => None end
  | PHex hex =>
      if isScalarValue (Z.of_N (hexValue 0 hex))
      then fromCodePoint (Z.of_N (hexValue 0 hex))
      else None
  end.

Definition literalText (ps : list piece) : str := concat (map pieceText ps).

(** Decoding piece by piece: the decoded text, or the text of the first
    escape that is rejected. *)
Fixpoint decodePieces (ps : list piece) : str + str :=
  match ps with
  | [] => inl []
  | p :: ps' =>
      match pieceValue p with
      | None => inr (pieceText p)
      | Some s =>
          match decodePieces ps' with
          | inl r => inl (s ++ r)
          | inr b => inr b
          end
      end
  end.

(** The segment [replace] finds for a piece. *)
Definition pieceSegment (p : piece) : segment :=
  match p with
  | PPlain c => SLit c
  | PSimple c => SMatch [BSLASH; c] [(2, [c])]
  | PHex hex => SMatch (escapeOf hex) [(1, hex)]
  end.

(** What one piece does to the state of the decoding loop of
    [Utils.decodeLiteral]. *)
Definition stepPiece (st : Utils.decodeState) (p : piece) : Utils.decodeState :=
  match pieceValue p with
  | Some s => Utils.mkDecode (Utils.result st ++ s) (Utils.badEscape st)
  | None => Utils.mkDecode (Utils.result st ++ pieceText p)
                     (if isEmpty (Utils.badEscape st) then pieceText p else Utils.badEscape st)
  end.

End LiteralSpec.

(** A greedy star over one character class, written out: the longest run
    of code units satisfying [p] is tried first, then the shorter ones. *)
Fixpoint starClass (A : Type) (p : N -> bool) (s : str) (c : caps)
         (k : str -> caps -> option A) : option A :=
  match s with
  | x :: s' =>
      if p x then
        match starClass p s' c k with
        | Some a => Some a
        | None => k s c
        end
      else k s c
  | [] => k s c
  end.

Module UtilsSpec.

(** A code unit that [lines] does not take for a line break, or for a part
    of one. *)
Definition notBreak (x : N) : bool := negb (N.eqb x CR) && negb (N.eqb x LF).

(** [lit] and [rest] are what is split off [input]: between them only
    white space is left out, and [rest] is empty or starts with the
    semicolon that opens a comment or, for a key, with the equals sign. *)
Definition splitsAt (key : bool) (input lit rest : str) : Prop :=
  (exists ws, input = lit ++ ws ++ rest /\ forallb isJsSpace ws = true) /\
  (forall t x, lit = t ++ [x] -> isJsSpace x = false) /\
  match rest with
  | [] => True
  | c :: _ => c = SEMI \/ (key = true /\ c = EQUALS)
  end.

End UtilsSpec.

Module GrammarSpec.

Import Lexer LexerSpec.

(** What a stream is waiting for: nothing, the value of the key or list
    item that came last, or the text of a multiline value whose marker
    came last. *)
Inductive pending : Type := Idle | AfterKey | AfterHint.

(** The raw stream of [tokenize], token by token. *)
Definition rawNext (p : pending) (k : TokenKind) : option pending :=
  match p, k with
  | AfterHint, Comment => Some AfterHint
  | AfterHint, MultilineScalar => Some Idle
  | AfterHint, _ => None
  | _, Comment => Some p
  | _, (ListItem | MapKey) => Some AfterKey
  | _, (Indent | Outdent) => Some Idle
  | AfterKey, Scalar => Some Idle
  | AfterKey, MultilineHint => Some AfterHint
  | _, _ => None
  end.

(** The stream of [tokens], token by token. *)
Definition next (p : pending) (k : TokenKind) : option pending :=
  match p, k with
  | Idle, (Comment | Outdent) => Some Idle
  | Idle, (ListItem | MapKey) => Some AfterKey
  | AfterKey, Comment => Some AfterKey
  | AfterKey, (Scalar | NoValue | Indent) => Some Idle
  | AfterKey, MultilineHint => Some AfterHint
  | AfterHint, Comment => Some AfterHint
  | AfterHint, MultilineScalar => Some Idle
  | _, _ => None
  end.

(** Running a stream through one of the two tables: where it ends, or
    [None] at the first token the table does not allow. *)
Fixpoint follow (step : pending -> TokenKind -> option pending) (p : pending)
         (ts : list Token) : option pending :=
  match ts with
  | [] => Some p
  | t :: ts' =>
      match step p (kind t) with
      | Some p' => follow step p' ts'
      | None => None
      end
  end.

(** The raw stream waits for the text of a multiline value exactly when the
    collector is on. *)
Definition collecting (p : pending) (st : tokenizeState) : Prop :=
  multiline st = true <-> p = AfterHint.

(** What a part of the raw tokenizer yields follows the raw table from
    [p], and leaves the collector as the table says. *)
Definition rawShaped (p : pending) (m : gen Token tokenizeState) : Prop :=
  exists p', follow rawNext p (fst m) = Some p' /\
             forall st', snd m = Ret st' -> collecting p' st'.

(** The validator's states and what the stream waits for: only the state
    on top can hold a key without its value, and it does when the stream
    waits for something. *)
Definition waiting (sts : list ParseState) (p : pending) : Prop :=
  kindsOK sts /\
  Forall (fun s => hasKey s = false) (tl sts) /\
  match sts with
  | [] => p = Idle
  | s :: _ => hasKey s = match p with Idle => false | _ => true end
  end.

End GrammarSpec.

Module TokenizerGrammarSpec.

Import Tokenizer.

(** What the stream of src/tokenizer.ts is waiting for: nothing, or the
    value of the key or list item that came last. *)
Inductive expecting : Type := Nothing | Value.

(** The line tokens of [tokenizeLine], one by one. *)
Definition lineNext (p : expecting) (t : lineToken) : option expecting :=
  match t with
  | LT indent | LT outdent => Some Nothing
  | LT item | LT (key _) => Some Value
  | LT (scalar _) | multiline => match p with Value => Some Nothing | Nothing => None end
  | LT null => None
  end.

(** The tokens of [tokens], one by one. *)
Definition tokenNext (p : expecting) (k : TokenKind) : option expecting :=
  match p, k with
  | Nothing, outdent => Some Nothing
  | Nothing, (item | key _) => Some Value
  | Value, (scalar _ | null | indent) => Some Nothing
  | _, _ => None
  end.

(** Running line tokens, and tokens, through their table. *)
Fixpoint lineFollow (p : expecting) (lts : list lineToken) : option expecting :=
  match lts with
  | [] => Some p
  | t :: lts' =>
      match lineNext p t with
      | Some p' => lineFollow p' lts'
      | None => None
      end
  end.

Fixpoint tokenFollow (p : expecting) (ts : list Token) : option expecting :=
  match ts with
  | [] => Some p
  | t :: ts' =>
      match tokenNext p (kind t) with
      | Some p' => tokenFollow p' ts'
      | None => None
      end
  end.

(** [lastLno] holds a line number exactly when a value is expected. *)
Definition keyPending (st : tokensState) (p : expecting) : Prop :=
  match p with
  | Value => lastLno st <> None
  | Nothing => lastLno st = None
  end.

End TokenizerGrammarSpec.

Module TreeSpec.

Import Parser.

(** The type [Conl] of src/parser.ts: a string, null, a map whose keys are
    distinct and whose values are [Conl], or a list of [Conl].  A map
    whose prototype was changed is a map still, and its prototype is
    null or [Conl]. *)
Fixpoint conl (v : value) : Prop :=
  match v with
  | VString _ | VNull => True
  | VNumber _ => False
  | VMap m =>
      NoDup (map fst m) /\
      (fix all (m : list (str * value)) : Prop :=
         match m with
         | [] => True
         | e :: m' => conl (snd e) /\ all m'
         end) m
  | VList l =>
      (fix all (l : list value) : Prop :=
         match l with
         | [] => True
         | x :: l' => conl x /\ all l'
         end) l
  | VObject p m =>
      conl p /\ NoDup (map fst m) /\
      (fix all (m : list (str * value)) : Prop :=
         match m with
         | [] => True
         | e :: m' => conl (snd e) /\ all m'
         end) m
  end.

(** The same for the local variable [result] of [sectionToValue]. *)
Definition conlResult (result : option value) : Prop :=
  match result with
  | Some v => conl v
  | None => True
  end.

End TreeSpec.

Module MultilineSpec.

Import Tokenizer.

(** A line the second loop of [consumeMultiline] takes: its indentation
    starts with the prefix, or its content is empty. *)
Definition blockLine (prefix : str) (l : line) : bool :=
  startsWith (lindent l) prefix || isEmpty (lcontent l).

(** What such a line adds to the value after the line feed. *)
Definition blockText (prefix : str) (l : line) : str :=
  removeFirst prefix (lindent l) ++ lcontent l.

(** A line with empty content. *)
Definition emptyLine (l : line) : bool := isEmpty (lcontent l).

End MultilineSpec.

Module ToleranceSpec.

(** Text in which the code unit [c] does not occur. *)
Definition free (c : N) (s : str) : bool := forallb (fun x => negb (N.eqb x c)) s.

(** Text that holds no backslash, or no minus sign. *)
Definition harmless (s : str) : bool := free BSLASH s || free MINUS s.

(** A generator that returns. *)
Definition returns {T A} (m : gen T A) : Prop := exists a, snd m = Ret a.

End ToleranceSpec.

Module DocumentSpec.

Import Tokenizer Parser.

(** A code unit of a bare word: no blank, no equals sign, no semicolon, no
    double quote, and no line terminator. *)
Definition wordChar (x : N) : bool :=
  negb (existsb (N.eqb x) [EQUALS; SEMI; SP; TAB; QUOTE]) && notLineTerminator x.

(** A bare word: one code unit or more. *)
Definition word (s : str) : bool := negb (isEmpty s) && forallb wordChar s.

(** A key that an assignment stores like any other: a bare word other
    than __proto__, the one property name that an assignment to an object
    does not store as a property of the object's own. *)
Definition keyOK (k : str) : bool := word k && negb (str_eqb k (u "__proto__")).

(** A line  key = value  of two bare words, with any blanks around the
    equals sign. *)
Record entry : Type := mkEntry {
  ekey : str;
  egap1 : str;
  egap2 : str;
  evalue : str
}.

(** Key and value are bare words, and the gaps are blanks. *)
Definition entryOK (e : entry) : bool :=
  word (ekey e) && forallb isBlank (egap1 e) && forallb isBlank (egap2 e) && word (evalue e).

(** The text of the line. *)
Definition entryLine (e : entry) : str :=
  ekey e ++ egap1 e ++ [EQUALS] ++ egap2 e ++ evalue e.

(** The map the entries build, one assignment after the other. *)
Definition assign (m : list (str * value)) (e : entry) : list (str * value) :=
  setKey (ekey e) (VString (evalue e)) m.

(** The tokens of the entries from line index [lno] on. *)
Fixpoint entryTokens (lno : nat) (es : list entry) : list Token :=
  match es with
  | [] => []
  | e :: es' =>
      mkToken lno (key (ekey e)) :: mkToken lno (scalar (evalue e)) :: entryTokens (S lno) es'
  end.

(** The body of the star of a bare key or value. *)
Definition wordBody (stop : list N) : regex :=
  Alt (noneOf stop) (Seq ws (noneOf stop)).

(** The line record of an entry: no indentation, and the text as content. *)
Definition lineOf (e : entry) : line := mkLine [] (entryLine e).

(** The members [sectionToValue] has gathered in a map, none at the start. *)
Definition mapOf (result : option value) : option (list (str * value)) :=
  match result with
  | None => Some []
  | Some (VMap m) => Some m
  | _ => None
  end.

(** A line that [split] leaves whole: no carriage return and no line feed
    in it, and no blank at its end. *)
Fixpoint tight (l : str) : bool :=
  match l with
  | [] => true
  | x :: l' =>
      negb (N.eqb x CR) && negb (N.eqb x LF)
      && match l' with
         | [] => negb (isBlank x)
         | _ => tight l'
         end
  end.

End DocumentSpec.

Module SequenceSpec.

Import Tokenizer Parser DocumentSpec.

(** A line  = value  of a list: the equals sign, blanks, and a bare word. *)
Record listItem : Type := mkItem {
  igap : str;
  ivalue : str
}.

(** The gap holds blanks only, and the value is a bare word. *)
Definition itemOK (i : listItem) : bool := forallb isBlank (igap i) && word (ivalue i).

(** The text of the line. *)
Definition itemLine (i : listItem) : str := [EQUALS] ++ igap i ++ ivalue i.

(** The line record of an item. *)
Definition itemLineOf (i : listItem) : line := mkLine [] (itemLine i).

(** The tokens of the items from line index [lno] on. *)
Fixpoint itemTokens (lno : nat) (its : list listItem) : list Token :=
  match its with
  | [] => []
  | i :: its' => mkToken lno item :: mkToken lno (scalar (ivalue i)) :: itemTokens (S lno) its'
  end.

(** The elements [sectionToValue] has gathered in a list, none at the
    start. *)
Definition listOf (result : option value) : option (list value) :=
  match result with
  | None => Some []
  | Some (VList l) => Some l
  | _ => None
  end.

(** The state of [tokens] between the lines of a document that has no
    indentation: one frame, of the kind the lines before have given it, and
    no key that waits for its value. *)
Definition flatState (fk : option sectionKind) : tokensState :=
  mkTokensState [mkFrame [] fk] None.

End SequenceSpec.

Module RenderSpec.

Import Tokenizer Parser DocumentSpec SequenceSpec.

(** A document as a tree: a value is a bare word, nothing, a section of
    keyed members, or a section of items. *)
#[warnings="-register-all"] Inductive tree : Type :=
| TScalar (v : str)
| TNull
| TMap (members : list (str * tree))
| TList (items : list tree).

(** The value a tree stands for: a string, null, the map that is assigned
    the values of the members one after the other, or the list of the
    values of the items. *)
Fixpoint valueOf (t : tree) : value :=
  match t with
  | TScalar v => VString v
  | TNull => VNull
  | TMap ms => fold_left (fun acc kt => assignKey (fst kt) (valueOf (snd kt)) acc) ms (VMap [])
  | TList its => VList (map valueOf its)
  end.

(** Keys and scalars are bare words, and a section has a member. *)
Fixpoint wellFormed (t : tree) : bool :=
  match t with
  | TScalar v => word v
  | TNull => true
  | TMap ms =>
      match ms with
      | [] => false
      | _ => forallb (fun kt => keyOK (fst kt) && wellFormed (snd kt)) ms
      end
  | TList its =>
      match its with
      | [] => false
      | _ => forallb wellFormed its
      end
  end.

Definition isSection (t : tree) : bool :=
  match t with
  | TMap _ | TList _ => true
  | _ => false
  end.

(** The start of a member's line: its key, or the equals sign of an item. *)
Definition label (h : option str) : str :=
  match h with
  | Some k => k
  | None => [EQUALS]
  end.

(** The line of a member that has a scalar. *)
Definition assignment (h : option str) (v : str) : str :=
  match h with
  | Some k => entryLine (mkEntry k [SP] [SP] v)
  | None => itemLine (mkItem [SP] v)
  end.

(** The lines of a member at indentation [d]: one line for a scalar or for
    nothing, and for a section the line of the label and then the lines
    of its members, indented by [unit] more. *)
Fixpoint rows (unit d : str) (h : option str) (t : tree) : list line :=
  match t with
  | TScalar v => [mkLine d (assignment h v)]
  | TNull => [mkLine d (label h)]
  | TMap ms =>
      mkLine d (label h)
      :: flat_map (fun kt => rows unit (d ++ unit) (Some (fst kt)) (snd kt)) ms
  | TList its =>
      mkLine d (label h) :: flat_map (rows unit (d ++ unit) None) its
  end.

(** The lines of the members of a section at indentation [d]. *)
Definition sectionRows (unit d : str) (t : tree) : list line :=
  match t with
  | TMap ms => flat_map (fun kt => rows unit d (Some (fst kt)) (snd kt)) ms
  | TList its => flat_map (rows unit d None) its
  | _ => []
  end.

(** The text of a line. *)
Definition lineText (l : line) : str := lindent l ++ lcontent l.

(** The text of a document: the lines of the top section, not indented,
    joined with line feeds. *)
Definition render (unit : str) (t : tree) : str :=
  LexerSpec.join [LF] (map lineText (sectionRows unit [] t)).

(** What [sectionToValue] returns, the log left out. *)
Definition forget (r : run (value * iterator * list call)) : run (value * iterator) :=
  match r with
  | Done (v, it, _) => Done (v, it)
  | Raise e => Raise e
  | OutOfFuel => OutOfFuel
  end.

(** The members of a section, each with its key if it has one. *)
Definition membersOf (t : tree) : list (option str * tree) :=
  match t with
  | TMap ms => map (fun kt => (Some (fst kt), snd kt)) ms
  | TList its => map (fun t' => (None, t')) its
  | _ => []
  end.

(** The kind of token a member starts with, and the kind of its section. *)
Definition headKind (h : option str) : TokenKind :=
  match h with
  | Some k => key k
  | None => item
  end.

Definition headSection (h : option str) : sectionKind :=
  match h with
  | Some _ => kKey
  | None => kItem
  end.

(** The kinds of the tokens of a member after its first: the scalar, the
    null, or the tokens of the members between [indent] and [outdent]. *)
Fixpoint bodyKinds (t : tree) : list TokenKind :=
  match t with
  | TScalar v => [scalar v]
  | TNull => [null]
  | TMap ms =>
      indent :: flat_map (fun kt => key (fst kt) :: bodyKinds (snd kt)) ms ++ [outdent]
  | TList its =>
      indent :: flat_map (fun t' => item :: bodyKinds t') its ++ [outdent]
  end.

Definition memberKinds (ht : option str * tree) : list TokenKind :=
  headKind (fst ht) :: bodyKinds (snd ht).

(** The content of the first line of a member, and its line tokens. *)
Definition headContent (h : option str) (t : tree) : str :=
  match t with
  | TScalar v => assignment h v
  | _ => label h
  end.

Definition scalarOf (t : tree) : list TokenKind :=
  match t with
  | TScalar v => [scalar v]
  | _ => []
  end.

Definition headTokens (h : option str) (t : tree) : list lineToken :=
  map LT (headKind h :: scalarOf t).

(** What [tokens] still owes at a point between two lines: the null of a
    key without value, and one [outdent] for each open section above the
    level looked at. *)
Definition owed (n : nat) (ll : option nat) : list TokenKind :=
  match ll with
  | Some _ => [null]
  | None => []
  end ++ repeat outdent n.

(** [tokens] runs from [st] at line [lno] over the lines [ls], yields [T]
    and goes on in [st']. *)
Definition runs (st : tokensState) (lno : nat) (ls : list line) (T : list Token)
           (st' : tokensState) : Prop :=
  forall tail,
    tokensLoop st lno 0 (ls ++ tail)
    = (T ++ fst (tokensLoop st' (lno + length ls) 0 tail),
       snd (tokensLoop st' (lno + length ls) 0 tail)).

(** The frames [extra] lie above the level of indentation [d]. *)
Definition above (d : str) (extra : list frame) : Prop :=
  Forall (fun f => length d < length (findent f)) extra.

(** The key that waits for its value after the first line of a member. *)
Definition afterLine (lno : nat) (t : tree) : option nat :=
  match t with
  | TScalar _ => None
  | _ => Some lno
  end.

(** The key of a member is a bare word, and so is its scalar. *)
Definition headOK (h : option str) (t : tree) : bool :=
  match h with
  | Some k => word k
  | None => true
  end &&
  match t with
  | TScalar v => word v
  | _ => true
  end.

(** The kinds of the tokens of a member after those of its first line. *)
Definition afterHead (t : tree) : list TokenKind :=
  match t with
  | TScalar _ => []
  | _ => bodyKinds t
  end.

(** A line that [tokens] passes over: no content, or a comment. *)
Definition note (l : line) : bool :=
  isEmpty (lcontent l) || startsWith (lcontent l) [SEMI].

(** The lines that are left when the comments and the lines without
    content are taken out. *)
Definition strip (ls : list line) : list line := filter (fun l => negb (note l)) ls.

(** The lines under the first line of a member, with any comments and
    empty lines between them: read from the state the first line leaves,
    at any level [d] and above any frames [below], they yield the tokens
    that come after those of the first line, but for what [tokens] owes
    at the end, and they leave the frame of the level in place, under the
    frames [extra] that are still open. *)
Definition blockRuns (unit : str) (t : tree) : Prop :=
  forall d hs below lno l0 ls,
    wellFormed t = true ->
    strip ls = sectionRows unit (d ++ unit) t ->
    exists T extra ll,
      runs (mkTokensState (mkFrame d (Some hs) :: below) (afterLine l0 t)) lno ls T
           (mkTokensState (extra ++ mkFrame d (Some hs) :: below) ll) /\
      above d extra /\
      map kind T ++ owed (length extra) ll = afterHead t.

(** The kind of a section. *)
Definition kindOf (t : tree) : sectionKind :=
  match t with
  | TList _ => kItem
  | _ => kKey
  end.

(** A value stored in the result of a section: under the key in a map, at
    the end of a list. *)
Definition place (acc : value) (h : option str) (v : value) : value :=
  match acc, h with
  | (VMap _ | VObject _ _), Some k => assignKey k v acc
  | VList l, None => VList (l ++ [v])
  | _, _ => acc
  end.

Definition put (acc : value) (ht : option str * tree) : value :=
  place acc (fst ht) (valueOf (snd ht)).

(** The result a section of a kind starts from, and the results it can
    hold. *)
Definition emptyOf (sk : sectionKind) : value :=
  match sk with
  | kKey => VMap []
  | kItem => VList []
  end.

Definition holds (sk : sectionKind) (acc : value) : bool :=
  match sk, acc with
  | kKey, (VMap _ | VObject _ _) => true
  | kItem, VList _ => true
  | _, _ => false
  end.

(** The variable [result] before the first member, or with the members
    so far. *)
Definition startsAs (sk : sectionKind) (result : option value) (acc : value) : Prop :=
  (result = None /\ acc = emptyOf sk) \/ (result = Some acc /\ holds sk acc = true).

(** [sectionToValue] on the tokens of the members of a section and the
    [outdent] after them returns the value of the section and the tokens
    that follow. *)
Definition nestedValue (t : tree) : Prop :=
  forall fuel T o rest r,
    isSection t = true -> wellFormed t = true ->
    kind o = outdent -> map kind T = flat_map memberKinds (membersOf t) ->
    length (T ++ o :: rest) < fuel ->
    forget (sectionToValue fuel identity None None (T ++ o :: rest, r))
    = Done (valueOf t, (rest, r)).

(** A content that [tokens] finds again in the text: kept whole by
    [split], without line terminator, and with a first code unit that is
    no blank. *)
Definition solid (c : str) : bool :=
  tight c && forallb notLineTerminator c
  && match c with
     | x :: _ => negb (isBlank x)
     | [] => false
     end.

(** A line of a document: blanks and then a content of that kind, or
    nothing at all. *)
Definition rowOK (l : line) : bool :=
  (forallb isBlank (lindent l) && solid (lcontent l))
  || (isEmpty (lindent l) && isEmpty (lcontent l)).

End RenderSpec.

Module PatternSpec.

Import Tokenizer.

(** What a pattern can take from the front of an input: [derives r s s']
    says that [r] matches a prefix of [s] and leaves [s'].  A lookahead is
    not looked into. *)
Inductive derives : regex -> str -> str -> Prop :=
| derives_eps s : derives Eps s s
| derives_class p x s : p x = true -> derives (Class p) (x :: s) s
| derives_seq r1 r2 s s1 s2 :
    derives r1 s s1 -> derives r2 s1 s2 -> derives (Seq r1 r2) s s2
| derives_alt_l r1 r2 s s' : derives r1 s s' -> derives (Alt r1 r2) s s'
| derives_alt_r r1 r2 s s' : derives r2 s s' -> derives (Alt r1 r2) s s'
| derives_star_stop r s : derives (Star r) s s
| derives_star_step r s s1 s2 :
    derives r s s1 -> derives (Star r) s1 s2 -> derives (Star r) s s2
| derives_group i r s s' : derives r s s' -> derives (Group i r) s s'
| derives_eol : derives Eol [] []
| derives_neglook r s : derives (NegLook r) s s.

(** A line  key = value  whose value holds the gap [g] between two bare
    words. *)
Definition gapLine (k v1 g v2 : str) : str :=
  k ++ [SP; EQUALS; SP] ++ v1 ++ g ++ v2.

End PatternSpec.

Module LexRenderSpec.

Import Utils DocumentSpec SequenceSpec RenderSpec.
Import UtilsSpec Lexer LexerSpec.

(** A text that does not end with white space: [trimEnd] leaves it as it
    is. *)
Definition crisp (s : str) : bool :=
  match rev s with
  | x :: _ => negb (isJsSpace x)
  | [] => true
  end.

(** The keys and the scalars of a tree do not end with white space. *)
Fixpoint crispTree (t : tree) : bool :=
  match t with
  | TScalar v => crisp v
  | TNull => true
  | TMap ms => forallb (fun kt => crisp (fst kt) && crispTree (snd kt)) ms
  | TList its => forallb crispTree its
  end.

(** What a token says, its line number left out. *)
Definition shape : Type := (TokenKind * str * option errorInfo)%type.

Definition shapeOf (t : Token) : shape := (kind t, content t, error t).

(** The token a member starts with. *)
Definition headShape (h : option str) : shape :=
  match h with
  | Some k => (MapKey, k, None)
  | None => (ListItem, [], None)
  end.

(** The tokens of a member at indentation [d] after its first: the scalar,
    the missing value, or the tokens of the members of its section
    between [Indent], which carries the indentation of the section, and
    [Outdent]. *)
Fixpoint lexBody (unit d : str) (t : tree) : list shape :=
  match t with
  | TScalar v => [(Scalar, v, None)]
  | TNull => [(NoValue, [], None)]
  | TMap ms =>
      (Indent, d ++ unit, None)
      :: flat_map (fun kt => (MapKey, fst kt, None) :: lexBody unit (d ++ unit) (snd kt)) ms
      ++ [(Outdent, [], None)]
  | TList its =>
      (Indent, d ++ unit, None)
      :: flat_map (fun t' => (ListItem, [], None) :: lexBody unit (d ++ unit) t') its
      ++ [(Outdent, [], None)]
  end.

(** The tokens of the members of a section at indentation [d]. *)
Definition lexTokens (unit d : str) (t : tree) : list shape :=
  flat_map (fun ht => headShape (fst ht) :: lexBody unit d (snd ht)) (membersOf t).

(** The raw tokens of the first line of a member. *)
Definition headRaw (lno : nat) (h : option str) (t : tree) : list Token :=
  mkToken lno (fst (fst (headShape h))) (snd (fst (headShape h))) None
  :: match t with
     | TScalar v => [mkToken lno Scalar v None]
     | _ => []
     end.

(** The state of [tokenize] between two lines, outside a multiline value. *)
Definition between (stk : list str) : tokenizeState := mkState stk false [] [] 0.

(** The shape of the [Outdent] tokens. *)
Definition outShape : shape := (Outdent, [], None).

(** The raw tokens of a member at indentation [d] after its first: as
    [lexBody], but nothing stands for a missing value. *)
Fixpoint rawBody (unit d : str) (t : tree) : list shape :=
  match t with
  | TScalar v => [(Scalar, v, None)]
  | TNull => []
  | TMap ms =>
      (Indent, d ++ unit, None)
      :: flat_map (fun kt => (MapKey, fst kt, None) :: rawBody unit (d ++ unit) (snd kt)) ms
      ++ [outShape]
  | TList its =>
      (Indent, d ++ unit, None)
      :: flat_map (fun t' => (ListItem, [], None) :: rawBody unit (d ++ unit) t') its
      ++ [outShape]
  end.

Definition rawMember (unit d : str) (ht : option str * tree) : list shape :=
  headShape (fst ht) :: rawBody unit d (snd ht).

Definition lexMember (unit d : str) (ht : option str * tree) : list shape :=
  headShape (fst ht) :: lexBody unit d (snd ht).

(** The raw tokens of a member after those of its first line. *)
Definition rawAfter (unit d : str) (t : tree) : list shape :=
  match t with
  | TScalar _ => []
  | _ => rawBody unit d t
  end.

Definition rawScalar (t : tree) : list shape :=
  match t with
  | TScalar v => [(Scalar, v, None)]
  | _ => []
  end.

(** The lines [ls] with their numbers, from [lno] on. *)
Definition number (lno : nat) (ls : list str) : list (nat * str) :=
  combine (seq lno (length ls)) ls.

(** [tokenize] runs with the stack [stk] from line [lno] over the lines
    [ls], yields [T] and goes on with the stack [stk']. *)
Definition rawRuns (stk : list str) (lno : nat) (ls : list str) (T : list Token)
           (stk' : list str) : Prop :=
  forall tail,
    tokenizeLines (between stk) (number lno ls ++ tail)
    = (T ++ fst (tokenizeLines (between stk') tail),
       snd (tokenizeLines (between stk') tail)).

(** The indentations [extra] lie above the level of indentation [d]. *)
Definition deeper (d : str) (extra : list str) : Prop :=
  Forall (fun e => length d < length e) extra.

(** The lines under the first line of a member, read by [tokenize] from
    the stack the first line leaves. *)
Definition rawBlock (unit : str) (t : tree) : Prop :=
  forall (d : str) (below : list str) lno,
    forallb isBlank d = true ->
    wellFormed t = true -> crispTree t = true ->
    exists T (extra : list str),
      rawRuns (d :: below) lno (map lineText (sectionRows unit (d ++ unit) t)) T
              (extra ++ d :: below) /\
      deeper d extra /\
      map shapeOf T ++ repeat outShape (length extra) = rawAfter unit d t.

(** The shape of the token that stands for a missing value, and the one
    the validator owes while a key waits for its value. *)
Definition noValueShape : shape := (NoValue, [], None).

Definition owedValue (hasKey' : bool) : list shape :=
  if hasKey' then [noValueShape] else [].

(** The kind of the token a member starts with. *)
Definition headLexKind (h : option str) : TokenKind := fst (fst (headShape h)).

(** The validator on the raw tokens of a member after its first: from a
    state in which the key waits for its value, it yields the tokens of
    the member, but for the missing value it may still owe, and it leaves
    the section as it is. *)
Definition valBody (unit : str) (t : tree) : Prop :=
  forall (d : str) sk below l R,
    map shapeOf R = rawBody unit d t ->
    exists T' hk' l',
      tokensLoop (mkValidator (mkParseState sk true :: below) l) R
      = (T', Ret (mkValidator (mkParseState sk hk' :: below) l')) /\
      map shapeOf T' ++ owedValue hk' = lexBody unit d t.

End LexRenderSpec.

(* ================================================================== *)
(** ** Notions for the calls of the reviver *)

Module ReviverSpec.

Import Tokenizer Parser ParserSpec RenderSpec.

(** Every section of the tree has a member. *)
Fixpoint inhabited (t : tree) : bool :=
  match t with
  | TMap ms => negb (match ms with [] => true | _ => false end)
               && forallb (fun kt => inhabited (snd kt)) ms
  | TList its => negb (match its with [] => true | _ => false end)
                 && forallb inhabited its
  | _ => true
  end.

(** A document: a section at the top, which may be empty and is a map
    then, and below it sections that have members. *)
Definition document (t : tree) : bool :=
  match t with
  | TMap ms => forallb (fun kt => inhabited (snd kt)) ms
  | TList its => inhabited t
  | _ => false
  end.

(** The value of a tree as [parse] assembles it with the reviver [f]:
    what [f] makes of a member under its key, and of an item under its
    index, is what the section stores, and [f] sees a member that is a
    section after the members of that section. *)
Fixpoint assembled (f : reviver) (t : tree) : value :=
  match t with
  | TScalar v => VString v
  | TNull => VNull
  | TMap ms =>
      fold_left (fun acc kt => assignKey (fst kt) (f (fst kt) (assembled f (snd kt))) acc)
                ms (VMap [])
  | TList its =>
      VList (fold_left (fun l t' => l ++ [f (numberToString (length l)) (assembled f t')])
                       its [])
  end.

(** The calls of the reviver while the members of a tree are read, in
    the order in which they are made: for every member the calls for
    its own members, and then the call with the key of the member, or
    the index of the item, and the value assembled for it. *)
Fixpoint callsOf (f : reviver) (t : tree) : list call :=
  match t with
  | TMap ms => flat_map (fun kt => callsOf f (snd kt) ++ [(fst kt, assembled f (snd kt))]) ms
  | TList its =>
      (fix items (i : nat) (its : list tree) : list call :=
         match its with
         | [] => []
         | t' :: its' =>
             callsOf f t' ++ (numberToString i, assembled f t') :: items (S i) its'
         end) 0 its
  | _ => []
  end.

(** The calls for the items of a list from the index [i] on. *)
Fixpoint itemCalls (f : reviver) (i : nat) (its : list tree) : list call :=
  match its with
  | [] => []
  | t' :: its' => callsOf f t' ++ (numberToString i, assembled f t') :: itemCalls f (S i) its'
  end.

(** The key a member is stored under in the result [acc]: its own, or
    the index that is the length of the list. *)
Definition keyAt (acc : value) (h : option str) : str :=
  match h with
  | Some k => k
  | None => match acc with
            | VList l => numberToString (length l)
            | _ => []
            end
  end.

(** A member stored in the result [acc] after the reviver has seen it,
    and the calls made for the members from [acc] on. *)
Definition putBy (f : reviver) (acc : value) (ht : option str * tree) : value :=
  place acc (fst ht) (f (keyAt acc (fst ht)) (assembled f (snd ht))).

Fixpoint memberCalls (f : reviver) (acc : value) (ms : list (option str * tree)) : list call :=
  match ms with
  | [] => []
  | ht :: ms' =>
      callsOf f (snd ht) ++ (keyAt acc (fst ht), assembled f (snd ht))
      :: memberCalls f (putBy f acc ht) ms'
  end.

(** The calls made before a run go in front of its log. *)
Definition prepend (lg : list call) (X : run (value * iterator * list call))
  : run (value * iterator * list call) :=
  match X with
  | Done (v, it, l) => Done (v, it, lg ++ l)
  | other => other
  end.

(** [sectionToValue] with the reviver [f] on the tokens of the members of
    a section and the [outdent] after them returns the value assembled
    for the section, the tokens that follow, and the calls made. *)
Definition nestedBy (f : reviver) (t : tree) : Prop :=
  forall fuel T o rest r,
    isSection t = true -> inhabited t = true ->
    kind o = outdent -> map kind T = flat_map memberKinds (membersOf t) ->
    length (T ++ o :: rest) < fuel ->
    sectionToValue fuel f None None (T ++ o :: rest, r)
    = Done (assembled f t, (rest, r), callsOf f t).

(** The number of kinds of token that produce a value. *)
Definition producing (ks : list TokenKind) : nat := countProduces (map (mkToken 0) ks).

End ReviverSpec.

Module ReadingSpec.

Import Tokenizer Parser ParserSpec RenderSpec ReviverSpec.

(** A section of a document that is being read: the members read so
    far, and the key or the item that waits for its value. *)
Definition level : Type := (list (option str * tree) * option (option str))%type.

Definition waitingKind (o : option (option str)) : list TokenKind :=
  match o with
  | Some h => [headKind h]
  | None => []
  end.

Definition levelKinds (lv : level) : list TokenKind :=
  flat_map memberKinds (fst lv) ++ waitingKind (snd lv).

(** The kinds of the tokens read so far, for the open sections [z] from
    the innermost to the top: the tokens of the sections around, the
    [indent], and the tokens of the section itself. *)
Fixpoint kindsZ (z : list level) : list TokenKind :=
  match z with
  | [] => []
  | lv :: outer =>
      match outer with
      | [] => []
      | _ :: _ => kindsZ outer ++ [indent]
      end ++ levelKinds lv
  end.

(** The members of a section when nothing more comes: the one that waits
    has no value. *)
Definition settled (lv : level) : list (option str * tree) :=
  fst lv ++ match snd lv with
            | Some h => [(h, TNull)]
            | None => []
            end.

Definition settle (z : list level) : list level :=
  match z with
  | lv :: outer => (settled lv, None) :: outer
  | [] => []
  end.

(** The section of given members: a list when the first is an item, a
    map otherwise. *)
Definition keyed (ms : list (option str * tree)) : list (str * tree) :=
  flat_map (fun ht => match fst ht with
                      | Some k => [(k, snd ht)]
                      | None => []
                      end) ms.

Definition sectionOf (ms : list (option str * tree)) : tree :=
  match ms with
  | (None, _) :: _ => TList (map snd ms)
  | _ => TMap (keyed ms)
  end.

(** Closing the innermost section: it becomes the value of the member
    that waits in the section around it. *)
Definition closeLevel (z : list level) : list level :=
  match z with
  | lv :: (done, Some h) :: outer => (done ++ [(h, sectionOf (fst lv))], None) :: outer
  | _ => z
  end.

Fixpoint closeLevels (n : nat) (z : list level) : list level :=
  match n with
  | O => z
  | S n' => closeLevels n' (closeLevel z)
  end.

(** A section and the entry of the stack for it: the members are of the
    kind of the entry, an entry without kind has no member yet, and the
    sections among the members have members. *)
Definition levelOK (fk : option sectionKind) (lv : level) : Prop :=
  Forall (fun m => inhabited (snd m) = true) (fst lv) /\
  match fk with
  | None => fst lv = [] /\ snd lv = None
  | Some k =>
      Forall (fun m => headSection (fst m) = k) (fst lv) /\
      (forall h, snd lv = Some h -> headSection h = k) /\
      (fst lv <> [] \/ snd lv <> None)
  end.

Definition waits (lv : level) : Prop := snd lv <> None.

(** The open sections [z] are what [tokens] has read when its stack is
    [stk] and its variable [lastLno] is [ll]: one section for every
    entry of the stack; in the innermost a member waits exactly when
    [lastLno] is set, and in every other section the member waits whose
    value the section above it is. *)
Definition reads (stk : list frame) (ll : option nat) (z : list level) : Prop :=
  Forall2 levelOK (map fkind stk) z /\
  match z with
  | [] => False
  | lv :: outer =>
      (snd lv <> None <-> ll <> None) /\ Forall waits outer /\
      (outer <> [] -> fst lv <> [] \/ snd lv <> None)
  end /\
  LexerSpec.bottomed (map findent stk).

(** The [null] that [tokens] yields for a key without value. *)
Definition owedNull (ll : option nat) : list TokenKind :=
  match ll with
  | Some _ => [null]
  | None => []
  end.

(** What follows the key or the item of a line: a scalar, the marker of
    a multiline value, or nothing. *)
Definition valueShape (vts : list lineToken) : Prop :=
  vts = [] \/ vts = [multiline] \/ exists v, vts = [LT (scalar v)].

End ReadingSpec.

(* ================================================================== *)
(** * Properties *)

Unset Implicit Arguments.

(** ** The matcher on the patterns of the sources *)

Module RegexProps.

Lemma starLoop_class A (p : N -> bool) (k : str -> caps -> option A) : forall s n c,
  length s <= n ->
  starLoop (fun (s' : str) (c' : caps) (k' : str -> caps -> option A) =>
              match s' with
              | [] => None
              | x :: s'' => if p x then k' s'' c' else None
              end) k n s c
  = starClass p s c k.
Proof.
  induction s as [|x s IH]; intros n c Hn.
  - destruct n; reflexivity.
  - destruct n as [|n]; [simpl in Hn; lia|].
    simpl. destruct (p x); [|reflexivity].
    replace (length s <? S (length s)) with true by (symmetry; apply Nat.ltb_lt; lia).
    rewrite IH by (simpl in Hn; lia). reflexivity.
Qed.

Lemma rmatch_star_class A p s c (k : str -> caps -> option A) :
  rmatch (Star (Class p)) s c k = starClass p s c k.
Proof. cbn [rmatch]. apply starLoop_class. lia. Qed.

(** The longest run is taken when the continuation accepts it. *)
Lemma starClass_greedy A p (k : str -> caps -> option A) a : forall s c,
  k (dropWhile p s) c = Some a -> starClass p s c k = Some a.
Proof.
  induction s as [|x s IH]; intros c H; simpl in *; [assumption|].
  destruct (p x); [|assumption]. rewrite (IH c H). reflexivity.
Qed.

(** A star whose continuation only accepts the end of the input. *)
Lemma starClass_to_end A p (k : str -> caps -> option A) :
  (forall x s' c', k (x :: s') c' = None) ->
  forall s c, starClass p s c k = if forallb p s then k [] c else None.
Proof.
  intros Hk. induction s as [|x s IH]; intros c; simpl; [reflexivity|].
  destruct (p x); simpl; [|apply Hk].
  rewrite IH, Hk. destruct (forallb p s); [|reflexivity].
  destruct (k [] c); reflexivity.
Qed.

(** When the continuation refuses every place the star can stop at, the
    star fails. *)
Lemma starClass_none A p (k : str -> caps -> option A) : forall s c,
  (forall n, n <= length (takeWhile p s) -> k (skipn n s) c = None) ->
  starClass p s c k = None.
Proof.
  induction s as [|x s IH]; intros c H; simpl in *.
  - apply (H 0). lia.
  - destruct (p x); [|apply (H 0); lia].
    rewrite IH; [apply (H 0); lia|]. intros n Hn. apply (H (S n)). simpl. lia.
Qed.

Lemma takeWhile_dropWhile p (s : str) : takeWhile p s ++ dropWhile p s = s.
Proof.
  induction s as [|x s IH]; simpl; [reflexivity|].
  destruct (p x); simpl; [rewrite IH|]; reflexivity.
Qed.

Lemma skipn_takeWhile p (s : str) :
  skipn (length (takeWhile p s)) s = dropWhile p s.
Proof.
  induction s as [|x s IH]; simpl; [reflexivity|].
  destruct (p x); simpl; [exact IH | reflexivity].
Qed.

Lemma firstn_takeWhile p (s : str) :
  firstn (length s - length (dropWhile p s)) s = takeWhile p s.
Proof.
  rewrite <- (takeWhile_dropWhile p s) at 1 3.
  rewrite length_app.
  replace (length (takeWhile p s) + length (dropWhile p s) - length (dropWhile p s))
    with (length (takeWhile p s)) by lia.
  rewrite firstn_app, firstn_all, Nat.sub_diag. simpl. apply app_nil_r.
Qed.

Lemma forallb_skipn_blank (p q : N -> bool) (s : str) :
  (forall x, p x = true -> q x = true) ->
  forall n, n <= length (takeWhile p s) -> forallb q (skipn n s) = forallb q s.
Proof.
  intros Hpq. induction s as [|x s IH]; intros n Hn; [destruct n; reflexivity|].
  destruct n as [|n]; [reflexivity|]. simpl in *.
  destruct (p x) eqn:Px; [|simpl in Hn; lia].
  rewrite (Hpq _ Px). simpl in *. apply IH. lia.
Qed.

Lemma blank_not_terminator x : isBlank x = true -> notLineTerminator x = true.
Proof.
  unfold isBlank, notLineTerminator, isLineTerminator. simpl.
  destruct (N.eqb_spec x SP) as [->|]; [reflexivity|].
  destruct (N.eqb_spec x TAB) as [->|]; [reflexivity|]. discriminate.
Qed.

(** The pattern that cuts a line of [tokenizer.ts] into indent and content
    matches the lines without a line terminator and no others; the indent
    is the leading run of blanks, the content is the rest. *)
Lemma lineRegex_spec l :
  matchPrefix Tokenizer.lineRegex l
  = if forallb notLineTerminator l
    then Some (l, [], [(2, dropWhile isBlank l); (1, takeWhile isBlank l)])
    else None.
Proof.
  unfold matchPrefix, Tokenizer.lineRegex, Tokenizer.ws, oneOf, dot.
  cbn [rmatch]. rewrite (starLoop_class _ isBlank) by lia.
  assert (Hin : forall s1 c1,
    starLoop (fun (s' : str) (c' : caps) (k' : str -> caps -> option (str * str * caps)) =>
                match s' with
                | [] => None
                | x :: s'' => if notLineTerminator x then k' s'' c' else None
                end)
      (fun s' c' =>
         match s' with
         | [] => Some (firstn (length l - length s') l, s',
                       (2, firstn (length s1 - length s') s1) :: c')
         | _ :: _ => None
         end) (length s1) s1 c1
    = if forallb notLineTerminator s1
      then Some (l, [], (2, s1) :: c1) else None).
  { intros s1 c1. rewrite starLoop_class by lia.
    rewrite starClass_to_end by reflexivity.
    simpl. rewrite !Nat.sub_0_r, !firstn_all. reflexivity. }
  destruct (forallb notLineTerminator l) eqn:Hl.
  - apply starClass_greedy. rewrite Hin.
    rewrite <- (forallb_skipn_blank isBlank notLineTerminator l blank_not_terminator
                  (length (takeWhile isBlank l)) (le_n _)) in Hl.
    rewrite skipn_takeWhile in Hl.
    rewrite Hl, firstn_takeWhile. reflexivity.
  - apply starClass_none. intros n Hn. rewrite Hin.
    rewrite (forallb_skipn_blank isBlank notLineTerminator l blank_not_terminator n Hn), Hl.
    reflexivity.
Qed.

(** [trimLeft] cuts off the leading blanks and reads on up to the first
    line terminator (U+2028 and U+2029 among them) or the end. *)
Lemma trimLeft_spec s :
  Utils.trimLeft s
  = (takeWhile isBlank s, takeWhile notLineTerminator (dropWhile isBlank s)).
Proof.
  unfold Utils.trimLeft, matchPrefix, Utils.trimLeftRegex, oneOf, dot.
  cbn [rmatch]. rewrite (starLoop_class _ isBlank) by lia.
  erewrite starClass_greedy.
  2:{ rewrite (starLoop_class _ notLineTerminator) by lia.
      apply starClass_greedy. reflexivity. }
  cbn [getCap Nat.eqb]. rewrite !firstn_takeWhile. reflexivity.
Qed.

End RegexProps.

(** ** Generators *)

Lemma bind_tokens {T A B} (m : gen T A) (k : A -> gen T B) ts r :
  bind m k = (ts, r) ->
  (exists e, m = (ts, Throw e) /\ r = Throw e) \/
  (exists ts1 a ts2, m = (ts1, Ret a) /\ k a = (ts2, r) /\ ts = ts1 ++ ts2).
Proof.
  destruct m as [ts1 [a | e]]; simpl.
  - destruct (k a) as [ts2 r2] eqn:Hk. intros H. inversion H; subst.
    right. exists ts1, a, ts2. auto.
  - intros H. inversion H; subst. left. exists e. auto.
Qed.

(* ================================================================== *)
(** ** Literals and escapes *)

Module LiteralProps.

Import Tokenizer Utils LiteralSpec.

Lemma hexDigit_cases c : isHexDigit c = true ->
  (48 <= c <= 57 \/ 65 <= c <= 70 \/ 97 <= c <= 102)%N.
Proof.
  unfold isHexDigit, hexDigit.
  destruct (N.leb_spec 48 c); destruct (N.leb_spec c 57); simpl; try lia;
  destruct (N.leb_spec 65 c); destruct (N.leb_spec c 70); simpl; try lia;
  destruct (N.leb_spec 97 c); destruct (N.leb_spec c 102); simpl; try lia; discriminate.
Qed.

Lemma hexDigit_neq c d : isHexDigit c = true ->
  (d < 48 \/ 57 < d < 65 \/ 70 < d < 97 \/ 102 < d)%N -> N.eqb c d = false.
Proof.
  intros H Hd. apply hexDigit_cases in H. apply N.eqb_neq. lia.
Qed.

Lemma parseInt16_hex hex :
  hex <> [] -> forallb isHexDigit hex = true ->
  parseInt16 hex = Some (Z.of_N (hexValue 0 hex)).
Proof.
  intros Hne Hh. unfold parseInt16.
  destruct hex as [|c0 t]; [congruence|]. simpl in Hh.
  apply andb_true_iff in Hh. destruct Hh as [H0 Ht].
  assert (Hsp : isJsSpace c0 = false).
  { apply hexDigit_cases in H0. unfold isJsSpace.
    repeat match goal with
    | |- context [N.eqb c0 ?k] => replace (N.eqb c0 k) with false by (symmetry; apply N.eqb_neq; lia)
    end.
    replace (N.leb 8192 c0) with false by (symmetry; apply N.leb_gt; lia). reflexivity. }
  simpl dropWhile. rewrite Hsp.
  rewrite (hexDigit_neq c0 MINUS H0), (hexDigit_neq c0 PLUS H0) by (unfold MINUS, PLUS; lia).
  assert (Htw : forall s, forallb isHexDigit s = true -> takeWhile isHexDigit s = s).
  { induction s as [|x s IH]; simpl; [reflexivity|]. intros H.
    apply andb_true_iff in H. destruct H as [-> H]. rewrite IH; auto. }
  destruct t as [|cx t0].
  - simpl. rewrite H0. reflexivity.
  - pose proof Ht as Ht'. simpl in Ht'. apply andb_true_iff in Ht'. destruct Ht' as [Hx _].
    rewrite (hexDigit_neq cx 120 Hx), (hexDigit_neq cx 88 Hx) by lia.
    rewrite andb_false_r.
    rewrite Htw by (simpl; rewrite H0; exact Ht). reflexivity.
Qed.

Lemma matchPrefix_escape_plain x s : plain x = true -> matchPrefix escapeRegex (x :: s) = None.
Proof.
  unfold plain. intros H. apply andb_true_iff in H. destruct H as [Hb Hq].
  apply negb_true_iff in Hb, Hq.
  unfold matchPrefix, escapeRegex, chr. cbn [rmatch].
  rewrite (N.eqb_sym BSLASH x), (N.eqb_sym QUOTE x), Hb, Hq. reflexivity.
Qed.

Lemma dropWhile_app_stop (p : N -> bool) a x b :
  forallb p a = true -> p x = false -> dropWhile p (a ++ x :: b) = x :: b.
Proof.
  induction a as [|y a IH]; simpl; intros Ha Hx.
  - rewrite Hx. reflexivity.
  - apply andb_true_iff in Ha. destruct Ha as [-> Ha]. auto.
Qed.

Lemma hex_not_rbrace hex :
  forallb isHexDigit hex = true ->
  forallb (fun x => negb (existsb (N.eqb x) [RBRACE])) hex = true.
Proof.
  induction hex as [|x hex IH]; simpl; [reflexivity|]. intros H.
  apply andb_true_iff in H. destruct H as [Hx H].
  rewrite (hexDigit_neq x RBRACE Hx) by (unfold RBRACE; lia). simpl. auto.
Qed.

Lemma matchPrefix_escape_hex hex post :
  forallb isHexDigit hex = true ->
  matchPrefix escapeRegex (escapeOf hex ++ post) = Some (escapeOf hex, post, [(1, hex)]).
Proof.
  intros Hh. unfold matchPrefix, escapeRegex, chr, noneOf, escapeOf.
  cbn [rmatch app]. rewrite !N.eqb_refl.
  rewrite (RegexProps.starLoop_class _ (fun x => negb (existsb (N.eqb x) [RBRACE]))) by lia.
  erewrite RegexProps.starClass_greedy; [reflexivity|].
  rewrite <- app_assoc. simpl app.
  rewrite (dropWhile_app_stop _ hex RBRACE post (hex_not_rbrace hex Hh) eq_refl).
  rewrite N.eqb_refl.
  f_equal. f_equal.
  - f_equal.
    + replace (length (BSLASH :: LBRACE :: hex ++ RBRACE :: post) - length post)
        with (length (BSLASH :: LBRACE :: hex ++ [RBRACE])).
      * change (BSLASH :: LBRACE :: hex ++ RBRACE :: post)
          with ([BSLASH; LBRACE] ++ hex ++ [RBRACE] ++ post).
        replace ([BSLASH; LBRACE] ++ hex ++ [RBRACE] ++ post)
          with ((BSLASH :: LBRACE :: hex ++ [RBRACE]) ++ post)
          by (simpl; rewrite <- app_assoc; reflexivity).
        rewrite firstn_app, firstn_all, Nat.sub_diag. simpl. rewrite app_nil_r. reflexivity.
      * change (BSLASH :: LBRACE :: hex ++ RBRACE :: post)
          with ([BSLASH; LBRACE] ++ hex ++ [RBRACE] ++ post).
        change (BSLASH :: LBRACE :: hex ++ [RBRACE])
          with ([BSLASH; LBRACE] ++ hex ++ [RBRACE]).
        rewrite !length_app. simpl length. lia.
  - f_equal. f_equal.
    replace (length (hex ++ RBRACE :: post) - length (RBRACE :: post)) with (length hex)
      by (rewrite length_app; simpl length; lia).
    rewrite firstn_app, firstn_all, Nat.sub_diag. simpl. apply app_nil_r.
Qed.

Lemma scan_skip r a : forall k b, length a = k -> scan r k (a ++ b) = scan r 0 b.
Proof.
  induction a as [|x a IH]; intros k b Hk; simpl in *.
  - subst k. reflexivity.
  - destruct k as [|k]; [discriminate|]. apply IH. lia.
Qed.

Lemma scan_escape hex post :
  forallb isHexDigit hex = true ->
  scan escapeRegex 0 (escapeOf hex ++ post)
  = SMatch (escapeOf hex) [(1, hex)] :: scan escapeRegex 0 post.
Proof.
  intros Hh. pose proof (matchPrefix_escape_hex hex post Hh) as Hm.
  unfold escapeOf in *. simpl app in *. simpl scan. rewrite Hm.
  cbn [length]. cbn iota. f_equal. apply scan_skip. reflexivity.
Qed.

Lemma fromCodePoint_scalar v :
  isScalarValue v = true ->
  exists s, fromCodePoint v = Some s /\ utf16Decode s = [v].
Proof.
  unfold isScalarValue, fromCodePoint. intros H.
  apply andb_true_iff in H. destruct H as [H Hs].
  apply andb_true_iff in H. destruct H as [H0 H1].
  apply Z.leb_le in H0, H1. apply negb_true_iff in Hs.
  replace (v <? 0)%Z with false by (symmetry; apply Z.ltb_ge; lia).
  replace (1114111 <? v)%Z with false by (symmetry; apply Z.ltb_ge; lia).
  cbn [orb]. destruct (N.leb_spec (Z.to_N v) 65535) as [Hle|Hgt].
  - eexists. split; [reflexivity|]. cbn [utf16Decode]. f_equal. lia.
  - eexists. split; [reflexivity|].
    set (n' := (Z.to_N v - 65536)%N).
    assert (Hn' : (n' < 1048576)%N) by (unfold n'; lia).
    assert (Hq : (n' / 1024 < 1024)%N) by (apply N.Div0.div_lt_upper_bound; lia).
    assert (Hr : (n' mod 1024 < 1024)%N) by (apply N.mod_lt; lia).
    pose proof (N.div_mod n' 1024 ltac:(lia)) as Hdm.
    assert (Hv : Z.of_N (65536 + (55296 + n' / 1024 - 55296) * 1024
                         + (56320 + n' mod 1024 - 56320)) = v).
    { assert (Hab : forall a b : N, (a + b - a = b)%N) by (intros; lia).
      rewrite !Hab. rewrite <- N.add_assoc, (N.mul_comm (n' / 1024) 1024), <- Hdm.
      unfold n'. lia. }
    generalize dependent (n' mod 1024)%N. intros lo0 Hr _ Hv.
    generalize dependent (n' / 1024)%N. intros hi0 Hq Hv.
    set (hi := (55296 + hi0)%N) in *.
    set (lo := (56320 + lo0)%N) in *.
    assert (Hhi : (55296 <= hi <= 56319)%N) by (unfold hi; lia).
    assert (Hlo : (56320 <= lo <= 57343)%N) by (unfold lo; lia).
    clearbody hi lo.
    cbn [utf16Decode].
    replace (N.leb 55296 hi) with true by (symmetry; apply N.leb_le; lia).
    replace (N.leb hi 56319) with true by (symmetry; apply N.leb_le; lia).
    replace (N.leb 56320 lo) with true by (symmetry; apply N.leb_le; lia).
    replace (N.leb lo 57343) with true by (symmetry; apply N.leb_le; lia).
    cbn [andb]. rewrite Hv. reflexivity.
Qed.

Lemma substring_inner x inner y :
  substring (x :: inner ++ [y]) 1 (length (x :: inner ++ [y]) - 1) = inner.
Proof.
  unfold substring. cbn [length]. rewrite length_app. cbn [length].
  replace (Nat.min 1 (S (length inner + 1))) with 1 by lia.
  replace (Nat.min (S (length inner + 1) - 1) (S (length inner + 1))) with (length inner + 1) by lia.
  replace (Nat.max 1 (length inner + 1) - Nat.min 1 (length inner + 1)) with (length inner) by lia.
  replace (Nat.min 1 (length inner + 1)) with 1 by lia.
  cbn [skipn]. rewrite firstn_app, firstn_all, Nat.sub_diag. simpl. apply app_nil_r.
Qed.

Lemma endsWith_snoc s y : endsWith (s ++ [y]) [y] = true.
Proof. unfold endsWith. rewrite rev_app_distr. simpl. rewrite N.eqb_refl. reflexivity. Qed.

Lemma literal_loop A (K : str -> caps -> option A) a m : forall content n c,
  length content <= m ->
  wellEscaped content = true ->
  length (content ++ [QUOTE]) <= n ->
  K [QUOTE] c = Some a ->
  starLoop (fun s' c' k' => rmatch literalBody s' c' k') K n (content ++ [QUOTE]) c = Some a.
Proof.
  induction m as [|m IH]; intros content n c Hm Hw Hn HK.
  - destruct content; [|simpl in Hm; lia]. simpl app.
    destruct n; [simpl in Hn; lia|]. cbn [starLoop]. unfold literalBody at 1, chr, dot, noneOf.
    cbn [rmatch]. simpl. exact HK.
  - destruct content as [|x content]; [apply (IH [] n c); simpl; auto; lia|].
    destruct n as [|n]; [simpl in Hn; lia|].
    cbn [starLoop app]. unfold literalBody at 1, chr, dot, noneOf. cbn [rmatch].
    simpl in Hw. rewrite (N.eqb_sym BSLASH x).
    destruct (N.eqb x BSLASH) eqn:Hx.
    + destruct content as [|y content]; [discriminate|].
      apply andb_true_iff in Hw. destruct Hw as [Hy Hw].
      cbn [app]. unfold notLineTerminator in Hy. rewrite Hy.
      replace (length (content ++ [QUOTE]) <? length (x :: y :: content ++ [QUOTE])) with true
        by (symmetry; apply Nat.ltb_lt; simpl; lia).
      rewrite (IH content n c); auto; simpl in *; try lia.
    + apply andb_true_iff in Hw. destruct Hw as [Hq Hw].
      apply negb_true_iff in Hq. cbn [existsb]. rewrite Hx, Hq. cbn [orb negb].
      replace (length (content ++ [QUOTE]) <? length (x :: content ++ [QUOTE])) with true
        by (symmetry; apply Nat.ltb_lt; simpl; lia).
      rewrite (IH content n c); auto; simpl in *; try lia.
Qed.

Lemma literalRegex_match content :
  wellEscaped content = true ->
  matchPrefix literalRegex (QUOTE :: content ++ [QUOTE])
  = Some (QUOTE :: content ++ [QUOTE], [], [(1, content)]).
Proof.
  intros Hw. unfold matchPrefix, literalRegex.
  change (Alt (Seq (chr BSLASH) dot) (noneOf [BSLASH; QUOTE])) with literalBody.
  unfold chr at 1. cbn [rmatch]. rewrite N.eqb_refl.
  erewrite (literal_loop _ _ _ (length content)); [reflexivity | lia | exact Hw | lia |].
  unfold chr. cbn [rmatch]. rewrite N.eqb_refl.
  cbn [length]. rewrite length_app. cbn [length].
  replace (length content + 1 - 1) with (length content) by lia.
  rewrite firstn_app, firstn_all, Nat.sub_diag. simpl firstn at 2. rewrite app_nil_r.
  rewrite Nat.sub_0_r.
  replace (S (length content + 1)) with (length (QUOTE :: content ++ [QUOTE]))
    by (cbn [length]; rewrite length_app; reflexivity).
  rewrite firstn_all. reflexivity.
Qed.

Lemma hex_plain hex : forallb isHexDigit hex = true -> forallb plain hex = true.
Proof.
  induction hex as [|x hex IH]; simpl; [reflexivity|]. intros H.
  apply andb_true_iff in H. destruct H as [Hx H]. unfold plain at 1.
  rewrite (hexDigit_neq x BSLASH Hx), (hexDigit_neq x QUOTE Hx) by (unfold BSLASH, QUOTE; lia).
  simpl. auto.
Qed.

Lemma wellEscaped_plain_app a b :
  forallb plain a = true -> wellEscaped b = true -> wellEscaped (a ++ b) = true.
Proof.
  induction a as [|x a IH]; simpl; [auto|]. unfold plain at 1. intros H Hb.
  apply andb_true_iff in H. destruct H as [Hx H].
  apply andb_true_iff in Hx. destruct Hx as [Hbs Hq].
  apply negb_true_iff in Hbs. rewrite Hbs, Hq. simpl. auto.
Qed.

Lemma decodeLoop_skip content a : forall k b i st,
  length a = k ->
  decodeLoop content i k (a ++ b) st = decodeLoop content (i + k) 0 b st.
Proof.
  induction a as [|x a IH]; intros k b i st Hk; simpl in *.
  - subst k. rewrite Nat.add_0_r. reflexivity.
  - destruct k as [|k]; [discriminate|]. rewrite (IH k b (S i) st) by lia.
    f_equal. lia.
Qed.

Lemma indexOf_app_stop c a b :
  forallb (fun x => negb (N.eqb x c)) a = true -> indexOf c (a ++ c :: b) = Some (length a).
Proof.
  induction a as [|x a IH]; simpl; intros H.
  - rewrite N.eqb_refl. reflexivity.
  - apply andb_true_iff in H. destruct H as [Hx H]. apply negb_true_iff in Hx.
    rewrite Hx, (IH H). reflexivity.
Qed.

Lemma substring_middle (a b c : str) :
  substring (a ++ b ++ c) (length a) (length a + length b) = b.
Proof.
  unfold substring. rewrite !length_app.
  replace (Nat.min (length a) (length a + (length b + length c))) with (length a) by lia.
  replace (Nat.min (length a + length b) (length a + (length b + length c)))
    with (length a + length b) by lia.
  replace (Nat.max (length a) (length a + length b) - Nat.min (length a) (length a + length b))
    with (length b) by lia.
  replace (Nat.min (length a) (length a + length b)) with (length a) by lia.
  rewrite skipn_app, skipn_all, Nat.sub_diag. simpl.
  rewrite firstn_app, firstn_all, Nat.sub_diag. simpl. apply app_nil_r.
Qed.

Lemma hex_no_rbrace hex :
  forallb isHexDigit hex = true -> forallb (fun x => negb (N.eqb x RBRACE)) hex = true.
Proof.
  induction hex as [|x hex IH]; simpl; [reflexivity|]. intros H.
  apply andb_true_iff in H. destruct H as [Hx H].
  rewrite (hexDigit_neq x RBRACE Hx) by (unfold RBRACE; lia). simpl. auto.
Qed.

(** The turn of the decoding loop at the backslash of an escape. *)
Lemma decodeStep_escape pre hex post st :
  forallb isHexDigit hex = true -> 1 <= length hex <= 8 ->
  decodeStep (pre ++ escapeOf hex ++ post) (length pre) BSLASH st
  = if isScalarValue (Z.of_N (hexValue 0 hex))
    then match fromCodePoint (Z.of_N (hexValue 0 hex)) with
         | Some s => Ret (mkDecode (result st ++ s) (badEscape st),
                          length pre + 2 + length hex + 1)
         | None => Throw RangeError
         end
    else Ret (mkDecode (result st ++ escapeOf hex)
                       (if isEmpty (badEscape st) then escapeOf hex else badEscape st),
              length pre + 2 + length hex + 1).
Proof.
  intros Hhex Hlen. unfold decodeStep.
  set (content := pre ++ escapeOf hex ++ post).
  assert (Hcl : length content = length pre + (length hex + 3) + length post).
  { unfold content, escapeOf. rewrite !length_app. simpl. rewrite ?length_app. simpl. lia. }
  rewrite N.eqb_refl.
  replace (length pre + 1 <? length content) with true by (symmetry; apply Nat.ltb_lt; lia).
  cbn [andb].
  assert (Hn : nth (length pre + 1) content 0%N = LBRACE).
  { unfold content. rewrite app_nth2 by lia.
    replace (length pre + 1 - length pre) with 1 by lia. reflexivity. }
  rewrite Hn. cbv beta iota delta [LBRACE QUOTE BSLASH N.eqb Pos.eqb].
  fold LBRACE. fold BSLASH. fold QUOTE.
  assert (Hi : indexOfFrom RBRACE content (length pre + 2) = Some (length pre + 2 + length hex)).
  { unfold indexOfFrom.
    replace (skipn (length pre + 2) content) with (hex ++ RBRACE :: post).
    - rewrite (indexOf_app_stop RBRACE hex post (hex_no_rbrace hex Hhex)).
      replace (length pre + 2 <=? length content) with true by (symmetry; apply Nat.leb_le; lia).
      reflexivity.
    - unfold content, escapeOf.
      replace (length pre + 2) with (length (pre ++ [BSLASH; LBRACE])) by (rewrite length_app; reflexivity).
      replace (pre ++ ([BSLASH; LBRACE] ++ hex ++ [RBRACE]) ++ post)
        with ((pre ++ [BSLASH; LBRACE]) ++ hex ++ RBRACE :: post)
        by (repeat rewrite <- app_assoc; reflexivity).
      rewrite skipn_app, skipn_all, Nat.sub_diag. reflexivity. }
  rewrite Hi.
  replace (length pre + 2 + length hex =? length pre + 2) with false
    by (symmetry; apply Nat.eqb_neq; lia).
  replace (10 <? length pre + 2 + length hex - length pre) with false
    by (symmetry; apply Nat.ltb_ge; lia).
  cbn [orb].
  assert (Hhexsub : substring content (length pre + 2) (length pre + 2 + length hex) = hex).
  { unfold content, escapeOf.
    replace (length pre + 2) with (length (pre ++ [BSLASH; LBRACE])) by (rewrite length_app; reflexivity).
    replace (pre ++ ([BSLASH; LBRACE] ++ hex ++ [RBRACE]) ++ post)
      with ((pre ++ [BSLASH; LBRACE]) ++ hex ++ (RBRACE :: post))
      by (repeat rewrite <- app_assoc; reflexivity).
    apply substring_middle. }
  rewrite Hhexsub.
  assert (Hne : hex <> []) by (destruct hex; [simpl in Hlen; lia | discriminate]).
  rewrite (parseInt16_hex hex Hne Hhex).
  assert (Hesc : substring content (length pre) (length pre + 2 + length hex + 1) = escapeOf hex).
  { unfold content.
    replace (length pre + 2 + length hex + 1) with (length pre + length (escapeOf hex))
      by (unfold escapeOf; rewrite !length_app; simpl; lia).
    apply substring_middle. }
  rewrite Hesc.
  unfold isScalarValue.
  replace (0 <=? Z.of_N (hexValue 0 hex))%Z with true by (symmetry; apply Z.leb_le; lia).
  cbn [andb]. rewrite Z.ltb_antisym.
  destruct (Z.of_N (hexValue 0 hex) <=? 1114111)%Z; cbn [negb orb andb]; [|reflexivity].
  destruct ((55296 <=? Z.of_N (hexValue 0 hex))%Z && (Z.of_N (hexValue 0 hex) <=? 57343)%Z);
    cbn [negb]; reflexivity.
Qed.

(** *** Literals piece by piece *)

Lemma simpleEscape_cases c x :
  simpleEscape c = Some x ->
  c = 110%N \/ c = 114%N \/ c = 116%N \/ c = QUOTE \/ c = BSLASH.
Proof.
  unfold simpleEscape.
  destruct (N.eqb c 110) eqn:H1; [apply N.eqb_eq in H1; auto|].
  destruct (N.eqb c 114) eqn:H2; [apply N.eqb_eq in H2; auto|].
  destruct (N.eqb c 116) eqn:H3; [apply N.eqb_eq in H3; auto|].
  destruct (N.eqb c QUOTE) eqn:H4; [apply N.eqb_eq in H4; auto|].
  destruct (N.eqb c BSLASH) eqn:H5; [apply N.eqb_eq in H5; auto 6|].
  discriminate.
Qed.

Lemma matchPrefix_escape_simple c x rest :
  simpleEscape c = Some x ->
  matchPrefix escapeRegex (BSLASH :: c :: rest) = Some ([BSLASH; c], rest, [(2, [c])]).
Proof.
  intros H.
  assert (H2 : length (BSLASH :: c :: rest) - length rest = 2) by (cbn [length]; lia).
  assert (H1 : length (c :: rest) - length rest = 1) by (cbn [length]; lia).
  unfold matchPrefix, escapeRegex, chr, dot. cbn [rmatch]. rewrite H2, H1.
  destruct (simpleEscape_cases c x H) as [-> | [-> | [-> | [-> | ->]]]]; reflexivity.
Qed.

Lemma pieceOK_hex hex :
  pieceOK (PHex hex) = true -> forallb isHexDigit hex = true /\ 1 <= length hex <= 8.
Proof.
  cbn [pieceOK]. intros H. apply andb_true_iff in H. destruct H as [H H8].
  apply andb_true_iff in H. destruct H as [Hh H1].
  apply Nat.leb_le in H1, H8. auto.
Qed.

Lemma scan_piece p rest :
  pieceOK p = true ->
  scan escapeRegex 0 (pieceText p ++ rest) = pieceSegment p :: scan escapeRegex 0 rest.
Proof.
  destruct p as [c | c | hex]; intros H.
  - simpl in H. cbn [pieceText app scan]. rewrite (matchPrefix_escape_plain c rest H). reflexivity.
  - simpl in H. destruct (simpleEscape c) as [x|] eqn:Hc; [|discriminate].
    cbn [pieceText app scan]. rewrite (matchPrefix_escape_simple c x rest Hc).
    reflexivity.
  - apply pieceOK_hex in H. destruct H as [Hh _]. apply (scan_escape hex rest Hh).
Qed.

Lemma scan_pieces ps :
  forallb pieceOK ps = true ->
  scan escapeRegex 0 (literalText ps) = map pieceSegment ps.
Proof.
  unfold literalText. induction ps as [|p ps IH]; intros H; [reflexivity|].
  simpl in H. apply andb_true_iff in H. destruct H as [Hp H].
  cbn [map concat]. rewrite (scan_piece p _ Hp), (IH H). reflexivity.
Qed.

Lemma unescape_simple lno c x (cs : caps) :
  cs = [(2, [c])] -> simpleEscape c = Some x -> unescape lno [BSLASH; c] cs = Ret [x].
Proof.
  intros -> H. unfold unescape. cbn [getCap Nat.eqb]. unfold simpleEscape in H.
  destruct (N.eqb c 110); [inversion H; reflexivity|].
  destruct (N.eqb c 114); [inversion H; reflexivity|].
  destruct (N.eqb c 116); [inversion H; reflexivity|].
  destruct (N.eqb c QUOTE); [inversion H; reflexivity|].
  destruct (N.eqb c BSLASH); [inversion H; reflexivity|].
  discriminate.
Qed.

Lemma unescape_hex lno hex (cs : caps) :
  cs = [(1, hex)] ->
  forallb isHexDigit hex = true -> 1 <= length hex <= 8 ->
  unescape lno (escapeOf hex) cs
  = match pieceValue (PHex hex) with
    | Some s => Ret s
    | None => Throw (ParseError (Some (lno + 1)) (InvalidEscape (escapeOf hex)))
    end.
Proof.
  intros -> Hhex Hlen. unfold unescape, pieceValue. cbn [getCap Nat.eqb parseInt16_opt].
  assert (Hne : hex <> []) by (destruct hex; [simpl in Hlen; lia | discriminate]).
  rewrite (parseInt16_hex hex Hne Hhex).
  replace (8 <? length hex) with false by (symmetry; apply Nat.ltb_ge; lia).
  cbn [orb].
  destruct (isScalarValue (Z.of_N (hexValue 0 hex))) eqn:Hs.
  - destruct (fromCodePoint_scalar _ Hs) as (s & Hf & _). rewrite Hf.
    unfold isScalarValue in Hs. apply andb_true_iff in Hs. destruct Hs as [Hs Hsur].
    apply andb_true_iff in Hs. destruct Hs as [_ Hmax].
    rewrite Z.ltb_antisym, Hmax. apply negb_true_iff in Hsur. rewrite Hsur. reflexivity.
  - unfold isScalarValue in Hs.
    replace (0 <=? Z.of_N (hexValue 0 hex))%Z with true in Hs by (symmetry; apply Z.leb_le; lia).
    cbn [andb] in Hs. rewrite Z.ltb_antisym.
    destruct (Z.of_N (hexValue 0 hex) <=? 1114111)%Z; cbn [negb orb andb] in *; [|reflexivity].
    apply negb_false_iff in Hs. rewrite Hs. reflexivity.
Qed.

Lemma replaceSegments_pieces lno ps :
  forallb pieceOK ps = true ->
  replaceSegments lno (map pieceSegment ps)
  = match decodePieces ps with
    | inl r => Ret r
    | inr b => Throw (ParseError (Some (lno + 1)) (InvalidEscape b))
    end.
Proof.
  induction ps as [|p ps IH]; intros H; [reflexivity|].
  simpl in H. apply andb_true_iff in H. destruct H as [Hp H].
  specialize (IH H). cbn [map decodePieces].
  destruct p as [c | c | hex].
  - cbn [pieceSegment replaceSegments pieceValue]. rewrite IH.
    destruct (decodePieces ps); reflexivity.
  - simpl in Hp. destruct (simpleEscape c) as [x|] eqn:Hc; [|discriminate].
    cbn [pieceSegment replaceSegments pieceValue]. rewrite (unescape_simple lno c x _ eq_refl Hc), Hc, IH.
    destruct (decodePieces ps); reflexivity.
  - apply pieceOK_hex in Hp. destruct Hp as [Hh Hl].
    cbn [pieceSegment replaceSegments]. rewrite (unescape_hex lno hex _ eq_refl Hh Hl).
    destruct (pieceValue (PHex hex)); [|reflexivity].
    rewrite IH. destruct (decodePieces ps); reflexivity.
Qed.

(** The decoder of src/tokenizer.ts on a literal made of such pieces. *)
Lemma tok_decode_pieces lno ps :
  forallb pieceOK ps = true ->
  Tokenizer.decodeLiteral lno (QUOTE :: literalText ps ++ [QUOTE])
  = match decodePieces ps with
    | inl r => Ret r
    | inr b => Throw (ParseError (Some (lno + 1)) (InvalidEscape b))
    end.
Proof.
  intros H. unfold Tokenizer.decodeLiteral.
  cbn [startsWith]. rewrite N.eqb_refl. cbn [andb negb].
  change (QUOTE :: literalText ps ++ [QUOTE]) with ((QUOTE :: literalText ps) ++ [QUOTE]) at 1.
  rewrite endsWith_snoc. cbn [negb].
  rewrite substring_inner, (scan_pieces ps H). apply replaceSegments_pieces. exact H.
Qed.

Lemma simpleEscape_notLineTerminator c x :
  simpleEscape c = Some x -> notLineTerminator c = true.
Proof.
  intros H. destruct (simpleEscape_cases c x H) as [-> | [-> | [-> | [-> | ->]]]]; reflexivity.
Qed.

Lemma wellEscaped_pieces ps :
  forallb pieceOK ps = true -> wellEscaped (literalText ps) = true.
Proof.
  unfold literalText. induction ps as [|p ps IH]; intros H; [reflexivity|].
  simpl in H. apply andb_true_iff in H. destruct H as [Hp H]. specialize (IH H).
  cbn [map concat]. destruct p as [c | c | hex].
  - change (pieceText (PPlain c) ++ concat (map pieceText ps))
      with ([c] ++ concat (map pieceText ps)).
    apply wellEscaped_plain_app; [simpl in *; rewrite Hp; reflexivity | exact IH].
  - simpl in Hp. destruct (simpleEscape c) as [x|] eqn:Hc; [|discriminate].
    cbn [pieceText app wellEscaped]. rewrite N.eqb_refl.
    rewrite (simpleEscape_notLineTerminator c x Hc), IH. reflexivity.
  - apply pieceOK_hex in Hp. destruct Hp as [Hh _].
    cbn [pieceText]. unfold escapeOf. cbn [app wellEscaped]. rewrite N.eqb_refl.
    replace (notLineTerminator LBRACE) with true by reflexivity. cbn [andb].
    rewrite <- app_assoc. apply wellEscaped_plain_app; [apply hex_plain; exact Hh|].
    cbn [app wellEscaped]. replace (N.eqb RBRACE BSLASH) with false by reflexivity.
    replace (N.eqb RBRACE QUOTE) with false by reflexivity. exact IH.
Qed.

Lemma decodeStep_simple done c x rest st :
  simpleEscape c = Some x ->
  decodeStep (done ++ BSLASH :: c :: rest) (length done) BSLASH st
  = Ret (mkDecode (result st ++ [x]) (badEscape st), length done + 2).
Proof.
  intros Hc. unfold decodeStep. rewrite N.eqb_refl.
  replace (length done + 1 <? length (done ++ BSLASH :: c :: rest)) with true
    by (symmetry; apply Nat.ltb_lt; rewrite length_app; cbn [length]; lia).
  cbn [andb].
  replace (nth (length done + 1) (done ++ BSLASH :: c :: rest) 0%N) with c.
  2: { rewrite app_nth2 by lia. replace (length done + 1 - length done) with 1 by lia. reflexivity. }
  unfold simpleEscape in Hc.
  destruct (N.eqb c 110); [inversion Hc; reflexivity|].
  destruct (N.eqb c 114); [inversion Hc; reflexivity|].
  destruct (N.eqb c 116); [inversion Hc; reflexivity|].
  destruct (N.eqb c QUOTE); [inversion Hc; reflexivity|].
  destruct (N.eqb c BSLASH); [inversion Hc; reflexivity|].
  discriminate.
Qed.

Lemma decodeLoop_pieces ps : forall done st,
  forallb pieceOK ps = true ->
  decodeLoop (done ++ literalText ps) (length done) 0 (literalText ps) st
  = Ret (fold_left stepPiece ps st).
Proof.
  unfold literalText. induction ps as [|p ps IH]; intros done st H; [reflexivity|].
  simpl in H. apply andb_true_iff in H. destruct H as [Hp H].
  cbn [map concat fold_left]. set (rest := concat (map pieceText ps)) in *.
  destruct p as [c | c | hex].
  - (* a code unit that stands for itself *)
    cbn [pieceText app decodeLoop].
    simpl in Hp. unfold plain in Hp. apply andb_true_iff in Hp. destruct Hp as [Hb _].
    apply negb_true_iff in Hb. unfold decodeStep. rewrite Hb. cbn [andb].
    replace (length done + 1 - length done - 1) with 0 by lia.
    replace (done ++ c :: rest) with ((done ++ [c]) ++ rest)
      by (rewrite <- app_assoc; reflexivity).
    replace (S (length done)) with (length (done ++ [c])) by (rewrite length_app; simpl; lia).
    rewrite (IH (done ++ [c]) _ H). reflexivity.
  - (* a backslash and a letter *)
    simpl in Hp. destruct (simpleEscape c) as [x|] eqn:Hc; [|discriminate].
    cbn [pieceText app]. cbn [decodeLoop].
    rewrite (decodeStep_simple done c x rest st Hc).
    replace (length done + 2 - length done - 1) with 1 by lia.
    replace (done ++ BSLASH :: c :: rest) with ((done ++ [BSLASH; c]) ++ rest)
      by (rewrite <- app_assoc; reflexivity).
    replace (S (S (length done))) with (length (done ++ [BSLASH; c]))
      by (rewrite length_app; simpl; lia).
    rewrite (IH (done ++ [BSLASH; c]) _ H).
    replace (stepPiece st (PSimple c)) with (mkDecode (result st ++ [x]) (badEscape st))
      by (unfold stepPiece; cbn [pieceValue]; rewrite Hc; reflexivity).
    reflexivity.
  - (* a code point in hexadecimal digits *)
    apply pieceOK_hex in Hp. destruct Hp as [Hh Hl].
    cbn [pieceText].
    assert (Htail : escapeOf hex ++ rest = BSLASH :: (LBRACE :: hex ++ [RBRACE]) ++ rest)
      by reflexivity.
    rewrite Htail at 2. cbn [decodeLoop].
    rewrite (decodeStep_escape done hex rest st Hh Hl).
    assert (Hskip : length done + 2 + length hex + 1 - length done - 1
                    = length (LBRACE :: hex ++ [RBRACE]))
      by (cbn [length]; rewrite length_app; simpl; lia).
    assert (Hnext : S (length done) + length (LBRACE :: hex ++ [RBRACE])
                    = length (done ++ escapeOf hex)).
    { unfold escapeOf. rewrite !length_app. cbn [length]. rewrite length_app. simpl. lia. }
    assert (Hcontent : done ++ escapeOf hex ++ rest = (done ++ escapeOf hex) ++ rest)
      by (rewrite <- app_assoc; reflexivity).
    assert (Hstep : stepPiece st (PHex hex)
                    = if isScalarValue (Z.of_N (hexValue 0 hex))
                      then match fromCodePoint (Z.of_N (hexValue 0 hex)) with
                           | Some s => mkDecode (result st ++ s) (badEscape st)
                           | None => mkDecode (result st ++ escapeOf hex)
                                       (if isEmpty (badEscape st) then escapeOf hex
                                        else badEscape st)
                           end
                      else mkDecode (result st ++ escapeOf hex)
                             (if isEmpty (badEscape st) then escapeOf hex else badEscape st)).
    { unfold stepPiece. cbn [pieceValue pieceText].
      destruct (isScalarValue (Z.of_N (hexValue 0 hex))); [|reflexivity].
      destruct (fromCodePoint (Z.of_N (hexValue 0 hex))); reflexivity. }
    rewrite Hstep.
    destruct (isScalarValue (Z.of_N (hexValue 0 hex))) eqn:Hs.
    + destruct (fromCodePoint_scalar _ Hs) as (s & Hf & _). rewrite Hf.
      rewrite Hskip, (decodeLoop_skip _ _ _ rest _ _ eq_refl), Hnext, Hcontent.
      apply (IH (done ++ escapeOf hex) _ H).
    + rewrite Hskip, (decodeLoop_skip _ _ _ rest _ _ eq_refl), Hnext, Hcontent.
      apply (IH (done ++ escapeOf hex) _ H).
Qed.

Lemma stepPiece_fold ps : forall st,
  match decodePieces ps with
  | inl r => fold_left stepPiece ps st = mkDecode (result st ++ r) (badEscape st)
  | inr b => badEscape (fold_left stepPiece ps st)
             = if isEmpty (badEscape st) then b else badEscape st
  end /\
  match decodePieces ps with
  | inl _ => True
  | inr b => isEmpty b = false
  end.
Proof.
  induction ps as [|p ps IH]; intros st.
  - simpl. rewrite app_nil_r. destruct st; auto.
  - cbn [decodePieces fold_left].
    assert (Hstep : stepPiece st p
                    = match pieceValue p with
                      | Some s => mkDecode (result st ++ s) (badEscape st)
                      | None => mkDecode (result st ++ pieceText p)
                                  (if isEmpty (badEscape st) then pieceText p
                                   else badEscape st)
                      end) by reflexivity.
    rewrite Hstep. clear Hstep.
    destruct (pieceValue p) as [s|] eqn:Hv.
    + destruct (IH (mkDecode (result st ++ s) (badEscape st))) as [H1 H2].
      destruct (decodePieces ps) as [r|b]; cbn [result badEscape] in *.
      * split; [|exact I]. rewrite H1, <- app_assoc. reflexivity.
      * split; [exact H1 | exact H2].
    + assert (Hne : isEmpty (pieceText p) = false) by (destruct p; reflexivity).
      split; [|exact Hne].
      set (st1 := mkDecode _ _).
      assert (Hst1 : isEmpty (badEscape st1) = false).
      { unfold st1. cbn [badEscape]. destruct (isEmpty (badEscape st)) eqn:He; assumption. }
      destruct (IH st1) as [H1 _].
      destruct (decodePieces ps) as [r|b].
      * rewrite H1. reflexivity.
      * rewrite H1, Hst1. reflexivity.
Qed.

(** The decoder of src/utils.ts on a literal made of such pieces. *)
Lemma utils_decode_pieces ps :
  forallb pieceOK ps = true ->
  Utils.decodeLiteral (QUOTE :: literalText ps ++ [QUOTE])
  = match decodePieces ps with
    | inl r => Ret (r, None)
    | inr b => Ret ([], Some (InvalidEscape b))
    end.
Proof.
  intros H. unfold Utils.decodeLiteral.
  cbn [startsWith]. rewrite N.eqb_refl. cbn [andb negb].
  rewrite (literalRegex_match _ (wellEscaped_pieces ps H)). cbn [getCap Nat.eqb].
  pose proof (decodeLoop_pieces ps [] (mkDecode [] []) H) as Hloop.
  cbn [app length] in Hloop. rewrite Hloop.
  destruct (stepPiece_fold ps (mkDecode [] [])) as [H1 H2].
  destruct (decodePieces ps) as [r|b]; cbn [result badEscape isEmpty app] in *.
  - rewrite H1. reflexivity.
  - rewrite H1, H2. reflexivity.
Qed.

End LiteralProps.

(* ================================================================== *)
(** ** The tolerant lexer *)

Module LexerProps.

Import Utils Lexer LexerSpec.

(** *** Replaying a stream *)

Lemma replay_app d a b :
  replay d (a ++ b) = match replay d a with
                      | Some d' => replay d' b
                      | None => None
                      end.
Proof.
  revert d. induction a as [|t a IH]; intros d; simpl; [reflexivity|].
  destruct (kind t); auto. destruct d; auto.
Qed.

Lemma replay_flat d ts : forallb flat ts = true -> replay d ts = Some d.
Proof.
  induction ts as [|t ts IH]; simpl; [reflexivity|].
  unfold flat at 1. intros H. apply andb_true_iff in H. destruct H as [H1 H2].
  destruct (kind t); try discriminate; auto.
Qed.

Lemma replay_counts d ts d' :
  replay d ts = Some d' ->
  d + countKind Indent ts = d' + countKind Outdent ts.
Proof.
  unfold countKind. revert d. induction ts as [|t ts IH]; intros d; simpl.
  - intros H. inversion H. lia.
  - destruct (kind t) eqn:K; simpl; intros H;
      try (apply IH in H; lia).
    destruct d; [discriminate|]. apply IH in H. lia.
Qed.

Lemma replay_firstn d ts d' n :
  replay d ts = Some d' -> exists d'', replay d (firstn n ts) = Some d''.
Proof.
  intros H. rewrite <- (firstn_skipn n ts) in H. rewrite replay_app in H.
  destruct (replay d (firstn n ts)) as [d''|]; [eauto | discriminate].
Qed.

Lemma replay_prefix_counts ts d' n :
  replay 0 ts = Some d' ->
  countKind Outdent (firstn n ts) <= countKind Indent (firstn n ts).
Proof.
  intros H. destruct (replay_firstn _ _ _ n H) as [d'' H'].
  apply replay_counts in H'. lia.
Qed.

(** *** The raw tokenizer keeps the stack above its bottom *)

Lemma decodeStep_throws content i c st e :
  decodeStep content i c st = Throw e -> e = RangeError.
Proof.
  unfold decodeStep.
  repeat match goal with
         | |- context [if ?b then _ else _] => destruct b
         | |- context [match ?x with _ => _ end] => destruct x
         end; intros H; try discriminate; inversion H; reflexivity.
Qed.

Lemma decodeLoop_throws content tail : forall i skip st e,
  decodeLoop content i skip tail st = Throw e -> e = RangeError.
Proof.
  induction tail as [|c tail IH]; intros i skip st e; simpl.
  - discriminate.
  - destruct skip.
    + destruct (decodeStep content i c st) as [[st' i']|e'] eqn:Hs.
      * apply IH.
      * intros H. inversion H; subst. eapply decodeStep_throws; eauto.
    + apply IH.
Qed.

Lemma decodeLiteral_throws input e :
  decodeLiteral input = Throw e -> e = RangeError.
Proof.
  unfold decodeLiteral.
  destruct (negb (startsWith input [QUOTE])); [discriminate|].
  destruct (matchPrefix literalRegex input) as [[[m rest] c]|].
  - destruct (decodeLoop _ 0 0 _ _) as [st|e'] eqn:Hl.
    + destruct (negb (isEmpty (badEscape st))); discriminate.
    + intros H. inversion H; subst. eapply decodeLoop_throws; eauto.
  - destruct (negb (endsWith input [QUOTE])); discriminate.
Qed.

Lemma popOutdents_spec lno indent stk :
  bottomed stk ->
  bottomed (fst (popOutdents lno indent stk)) /\
  replay (length stk - 1) (snd (popOutdents lno indent stk))
    = Some (length (fst (popOutdents lno indent stk)) - 1) /\
  forallb rawKind (snd (popOutdents lno indent stk)) = true.
Proof.
  intros [l ->]. induction l as [|t l IH]; simpl.
  - replace (startsWith indent []) with true by (destruct indent; reflexivity).
    split; [exists []; reflexivity | split; reflexivity].
  - destruct (startsWith indent t); simpl.
    + split; [exists (t :: l); reflexivity | split; [|reflexivity]].
      rewrite Nat.sub_0_r. reflexivity.
    + destruct (popOutdents lno indent (l ++ [[]])) as [stk' out] eqn:Hp.
      simpl in *. destruct IH as (Hb & Hr & Hk).
      split; [assumption | split; [|assumption]].
      rewrite Nat.sub_0_r. rewrite length_app in *. simpl in *.
      replace (length l + 1) with (S (length l)) by lia.
      replace (length l + 1 - 1) with (length l) in Hr by lia.
      exact Hr.
Qed.

Lemma bottomed_cons t stk : bottomed stk -> bottomed (t :: stk).
Proof. intros [l ->]. exists (t :: l). reflexivity. Qed.

Lemma bottomed_length stk : bottomed stk -> 1 <= length stk.
Proof. intros [l ->]. rewrite length_app. simpl. lia. Qed.

Lemma commentOf_flat lno after :
  forallb flat (commentOf lno after) = true /\ forallb rawKind (commentOf lno after) = true.
Proof.
  unfold commentOf. destruct (cutPrefix after [SEMI]) as [c [|]]; split; reflexivity.
Qed.

(** What the value part of a line yields is flat, and it leaves the stack
    alone. *)
Lemma tokenizeValue_inv st lno rest ts r :
  tokenizeValue st lno rest = (ts, r) ->
  forallb flat ts = true /\ forallb rawKind ts = true /\
  match r with
  | Ret st' => stack st' = stack st
  | Throw e => e = RangeError
  end.
Proof.
  unfold tokenizeValue.
  destruct (cutPrefix rest [SEMI]) as [comment [|]].
  - simpl. intros H; inversion H; subst. auto.
  - destruct (cutPrefix rest [QUOTE; QUOTE; QUOTE]) as [indicator [|]].
    + destruct (splitLiteral indicator false) as [hint afterHint].
      simpl. intros H; inversion H; subst. simpl.
      destruct (commentOf_flat lno afterHint) as [-> ->]. auto.
    + destruct (splitLiteral rest false) as [value afterValue].
      destruct (negb (isEmpty value)).
      * destruct (decodeLiteral value) as [d|e] eqn:Hd; simpl.
        -- intros H; inversion H; subst. simpl.
           destruct (commentOf_flat lno afterValue) as [-> ->]. auto.
        -- intros H; inversion H; subst. simpl.
           repeat split. eapply decodeLiteral_throws; eauto.
      * simpl. intros H; inversion H; subst.
        destruct (commentOf_flat lno afterValue) as [-> ->]. auto.
Qed.

Lemma rawOK_ret st :
  bottomed (stack st) -> rawOK (length (stack st) - 1) (ret st).
Proof.
  intros Hb. split; [reflexivity|]. exists (length (stack st) - 1).
  simpl. split; [reflexivity|]. split; [assumption|].
  apply bottomed_length in Hb. lia.
Qed.

Lemma rawOK_flat d ts m :
  forallb flat ts = true -> forallb rawKind ts = true ->
  rawOK d m -> rawOK d (ts ++ fst m, snd m).
Proof.
  intros Hf Hk (Hk' & d' & Hr & Hs). split; simpl.
  - rewrite forallb_app, Hk, Hk'. reflexivity.
  - exists d'. rewrite replay_app, (replay_flat _ _ Hf). auto.
Qed.

Lemma rawOK_value st st0 lno rest :
  bottomed (stack st) -> stack st0 = stack st ->
  rawOK (length (stack st) - 1) (tokenizeValue st0 lno rest).
Proof.
  intros Hb Hst.
  destruct (tokenizeValue st0 lno rest) as [ts r] eqn:Hv.
  apply tokenizeValue_inv in Hv. destruct Hv as (Hf & Hk & Hr).
  split; [exact Hk|]. exists (length (stack st) - 1). simpl.
  rewrite (replay_flat _ _ Hf). split; [reflexivity|].
  destruct r as [st'|e]; [|assumption].
  rewrite Hr, Hst. split; [assumption|]. apply bottomed_length in Hb. lia.
Qed.

Lemma tokenizeEntry_inv st lno indent rest :
  bottomed (stack st) ->
  rawOK (length (stack st) - 1) (tokenizeEntry st lno indent rest).
Proof.
  intros Hb. unfold tokenizeEntry.
  destruct (isEmpty rest); [apply rawOK_ret; assumption|].
  destruct (cutPrefix rest [SEMI]) as [comment [|]].
  - change (rawOK (length (stack st) - 1)
              ([mkToken lno Comment comment (checkUtf8 comment)] ++ fst (ret st), snd (@ret Token _ st))).
    apply rawOK_flat; try reflexivity. apply rawOK_ret; assumption.
  - pose proof (popOutdents_spec lno indent (stack st) Hb) as (Hb1 & Hr1 & Hk1).
    destruct (popOutdents lno indent (stack st)) as [stk1 outdents]. simpl in Hb1, Hr1, Hk1.
    assert (Hpush : bottomed (fst (pushIndent lno indent stk1)) /\
                    replay (length stk1 - 1) (snd (pushIndent lno indent stk1))
                      = Some (length (fst (pushIndent lno indent stk1)) - 1) /\
                    forallb rawKind (snd (pushIndent lno indent stk1)) = true).
    { unfold pushIndent. destruct (negb (str_eqb indent (top stk1))); simpl.
      - split; [apply bottomed_cons; assumption|]. split; [|reflexivity].
        apply bottomed_length in Hb1. f_equal. lia.
      - auto. }
    destruct (pushIndent lno indent stk1) as [stk2 indents]. simpl in Hpush.
    destruct Hpush as (Hb2 & Hr2 & Hk2).
    set (st2 := mkState stk2 (multiline st) (multilinePrefix st) (multilineValue st)
                        (multilineLno st)).
    assert (Hstruct : forall m, rawOK (length stk2 - 1) m ->
                rawOK (length (stack st) - 1) (outdents ++ indents ++ fst m, snd m)).
    { intros m (Hk & d' & Hr & Hs). split; simpl.
      - rewrite !forallb_app, Hk1, Hk2, Hk. reflexivity.
      - exists d'. rewrite replay_app, Hr1, replay_app, Hr2. auto. }
    assert (Hval : forall r0, rawOK (length stk2 - 1) (tokenizeValue st2 lno r0)).
    { intros r0. apply (rawOK_value st2 st2); [exact Hb2 | reflexivity]. }
    destruct (cutPrefix rest [EQUALS]) as [list [|]].
    + specialize (Hval (snd (trimLeft list))).
      destruct (tokenizeValue st2 lno (snd (trimLeft list))) as [tsv rv] eqn:Hv.
      unfold bind, yield. cbv beta iota zeta.
      specialize (Hstruct (mkToken lno ListItem [] None :: tsv, rv)).
      simpl in Hstruct. rewrite <- app_assoc. apply Hstruct.
      apply (rawOK_flat _ [mkToken lno ListItem [] None] (tsv, rv)); auto.
    + destruct (splitLiteral rest true) as [key afterKey].
      destruct (decodeLiteral key) as [d|e] eqn:Hd.
      * match goal with
        | |- context [tokenizeValue st2 lno ?r0] =>
            specialize (Hval r0);
            destruct (tokenizeValue st2 lno r0) as [tsv rv] eqn:Hv
        end.
        unfold bind, yield, lift. cbv beta iota zeta.
        specialize (Hstruct (mkToken lno MapKey (fst d) (snd d) :: tsv, rv)).
        simpl in Hstruct. rewrite <- app_assoc. apply Hstruct.
        apply (rawOK_flat _ [mkToken lno MapKey (fst d) (snd d)] (tsv, rv)); auto.
      * unfold bind, yield, lift. cbv beta iota.
        apply decodeLiteral_throws in Hd. subst e.
        specialize (Hstruct ([], Throw RangeError)). simpl in Hstruct.
        rewrite app_nil_r in *. apply Hstruct.
        split; [reflexivity|]. exists (length stk2 - 1). simpl. auto.
Qed.

Lemma rawOK_bind d (m : gen Token tokenizeState) (k : tokenizeState -> gen Token tokenizeState) :
  rawOK d m ->
  (forall st', bottomed (stack st') -> rawOK (length (stack st') - 1) (k st')) ->
  rawOK d (bind m k).
Proof.
  intros (Hk & d' & Hr & Hs) Hcont. destruct m as [ts [st'|e]]; simpl in *.
  - destruct Hs as [Hb Hl]. specialize (Hcont st' Hb).
    replace (length (stack st') - 1) with d' in Hcont by lia.
    destruct (k st') as [ts2 r2]. destruct Hcont as (Hk2 & d2 & Hr2 & Hs2).
    simpl in *. split; simpl.
    + rewrite forallb_app, Hk, Hk2. reflexivity.
    + exists d2. rewrite replay_app, Hr. auto.
  - split; simpl; eauto.
Qed.

Lemma tokenizeLine_inv st line :
  bottomed (stack st) ->
  rawOK (length (stack st) - 1) (tokenizeLine st line).
Proof.
  intros Hb. destruct line as [lno content]. unfold tokenizeLine.
  destruct (trimLeft content) as [indent rest].
  assert (Hret : forall a b c d,
             rawOK (length (stack st) - 1) (ret (mkState (stack st) a b c d))).
  { intros. apply (rawOK_ret (mkState (stack st) a b c d)). exact Hb. }
  assert (Hent : forall t a b c d, flat t = true -> rawKind t = true ->
             rawOK (length (stack st) - 1)
               (yield t ;;; tokenizeEntry (mkState (stack st) a b c d) lno indent rest)).
  { intros t a b c d Hf Hk.
    pose proof (tokenizeEntry_inv (mkState (stack st) a b c d) lno indent rest Hb) as H.
    simpl in H. unfold bind, yield. cbv beta iota.
    destruct (tokenizeEntry _ lno indent rest) as [ts r].
    apply (rawOK_flat _ [t] (ts, r)); simpl; try rewrite Hf; try rewrite Hk; auto. }
  destruct (multiline st).
  - destruct (isEmpty (multilinePrefix st)).
    + destruct (startsWith indent (top (stack st)) && negb (str_eqb indent (top (stack st)))).
      * apply Hret.
      * destruct (isEmpty rest); [apply rawOK_ret; assumption|].
        apply Hent; reflexivity.
    + destruct (startsWith content (multilinePrefix st)); [apply Hret|].
      destruct (isEmpty rest); [apply Hret|].
      apply Hent; reflexivity.
  - apply tokenizeEntry_inv. assumption.
Qed.

Lemma tokenizeLines_inv ls : forall st,
  bottomed (stack st) ->
  rawOK (length (stack st) - 1) (tokenizeLines st ls).
Proof.
  induction ls as [|l ls IH]; intros st Hb; simpl.
  - apply rawOK_ret. assumption.
  - apply rawOK_bind; [apply tokenizeLine_inv; assumption | exact IH].
Qed.

Lemma tokenizeFlush_flat st :
  forallb flat (tokenizeFlush st) = true /\ forallb rawKind (tokenizeFlush st) = true.
Proof.
  unfold tokenizeFlush. destruct (multiline st); [|auto].
  destruct (negb (isEmpty (multilineValue st))); auto.
Qed.

(** What comes out of the raw tokenizer: no [NoValue] token, every
    [Outdent] closes an [Indent] before it, and the only exception is the
    RangeError of [String.fromCodePoint]. *)
Lemma tokenize_inv input :
  forallb rawKind (fst (tokenize input)) = true /\
  (exists d, replay 0 (fst (tokenize input)) = Some d) /\
  (forall e, snd (tokenize input) = Throw e -> e = RangeError).
Proof.
  unfold tokenize.
  pose proof (tokenizeLines_inv (lines input) initialState) as H.
  simpl in H. specialize (H (ex_intro _ [] eq_refl)).
  destruct (tokenizeLines initialState (lines input)) as [ts [st|e]];
    destruct H as (Hk & d & Hr & Hs); simpl in *.
  - destruct (tokenizeFlush_flat st) as [Hf Hk2].
    rewrite forallb_app, Hk, Hk2, replay_app, Hr, (replay_flat _ _ Hf).
    split; [reflexivity|]. split; [eauto|]. discriminate.
  - split; [assumption|]. split; [eauto|]. intros e' H. inversion H; subst. reflexivity.
Qed.

(** *** The validator follows the raw stream *)

Lemma tokensStep_inv v t d d' :
  length (states v) = S d -> kindsOK (states v) -> rawKind t = true ->
  replay d [t] = Some d' ->
  exists out v', tokensStep v t = (out, Ret v') /\ replay d out = Some d' /\
                 length (states v') = S d' /\ kindsOK (states v').
Proof.
  unfold kindsOK, rawKind, tokensStep. intros Hl Hk Hraw Hrep.
  destruct (states v) as [|[sk hk] below] eqn:Hst; [discriminate|].
  simpl in Hl, Hk. apply andb_true_iff in Hk. destruct Hk as [Hk1 Hk2].
  simpl in Hrep.
  destruct (kind t) eqn:K; try discriminate;
    try (destruct d; [discriminate|]); inversion Hrep; subst; clear Hrep;
    destruct hk; destruct sk; try discriminate; simpl in *;
    unfold bind, yield, ret; simpl; rewrite ?K, ?Hk2;
    try (eexists; eexists; split; [reflexivity|]; simpl; rewrite ?K; simpl;
         repeat split; auto; lia).
Qed.

Lemma tokensLoop_inv raw : forall v d d',
  length (states v) = S d -> kindsOK (states v) -> forallb rawKind raw = true ->
  replay d raw = Some d' ->
  exists out v', tokensLoop v raw = (out, Ret v') /\ replay d out = Some d' /\
                 length (states v') = S d' /\ kindsOK (states v').
Proof.
  induction raw as [|t raw IH]; intros v d d' Hl Hk Hraw Hrep.
  - simpl in *. inversion Hrep; subst. exists [], v. auto.
  - simpl in Hraw. simpl tokensLoop. apply andb_true_iff in Hraw. destruct Hraw as [Ht Hraw].
    change (t :: raw) with ([t] ++ raw) in Hrep. rewrite replay_app in Hrep.
    destruct (replay d [t]) as [d1|] eqn:H1; [|discriminate].
    destruct (tokensStep_inv v t d d1 Hl Hk Ht H1) as (out1 & v1 & Hs & Hr1 & Hl1 & Hk1).
    destruct (IH v1 d1 d' Hl1 Hk1 Hraw Hrep) as (out2 & v2 & Hs2 & Hr2 & Hl2 & Hk2).
    exists (out1 ++ out2), v2. unfold bind. rewrite Hs, Hs2.
    rewrite replay_app, Hr1. auto.
Qed.

Lemma tokensFlush_replay l sts : forall d,
  length sts = S d -> replay d (tokensFlush l sts) = Some 0.
Proof.
  induction sts as [|s sts IH]; intros d Hl; [discriminate|].
  simpl in Hl. injection Hl as Hl.
  change (tokensFlush l (s :: sts))
    with ((if hasKey s then [mkToken l NoValue [] None] else [])
          ++ (if 1 <? length (s :: sts) then [mkToken l Outdent [] None] else [])
          ++ tokensFlush l sts).
  rewrite replay_app.
  replace (replay d (if hasKey s then [mkToken l NoValue [] None] else [])) with (Some d)
    by (destruct (hasKey s); reflexivity).
  destruct sts as [|s' sts'].
  - simpl in *. subst d. reflexivity.
  - destruct d as [|d0]; [discriminate|]. simpl length in *.
    replace (1 <? S (S (length sts'))) with true by (symmetry; apply Nat.ltb_lt; lia).
    rewrite replay_app. simpl replay at 1. apply IH. simpl. lia.
Qed.

Lemma tokensFlush_no_indent l sts : countKind Indent (tokensFlush l sts) = 0.
Proof.
  unfold countKind. induction sts as [|s sts IH]; [reflexivity|].
  change (tokensFlush l (s :: sts))
    with ((if hasKey s then [mkToken l NoValue [] None] else [])
          ++ (if 1 <? length (s :: sts) then [mkToken l Outdent [] None] else [])
          ++ tokensFlush l sts).
  rewrite !filter_app, !length_app, IH.
  destruct (hasKey s); destruct (1 <? length (s :: sts)); reflexivity.
Qed.

(** [tokens] ends normally unless [String.fromCodePoint] raised a
    RangeError in the raw tokenizer, and what it yields replays from the
    root: to the root again when it ends normally. *)
Lemma tokens_replay input :
  (exists d, replay 0 (fst (tokens input)) = Some d) /\
  (snd (tokens input) = Ret tt ->
   replay 0 (fst (tokens input)) = Some 0 /\
   exists body v, fst (tokens input) = body ++ tokensFlush (lastLine v) (states v) /\
                  replay 0 body = Some (length (states v) - 1)) /\
  (forall e, snd (tokens input) = Throw e -> e = RangeError).
Proof.
  unfold tokens. destruct (tokenize_inv input) as (Hk & [d Hr] & Ht).
  destruct (tokenize input) as [raw r]. simpl in *.
  destruct (tokensLoop_inv raw initialValidator 0 d eq_refl eq_refl Hk Hr)
    as (out & v & Hs & Hr' & Hl & Hkv).
  unfold bind. rewrite Hs. destruct r as [[]|e]; simpl.
  - rewrite replay_app, Hr', (tokensFlush_replay _ _ d Hl).
    split; [eauto|]. split; [|discriminate].
    intros _. split; [reflexivity|]. exists out, v. split; [reflexivity|].
    rewrite Hr', Hl. f_equal. lia.
  - rewrite app_nil_r. split; [eauto|]. split; [discriminate|].
    intros e' H. inversion H; subst. apply Ht. reflexivity.
Qed.

(** No front part of the stream has more [Outdent] than [Indent] tokens.
    When the lexer runs to its end, the stream is what the loop over the
    raw tokens yields, followed by what the closing loop yields for the
    states the validator [v] is left with: the first part has as many
    [Indent] tokens more than [Outdent] tokens as sections are open in
    [v], and the closing loop yields one [Outdent] for each of them and
    no [Indent]; so the stream has as many of the one as of the other. *)
Lemma lexer_indent_outdent_paired (input : str) :
  (forall n, countKind Outdent (firstn n (fst (tokens input)))
             <= countKind Indent (firstn n (fst (tokens input)))) /\
  (snd (tokens input) = Ret tt ->
   exists raw body v,
     tokenize input = (raw, Ret tt) /\
     tokensLoop initialValidator raw = (body, Ret v) /\
     fst (tokens input) = body ++ tokensFlush (lastLine v) (states v) /\
     countKind Indent body = countKind Outdent body + (length (states v) - 1) /\
     countKind Indent (tokensFlush (lastLine v) (states v)) = 0 /\
     countKind Outdent (tokensFlush (lastLine v) (states v)) = length (states v) - 1 /\
     countKind Indent (fst (tokens input)) = countKind Outdent (fst (tokens input))).
Proof.
  split.
  - destruct (tokens_replay input) as ([d Hd] & _ & _).
    intros n. eapply replay_prefix_counts; eauto.
  - unfold tokens. destruct (tokenize_inv input) as (Hk & [d Hr] & _).
    destruct (tokenize input) as [raw r]. cbn [fst snd] in *.
    destruct (tokensLoop_inv raw initialValidator 0 d eq_refl eq_refl Hk Hr)
      as (out & v & Hs & Hr' & Hl & _).
    unfold bind. rewrite Hs. destruct r as [[]|e]; cbn [fst snd]; [|discriminate].
    intros _. exists raw, out, v.
    pose proof (tokensFlush_replay (lastLine v) (states v) d Hl) as Hf.
    apply replay_counts in Hr', Hf.
    pose proof (tokensFlush_no_indent (lastLine v) (states v)) as Hni.
    assert (Hd : length (states v) - 1 = d) by lia.
    split; [reflexivity|]. split; [exact Hs|]. split; [reflexivity|].
    split; [lia|]. split; [exact Hni|]. split; [lia|].
    unfold countKind in *. rewrite !filter_app, !length_app. lia.
Qed.

(** *** The multiline collector *)

Lemma takeWhile_all (p : N -> bool) s : forallb p s = true -> takeWhile p s = s.
Proof.
  induction s as [|x s IH]; simpl; [reflexivity|]. intros H.
  apply andb_true_iff in H. destruct H as [-> H]. rewrite IH; auto.
Qed.

Lemma dropWhile_all (p : N -> bool) s : forallb p s = true -> dropWhile p s = [].
Proof.
  induction s as [|x s IH]; simpl; [reflexivity|]. intros H.
  apply andb_true_iff in H. destruct H as [-> H]. auto.
Qed.

Lemma takeWhile_app_stop (p : N -> bool) a b :
  forallb p a = true -> match b with x :: _ => p x = false | [] => True end ->
  takeWhile p (a ++ b) = a.
Proof.
  induction a as [|y a IH]; simpl; intros Ha Hb.
  - destruct b as [|x b]; [reflexivity|]. simpl. rewrite Hb. reflexivity.
  - apply andb_true_iff in Ha. destruct Ha as [-> Ha]. rewrite IH; auto.
Qed.

Lemma dropWhile_app_stop' (p : N -> bool) a b :
  forallb p a = true -> match b with x :: _ => p x = false | [] => True end ->
  dropWhile p (a ++ b) = b.
Proof.
  induction a as [|y a IH]; simpl; intros Ha Hb.
  - destruct b as [|x b]; [reflexivity|]. simpl. rewrite Hb. reflexivity.
  - apply andb_true_iff in Ha. destruct Ha as [-> Ha]. auto.
Qed.

Lemma trimLeft_indented p r :
  forallb isBlank p = true ->
  match r with x :: _ => isBlank x = false | [] => True end ->
  forallb notLineTerminator r = true ->
  trimLeft (p ++ r) = (p, r).
Proof.
  intros Hp Hr Hl. rewrite RegexProps.trimLeft_spec.
  rewrite (takeWhile_app_stop isBlank p r Hp Hr), (dropWhile_app_stop' isBlank p r Hp Hr).
  rewrite (takeWhile_all _ r Hl). reflexivity.
Qed.

Lemma trimLeft_blank c : forallb isBlank c = true -> snd (trimLeft c) = [].
Proof.
  intros H. rewrite RegexProps.trimLeft_spec. simpl.
  rewrite (dropWhile_all _ c H). reflexivity.
Qed.

Lemma join_snoc sep l x : l <> [] -> join sep (l ++ [x]) = join sep l ++ sep ++ x.
Proof.
  induction l as [|y l IH]; [congruence|]. intros _.
  destruct l as [|z l]; [reflexivity|].
  change (join sep ((y :: z :: l) ++ [x])) with (y ++ sep ++ join sep ((z :: l) ++ [x])).
  rewrite IH by discriminate.
  change (join sep (y :: z :: l)) with (y ++ sep ++ join sep (z :: l)).
  rewrite <- !app_assoc. reflexivity.
Qed.

(** The collector takes body lines without a token. *)
Lemma tokenizeLines_body p bs : forall stk v n1 acc,
  p <> [] -> acc <> [] -> v = join [LF] acc ->
  forallb (bodyLine p) (map snd bs) = true ->
  tokenizeLines (mkState stk true p v n1) bs
  = ([], Ret (mkState stk true p
                      (join [LF] (acc ++ map (fun l => bodyOf p (snd l)) bs)) n1)).
Proof.
  induction bs as [|[n c] bs IH]; intros stk v n1 acc Hp Hacc Hv Hb.
  - simpl. rewrite app_nil_r, Hv. reflexivity.
  - cbn [map forallb snd] in Hb. apply andb_true_iff in Hb. destruct Hb as [Hc Hb].
    cbn [tokenizeLines]. unfold tokenizeLine at 1.
    destruct (trimLeft c) as [indent rest] eqn:Ht.
    cbn [multiline multilinePrefix multilineValue multilineLno stack].
    destruct p as [|p0 p']; [congruence|]. cbn [isEmpty].
    set (pp := p0 :: p') in *.
    assert (Hstep : forall b, bodyOf pp c = b ->
       bind (ret (mkState stk true pp (v ++ [LF] ++ b) n1)) (fun st' => tokenizeLines st' bs)
       = ([], Ret (mkState stk true pp
             (join [LF] (acc ++ map (fun l => bodyOf pp (snd l)) ((n, c) :: bs))) n1))).
    { intros b Hbody. unfold bind, ret.
      rewrite (IH stk (v ++ [LF] ++ b) n1 (acc ++ [b])); auto.
      - cbn [map snd]. rewrite Hbody, <- app_assoc. reflexivity.
      - destruct acc; discriminate.
      - rewrite join_snoc by assumption. rewrite Hv. reflexivity. }
    unfold bodyLine in Hc. unfold bodyOf in Hstep.
    destruct (startsWith c pp) eqn:Hsw.
    + apply Hstep. reflexivity.
    + simpl in Hc. pose proof (trimLeft_blank c Hc) as Hr. rewrite Ht in Hr. simpl in Hr.
      subst rest. cbn [isEmpty].
      specialize (Hstep [] eq_refl). rewrite app_nil_r in Hstep. exact Hstep.
Qed.

Lemma dropWhile_head (p : N -> bool) s x t : dropWhile p s = x :: t -> p x = false.
Proof.
  induction s as [|y s IH]; simpl; [discriminate|].
  destruct (p y) eqn:Py; [exact IH|]. intros H. inversion H; subst. exact Py.
Qed.

(** [trimRight] cuts a run of the given characters off the end, and all
    of it. *)
Lemma trimRight_spec s chars :
  exists tail, s = trimRight s chars ++ tail /\
               forallb (includes chars) tail = true /\
               forall t x, trimRight s chars = t ++ [x] -> includes chars x = false.
Proof.
  unfold trimRight. exists (rev (takeWhile (includes chars) (rev s))). split; [|split].
  - rewrite <- rev_app_distr, RegexProps.takeWhile_dropWhile, rev_involutive. reflexivity.
  - rewrite forallb_forall. intros x Hx. apply in_rev in Hx.
    revert Hx. generalize (rev s). intros l. induction l as [|y l IH]; simpl; [intros []|].
    destruct (includes chars y) eqn:Hy; [|intros []].
    intros [<- | H]; auto.
  - intros t x H. apply (f_equal (@rev N)) in H. rewrite rev_involutive, rev_app_distr in H.
    simpl in H. eapply dropWhile_head. exact H.
Qed.

(** X10. The content of a multiline value.  After a multiline marker, let the
    first line of the value be the indentation [p], which extends that of
    the section, followed by the text [r1], and let the lines [bs] after it
    each start with [p] or be blank.  The collector takes them all without
    a token, and the [MultilineScalar] it then emits, at the end of the
    input or at the first line that is outside the block, has the line
    number of the first line, and as content the body lines ([r1], then
    each line without the prefix, nothing for a blank line that does not
    reach the prefix) joined with line feeds and cut at the end only: what
    is cut is a run of spaces, tabs, carriage returns and line feeds, and
    all of it.  The first line is taken to hold no U+2028 and no U+2029:
    [trimLeft] reads a line up to the first of them only. *)
Theorem multiline_content st n1 p r1 bs :
  multiline st = true -> multilinePrefix st = [] ->
  forallb isBlank p = true ->
  match r1 with x :: _ => isBlank x = false | [] => True end ->
  forallb notLineTerminator r1 = true ->
  startsWith p (top (stack st)) = true -> str_eqb p (top (stack st)) = false ->
  forallb (bodyLine p) (map snd bs) = true ->
  let joined := join [LF] (r1 :: map (fun l => bodyOf p (snd l)) bs) in
  let text := trimRight joined [SP; TAB; CR; LF] in
  exists st',
    tokenizeLines st ((n1, p ++ r1) :: bs) = ([], Ret st') /\
    stack st' = stack st /\
    (exists err, tokenizeFlush st' = [mkToken n1 MultilineScalar text err]) /\
    (forall n c,
       startsWith c p = false ->
       (exists x t, dropWhile isBlank c = x :: t /\ notLineTerminator x = true) ->
       exists ts r, tokenizeLine st' (n, c) = (mkToken n1 MultilineScalar text None :: ts, r)) /\
    (exists tail, joined = text ++ tail /\
                  forallb (includes [SP; TAB; CR; LF]) tail = true /\
                  forall t x, text = t ++ [x] -> includes [SP; TAB; CR; LF] x = false).
Proof.
  intros Hm Hpre Hp Hr1 Hl Hsw Hneq Hbs joined text.
  assert (Hpne : p <> []).
  { intros ->. destruct (top (stack st)); simpl in *; discriminate. }
  exists (mkState (stack st) true p joined n1).
  split; [|split; [reflexivity|split; [|split]]].
  - cbn [tokenizeLines]. unfold tokenizeLine at 1.
    rewrite (trimLeft_indented p r1 Hp Hr1 Hl), Hm, Hpre. cbn [isEmpty].
    rewrite Hsw, Hneq. cbn [andb negb]. unfold bind, ret.
    rewrite (tokenizeLines_body p bs (stack st) r1 n1 [r1] Hpne); auto; discriminate.
  - unfold tokenizeFlush. cbn [multiline multilineValue multilineLno].
    destruct joined as [|j0 joined'] eqn:Hj.
    + cbn [isEmpty negb]. exists (Some MissingMultilineValue). reflexivity.
    + cbn [isEmpty negb]. eexists. reflexivity.
  - intros n c Hc (x & t & Hd & Hx). unfold tokenizeLine.
    destruct (trimLeft c) as [indent rest] eqn:Ht.
    cbn [multiline multilinePrefix multilineValue multilineLno stack].
    destruct p as [|p0 p']; [congruence|]. cbn [isEmpty]. rewrite Hc.
    assert (Hrest : isEmpty rest = false).
    { rewrite RegexProps.trimLeft_spec in Ht. inversion Ht; subst.
      rewrite Hd. simpl. rewrite Hx. reflexivity. }
    rewrite Hrest. unfold bind, yield.
    destruct (tokenizeEntry _ n indent rest) as [ts r]. exists ts, r. reflexivity.
  - apply trimRight_spec.
Qed.

(** *** Trailing comments *)

Lemma substring_0 s n : substring s 0 n = firstn n s.
Proof.
  unfold substring. rewrite Nat.min_0_l, Nat.max_0_l, Nat.min_0_l, Nat.sub_0_r. simpl.
  destruct (Nat.le_ge_cases n (length s)) as [H|H].
  - rewrite Nat.min_l by assumption. reflexivity.
  - rewrite Nat.min_r by assumption. rewrite !firstn_all2 by lia. reflexivity.
Qed.

Lemma indexOf_none c s : forallb (fun x => negb (N.eqb x c)) s = true -> indexOf c s = None.
Proof.
  induction s as [|x s IH]; simpl; [reflexivity|]. intros H.
  apply andb_true_iff in H. destruct H as [Hx H]. apply negb_true_iff in Hx.
  rewrite Hx, (IH H). reflexivity.
Qed.

Lemma indexOf_app c a b :
  forallb (fun x => negb (N.eqb x c)) a = true ->
  indexOf c (a ++ b) = match indexOf c b with Some j => Some (length a + j) | None => None end.
Proof.
  induction a as [|x a IH]; simpl; intros H.
  - destruct (indexOf c b); reflexivity.
  - apply andb_true_iff in H. destruct H as [Hx H]. apply negb_true_iff in Hx.
    rewrite Hx, (IH H). destruct (indexOf c b); reflexivity.
Qed.

Lemma firstn_app_exact (a b : str) : firstn (length a) (a ++ b) = a.
Proof. rewrite firstn_app, firstn_all, Nat.sub_diag. simpl. apply app_nil_r. Qed.

Lemma skipn_app_exact (a b : str) : skipn (length a) (a ++ b) = b.
Proof. rewrite skipn_app, skipn_all, Nat.sub_diag. reflexivity. Qed.

Lemma splitUnquoted_value b comment :
  noSemi b = true ->
  splitUnquoted (b ++ SEMI :: comment) false = (trimEnd b, SEMI :: comment).
Proof.
  intros Hb. unfold splitUnquoted.
  rewrite (LiteralProps.indexOf_app_stop SEMI b comment Hb).
  rewrite substring_0, firstn_app_exact. unfold substringFrom. rewrite skipn_app_exact.
  reflexivity.
Qed.

Lemma splitUnquoted_key_comment b comment :
  noSemi b = true -> noEquals b = true ->
  splitUnquoted (b ++ SEMI :: comment) true = (trimEnd b, SEMI :: comment).
Proof.
  intros Hs He. pose proof (splitUnquoted_value b comment Hs) as Hv.
  unfold splitUnquoted in *.
  rewrite (indexOf_app EQUALS b (SEMI :: comment) He).
  destruct (indexOf EQUALS (SEMI :: comment)) as [j|] eqn:Hj; [|exact Hv].
  rewrite substring_0.
  assert (Hj1 : 1 <= j).
  { simpl in Hj. destruct (indexOf EQUALS comment); inversion Hj; lia. }
  replace (firstn (length b + j) (b ++ SEMI :: comment))
    with (b ++ SEMI :: firstn (j - 1) comment).
  - rewrite (LiteralProps.indexOf_app_stop SEMI b _ Hs).
    rewrite substring_0, firstn_app_exact. unfold substringFrom. rewrite skipn_app_exact.
    reflexivity.
  - rewrite firstn_app. replace (length b + j - length b) with (S (j - 1)) by lia.
    rewrite (@firstn_all2 _ (length b + j) b) by lia. reflexivity.
Qed.

Lemma splitUnquoted_key_equals b1 tail :
  noSemi b1 = true -> noEquals b1 = true ->
  splitUnquoted (b1 ++ EQUALS :: tail) true = (trimEnd b1, EQUALS :: tail).
Proof.
  intros Hs He. unfold splitUnquoted.
  rewrite (LiteralProps.indexOf_app_stop EQUALS b1 tail He).
  rewrite substring_0, firstn_app_exact.
  rewrite (indexOf_none SEMI b1 Hs). unfold substringFrom. rewrite skipn_app_exact.
  reflexivity.
Qed.

Lemma trimEnd_prefix s : exists tail, s = trimEnd s ++ tail.
Proof.
  unfold trimEnd. exists (rev (takeWhile isJsSpace (rev s))).
  rewrite <- rev_app_distr, RegexProps.takeWhile_dropWhile, rev_involutive. reflexivity.
Qed.

Lemma trimEnd_not_quoted s :
  match s with x :: _ => N.eqb x QUOTE = false | [] => True end ->
  startsWith (trimEnd s) [QUOTE] = false.
Proof.
  intros H. destruct (trimEnd_prefix s) as [tail Ht].
  destruct (trimEnd s) as [|y t]; [reflexivity|].
  destruct s as [|x s']; [discriminate|]. inversion Ht; subst. simpl. rewrite H. reflexivity.
Qed.

Lemma decodeLiteral_bare s :
  startsWith s [QUOTE] = false -> decodeLiteral s = Ret (s, None).
Proof. intros H. unfold decodeLiteral. rewrite H. reflexivity. Qed.

Lemma dropWhile_app_stop2 (p : N -> bool) a x b :
  p x = false -> dropWhile p (a ++ x :: b) = dropWhile p a ++ x :: b.
Proof.
  intros Hx. induction a as [|y a IH]; simpl.
  - rewrite Hx. reflexivity.
  - destruct (p y); [exact IH | reflexivity].
Qed.

Lemma forallb_dropWhile (p q : N -> bool) s :
  forallb q s = true -> forallb q (dropWhile p s) = true.
Proof.
  induction s as [|x s IH]; simpl; [reflexivity|]. intros H.
  apply andb_true_iff in H. destruct H as [Hx H].
  destruct (p x); [auto|]. simpl. rewrite Hx, H. reflexivity.
Qed.

Lemma bare_noSemi s : forallb bare s = true -> noSemi s = true.
Proof.
  unfold noSemi. induction s as [|x s IH]; simpl; [reflexivity|]. unfold bare at 1.
  intros H. apply andb_true_iff in H. destruct H as [Hx H].
  apply andb_true_iff in Hx. destruct Hx as [-> _]. simpl. auto.
Qed.

(** The value part of a line whose bare text is followed by a comment. *)
Lemma tokenizeValue_comment st lno b comment :
  forallb bare b = true ->
  exists ts,
    tokenizeValue st lno (dropWhile isBlank (b ++ SEMI :: comment))
    = (ts ++ [mkToken lno Comment comment None], Ret st).
Proof.
  intros Hb. rewrite (dropWhile_app_stop2 isBlank b SEMI comment eq_refl).
  pose proof (forallb_dropWhile isBlank bare b Hb) as Hb'.
  destruct (dropWhile isBlank b) as [|y b'] eqn:Hd.
  - exists []. unfold tokenizeValue. simpl. reflexivity.
  - pose proof Hb' as Hy. simpl in Hy. apply andb_true_iff in Hy. destruct Hy as [Hy _].
    unfold bare in Hy. apply andb_true_iff in Hy. destruct Hy as [Hys Hyq].
    apply negb_true_iff in Hys, Hyq.
    unfold tokenizeValue.
    assert (Hc1 : cutPrefix ((y :: b') ++ SEMI :: comment) [SEMI]
                  = ((y :: b') ++ SEMI :: comment, false)).
    { unfold cutPrefix. simpl. rewrite Hys. reflexivity. }
    assert (Hc2 : cutPrefix ((y :: b') ++ SEMI :: comment) [QUOTE; QUOTE; QUOTE]
                  = ((y :: b') ++ SEMI :: comment, false)).
    { unfold cutPrefix. simpl. rewrite Hyq. reflexivity. }
    rewrite Hc1, Hc2.
    assert (Hsl : splitLiteral ((y :: b') ++ SEMI :: comment) false
                  = (trimEnd (y :: b'), SEMI :: comment)).
    { unfold splitLiteral. simpl startsWith. rewrite Hyq. cbn [andb].
      apply splitUnquoted_value. apply bare_noSemi. exact Hb'. }
    rewrite Hsl.
    assert (Hco : commentOf lno (SEMI :: comment) = [mkToken lno Comment comment None]).
    { unfold commentOf, cutPrefix. simpl. reflexivity. }
    destruct (negb (isEmpty (trimEnd (y :: b')))).
    + rewrite decodeLiteral_bare by (apply trimEnd_not_quoted; exact Hyq).
      exists [mkToken lno Scalar (trimEnd (y :: b')) None].
      unfold bind, lift, yield. cbn [fst snd]. rewrite Hco. reflexivity.
    + exists []. unfold bind, ret. rewrite Hco. reflexivity.
Qed.

Lemma str_eqb_eq a : forall b, str_eqb a b = true -> a = b.
Proof.
  induction a as [|x a IH]; intros [|y b]; simpl; try discriminate; [reflexivity|].
  intros H. apply andb_true_iff in H. destruct H as [Hx H].
  apply N.eqb_eq in Hx. subst. f_equal. auto.
Qed.

Lemma str_eqb_refl a : str_eqb a a = true.
Proof. induction a as [|x a IH]; simpl; [reflexivity|]. rewrite N.eqb_refl. exact IH. Qed.

Lemma str_eqb_cons x s : str_eqb (x :: s) s = false.
Proof.
  destruct (str_eqb (x :: s) s) eqn:H; [|reflexivity].
  apply str_eqb_eq in H. apply (f_equal (@length N)) in H. simpl in H. lia.
Qed.

Lemma trimLeft_rest s :
  forallb notLineTerminator s = true -> snd (trimLeft s) = dropWhile isBlank s.
Proof.
  intros H. rewrite RegexProps.trimLeft_spec. simpl.
  apply takeWhile_all. apply forallb_dropWhile. exact H.
Qed.

Lemma split_at_equals body :
  noEquals body = true \/
  exists b1 b2, body = b1 ++ EQUALS :: b2 /\ noEquals b1 = true.
Proof.
  unfold noEquals. induction body as [|x body IH]; [left; reflexivity|].
  destruct (N.eqb x EQUALS) eqn:Hx.
  - right. apply N.eqb_eq in Hx. subst. exists [], body. split; reflexivity.
  - destruct IH as [IH | (b1 & b2 & -> & Hb1)].
    + left. simpl. rewrite Hx, IH. reflexivity.
    + right. exists (x :: b1), b2. split; [reflexivity|]. simpl. rewrite Hx, Hb1. reflexivity.
Qed.

Lemma forallb_app_l {A} (p : A -> bool) a b : forallb p (a ++ b) = true -> forallb p a = true.
Proof. rewrite forallb_app. intros H. apply andb_true_iff in H. tauto. Qed.

Lemma forallb_app_r {A} (p : A -> bool) a b : forallb p (a ++ b) = true -> forallb p b = true.
Proof. rewrite forallb_app. intros H. apply andb_true_iff in H. tauto. Qed.

Lemma splitQuoted_closed input key inner after : forall i esc,
  closedQuote esc inner = true ->
  splitQuoted input key i esc (inner ++ QUOTE :: after)
  = let '(before, after') := splitUnquoted (substringFrom input (i + length inner + 1)) key in
    if negb (isEmpty before)
    then (substring input 0 (i + length inner + 1) ++ before, after')
    else (substring input 0 (i + length inner + 1), after').
Proof.
  induction inner as [|c t IH]; intros i esc H; simpl in *.
  - apply negb_true_iff in H. subst esc. rewrite Nat.add_0_r. reflexivity.
  - destruct (N.eqb c QUOTE && negb esc); [discriminate|].
    rewrite (IH (S i) _ H).
    replace (S i + length t + 1) with (i + S (length t) + 1) by lia. reflexivity.
Qed.

Lemma splitLiteral_quoted inner after key :
  closedQuote false inner = true ->
  splitLiteral (QUOTE :: inner ++ QUOTE :: after) key
  = (QUOTE :: inner ++ QUOTE :: fst (splitUnquoted after key), snd (splitUnquoted after key)).
Proof.
  intros H. unfold splitLiteral. cbn [startsWith]. rewrite N.eqb_refl. cbn [andb].
  unfold substringFrom at 1. cbn [skipn].
  rewrite (splitQuoted_closed _ key inner after 1 false H).
  assert (Hsub : substring (QUOTE :: inner ++ QUOTE :: after) 0 (1 + length inner + 1)
                 = QUOTE :: inner ++ [QUOTE]).
  { rewrite substring_0.
    replace (QUOTE :: inner ++ QUOTE :: after) with ((QUOTE :: inner ++ [QUOTE]) ++ after)
      by (simpl; rewrite <- app_assoc; reflexivity).
    replace (1 + length inner + 1) with (length (QUOTE :: inner ++ [QUOTE]))
      by (simpl; rewrite length_app; simpl; lia).
    apply firstn_app_exact. }
  assert (Hfrom : substringFrom (QUOTE :: inner ++ QUOTE :: after) (1 + length inner + 1) = after).
  { unfold substringFrom.
    replace (QUOTE :: inner ++ QUOTE :: after) with ((QUOTE :: inner ++ [QUOTE]) ++ after)
      by (simpl; rewrite <- app_assoc; reflexivity).
    replace (1 + length inner + 1) with (length (QUOTE :: inner ++ [QUOTE]))
      by (simpl; rewrite length_app; simpl; lia).
    apply skipn_app_exact. }
  rewrite Hsub, Hfrom. destruct (splitUnquoted after key) as [before after'].
  cbn [fst snd]. destruct before; cbn [isEmpty negb].
  - reflexivity.
  - simpl. rewrite <- app_assoc. reflexivity.
Qed.

Lemma dropWhile_blanks bl x t :
  forallb isBlank bl = true -> isBlank x = false ->
  dropWhile isBlank (bl ++ x :: t) = x :: t.
Proof.
  intros Hbl Hx. induction bl as [|y bl IH]; cbn [app dropWhile forallb] in *.
  - rewrite Hx. reflexivity.
  - apply andb_true_iff in Hbl. destruct Hbl as [Hy Hbl]. rewrite Hy. auto.
Qed.

Lemma commentOf_comment lno comment :
  commentOf lno (SEMI :: comment) = [mkToken lno Comment comment None].
Proof. reflexivity. Qed.

Lemma closedQuote_first c t : closedQuote false (c :: t) = true -> N.eqb c QUOTE = false.
Proof. simpl. destruct (N.eqb c QUOTE); [discriminate | reflexivity]. Qed.

(** The value part of a line whose value is followed by a comment. *)
Lemma tokenizeValue_valueText st lno v comment :
  valueText v ->
  exists ts st',
    tokenizeValue st lno (dropWhile isBlank (v ++ SEMI :: comment))
    = (ts ++ [mkToken lno Comment comment None], Ret st').
Proof.
  intros Hv. destruct Hv as [b Hb | bl inner b Hbl Hin Hb Hnm Hdec | bl h Hbl Hh Hq].
  - destruct (tokenizeValue_comment st lno b comment Hb) as [ts H]. exists ts, st. exact H.
  - repeat (rewrite <- app_assoc; cbn [app]).
    rewrite (dropWhile_blanks bl QUOTE _ Hbl eq_refl).
    unfold tokenizeValue.
    assert (Hc1 : cutPrefix (QUOTE :: inner ++ QUOTE :: b ++ SEMI :: comment) [SEMI]
                  = (QUOTE :: inner ++ QUOTE :: b ++ SEMI :: comment, false)) by reflexivity.
    assert (Hc2 : cutPrefix (QUOTE :: inner ++ QUOTE :: b ++ SEMI :: comment) [QUOTE; QUOTE; QUOTE]
                  = (QUOTE :: inner ++ QUOTE :: b ++ SEMI :: comment, false)).
    { unfold cutPrefix.
      replace (startsWith (QUOTE :: inner ++ QUOTE :: b ++ SEMI :: comment) [QUOTE; QUOTE; QUOTE])
        with false; [reflexivity|].
      destruct inner as [|c t].
      - destruct b as [|y b']; [reflexivity|]. simpl in *. symmetry. exact Hnm.
      - simpl. rewrite (closedQuote_first c t Hin). reflexivity. }
    rewrite Hc1, Hc2.
    rewrite (splitLiteral_quoted inner (b ++ SEMI :: comment) false Hin).
    rewrite (splitUnquoted_value b comment Hb). cbn [fst snd isEmpty negb].
    destruct (decodeLiteral (QUOTE :: inner ++ QUOTE :: trimEnd b)) as [d|e] eqn:Hd;
      [|exfalso; exact (Hdec e eq_refl)].
    exists [mkToken lno Scalar (fst d) (snd d)], st.
    unfold bind, lift, yield. cbn [fst snd]. rewrite commentOf_comment. reflexivity.
  - repeat (rewrite <- app_assoc; cbn [app]).
    rewrite (dropWhile_blanks bl QUOTE _ Hbl eq_refl).
    unfold tokenizeValue.
    assert (Hc1 : cutPrefix (QUOTE :: QUOTE :: QUOTE :: h ++ SEMI :: comment) [SEMI]
                  = (QUOTE :: QUOTE :: QUOTE :: h ++ SEMI :: comment, false)) by reflexivity.
    assert (Hc2 : cutPrefix (QUOTE :: QUOTE :: QUOTE :: h ++ SEMI :: comment) [QUOTE; QUOTE; QUOTE]
                  = (h ++ SEMI :: comment, true)) by reflexivity.
    rewrite Hc1, Hc2.
    assert (Hsl : splitLiteral (h ++ SEMI :: comment) false = (trimEnd h, SEMI :: comment)).
    { unfold splitLiteral.
      replace (startsWith (h ++ SEMI :: comment) [QUOTE]) with false.
      - apply splitUnquoted_value. exact Hh.
      - destruct h; [reflexivity|]. symmetry. exact Hq. }
    rewrite Hsl.
    exists [mkToken lno MultilineHint (trimEnd h) None],
           (mkState (stack st) true (multilinePrefix st) (multilineValue st) lno).
    unfold bind, yield. cbn [fst snd]. rewrite commentOf_comment. reflexivity.
Qed.

(** How [splitLiteral] and [decodeLiteral] read a key. *)
Lemma keyText_split k :
  keyText k ->
  exists lit d x k',
    decodeLiteral lit = Ret d /\ k = x :: k' /\
    N.eqb x SEMI = false /\ N.eqb x EQUALS = false /\ isBlank x = false /\
    (forall comment, splitLiteral (k ++ SEMI :: comment) true = (lit, SEMI :: comment)) /\
    (forall t, splitLiteral (k ++ EQUALS :: t) true = (lit, EQUALS :: t)).
Proof.
  intros Hk. destruct Hk as [x b Hxq Hxb Hs He | inner b Hin Hs He Hdec].
  - exists (trimEnd (x :: b)), (trimEnd (x :: b), None), x, b.
    pose proof Hs as Hs'. pose proof He as He'. unfold noSemi in Hs'. unfold noEquals in He'.
    simpl in Hs', He'. apply andb_true_iff in Hs', He'.
    destruct Hs' as [Hxs _]. destruct He' as [Hxe _]. apply negb_true_iff in Hxs, Hxe.
    repeat split; try assumption.
    + apply decodeLiteral_bare. apply trimEnd_not_quoted. exact Hxq.
    + intros comment. unfold splitLiteral. cbn [app startsWith]. rewrite Hxq. cbn [andb].
      apply (splitUnquoted_key_comment (x :: b) comment Hs He).
    + intros t. unfold splitLiteral. cbn [app startsWith]. rewrite Hxq. cbn [andb].
      apply (splitUnquoted_key_equals (x :: b) t Hs He).
  - destruct (decodeLiteral (QUOTE :: inner ++ QUOTE :: trimEnd b)) as [d|e] eqn:Hd;
      [|exfalso; exact (Hdec e eq_refl)].
    exists (QUOTE :: inner ++ QUOTE :: trimEnd b), d, QUOTE, (inner ++ QUOTE :: b).
    repeat split; try reflexivity.
    + exact Hd.
    + intros comment. cbn [app]. rewrite <- app_assoc. cbn [app].
      rewrite (splitLiteral_quoted inner (b ++ SEMI :: comment) true Hin).
      rewrite (splitUnquoted_key_comment b comment Hs He). reflexivity.
    + intros t. cbn [app]. rewrite <- app_assoc. cbn [app].
      rewrite (splitLiteral_quoted inner (b ++ EQUALS :: t) true Hin).
      rewrite (splitUnquoted_key_equals b t Hs He). reflexivity.
Qed.

Lemma tokenizeEntry_entryText st lno ind body comment :
  entryText body ->
  forallb notLineTerminator body = true ->
  forallb notLineTerminator comment = true ->
  exists ts st',
    tokenizeEntry st lno ind (body ++ SEMI :: comment)
    = (ts ++ [mkToken lno Comment comment None], Ret st').
Proof.
  intros Hbody Hlb Hlc. unfold tokenizeEntry.
  destruct (popOutdents lno ind (stack st)) as [stk1 outdents].
  destruct (pushIndent lno ind stk1) as [stk2 indents].
  set (st2 := mkState stk2 (multiline st) (multilinePrefix st) (multilineValue st)
                      (multilineLno st)).
  assert (Hltail : forall b, forallb notLineTerminator b = true ->
                     forallb notLineTerminator (b ++ SEMI :: comment) = true).
  { intros b Hb. rewrite forallb_app, Hb. simpl. exact Hlc. }
  destruct Hbody as [ | v Hv | k Hk | k v Hk Hv].
  - exists [], st. reflexivity.
  - (* a list item *)
    cbn [app isEmpty].
    assert (Hc1 : cutPrefix (EQUALS :: v ++ SEMI :: comment) [SEMI]
                  = (EQUALS :: v ++ SEMI :: comment, false)) by reflexivity.
    assert (Hc2 : cutPrefix (EQUALS :: v ++ SEMI :: comment) [EQUALS]
                  = (v ++ SEMI :: comment, true)) by reflexivity.
    rewrite Hc1, Hc2.
    simpl in Hlb. rewrite (trimLeft_rest _ (Hltail v Hlb)).
    destruct (tokenizeValue_valueText st2 lno v comment Hv) as (tsv & st' & Hval).
    unfold bind, yield. rewrite Hval.
    exists ((outdents ++ indents) ++ mkToken lno ListItem [] None :: tsv), st'.
    rewrite <- !app_assoc. reflexivity.
  - (* a key without value *)
    destruct (keyText_split k Hk) as (lit & d & x & k' & Hd & -> & Hxs & Hxe & Hxb & Hsc & _).
    cbn [app isEmpty].
    assert (Hc1 : cutPrefix (x :: k' ++ SEMI :: comment) [SEMI]
                  = (x :: k' ++ SEMI :: comment, false))
      by (unfold cutPrefix; cbn [startsWith]; rewrite Hxs; reflexivity).
    assert (Hc2 : cutPrefix (x :: k' ++ SEMI :: comment) [EQUALS]
                  = (x :: k' ++ SEMI :: comment, false))
      by (unfold cutPrefix; cbn [startsWith]; rewrite Hxe; reflexivity).
    rewrite Hc1, Hc2.
    change (x :: k' ++ SEMI :: comment) with ((x :: k') ++ SEMI :: comment).
    rewrite (Hsc comment), Hd.
    rewrite (trimLeft_rest (SEMI :: comment)) by (simpl; exact Hlc).
    cbn [dropWhile isBlank existsb N.eqb SEMI SP TAB Pos.eqb orb].
    assert (Hcut : cutPrefix (SEMI :: comment) [EQUALS] = (SEMI :: comment, false))
      by reflexivity.
    rewrite Hcut. cbn [fst].
    rewrite str_eqb_refl. cbn [negb].
    destruct (tokenizeValue_valueText st2 lno [] comment (value_bare [] eq_refl))
      as (tsv & st' & Hval).
    cbn [app dropWhile isBlank existsb N.eqb SEMI SP TAB Pos.eqb orb] in Hval.
    unfold bind, yield, lift. cbn [fst snd]. rewrite Hval.
    exists ((outdents ++ indents) ++ mkToken lno MapKey (fst d) (snd d) :: tsv), st'.
    rewrite <- !app_assoc. reflexivity.
  - (* a key and a value *)
    destruct (keyText_split k Hk) as (lit & d & x & k' & Hd & -> & Hxs & Hxe & Hxb & _ & Hse).
    rewrite <- app_assoc. cbn [app isEmpty].
    assert (Hc1 : cutPrefix (x :: k' ++ EQUALS :: v ++ SEMI :: comment) [SEMI]
                  = (x :: k' ++ EQUALS :: v ++ SEMI :: comment, false))
      by (unfold cutPrefix; cbn [startsWith]; rewrite Hxs; reflexivity).
    assert (Hc2 : cutPrefix (x :: k' ++ EQUALS :: v ++ SEMI :: comment) [EQUALS]
                  = (x :: k' ++ EQUALS :: v ++ SEMI :: comment, false))
      by (unfold cutPrefix; cbn [startsWith]; rewrite Hxe; reflexivity).
    rewrite Hc1, Hc2.
    change (x :: k' ++ EQUALS :: v ++ SEMI :: comment)
      with ((x :: k') ++ EQUALS :: v ++ SEMI :: comment).
    rewrite (Hse (v ++ SEMI :: comment)), Hd.
    assert (Hlv : forallb notLineTerminator v = true).
    { apply forallb_app_r in Hlb. simpl in Hlb. exact Hlb. }
    rewrite (trimLeft_rest (EQUALS :: v ++ SEMI :: comment))
      by (simpl; apply Hltail; exact Hlv).
    cbn [dropWhile isBlank existsb N.eqb EQUALS SP TAB Pos.eqb orb].
    assert (Hcut : cutPrefix (EQUALS :: v ++ SEMI :: comment) [EQUALS]
                   = (v ++ SEMI :: comment, true)) by reflexivity.
    rewrite Hcut. cbn [fst].
    rewrite str_eqb_cons. cbn [negb].
    rewrite (trimLeft_rest _ (Hltail v Hlv)).
    destruct (tokenizeValue_valueText st2 lno v comment Hv) as (tsv & st' & Hval).
    unfold bind, yield, lift. cbn [fst snd]. rewrite Hval.
    exists ((outdents ++ indents) ++ mkToken lno MapKey (fst d) (snd d) :: tsv), st'.
    rewrite <- !app_assoc. reflexivity.
Qed.

Lemma entryText_first body :
  entryText body -> match body with x :: _ => isBlank x = false | [] => True end.
Proof.
  intros [ | v Hv | k Hk | k v Hk Hv]; try exact I; try reflexivity.
  - destruct (keyText_split k Hk) as (_ & _ & x & k' & _ & -> & _ & _ & Hxb & _). exact Hxb.
  - destruct (keyText_split k Hk) as (_ & _ & x & k' & _ & -> & _ & _ & Hxb & _). exact Hxb.
Qed.

(** Bare text before the comment is such a text. *)
Lemma bare_entryText body :
  forallb bare body = true ->
  match body with x :: _ => isBlank x = false | [] => True end ->
  entryText body.
Proof.
  intros Hbare Hfirst. destruct body as [|x b']; [constructor|].
  pose proof Hbare as Hx. simpl in Hx. apply andb_true_iff in Hx. destruct Hx as [Hx Hb'].
  unfold bare in Hx. apply andb_true_iff in Hx. destruct Hx as [Hxs Hxq].
  apply negb_true_iff in Hxq.
  destruct (N.eqb x EQUALS) eqn:Hxe.
  - apply N.eqb_eq in Hxe. subst x. apply entry_item, value_bare. exact Hb'.
  - destruct (split_at_equals (x :: b')) as [Hne | (b1 & b2 & Hbody & Hne1)].
    + apply entry_key, key_bare; try assumption. apply bare_noSemi. exact Hbare.
    + destruct b1 as [|y b1'].
      { inversion Hbody; subst. rewrite N.eqb_refl in Hxe. discriminate. }
      inversion Hbody; subst y b'.
      change (x :: b1' ++ EQUALS :: b2) with ((x :: b1') ++ EQUALS :: b2).
      change (x :: b1' ++ EQUALS :: b2) with ((x :: b1') ++ EQUALS :: b2) in Hbare.
      apply entry_key_value.
      * apply key_bare; try assumption. apply bare_noSemi. exact (forallb_app_l _ _ _ Hbare).
      * apply value_bare. apply forallb_app_r in Hbare. simpl in Hbare. exact Hbare.
Qed.

(** X9. The comment at the end of a line.  A line that the multiline collector
    does not take, made of its indentation, an entry (nothing, a list item
    or a key, with or without a value; keys and values bare or quoted, the
    value possibly a multiline marker with its hint), a semicolon and the
    comment: the last token the raw tokenizer yields for it is the
    [Comment] whose content is the text after the semicolon, unchanged, a
    leading space and further semicolons included.  The line is taken to
    hold no U+2028 and no U+2029, where [trimLeft] stops reading; a quoted
    literal is closed, and the decoder raises no exception on it. *)
Theorem trailing_comment st lno ind body comment :
  multiline st = false ->
  forallb isBlank ind = true ->
  entryText body ->
  forallb notLineTerminator body = true ->
  forallb notLineTerminator comment = true ->
  exists ts st',
    tokenizeLine st (lno, ind ++ body ++ SEMI :: comment)
    = (ts ++ [mkToken lno Comment comment None], Ret st').
Proof.
  intros Hm Hind Hbody Hlb Hlc. unfold tokenizeLine.
  rewrite (trimLeft_indented ind (body ++ SEMI :: comment) Hind).
  - rewrite Hm. apply tokenizeEntry_entryText; assumption.
  - pose proof (entryText_first body Hbody) as Hf. destruct body; [reflexivity | exact Hf].
  - rewrite forallb_app, Hlb. simpl. exact Hlc.
Qed.

Lemma multiline_content_witness :
  exists st',
    tokenizeLines (mkState [[]] true [] [] 1)
      [(2, u "  " ++ u "line1"); (3, u "    indented"); (4, u ""); (5, u "  line2  ")]
    = ([], Ret st')
    /\ exists err, tokenizeFlush st'
                   = [mkToken 2 MultilineScalar
                        (u "line1" ++ [LF] ++ u "  indented" ++ [LF] ++ [LF] ++ u "line2") err].
Proof.
  destruct (multiline_content (mkState [[]] true [] [] 1) 2 (u "  ") (u "line1")
              [(3, u "    indented"); (4, u ""); (5, u "  line2  ")]
              eq_refl eq_refl eq_refl eq_refl eq_refl eq_refl eq_refl eq_refl)
    as (st' & Hrun & _ & Hflush & _).
  exists st'. split; [exact Hrun | exact Hflush].
Defined.

Lemma trailing_comment_witness :
  exists ts st',
    tokenizeLine initialState
      (1, u "  "
          ++ ((QUOTE :: u "a;b" ++ QUOTE :: u " ")
                ++ EQUALS :: (u " " ++ QUOTE :: (u "x" ++ [BSLASH; QUOTE] ++ u "=y")
                                ++ QUOTE :: u " "))
          ++ SEMI :: u " note ; more")
    = (ts ++ [mkToken 1 Comment (u " note ; more") None], Ret st').
Proof.
  apply (trailing_comment initialState 1 (u "  ")
           ((QUOTE :: u "a;b" ++ QUOTE :: u " ")
              ++ EQUALS :: (u " " ++ QUOTE :: (u "x" ++ [BSLASH; QUOTE] ++ u "=y")
                              ++ QUOTE :: u " "))
           (u " note ; more")); try reflexivity.
  apply entry_key_value.
  - apply key_quoted; try reflexivity. intros e H. vm_compute in H. discriminate H.
  - apply value_quoted; try reflexivity. intros e H. vm_compute in H. discriminate H.
Defined.

(** The same for the line  key = value ; this is a comment  without quotes. *)
Lemma trailing_comment_bare :
  tokenizeLine initialState (1, u "key = value " ++ SEMI :: u " this is a comment")
  = ([mkToken 1 MapKey (u "key") None;
      mkToken 1 Scalar (u "value") None;
      mkToken 1 Comment (u " this is a comment") None], Ret initialState).
Proof. vm_compute. reflexivity. Qed.

(** The validator passes a [Comment] token through as it is. *)
Lemma tokensStep_comment v lno comment err :
  tokensStep v (mkToken lno Comment comment err)
  = ([mkToken lno Comment comment err], Ret (mkValidator (states v) lno)).
Proof. reflexivity. Qed.

(** *** Sections of one kind *)

(** The first [ListItem] or [MapKey] of a section fixes its kind and is
    passed on as it is, after a [NoValue] for a key left without value. *)
Lemma tokensStep_fixes_kind v t state below :
  states v = state :: below -> skind state = Comment ->
  kind t = ListItem \/ kind t = MapKey ->
  tokensStep v t
  = ((if hasKey state then [mkToken (lno t) NoValue [] None] else []) ++ [t],
     Ret (mkValidator (mkParseState (kind t) true :: below) (lno t))).
Proof.
  intros Hst Hsk Hk. unfold tokensStep. rewrite Hst, Hsk.
  destruct Hk as [K | K]; rewrite K; cbn [TokenKind_eqb andb];
    unfold bind, yield, ret; destruct (hasKey state); reflexivity.
Qed.

(** A later [ListItem] in a section of map keys is not passed on: an empty
    [MapKey] takes its place and carries the error. *)
Lemma tokensStep_unexpected_list_item v t state below :
  states v = state :: below -> skind state = MapKey -> kind t = ListItem ->
  tokensStep v t
  = ((if hasKey state then [mkToken (lno t) NoValue [] None] else [])
       ++ [mkToken (lno t) MapKey [] (Some UnexpectedListItem)],
     Ret (mkValidator (mkParseState MapKey true :: below) (lastLine v))).
Proof.
  intros Hst Hsk K. unfold tokensStep. rewrite Hst, Hsk, K.
  unfold bind, yield, ret. destruct (hasKey state); reflexivity.
Qed.

(** And a later [MapKey] in a section of list items likewise. *)
Lemma tokensStep_unexpected_map_key v t state below :
  states v = state :: below -> skind state = ListItem -> kind t = MapKey ->
  tokensStep v t
  = ((if hasKey state then [mkToken (lno t) NoValue [] None] else [])
       ++ [mkToken (lno t) ListItem [] (Some UnexpectedMapKey)],
     Ret (mkValidator (mkParseState ListItem true :: below) (lastLine v))).
Proof.
  intros Hst Hsk K. unfold tokensStep. rewrite Hst, Hsk, K.
  unfold bind, yield, ret. destruct (hasKey state); reflexivity.
Qed.

Lemma sections_app stk a b :
  sections stk (a ++ b) = match sections stk a with
                          | Some stk' => sections stk' b
                          | None => None
                          end.
Proof.
  revert stk. induction a as [|t a IH]; intros stk; simpl; [reflexivity|].
  destruct (sectionStep stk t); auto.
Qed.

Lemma tokensStep_sections v t stk out v' :
  agree (states v) stk -> kindsOK (states v) ->
  tokensStep v t = (out, Ret v') ->
  exists stk', sections stk out = Some stk' /\ agree (states v') stk'.
Proof.
  unfold kindsOK, tokensStep. intros Ha Hk.
  destruct (kind t) eqn:K.
  - (* Comment *)
    intros H. inversion H; subst. simpl. unfold sectionStep. rewrite K. eauto.
  - (* Indent *)
    destruct (states v) as [|[sk hk] below] eqn:Hst; [discriminate|].
    inversion Ha as [|s o sts' stk' Hso Hrest]; subst.
    assert (Ha' : agree (mkParseState Comment false :: mkParseState sk false :: below)
                        (None :: o :: stk')).
    { constructor; [exact I|]. constructor; [exact Hso | exact Hrest]. }
    simpl in Hk. apply andb_true_iff in Hk. destruct Hk as [Hk1 _].
    destruct hk; simpl; unfold bind, yield, ret; simpl; intros H; inversion H; subst;
      simpl; unfold sectionStep; simpl; rewrite ?K.
    + eauto.
    + destruct sk; try discriminate; simpl; rewrite ?K; eauto.
  - (* Outdent *)
    destruct (states v) as [|[sk hk] below] eqn:Hst; [discriminate|].
    inversion Ha as [|s o sts' stk' Hso Hrest]; subst.
    destruct hk; simpl; unfold bind, yield, ret; simpl; intros H; inversion H; subst;
      simpl; unfold sectionStep; simpl; rewrite ?K; eauto.
  - (* MapKey *)
    destruct (states v) as [|[sk hk] below] eqn:Hst; [discriminate|].
    inversion Ha as [|s o sts' stk' Hso Hrest]; subst.
    simpl in Hk. apply andb_true_iff in Hk. destruct Hk as [Hk1 _].
    destruct hk, sk; try discriminate; simpl; unfold bind, yield, ret; simpl;
      intros H; inversion H; subst; clear H; simpl; unfold sectionStep; simpl; rewrite ?K;
      (destruct o as [k|];
       [destruct Hso as [Hsk Hne]; simpl in Hsk; subst k;
        try (exfalso; apply Hne; reflexivity)|]);
      simpl; try (destruct (indentPlaceholder t)); simpl;
      (eexists; split;
       [reflexivity
       | constructor;
         [first [exact I | split; [reflexivity | discriminate]] | assumption]]).
  - (* ListItem *)
    destruct (states v) as [|[sk hk] below] eqn:Hst; [discriminate|].
    inversion Ha as [|s o sts' stk' Hso Hrest]; subst.
    simpl in Hk. apply andb_true_iff in Hk. destruct Hk as [Hk1 _].
    destruct hk, sk; try discriminate; simpl; unfold bind, yield, ret; simpl;
      intros H; inversion H; subst; clear H; simpl; unfold sectionStep; simpl; rewrite ?K;
      (destruct o as [k|];
       [destruct Hso as [Hsk Hne]; simpl in Hsk; subst k;
        try (exfalso; apply Hne; reflexivity)|]);
      simpl; try (destruct (indentPlaceholder t)); simpl;
      (eexists; split;
       [reflexivity
       | constructor;
         [first [exact I | split; [reflexivity | discriminate]] | assumption]]).
  - (* Scalar *)
    destruct (states v) as [|[sk hk] below] eqn:Hst; [discriminate|].
    inversion Ha as [|s o sts' stk' Hso Hrest]; subst.
    simpl; unfold bind, yield, ret; simpl; intros H; inversion H; subst.
    simpl. unfold sectionStep. rewrite K. eexists; split; [reflexivity|].
    constructor; auto.
  - discriminate.
  - (* MultilineScalar *)
    destruct (states v) as [|[sk hk] below] eqn:Hst; [discriminate|].
    inversion Ha as [|s o sts' stk' Hso Hrest]; subst.
    simpl; unfold bind, yield, ret; simpl; intros H; inversion H; subst.
    simpl. unfold sectionStep. rewrite K. eexists; split; [reflexivity|].
    constructor; auto.
  - intros H. inversion H; subst. simpl. unfold sectionStep. rewrite K. eauto.
Qed.

Lemma tokensLoop_sections raw : forall v d d' stk,
  length (states v) = S d -> kindsOK (states v) -> forallb rawKind raw = true ->
  replay d raw = Some d' -> agree (states v) stk ->
  exists out v' stk', tokensLoop v raw = (out, Ret v') /\
                      sections stk out = Some stk' /\ agree (states v') stk'.
Proof.
  induction raw as [|t raw IH]; intros v d d' stk Hl Hk Hraw Hrep Ha.
  - exists [], v, stk. auto.
  - simpl in Hraw. apply andb_true_iff in Hraw. destruct Hraw as [Ht Hraw].
    change (t :: raw) with ([t] ++ raw) in Hrep. rewrite replay_app in Hrep.
    destruct (replay d [t]) as [d1|] eqn:H1; [|discriminate].
    destruct (tokensStep_inv v t d d1 Hl Hk Ht H1) as (out1 & v1 & Hs & _ & Hl1 & Hk1).
    destruct (tokensStep_sections v t stk out1 v1 Ha Hk Hs) as (stk1 & Hsec1 & Ha1).
    destruct (IH v1 d1 d' stk1 Hl1 Hk1 Hraw Hrep Ha1) as (out2 & v2 & stk2 & Hs2 & Hsec2 & Ha2).
    exists (out1 ++ out2), v2, stk2. simpl tokensLoop. unfold bind. rewrite Hs, Hs2.
    rewrite sections_app, Hsec1. auto.
Qed.

Lemma tokensFlush_sections l sts : forall stk,
  agree sts stk -> exists stk', sections stk (tokensFlush l sts) = Some stk'.
Proof.
  induction sts as [|state below IH]; intros stk Ha.
  - exists stk. reflexivity.
  - inversion Ha as [|s o sts' stk' Hso Hrest]; subst.
    cbn [tokensFlush]. rewrite !sections_app.
    replace (sections (o :: stk') (if hasKey state then [mkToken l NoValue [] None] else []))
      with (Some (o :: stk')) by (destruct (hasKey state); reflexivity).
    destruct (1 <? length (state :: below)) eqn:Hlen.
    + cbn [sections sectionStep kind]. apply IH. exact Hrest.
    + destruct below; [|discriminate]. exists (o :: stk'). reflexivity.
Qed.

(** X11. In the stream of [tokens], the [ListItem] and [MapKey] tokens of every
    section are of one kind, the placeholders for an unexpected indent
    apart. *)
Lemma sections_of_one_kind input :
  exists stk, sections [None] (fst (tokens input)) = Some stk.
Proof.
  unfold tokens. destruct (tokenize_inv input) as (Hk & [d Hr] & Ht).
  destruct (tokenize input) as [raw r]. simpl in *.
  assert (Ha : agree (states initialValidator) [None]) by (repeat constructor).
  destruct (tokensLoop_sections raw initialValidator 0 d [None] eq_refl eq_refl Hk Hr Ha)
    as (out & v & stk & Hs & Hsec & Hav).
  unfold bind. rewrite Hs. destruct r as [[]|e]; simpl.
  - rewrite sections_app, Hsec. apply tokensFlush_sections. exact Hav.
  - rewrite app_nil_r. eauto.
Qed.

(** *** The missing multiline value *)

Lemma tokenizeValue_state st lno rest ts st' :
  tokenizeValue st lno rest = (ts, Ret st') ->
  st' = st \/
  st' = mkState (stack st) true (multilinePrefix st) (multilineValue st) lno.
Proof.
  unfold tokenizeValue.
  destruct (cutPrefix rest [SEMI]) as [comment [|]].
  - intros H. inversion H. left. reflexivity.
  - destruct (cutPrefix rest [QUOTE; QUOTE; QUOTE]) as [indicator [|]].
    + destruct (splitLiteral indicator false) as [hint afterHint].
      intros H. inversion H. right. reflexivity.
    + destruct (splitLiteral rest false) as [value afterValue].
      unfold bind, lift, yield, ret.
      destruct (negb (isEmpty value)).
      * destruct (decodeLiteral value); intros H; inversion H. left. reflexivity.
      * intros H. inversion H. left. reflexivity.
Qed.

Lemma tokenizeEntry_state st lno indent rest ts st' :
  tokenizeEntry st lno indent rest = (ts, Ret st') ->
  multilinePrefix st' = multilinePrefix st /\
  multilineValue st' = multilineValue st /\
  (multiline st' = multiline st \/ multiline st' = true /\ multilineLno st' = lno).
Proof.
  unfold tokenizeEntry.
  destruct (isEmpty rest); [intros H; inversion H; auto|].
  destruct (cutPrefix rest [SEMI]) as [comment [|]]; [intros H; inversion H; auto|].
  destruct (popOutdents lno indent (stack st)) as [stk1 outdents].
  destruct (pushIndent lno indent stk1) as [stk2 indents].
  set (st2 := mkState stk2 (multiline st) (multilinePrefix st) (multilineValue st)
                      (multilineLno st)).
  assert (Hv : forall cr tsv, tokenizeValue st2 lno cr = (tsv, Ret st') ->
             multilinePrefix st' = multilinePrefix st /\
             multilineValue st' = multilineValue st /\
             (multiline st' = multiline st \/ multiline st' = true /\ multilineLno st' = lno)).
  { intros cr tsv H. destruct (tokenizeValue_state _ _ _ _ _ H) as [-> | ->]; simpl; auto. }
  unfold bind, yield, lift. cbn [fst snd].
  destruct (cutPrefix rest [EQUALS]) as [list [|]].
  - destruct (tokenizeValue st2 lno (snd (trimLeft list))) as [tsv [sv|e]] eqn:Htv;
      intros H; inversion H; subst. eapply Hv; eauto.
  - destruct (splitLiteral rest true) as [key afterKey].
    destruct (decodeLiteral key) as [d|e]; [|discriminate].
    match goal with
    | |- context [tokenizeValue st2 lno ?cr] =>
        destruct (tokenizeValue st2 lno cr) as [tsv [sv|e]] eqn:Htv
    end; intros H; inversion H; subst. eapply Hv; eauto.
Qed.

Lemma moreIndented_nonempty indent st : moreIndented indent st = true -> indent <> [].
Proof.
  unfold moreIndented. intros H ->. apply andb_true_iff in H. destruct H as [H1 H2].
  destruct (top (stack st)); discriminate.
Qed.

Lemma tokenizeLine_idle st line ts st' :
  collectorIdle st -> tokenizeLine st line = (ts, Ret st') -> collectorIdle st'.
Proof.
  intros Hidle. destruct line as [lno content]. unfold tokenizeLine.
  destruct (trimLeft content) as [indent rest].
  assert (Hent : forall st0 ts0, multilinePrefix st0 = [] -> multilineValue st0 = [] ->
                   tokenizeEntry st0 lno indent rest = (ts0, Ret st') -> collectorIdle st').
  { intros st0 ts0 Hp Hv H.
    destruct (tokenizeEntry_state _ _ _ _ _ _ H) as (Hp' & Hv' & _).
    split; intros _; congruence. }
  destruct (multiline st) eqn:Hm.
  - destruct (isEmpty (multilinePrefix st)) eqn:Hp.
    + assert (Hp' : multilinePrefix st = [])
        by (destruct (multilinePrefix st); [reflexivity | discriminate]).
      fold (moreIndented indent st).
      destruct (moreIndented indent st) eqn:Hmore.
      * intros H. inversion H; subst. split; simpl; [discriminate|].
        intros ->. exfalso. exact (moreIndented_nonempty _ _ Hmore eq_refl).
      * destruct (isEmpty rest); [intros H; inversion H; subst; exact Hidle|].
        unfold bind, yield. cbn [fst snd].
        destruct (tokenizeEntry _ lno indent rest) as [ts0 [s0|e]] eqn:He;
          intros H; inversion H; subst.
        refine (Hent _ _ _ _ He); [exact Hp' | exact (proj2 Hidle Hp')].
    + assert (Hne : multilinePrefix st <> []) by (intros E; rewrite E in Hp; discriminate).
      destruct (startsWith content (multilinePrefix st)).
      * intros H. inversion H; subst. split; simpl; [discriminate | intros E; contradiction].
      * destruct (isEmpty rest).
        -- intros H. inversion H; subst. split; simpl; [discriminate | intros E; contradiction].
        -- unfold bind, yield. cbn [fst snd].
           destruct (tokenizeEntry _ lno indent rest) as [ts0 [s0|e]] eqn:He;
             intros H; inversion H; subst.
           refine (Hent _ _ _ _ He); reflexivity.
  - intros H. destruct Hidle as [Hi1 Hi2].
    apply (Hent st ts (Hi1 Hm) (Hi2 (Hi1 Hm)) H).
Qed.

Lemma tokenizeLines_idle ls : forall st ts st',
  collectorIdle st -> tokenizeLines st ls = (ts, Ret st') -> collectorIdle st'.
Proof.
  induction ls as [|l ls IH]; intros st ts st' Hi; simpl.
  - intros H. inversion H; subst. exact Hi.
  - unfold bind. destruct (tokenizeLine st l) as [ts1 [st1|e]] eqn:H1; [|discriminate].
    destruct (tokenizeLines st1 ls) as [ts2 r2] eqn:H2. intros H. inversion H; subst.
    apply (IH st1 ts2 st' (tokenizeLine_idle _ _ _ _ Hi H1) H2).
Qed.

(** The line of a multiline marker leaves the collector waiting for the
    first line of the value, with the line number of the marker. *)
Lemma marker_state st lno content ts st' :
  collectorIdle st -> multiline st = false ->
  tokenizeLine st (lno, content) = (ts, Ret st') -> multiline st' = true ->
  multilinePrefix st' = [] /\ multilineValue st' = [] /\ multilineLno st' = lno.
Proof.
  intros [Hi1 Hi2] Hm. unfold tokenizeLine.
  destruct (trimLeft content) as [indent rest]. rewrite Hm. intros H Hm'.
  destruct (tokenizeEntry_state _ _ _ _ _ _ H) as (Hp & Hv & [Hsame | [_ Hl]]).
  - congruence.
  - rewrite Hp, Hv. auto.
Qed.

(** X12. Where the value is reported missing: the collector waits for
    the first line of the value, and the lines that follow up to the end
    of the input, or up to a line that is not blank and not indented
    more than the section, are blank and not indented more than the
    section either.  Then the value is reported missing, in an empty
    [MultilineScalar] that has the line number of the marker. *)
Lemma missing_multiline_value st blanks :
  multiline st = true -> multilinePrefix st = [] -> multilineValue st = [] ->
  forallb (blankLine st) blanks = true ->
  tokenizeLines st blanks = ([], Ret st) /\
  tokenizeFlush st
  = [mkToken (multilineLno st) MultilineScalar [] (Some MissingMultilineValue)] /\
  forall line more,
    entryLine st line = true ->
    exists ts r,
      tokenizeLines st (blanks ++ line :: more)
      = (mkToken (multilineLno st) MultilineScalar [] (Some MissingMultilineValue) :: ts, r).
Proof.
  intros Hm Hp Hv Hblanks.
  assert (Hskip : forall more, tokenizeLines st (blanks ++ more) = tokenizeLines st more).
  { intros more. induction blanks as [|[lno content] blanks IH]; [reflexivity|].
    simpl in Hblanks. apply andb_true_iff in Hblanks. destruct Hblanks as [Hb Hblanks].
    cbn [app tokenizeLines]. unfold tokenizeLine at 1.
    unfold blankLine in Hb. cbn [snd] in Hb.
    destruct (trimLeft content) as [indent rest].
    apply andb_true_iff in Hb. destruct Hb as [Hrest Hmore].
    apply negb_true_iff in Hmore. unfold moreIndented in Hmore.
    rewrite Hm, Hp, Hmore, Hrest. cbn [isEmpty].
    unfold bind, ret. rewrite (IH Hblanks).
    destruct (tokenizeLines st more) as [ts r]. reflexivity. }
  split; [|split].
  - rewrite <- (app_nil_r blanks). rewrite Hskip. reflexivity.
  - unfold tokenizeFlush. rewrite Hm, Hv. reflexivity.
  - intros [lno content] more Hline. rewrite Hskip.
    cbn [tokenizeLines]. unfold tokenizeLine at 1.
    unfold entryLine in Hline. cbn [snd] in Hline.
    destruct (trimLeft content) as [indent rest].
    apply andb_true_iff in Hline. destruct Hline as [Hrest Hmore].
    apply negb_true_iff in Hmore, Hrest. unfold moreIndented in Hmore.
    rewrite Hm, Hp, Hmore, Hrest. cbn [isEmpty].
    unfold bind, yield. cbn [fst snd].
    destruct (tokenizeEntry _ lno indent rest) as [ts1 [st1|e]].
    + destruct (tokenizeLines st1 more) as [ts2 r2]. eexists _, _. reflexivity.
    + eexists _, _. reflexivity.
Qed.

Lemma missing_multiline_value_witness :
  tokenizeLines (mkState [[]] true [] [] 1) [(2, []); (3, [])]
  = ([], Ret (mkState [[]] true [] [] 1)) /\
  tokenizeFlush (mkState [[]] true [] [] 1)
  = [mkToken 1 MultilineScalar [] (Some MissingMultilineValue)].
Proof.
  destruct (missing_multiline_value (mkState [[]] true [] [] 1) [(2, []); (3, [])]
              eq_refl eq_refl eq_refl eq_refl) as (Hlines & Hflush & _).
  split; [exact Hlines | exact Hflush].
Defined.

(** *** Where the lexer leaves its documentation *)

(** C1. The lexer is documented as tolerant: errors are reported in
    [Token.error] and lexing goes on.  On the line  a = Q\{-5}Q  (Q the
    double quote) it does not: [parseInt] reads -5, no check of
    [decodeLiteral] catches a negative code point, and
    [String.fromCodePoint] raises a RangeError that ends the stream after
    the key, without a token for the value. *)
Theorem tokens_aborts_on_negative_code_point :
  tokens (u "a = " ++ [QUOTE] ++ u "\{-5}" ++ [QUOTE])
  = ([mkToken 1 MapKey (u "a") None], Throw RangeError).
Proof. vm_compute. reflexivity. Qed.

(** C2. The stream is documented to pair [Indent] and [Outdent].  When the
    RangeError of C1 ends the lexer inside a nested section, as on

      "a"
      "  b = Q\{-5}Q"       (Q the double quote)

    the closing loop is not reached: the stream has the [Indent] of the
    second line and no [Outdent]. *)
Theorem tokens_unpaired_after_range_error :
  tokens (u "a" ++ [LF] ++ u "  b = " ++ [QUOTE] ++ u "\{-5}" ++ [QUOTE])
  = ([mkToken 1 MapKey (u "a") None;
      mkToken 2 Indent (u "  ") None;
      mkToken 2 MapKey (u "b") None], Throw RangeError)
  /\ countKind Indent
       (fst (tokens (u "a" ++ [LF] ++ u "  b = " ++ [QUOTE] ++ u "\{-5}" ++ [QUOTE]))) = 1
  /\ countKind Outdent
       (fst (tokens (u "a" ++ [LF] ++ u "  b = " ++ [QUOTE] ++ u "\{-5}" ++ [QUOTE]))) = 0.
Proof. repeat split; vm_compute; reflexivity. Qed.

(** C3. The validator is documented to yield, within a section, only
    [ListItem] or only [MapKey] tokens.  For the document

      "  a = 1"
      "= 2"

    the root section gets the [MapKey] token that reports the unexpected
    indent, without the section kind being set to [MapKey], and then the
    [ListItem] of the second line, with no error on it. *)
Theorem tokens_mixed_section_after_unexpected_indent :
  tokens (u "  a = 1" ++ [LF] ++ u "= 2")
  = ([mkToken 1 MapKey [] (Some UnexpectedIndent);
      mkToken 1 Indent (u "  ") None;
      mkToken 1 MapKey (u "a") None;
      mkToken 1 Scalar (u "1") None;
      mkToken 2 Outdent [] None;
      mkToken 2 ListItem [] None;
      mkToken 2 Scalar (u "2") None], Ret tt)
  /\ sectionEntries 0 (fst (tokens (u "  a = 1" ++ [LF] ++ u "= 2"))) = [MapKey; ListItem].
Proof. split; vm_compute; reflexivity. Qed.

(** C5. [trimLeft] is documented to return both parts of the string, the
    blanks at its start and the rest; its pattern reads the rest with the
    atom that matches no U+2028 and no U+2029, and drops what follows the
    first of them.  The first line of a multiline value is read through
    it, so for

      "a = QQQ"               (Q the double quote)
      "  x<U+2028>y"

    the [MultilineScalar] holds  x  only, not the body line. *)
Theorem multiline_cut_at_line_separator :
  trimLeft (u "  x" ++ [LS] ++ u "y") = (u "  ", u "x")
  /\ tokens (u "a = " ++ [QUOTE; QUOTE; QUOTE] ++ [LF] ++ u "  x" ++ [LS] ++ u "y")
     = ([mkToken 1 MapKey (u "a") None;
         mkToken 1 MultilineHint [] None;
         mkToken 2 MultilineScalar (u "x") None], Ret tt).
Proof. split; vm_compute; reflexivity. Qed.

(** C6. After a multiline marker, a line of blanks that is indented more
    than the section is taken as the first line of the value, so that for

      "a = QQQ"       (Q the double quote)
      "  "
      "b = 1"

    where no line that is not blank is indented more than the section, the
    [MultilineScalar] is empty, carries no error, and has the line number
    of the blank line, not of the marker. *)
Theorem tokens_blank_line_hides_missing_multiline :
  tokens (u "a = " ++ [QUOTE; QUOTE; QUOTE] ++ [LF] ++ u "  " ++ [LF] ++ u "b = 1")
  = ([mkToken 1 MapKey (u "a") None;
      mkToken 1 MultilineHint [] None;
      mkToken 2 MultilineScalar [] None;
      mkToken 3 MapKey (u "b") None;
      mkToken 3 Scalar (u "1") None], Ret tt).
Proof. vm_compute. reflexivity. Qed.

(** C9. Every line is read through [trimLeft], which drops what follows
    the first U+2028 or U+2029, so a comment is cut there: for the line

      "k = v ; a<U+2028>b"

    the [Comment] holds  a  with the space before it, not the text after
    the semicolon as it stands; and a comment that comes after such a
    character is not seen at all. *)
Theorem comment_cut_at_line_separator :
  tokens (u "k = v ; a" ++ [LS] ++ u "b")
  = ([mkToken 1 MapKey (u "k") None;
      mkToken 1 Scalar (u "v") None;
      mkToken 1 Comment (u " a") None], Ret tt)
  /\ tokens (u "k = v" ++ [LS] ++ u " ; a")
     = ([mkToken 1 MapKey (u "k") None;
         mkToken 1 Scalar (u "v") None], Ret tt).
Proof. split; vm_compute; reflexivity. Qed.

End LexerProps.

(* ================================================================== *)
(** ** The tokenizer of src/tokenizer.ts *)

Module TokenizerProps.

Import Tokenizer TokenizerSpec.

Lemma nesting_app d a b :
  nesting d (a ++ b) = match nesting d a with
                       | Some d' => nesting d' b
                       | None => None
                       end.
Proof.
  revert d. induction a as [|t a IH]; intros d; simpl; [reflexivity|].
  destruct (kind t); auto. destruct d; auto.
Qed.

Lemma nesting_counts d ts d' :
  nesting d ts = Some d' ->
  d + length (filter isIndent ts) = d' + length (filter isOutdent ts).
Proof.
  revert d. induction ts as [|t ts IH]; intros d; simpl.
  - intros H. inversion H. lia.
  - unfold isIndent at 1, isOutdent at 1.
    destruct (kind t) eqn:K; simpl; intros H; try (apply IH in H; lia).
    destruct d; [discriminate|]. apply IH in H. lia.
Qed.

Lemma nesting_firstn d ts d' n :
  nesting d ts = Some d' -> exists d'', nesting d (firstn n ts) = Some d''.
Proof.
  intros H. rewrite <- (firstn_skipn n ts) in H. rewrite nesting_app in H.
  destruct (nesting d (firstn n ts)) as [d''|]; [eauto | discriminate].
Qed.

Lemma lineNesting_app d a b :
  lineNesting d (a ++ b) = match lineNesting d a with
                           | Some d' => lineNesting d' b
                           | None => None
                           end.
Proof.
  revert d. induction a as [|t a IH]; intros d; simpl; [reflexivity|].
  destruct t as [[]|]; auto. destruct d; auto.
Qed.

Lemma nullBefore_nesting st d : nesting d (nullBefore st) = Some d.
Proof. unfold nullBefore. destruct (lastLno st); reflexivity. Qed.

(** What [tokens] yields for one line token moves the depth as the line
    token does, or stops before at an exception. *)
Lemma handleToken_nesting st lno ind rest t d d' :
  lineNesting d [t] = Some d' ->
  exists d'', nesting d (fst (handleToken st lno ind rest t)) = Some d'' /\
    (forall r, snd (handleToken st lno ind rest t) = Ret r ->
               d'' = d' /\ map findent (stack (fst r)) = map findent (stack st)).
Proof.
  intros Hl. unfold handleToken.
  assert (Hnull : forall k, match k with indent | outdent => False | _ => True end ->
            nesting d (nullBefore st ++ [mkToken lno k]) = Some d).
  { intros k Hk. rewrite nesting_app, nullBefore_nesting. destruct k; try contradiction; reflexivity. }
  destruct t as [[ | | | c | c | ]|]; simpl in Hl.
  - (* indent *)
    inversion Hl; subst. destruct (lastLno st).
    + exists (S d). split; [reflexivity|]. intros r H. inversion H. split; reflexivity.
    + exists d. split; [reflexivity | discriminate].
  - (* outdent *)
    destruct d as [|d0]; [discriminate|]. inversion Hl; subst.
    exists d'. split.
    + cbn [fst]. rewrite nesting_app, nullBefore_nesting. reflexivity.
    + intros r H. inversion H. split; reflexivity.
  - (* item *)
    inversion Hl; subst. exists d'.
    destruct (stack st) as [|f below] eqn:Hstk; [split; [reflexivity | discriminate]|].
    destruct (fkind f) as [[]|]; cbn [fst snd throw];
      (split; [first [reflexivity | apply (Hnull item I)]
              | first [discriminate
                      | intros r H; inversion H; subst; simpl; rewrite ?Hstk; split; reflexivity]]).
  - (* key *)
    inversion Hl; subst. exists d'.
    destruct (stack st) as [|f below] eqn:Hstk; [split; [reflexivity | discriminate]|].
    destruct (fkind f) as [[]|]; cbn [fst snd throw];
      (split; [first [reflexivity | apply (Hnull (key c) I)]
              | first [discriminate
                      | intros r H; inversion H; subst; simpl; rewrite ?Hstk; split; reflexivity]]).
  - inversion Hl; subst. exists d'. split; [reflexivity|].
    intros r H. inversion H. split; reflexivity.
  - inversion Hl; subst. exists d'. split; [reflexivity|].
    intros r H. inversion H. split; reflexivity.
  - inversion Hl; subst. unfold bind, lift.
    destruct (consumeMultiline lno ind rest) as [r0|e] eqn:Hc; cbn [fst snd app].
    + exists d'. split.
      * unfold consumeMultiline in Hc.
        destruct (skipn (blankLines rest) rest) as [|l rest']; [discriminate|].
        destruct (negb (startsWith (lindent l) ind) || str_eqb (lindent l) ind); [discriminate|].
        destruct (collect (lindent l) (lcontent l) rest') as [res n].
        inversion Hc; subst. reflexivity.
      * intros r H. inversion H. split; reflexivity.
    + exists d'. split; [reflexivity | discriminate].
Qed.

Lemma handleTokens_nesting lno ind rest lts : forall st skip d d',
  lineNesting d lts = Some d' ->
  exists d'', nesting d (fst (handleTokens st lno ind rest lts skip)) = Some d'' /\
    (forall r, snd (handleTokens st lno ind rest lts skip) = Ret r ->
               d'' = d' /\ map findent (stack (fst r)) = map findent (stack st)).
Proof.
  induction lts as [|t lts IH]; intros st skip d d' Hl.
  - simpl in *. inversion Hl; subst. exists d'. split; [reflexivity|].
    intros r H. inversion H. split; reflexivity.
  - change (t :: lts) with ([t] ++ lts) in Hl. rewrite lineNesting_app in Hl.
    destruct (lineNesting d [t]) as [d1|] eqn:H1; [|discriminate].
    destruct (handleToken_nesting st lno ind rest t d d1 H1) as (d2 & Hn & Hret).
    cbn [handleTokens]. unfold bind.
    destruct (handleToken st lno ind rest t) as [out [r1|e]]; cbn [fst snd] in *.
    + destruct (Hret r1 eq_refl) as [-> Hlen].
      destruct (IH (fst r1) (skip + snd r1) d1 d' Hl) as (d3 & Hn3 & Hret3).
      destruct (handleTokens (fst r1) lno ind rest lts (skip + snd r1)) as [out' r'];
        cbn [fst snd] in *.
      exists d3. rewrite nesting_app, Hn. split; [exact Hn3|].
      intros r H. destruct (Hret3 r H) as [-> Hlen']. split; [reflexivity | congruence].
    + exists d2. split; [exact Hn | discriminate].
Qed.

Lemma lineNesting_outdents k : forall d lts,
  k <= d -> lineNesting d (repeat (LT outdent) k ++ lts) = lineNesting (d - k) lts.
Proof.
  induction k as [|k IH]; intros d lts Hk; simpl.
  - rewrite Nat.sub_0_r. reflexivity.
  - destruct d as [|d]; [lia|]. rewrite IH by lia. reflexivity.
Qed.

Lemma popOutdents_frames ind stk :
  LexerSpec.bottomed (map findent stk) ->
  LexerSpec.bottomed (map findent (fst (popOutdents ind stk))) /\
  length (fst (popOutdents ind stk)) <= length stk /\
  snd (popOutdents ind stk)
  = repeat (LT outdent) (length stk - length (fst (popOutdents ind stk))).
Proof.
  induction stk as [|f below IH]; intros Hb.
  - destruct Hb as [l Hl]. destruct l; discriminate.
  - cbn [popOutdents]. destruct (startsWith ind (findent f)) eqn:Hsw.
    + cbn [fst snd]. rewrite Nat.sub_diag. auto.
    + assert (Hbelow : LexerSpec.bottomed (map findent below)).
      { destruct Hb as [l Hl]. destruct l as [|x l].
        - simpl in Hl. inversion Hl as [[Hf Hnil]]. rewrite Hf in Hsw.
          destruct ind; discriminate.
        - exists l. simpl in Hl. inversion Hl. reflexivity. }
      destruct (IH Hbelow) as (Hb1 & Hlen & Hout).
      destruct (popOutdents ind below) as [stk' out]. cbn [fst snd] in *.
      split; [exact Hb1|]. split; [simpl; lia|].
      rewrite Hout. simpl length.
      replace (S (length below) - length stk') with (S (length below - length stk')) by lia.
      reflexivity.
Qed.

Lemma lineNesting_flat d lts : forallb flatLine lts = true -> lineNesting d lts = Some d.
Proof.
  induction lts as [|t lts IH]; simpl; [reflexivity|].
  intros H. apply andb_true_iff in H. destruct H as [H1 H2].
  destruct t as [[]|]; try discriminate; auto.
Qed.

Lemma flatLine_bind {A B} (m : gen lineToken A) (k : A -> gen lineToken B) :
  forallb flatLine (fst m) = true ->
  (forall a, forallb flatLine (fst (k a)) = true) ->
  forallb flatLine (fst (bind m k)) = true.
Proof.
  intros Hm Hk. unfold bind. destruct m as [ts [a|e]]; cbn [fst] in *; [|exact Hm].
  specialize (Hk a). destruct (k a) as [ts' r]. cbn [fst] in *.
  rewrite forallb_app, Hm, Hk. reflexivity.
Qed.

(** The line tokens of one line take the depth from that of the stack
    before the line to that of the stack after it. *)
Lemma tokenizeLine_nesting stk lno ind content :
  LexerSpec.bottomed (map findent stk) ->
  LexerSpec.bottomed (map findent (fst (tokenizeLine stk lno ind content))) /\
  lineNesting (length stk - 1) (fst (snd (tokenizeLine stk lno ind content)))
  = Some (length (fst (tokenizeLine stk lno ind content)) - 1).
Proof.
  intros Hb. unfold tokenizeLine.
  destruct (isEmpty content || startsWith content [SEMI]); [split; [exact Hb | reflexivity]|].
  destruct (popOutdents_frames ind stk Hb) as (Hb1 & Hlen & Hout).
  destruct (popOutdents ind stk) as [stk1 outdents]. cbn [fst snd] in Hb1, Hlen, Hout.
  pose proof (LexerProps.bottomed_length _ Hb1) as Hl1. rewrite length_map in Hl1.
  set (rest := match matchPrefix SPLIT_LINE content with
               | None => _ | Some _ => _ end).
  assert (Hrest : forallb flatLine (fst rest) = true).
  { unfold rest. destruct (matchPrefix SPLIT_LINE content) as [[[m s'] c]|]; [|reflexivity].
    apply flatLine_bind.
    - destruct (negb (isEmpty _)); [|reflexivity].
      apply flatLine_bind; [reflexivity | intros a; reflexivity].
    - intros _. destruct (getCap 2 c) as [tail'|]; [|reflexivity].
      destruct (matchPrefix multilineRegex tail'); [reflexivity|].
      destruct (negb (isEmpty tail')); [|reflexivity].
      apply flatLine_bind; [reflexivity | intros a; reflexivity]. }
  destruct (negb (str_eqb ind (topIndent stk1))).
  - cbn [fst snd]. split.
    + destruct Hb1 as [l Hl]. exists (ind :: l). simpl. rewrite Hl. reflexivity.
    + unfold bind. destruct rest as [lts r]. cbn [fst snd] in *.
      rewrite Hout, <- !app_assoc, lineNesting_outdents by lia.
      cbn [app lineNesting]. rewrite (lineNesting_flat _ _ Hrest).
      simpl length. f_equal. lia.
  - cbn [fst snd]. split; [exact Hb1|].
    unfold bind. destruct rest as [lts r]. cbn [fst snd] in *.
    rewrite Hout, app_nil_r, lineNesting_outdents by lia.
    rewrite (lineNesting_flat _ _ Hrest). f_equal. lia.
Qed.

Lemma tokensLoop_nesting ls : forall st lno skip,
  LexerSpec.bottomed (map findent (stack st)) ->
  exists d, nesting (length (stack st) - 1) (fst (tokensLoop st lno skip ls)) = Some d /\
    (forall r, snd (tokensLoop st lno skip ls) = Ret r ->
               d = length (stack (fst r)) - 1 /\ LexerSpec.bottomed (map findent (stack (fst r)))).
Proof.
  induction ls as [|l ls IH]; intros st lno skip Hb.
  - exists (length (stack st) - 1). split; [reflexivity|].
    intros r H. inversion H. split; [reflexivity | exact Hb].
  - cbn [tokensLoop]. destruct skip as [|k]; [|apply IH; exact Hb].
    destruct (tokenizeLine_nesting (stack st) lno (lindent l) (lcontent l) Hb) as [Hb2 Hn].
    destruct (tokenizeLine (stack st) lno (lindent l) (lcontent l)) as [stk [lts r]].
    cbn [fst snd] in Hb2, Hn.
    destruct (handleTokens_nesting lno (lindent l) ls lts (mkTokensState stk (lastLno st)) 0
                (length (stack st) - 1) (length stk - 1) Hn) as (d2 & Hd2 & Hret).
    unfold bind.
    destruct (handleTokens (mkTokensState stk (lastLno st)) lno (lindent l) ls lts 0)
      as [out [h|e]]; cbn [fst snd] in *.
    + destruct (Hret h eq_refl) as [-> Hmap]. cbn [stack] in Hmap.
      destruct r as [[]|e].
      * assert (Hbh : LexerSpec.bottomed (map findent (stack (fst h)))) by (rewrite Hmap; exact Hb2).
        destruct (IH (fst h) (S lno) (snd h) Hbh) as (d3 & Hd3 & Hret3).
        destruct (tokensLoop (fst h) (S lno) (snd h) ls) as [out' r']; cbn [fst snd] in *.
        exists d3. rewrite nesting_app, Hd2.
        assert (Hlen : length (stack (fst h)) = length stk).
        { rewrite <- (length_map findent (stack (fst h))), Hmap, length_map. reflexivity. }
        rewrite <- Hlen. split; [exact Hd3 | exact Hret3].
      * exists (length stk - 1). cbn [fst snd throw]. rewrite app_nil_r.
        split; [exact Hd2 | discriminate].
    + exists d2. split; [exact Hd2 | discriminate].
Qed.

Lemma closeStack_nesting lno stk :
  nesting (length stk - 1) (closeStack lno stk) = Some 0.
Proof.
  induction stk as [|f [|g below] IH]; try reflexivity.
  cbn [closeStack]. simpl length in *. simpl in *. rewrite Nat.sub_0_r in IH. exact IH.
Qed.

Lemma tokens_nesting input :
  (exists d, nesting 0 (fst (tokens input)) = Some d) /\
  (snd (tokens input) = Ret tt -> nesting 0 (fst (tokens input)) = Some 0).
Proof.
  unfold tokens, bind, lift.
  destruct (splitLines (split newlineRegex input)) as [ls|e]; cbn [fst snd app].
  2: { split; [exists 0; reflexivity | discriminate]. }
  destruct (tokensLoop_nesting ls (mkTokensState [mkFrame [] None] None) 0 0) as (d & Hd & Hret).
  { exists []. reflexivity. }
  destruct (tokensLoop (mkTokensState [mkFrame [] None] None) 0 0 ls) as [out [r|e]];
    cbn [fst snd stack length Nat.sub] in *.
  - destruct (Hret r eq_refl) as [-> Hb].
    rewrite nesting_app, Hd, nesting_app, nullBefore_nesting, closeStack_nesting.
    split; [exists 0; reflexivity | reflexivity].
  - split; [exists d; exact Hd | discriminate].
Qed.

Lemma closeStack_outdents lno stk :
  map kind (closeStack lno stk) = repeat outdent (length stk - 1).
Proof.
  induction stk as [|f [|g below] IH]; try reflexivity.
  change (closeStack lno (f :: g :: below))
    with (mkToken lno outdent :: closeStack lno (g :: below)).
  cbn [map kind]. rewrite IH. cbn [length Nat.sub]. rewrite Nat.sub_0_r.
  reflexivity.
Qed.

Lemma nullBefore_flat st :
  filter isIndent (nullBefore st) = [] /\ filter isOutdent (nullBefore st) = [].
Proof. unfold nullBefore. destruct (lastLno st); split; reflexivity. Qed.

Lemma closeStack_counts lno stk :
  filter isIndent (closeStack lno stk) = [] /\
  length (filter isOutdent (closeStack lno stk)) = length stk - 1.
Proof.
  induction stk as [|f [|g below] [IH1 IH2]]; try (split; reflexivity).
  change (closeStack lno (f :: g :: below))
    with (mkToken lno outdent :: closeStack lno (g :: below)).
  cbn [filter isIndent isOutdent kind]. rewrite IH1. split; [reflexivity|].
  cbn [length Nat.sub] in *. rewrite IH2. lia.
Qed.

(** The stream of src/tokenizer.ts: no front part has more [outdent] than
    [indent] tokens.  When [tokens] returns, the stream is what the loop
    over the lines yields, then the [null] of a key without value, then
    what the closing loop yields for the stack the loop over the lines
    leaves: the first part has as many [indent] tokens more than
    [outdent] tokens as the stack has entries above its bottom, and the
    closing loop yields one [outdent] for each of them and nothing else;
    so the stream has as many of the one as of the other. *)
Lemma tokenizer_indent_outdent_paired (input : str) :
  (forall n, length (filter isOutdent (firstn n (fst (tokens input))))
             <= length (filter isIndent (firstn n (fst (tokens input))))) /\
  (snd (tokens input) = Ret tt ->
   exists ls body st lno,
     splitLines (split newlineRegex input) = Ret ls /\
     tokensLoop (mkTokensState [mkFrame [] None] None) 0 0 ls = (body, Ret (st, lno)) /\
     fst (tokens input) = body ++ nullBefore st ++ closeStack lno (stack st) /\
     length (filter isIndent body)
     = length (filter isOutdent body) + (length (stack st) - 1) /\
     map kind (closeStack lno (stack st)) = repeat outdent (length (stack st) - 1) /\
     length (filter isIndent (fst (tokens input)))
     = length (filter isOutdent (fst (tokens input)))).
Proof.
  split.
  - destruct (tokens_nesting input) as ([d Hd] & _).
    intros n. destruct (nesting_firstn _ _ _ n Hd) as [d' Hd'].
    apply nesting_counts in Hd'. lia.
  - unfold tokens, bind, lift.
    destruct (splitLines (split newlineRegex input)) as [ls|e]; cbn [fst snd app];
      [|discriminate].
    destruct (tokensLoop_nesting ls (mkTokensState [mkFrame [] None] None) 0 0)
      as (d & Hd & Hret).
    { exists []. reflexivity. }
    destruct (tokensLoop (mkTokensState [mkFrame [] None] None) 0 0 ls)
      as [body [[st lno]|e]] eqn:Hloop;
      cbn [fst snd stack length Nat.sub] in *; [|discriminate].
    intros _. destruct (Hret (st, lno) eq_refl) as [-> _]. cbn [fst] in *.
    apply nesting_counts in Hd.
    destruct (nullBefore_flat st) as [Hn1 Hn2].
    destruct (closeStack_counts lno (stack st)) as [Hc1 Hc2].
    exists ls, body, st, lno.
    split; [reflexivity|]. split; [exact Hloop|]. split; [reflexivity|].
    split; [lia|]. split; [apply closeStack_outdents|].
    rewrite !filter_app, !length_app, Hn1, Hn2, Hc1, Hc2. cbn [length]. lia.
Qed.

(** X13. Both streams together.  In the token stream of the lexer no front part
    has more [Outdent] than [Indent] tokens (a stack-based replay never
    goes negative).  When the lexer runs to its end, its stream is what
    the loop over the raw tokens yields followed by what the closing loop
    yields for the states the validator is left with; the first part has
    as many [Indent] tokens more than [Outdent] tokens as the validator
    has sections open, and the closing loop yields no [Indent] and one
    [Outdent] for each of these sections; so the stream has as many
    [Indent] as [Outdent] tokens.  The same holds of the tokenizer of
    src/tokenizer.ts, which [parse] pulls from: when it returns, its
    stream is what the loop over the lines yields, the [null] of a last
    key without value, and one [outdent], and nothing else, for each
    entry that the loop over the lines leaves on the stack above the
    bottom, which are as many as the first part has [indent] tokens more
    than [outdent] tokens. *)
Theorem tokens_indent_outdent_paired (input : str) :
  ((forall n, LexerSpec.countKind Lexer.Outdent (firstn n (fst (Lexer.tokens input)))
              <= LexerSpec.countKind Lexer.Indent (firstn n (fst (Lexer.tokens input)))) /\
   (snd (Lexer.tokens input) = Ret tt ->
    exists raw body v,
      Lexer.tokenize input = (raw, Ret tt) /\
      Lexer.tokensLoop Lexer.initialValidator raw = (body, Ret v) /\
      fst (Lexer.tokens input)
      = body ++ Lexer.tokensFlush (Lexer.lastLine v) (Lexer.states v) /\
      LexerSpec.countKind Lexer.Indent body
      = LexerSpec.countKind Lexer.Outdent body + (length (Lexer.states v) - 1) /\
      LexerSpec.countKind Lexer.Indent
        (Lexer.tokensFlush (Lexer.lastLine v) (Lexer.states v)) = 0 /\
      LexerSpec.countKind Lexer.Outdent
        (Lexer.tokensFlush (Lexer.lastLine v) (Lexer.states v))
      = length (Lexer.states v) - 1 /\
      LexerSpec.countKind Lexer.Indent (fst (Lexer.tokens input))
      = LexerSpec.countKind Lexer.Outdent (fst (Lexer.tokens input)))) /\
  ((forall n, length (filter isOutdent (firstn n (fst (tokens input))))
              <= length (filter isIndent (firstn n (fst (tokens input))))) /\
   (snd (tokens input) = Ret tt ->
    exists ls body st lno,
      splitLines (split newlineRegex input) = Ret ls /\
      tokensLoop (mkTokensState [mkFrame [] None] None) 0 0 ls = (body, Ret (st, lno)) /\
      fst (tokens input) = body ++ nullBefore st ++ closeStack lno (stack st) /\
      length (filter isIndent body)
      = length (filter isOutdent body) + (length (stack st) - 1) /\
      map kind (closeStack lno (stack st)) = repeat outdent (length (stack st) - 1) /\
      length (filter isIndent (fst (tokens input)))
      = length (filter isOutdent (fst (tokens input))))).
Proof.
  split.
  - apply LexerProps.lexer_indent_outdent_paired.
  - apply tokenizer_indent_outdent_paired.
Qed.

Lemma tokens_indent_outdent_paired_witness :
  (exists raw body v,
     Lexer.tokenize (u "a" ++ [LF] ++ u "  b" ++ [LF] ++ u "    c = 1") = (raw, Ret tt) /\
     Lexer.tokensLoop Lexer.initialValidator raw = (body, Ret v) /\
     LexerSpec.countKind Lexer.Outdent
       (Lexer.tokensFlush (Lexer.lastLine v) (Lexer.states v)) = 2)
  /\ (exists ls body st lno,
        tokensLoop (mkTokensState [mkFrame [] None] None) 0 0 ls = (body, Ret (st, lno)) /\
        map kind (closeStack lno (stack st)) = [outdent; outdent]).
Proof.
  destruct (tokens_indent_outdent_paired (u "a" ++ [LF] ++ u "  b" ++ [LF] ++ u "    c = 1"))
    as [[_ Hlexer] [_ Htokenizer]].
  split.
  - destruct (Hlexer ltac:(vm_compute; reflexivity))
      as (raw & body & v & H1 & H2 & _ & _ & _ & H6 & _).
    exists raw, body, v. split; [exact H1|]. split; [exact H2|].
    rewrite H6. vm_compute in H1. inversion H1; subst raw.
    vm_compute in H2. inversion H2; subst. reflexivity.
  - destruct (Htokenizer ltac:(vm_compute; reflexivity))
      as (ls & body & st & lno & H1 & H2 & _ & _ & H5 & _).
    exists ls, body, st, lno. split; [exact H2|].
    rewrite H5. vm_compute in H1. inversion H1; subst ls.
    vm_compute in H2. inversion H2; subst. reflexivity.
Defined.

End TokenizerProps.

(* ================================================================== *)
(** ** The parser *)

Module ParserProps.

Import Tokenizer Parser ParserSpec LiteralSpec.

(** *** [sectionToValue] has fuel enough and builds maps and lists *)

Lemma setPrototype_container v m obj :
  isContainer obj = true -> isContainer (setPrototype v m obj) = true.
Proof. intros H. destruct v; cbn [setPrototype isContainer]; auto. Qed.

Lemma assignKey_container k v obj :
  isContainer obj = true -> isContainer (assignKey k v obj) = true.
Proof.
  intros H. destruct obj as [| | |m|l|p m]; cbn [assignKey]; try exact H.
  - destruct (str_eqb k PROTO && negb (hasKey PROTO m));
      [apply setPrototype_container; exact H | reflexivity].
  - destruct (str_eqb k PROTO && negb (hasKey PROTO m) && reachesAccessor p);
      [apply setPrototype_container; exact H | reflexivity].
Qed.

Lemma store_container f result currentKey v :
  container result -> container (fst (fst (store f result currentKey v))).
Proof.
  unfold store. destruct result as [[| | |m|l|p m]|]; cbn [fst container]; auto;
    destruct currentKey; cbn [fst container]; auto; intros _;
    apply assignKey_container; reflexivity.
Qed.

Lemma sectionToValue_container fuel : forall f result currentKey it v it' log,
  container result ->
  sectionToValue fuel f result currentKey it = Done (v, it', log) ->
  v = VNull \/ isContainer v = true.
Proof.
  induction fuel as [|fuel IH]; intros f result currentKey it v it' log Hc; simpl;
    [discriminate|].
  destruct it as [[|token ts] r].
  - destruct r; [|discriminate]. intros H. inversion H; subst.
    destruct result; simpl in *; auto.
  - destruct (kind token) eqn:K.
    + (* indent *)
      destruct (sectionToValue fuel f None None (ts, r)) as [[[nv it1] l1]| |] eqn:H1;
        try discriminate.
      pose proof (store_container f result currentKey nv Hc) as Hs.
      destruct (store f result currentKey nv) as [[result' key'] lg]. simpl in Hs.
      destruct (sectionToValue fuel f result' key' it1) as [[[v2 it2] l2]| |] eqn:H2;
        try discriminate.
      intros H. inversion H; subst. eapply IH; eauto.
    + (* outdent *)
      intros H. inversion H; subst. destruct result; simpl in *; auto.
    + (* item *)
      intros H. eapply IH; [|exact H]. destruct result; simpl; auto.
    + (* key *)
      intros H. eapply IH; [|exact H]. destruct result; simpl; auto.
    + (* scalar *)
      pose proof (store_container f result currentKey (VString content) Hc) as Hs.
      destruct (store f result currentKey (VString content)) as [[result' key'] lg].
      simpl in Hs.
      destruct (sectionToValue fuel f result' key' (ts, r)) as [[[v2 it2] l2]| |] eqn:H2;
        try discriminate.
      intros H. inversion H; subst. eapply IH; eauto.
    + (* null *)
      pose proof (store_container f result currentKey VNull Hc) as Hs.
      destruct (store f result currentKey VNull) as [[result' key'] lg].
      simpl in Hs.
      destruct (sectionToValue fuel f result' key' (ts, r)) as [[[v2 it2] l2]| |] eqn:H2;
        try discriminate.
      intros H. inversion H; subst. eapply IH; eauto.
Qed.

(** With more fuel than tokens, [sectionToValue] does not run out of it,
    and it hands back an iterator that is no longer. *)
Lemma sectionToValue_fuel fuel : forall f result currentKey it,
  length (fst it) < fuel ->
  sectionToValue fuel f result currentKey it <> OutOfFuel /\
  forall v it' log, sectionToValue fuel f result currentKey it = Done (v, it', log) ->
                    length (fst it') <= length (fst it).
Proof.
  induction fuel as [|fuel IH]; intros f result currentKey it Hlen; [lia|].
  simpl. destruct it as [[|token ts] r].
  - destruct r; split; try discriminate.
    intros v it' log H. inversion H; subst. simpl. lia.
  - simpl in Hlen.
    assert (Hts : length (fst (ts, r)) < fuel) by (simpl; lia).
    assert (Hloop : forall result' key' (lg : list call),
               match sectionToValue fuel f result' key' (ts, r) with
               | Done (v, it', log') => Done (v, it', lg ++ log')
               | other => other
               end <> OutOfFuel /\
               forall v it' log,
                 match sectionToValue fuel f result' key' (ts, r) with
                 | Done (v, it', log') => Done (v, it', lg ++ log')
                 | other => other
                 end = Done (v, it', log) -> length (fst it') <= S (length ts)).
    { intros result' key' lg. destruct (IH f result' key' (ts, r) Hts) as [Hn Hle].
      destruct (sectionToValue fuel f result' key' (ts, r)) as [[[v2 it2] l2]| |];
        split; try discriminate; try congruence.
      intros v it' log H. inversion H; subst. specialize (Hle _ _ _ eq_refl).
      simpl in Hle. lia. }
    destruct (kind token) eqn:K.
    + destruct (IH f None None (ts, r) Hts) as [Hn Hle].
      destruct (sectionToValue fuel f None None (ts, r)) as [[[nv it1] l1]| |] eqn:H1;
        [| split; discriminate | congruence].
      specialize (Hle _ _ _ eq_refl). simpl in Hle.
      destruct (store f result currentKey nv) as [[result' key'] lg].
      assert (H1' : length (fst it1) < fuel) by lia.
      destruct (IH f result' key' it1 H1') as [Hn2 Hle2].
      destruct (sectionToValue fuel f result' key' it1) as [[[v2 it2] l2]| |] eqn:H2;
        split; try discriminate; try congruence.
      intros v it' log H. inversion H; subst. specialize (Hle2 _ _ _ eq_refl).
      simpl. lia.
    + split; [discriminate|]. intros v it' log H. inversion H; subst. simpl. lia.
    + destruct (IH f (match result with None => Some (VList []) | _ => result end)
                   currentKey (ts, r) Hts) as [Hn Hle].
      split; [assumption|]. intros v it' log H. specialize (Hle _ _ _ H). simpl in *. lia.
    + destruct (IH f (match result with None => Some (VMap []) | _ => result end)
                   (Some content) (ts, r) Hts) as [Hn Hle].
      split; [assumption|]. intros v it' log H. specialize (Hle _ _ _ H). simpl in *. lia.
    + destruct (store f result currentKey (VString content)) as [[result' key'] lg].
      apply Hloop.
    + destruct (store f result currentKey VNull) as [[result' key'] lg].
      apply Hloop.
Qed.

(** [parse] never runs out of fuel: it returns or it throws. *)
Lemma parse_fuel input reviver' : parse input reviver' <> OutOfFuel.
Proof.
  unfold parse, parseLog.
  destruct (sectionToValue_fuel (S (length (fst (tokens input))))
              (match reviver' with Some g => g | None => identity end)
              None None (tokens input) (Nat.lt_succ_diag_r _)) as [Hn _].
  destruct (sectionToValue _ _ None None (tokens input)) as [[[v it] log]| |];
    try discriminate. congruence.
Qed.

(** Without a reviver, what [parse] returns is a map or a list. *)
Lemma parse_container input v :
  parse input None = Done v -> isContainer v = true.
Proof.
  unfold parse, parseLog.
  destruct (sectionToValue _ identity None None (tokens input)) as [[[v0 it] log]| |] eqn:H;
    try discriminate.
  intros Hd. inversion Hd; subst. unfold identity.
  apply sectionToValue_container in H; [|exact I].
  destruct H as [-> | H]; [reflexivity|]. destruct v0; try discriminate; reflexivity.
Qed.

(** *** Documents of blank lines and comments *)

Lemma splitLines_spec ls :
  splitLines ls
  = if forallb (forallb notLineTerminator) ls
    then Ret (map (fun l => mkLine (takeWhile isBlank l) (dropWhile isBlank l)) ls)
    else Throw TypeError.
Proof.
  induction ls as [|l ls IH]; simpl; [reflexivity|].
  rewrite RegexProps.lineRegex_spec.
  destruct (forallb notLineTerminator l); simpl; [|reflexivity].
  rewrite IH. destruct (forallb (forallb notLineTerminator) ls); reflexivity.
Qed.

Lemma tokensLoop_blank ls : forall st lno,
  Forall (fun l => isEmpty (lcontent l) || startsWith (lcontent l) [SEMI] = true) ls ->
  tokensLoop st lno 0 ls = ([], Ret (st, lno + length ls)).
Proof.
  induction ls as [|l ls IH]; intros st lno H; simpl.
  - rewrite Nat.add_0_r. reflexivity.
  - inversion H as [|? ? Hl Hls]; subst. unfold tokenizeLine. rewrite Hl.
    simpl. rewrite (IH _ (S lno) Hls). destruct st. simpl.
    rewrite Nat.add_succ_r. reflexivity.
Qed.

Lemma blankOrComment_content l :
  blankOrComment l = true ->
  isEmpty (dropWhile isBlank l) || startsWith (dropWhile isBlank l) [SEMI] = true.
Proof.
  unfold blankOrComment. destruct (dropWhile isBlank l) as [|x t]; [reflexivity|].
  simpl. intros ->. reflexivity.
Qed.

(** A document of blank lines and comments has no tokens, unless a line
    holds U+2028 or U+2029, which the pattern for lines does not match. *)
Lemma tokens_blank input :
  Forall (fun l => blankOrComment l = true) (split newlineRegex input) ->
  tokens input
  = if forallb (forallb notLineTerminator) (split newlineRegex input)
    then ([], Ret tt) else ([], Throw TypeError).
Proof.
  intros H. unfold tokens. rewrite splitLines_spec.
  destruct (forallb (forallb notLineTerminator) (split newlineRegex input)); [|reflexivity].
  unfold lift, bind. rewrite tokensLoop_blank; [reflexivity|].
  induction H as [|l ls Hl Hls IH]; simpl; constructor; auto.
  simpl. apply blankOrComment_content. assumption.
Qed.

(** C10, as amended.  On every input [parse] without a reviver returns or
    throws, and whenever it returns, it returns a map or a list, never a
    string or null.  For the empty string it returns the empty map; for an
    input of blank lines and comments only it returns the empty map when no
    line holds U+2028 or U+2029 (with one, the pattern for the lines does
    not match, and what is raised is a TypeError). *)
Theorem parse_returns_map_or_list :
  (forall input v, parse input None = Done v -> isContainer v = true) /\
  (forall input, (exists v, parse input None = Done v) \/ (exists e, parse input None = Raise e)) /\
  parse [] None = Done (VMap []) /\
  (forall input,
     Forall (fun l => blankOrComment l = true) (split newlineRegex input) ->
     parse input None
     = if forallb (forallb notLineTerminator) (split newlineRegex input)
       then Done (VMap []) else Raise TypeError).
Proof.
  split; [exact parse_container|]. split.
  { intros input. pose proof (parse_fuel input None) as H.
    destruct (parse input None); [left | right | congruence]; eauto. }
  split; [vm_compute; reflexivity|].
  intros input Hb.
  unfold parse, parseLog. rewrite (tokens_blank input Hb).
  destruct (forallb (forallb notLineTerminator) (split newlineRegex input)); reflexivity.
Qed.

Lemma parse_returns_map_or_list_witness :
  isContainer (VMap [(u "a", VString (u "b"))]) = true
  /\ parse (u "; top" ++ [LF] ++ [LF] ++ u "  ; more") None = Done (VMap [])
  /\ parse (u "; top" ++ [8232%N] ++ u "more") None = Raise TypeError.
Proof.
  split; [|split].
  - apply (proj1 parse_returns_map_or_list (u "a = b")). vm_compute. reflexivity.
  - rewrite (proj2 (proj2 (proj2 parse_returns_map_or_list))
               (u "; top" ++ [LF] ++ [LF] ++ u "  ; more")).
    + reflexivity.
    + vm_compute. repeat constructor.
  - rewrite (proj2 (proj2 (proj2 parse_returns_map_or_list))
               (u "; top" ++ [8232%N] ++ u "more")).
    + reflexivity.
    + vm_compute. repeat constructor.
Defined.

(** C10, as stated, fails where the document is not valid: [parse] throws. *)
Lemma parse_throws_on_unexpected_indent :
  parse (u "  a") None = Raise (ParseError (Some 1) UnexpectedIndent)
  /\ ~ (exists v, parse (u "  a") None = Done v /\ isContainer v = true).
Proof.
  split; [vm_compute; reflexivity|].
  intros [v [H _]]. vm_compute in H. discriminate.
Qed.

(** *** The documents of the specification *)

(** C4. [parse] of the three lines  = QQQ ,  c  and  =  (Q the double
    quote; the last two indented by one space) is the list with the one
    string  c, line feed, = . *)
Theorem parse_multiline_example :
  parse (u "= " ++ [QUOTE; QUOTE; QUOTE] ++ [LF] ++ u " c" ++ [LF] ++ u " =") None
  = Done (VList [VString (u "c" ++ [LF] ++ u "=")]).
Proof. vm_compute. reflexivity. Qed.

(** The collector of src/tokenizer.ts passes over a line of blanks after
    the marker, whatever its indentation, and reports the value of

      "a = QQQ"       (Q the double quote)
      "  "
      "b = 1"

    as missing. *)
Lemma parse_reports_missing_multiline :
  parse (u "a = " ++ [QUOTE; QUOTE; QUOTE] ++ [LF] ++ u "  " ++ [LF] ++ u "b = 1") None
  = Raise (ParseError (Some 2) MissingMultilineValue).
Proof. vm_compute. reflexivity. Qed.

(** The collector of src/tokenizer.ts, which [parse] pulls from, is not
    the one of the lexer: its lines come from a split that takes the blanks
    before a line break away, and it strips line feeds only.  So the blanks
    at the end of a line inside the value are lost, and those at the end of
    the last line of the input stay, where the lexer keeps the first and
    strips the second. *)
Lemma parse_multiline_line_ends :
  parse (u "a = " ++ [QUOTE; QUOTE; QUOTE] ++ [LF] ++ u "  x  " ++ [LF] ++ u "  y") None
  = Done (VMap [(u "a", VString (u "x" ++ [LF] ++ u "y"))])
  /\ parse (u "a = " ++ [QUOTE; QUOTE; QUOTE] ++ [LF] ++ u "  x  ") None
     = Done (VMap [(u "a", VString (u "x  "))])
  /\ fst (Lexer.tokens (u "a = " ++ [QUOTE; QUOTE; QUOTE] ++ [LF] ++ u "  x  " ++ [LF] ++ u "  y"))
     = [Lexer.mkToken 1 Lexer.MapKey (u "a") None;
        Lexer.mkToken 1 Lexer.MultilineHint [] None;
        Lexer.mkToken 2 Lexer.MultilineScalar (u "x  " ++ [LF] ++ u "y") None].
Proof. repeat split; vm_compute; reflexivity. Qed.

Lemma decodePieces_app a b :
  decodePieces (a ++ b)
  = match decodePieces a with
    | inl r => match decodePieces b with
               | inl r' => inl (r ++ r')
               | inr e => inr e
               end
    | inr e => inr e
    end.
Proof.
  induction a as [|p a IH]; simpl.
  - destruct (decodePieces b); reflexivity.
  - destruct (pieceValue p); [|reflexivity]. rewrite IH.
    destruct (decodePieces a); [|reflexivity].
    destruct (decodePieces b); [rewrite app_assoc|]; reflexivity.
Qed.

Lemma literalText_app a b : literalText (a ++ b) = literalText a ++ literalText b.
Proof. unfold literalText. rewrite map_app, concat_app. reflexivity. Qed.

(** C7. In a quoted literal made of code units that stand for themselves,
    of the escapes with a letter and of escapes of code points, the escape
    backslash, opening brace, one to eight hexadecimal digits, closing
    brace  decodes to the Unicode scalar value the digits spell (as
    UTF-16), between what the pieces before and after it decode to, in the
    decoder of [tokenizer.ts] and in the one of [utils.ts]; when the digits
    spell a surrogate code point (0xD800 to 0xDFFF) or a value above
    0x10FFFF, both reject the literal with  invalid escape code  and the
    text of the first such escape.  And [parse] of  key = Q\{1F600}Q  (Q
    the double quote) is the map of  key  to U+1F600. *)
Theorem decode_hex_escape :
  (forall lno before hex after,
     forallb pieceOK before = true -> forallb pieceOK after = true ->
     forallb isHexDigit hex = true -> 1 <= length hex <= 8 ->
     let v := hexValue 0 hex in
     let literal :=
       QUOTE :: (literalText before ++ escapeOf hex ++ literalText after) ++ [QUOTE] in
     ((v <= 1114111)%N -> ~ (55296 <= v <= 57343)%N ->
      forall d1 d2, decodePieces before = inl d1 -> decodePieces after = inl d2 ->
      exists s, utf16Decode s = [Z.of_N v] /\
                Tokenizer.decodeLiteral lno literal = Ret (d1 ++ s ++ d2) /\
                Utils.decodeLiteral literal = Ret (d1 ++ s ++ d2, None)) /\
     ((55296 <= v <= 57343)%N \/ (1114111 < v)%N ->
      exists code,
        Tokenizer.decodeLiteral lno literal
        = Throw (ParseError (Some (lno + 1)) (InvalidEscape code)) /\
        Utils.decodeLiteral literal = Ret ([], Some (InvalidEscape code)) /\
        (forall d1, decodePieces before = inl d1 -> code = escapeOf hex))) /\
  parse (u "key = " ++ [QUOTE] ++ u "\{1F600}" ++ [QUOTE]) None
  = Done (VMap [(u "key", VString [55357; 56832]%N)]) /\
  utf16Decode [55357; 56832]%N = [128512%Z].
Proof.
  split; [|split; vm_compute; reflexivity].
  intros lno before hex after Hb Ha Hhex Hlen v literal.
  assert (Hps : forallb pieceOK (before ++ PHex hex :: after) = true).
  { rewrite forallb_app, Hb. cbn [forallb pieceOK andb]. rewrite Hhex, Ha.
    replace (1 <=? length hex) with true by (symmetry; apply Nat.leb_le; lia).
    replace (length hex <=? 8) with true by (symmetry; apply Nat.leb_le; lia).
    reflexivity. }
  assert (Hlit : literal = QUOTE :: literalText (before ++ PHex hex :: after) ++ [QUOTE]).
  { unfold literal. rewrite literalText_app. unfold literalText at 3.
    cbn [map concat pieceText]. reflexivity. }
  pose proof (LiteralProps.tok_decode_pieces lno _ Hps) as Ht.
  pose proof (LiteralProps.utils_decode_pieces _ Hps) as Hu.
  rewrite <- Hlit in Ht, Hu. rewrite decodePieces_app in Ht, Hu.
  cbn [decodePieces pieceValue pieceText] in Ht, Hu. fold v in Ht, Hu.
  split.
  - intros Hmax Hsur d1 d2 H1 H2.
    assert (Hs : isScalarValue (Z.of_N v) = true).
    { unfold isScalarValue. apply andb_true_iff. split.
      - apply andb_true_iff. split; apply Z.leb_le; lia.
      - apply negb_true_iff. apply andb_false_iff.
        destruct (Z.leb_spec 55296 (Z.of_N v)); [right; apply Z.leb_gt; lia | left; reflexivity]. }
    destruct (LiteralProps.fromCodePoint_scalar _ Hs) as (s & Hf & Hd).
    rewrite H1, Hs, Hf, H2 in Ht, Hu. exists s. auto.
  - intros Hbad.
    assert (Hs : isScalarValue (Z.of_N v) = false).
    { unfold isScalarValue. destruct Hbad as [Hsur | Hmax].
      - apply andb_false_iff. right. apply negb_false_iff.
        apply andb_true_iff. split; apply Z.leb_le; lia.
      - apply andb_false_iff. left. apply andb_false_iff. right. apply Z.leb_gt. lia. }
    rewrite Hs in Ht, Hu.
    destruct (decodePieces before) as [d1|code].
    + exists (escapeOf hex). auto.
    + exists code. split; [exact Ht|]. split; [exact Hu|]. intros d1 H. discriminate.
Qed.

Lemma decode_hex_escape_witness :
  (exists s, utf16Decode s = [Z.of_N (hexValue 0 (u "1F600"))] /\
             Tokenizer.decodeLiteral 0
               (QUOTE :: (literalText [PPlain 97; PSimple 110] ++ escapeOf (u "1F600")
                            ++ literalText [PHex (u "41")]) ++ [QUOTE])
             = Ret ([97; LF]%N ++ s ++ [65%N]) /\
             Utils.decodeLiteral
               (QUOTE :: (literalText [PPlain 97; PSimple 110] ++ escapeOf (u "1F600")
                            ++ literalText [PHex (u "41")]) ++ [QUOTE])
             = Ret ([97; LF]%N ++ s ++ [65%N], None)) /\
  Utils.decodeLiteral (QUOTE :: (literalText [PPlain 97] ++ escapeOf (u "D800")
                                   ++ literalText [PPlain 98]) ++ [QUOTE])
  = Ret ([], Some (InvalidEscape (escapeOf (u "D800")))).
Proof.
  split.
  - apply (proj1 decode_hex_escape 0 [PPlain 97; PSimple 110] (u "1F600") [PHex (u "41")]);
      try reflexivity; try (simpl; lia); vm_compute; intuition discriminate.
  - destruct (proj1 decode_hex_escape 0 [PPlain 97] (u "D800") [PPlain 98]
                eq_refl eq_refl eq_refl ltac:(simpl; lia)) as [_ Hbad].
    destruct Hbad as (code & _ & Hu & Hcode); [left; vm_compute; intuition discriminate|].
    rewrite (Hcode [97%N] eq_refl) in Hu. exact Hu.
Defined.

End ParserProps.

(* ================================================================== *)
(** ** The helpers of src/utils.ts *)

Module UtilsProps.

Import Utils UtilsSpec LexerSpec RegexProps.

(** *** [lines] *)

Lemma matchPrefix_lineRegexp x s :
  matchPrefix lineRegexp (x :: s)
  = if N.eqb x CR then
      match s with
      | y :: s' => if N.eqb y LF then Some ([CR; LF], s', []) else Some ([CR], s, [])
      | [] => Some ([CR], s, [])
      end
    else if N.eqb x LF then Some ([LF], s, []) else None.
Proof.
  unfold matchPrefix, lineRegexp. cbn [lit]. unfold chr. cbn [rmatch].
  rewrite (N.eqb_sym CR x), (N.eqb_sym LF x).
  destruct (N.eqb x CR) eqn:Hc.
  - apply N.eqb_eq in Hc. subst x.
    destruct s as [|y s'].
    + reflexivity.
    + rewrite (N.eqb_sym LF y). destruct (N.eqb y LF) eqn:Hl.
      * cbn [length]. replace (S (S (length s')) - length s') with 2 by lia.
        apply N.eqb_eq in Hl. subst y. reflexivity.
      * cbn [length]. replace (S (S (length s')) - S (length s')) with 1 by lia. reflexivity.
  - destruct (N.eqb x LF) eqn:Hl; [|reflexivity].
    cbn [length]. replace (S (length s) - length s) with 1 by lia.
    apply N.eqb_eq in Hl. subst x. reflexivity.
Qed.

Lemma forallb_rev' (p : N -> bool) (l : str) : forallb p (rev l) = forallb p l.
Proof.
  induction l as [|x l IH]; simpl; [reflexivity|].
  rewrite forallb_app, IH. simpl. rewrite andb_true_r. apply andb_comm.
Qed.

Lemma linesSegments_spec n : forall s e lno cur,
  length s <= n ->
  forallb notBreak cur = true ->
  let out := linesSegments e lno cur (scan lineRegexp 0 s) in
  Forall (fun l => forallb notBreak (snd l) = true) out /\
  map fst out = seq lno (length out) /\
  concat (map snd out) = rev cur ++ filter notBreak s.
Proof.
  induction n as [|n IH]; intros s e lno cur Hn Hcur.
  - destruct s; [|simpl in Hn; lia]. simpl.
    destruct (negb (isEmpty cur) || e) eqn:Hlast; simpl.
    + split; [|split; [reflexivity | rewrite !app_nil_r; reflexivity]].
      constructor; [|constructor]. simpl. rewrite forallb_rev'. exact Hcur.
    + split; [constructor|]. split; [reflexivity|].
      destruct cur; [reflexivity | discriminate].
  - destruct s as [|x s].
    + apply (IH [] e lno cur); [simpl; lia | exact Hcur].
    + simpl in Hn. cbn [scan]. rewrite matchPrefix_lineRegexp.
      assert (Hrev : forallb notBreak (rev cur) = true) by (rewrite forallb_rev'; exact Hcur).
      assert (Hbreak : forall s', length s' <= n ->
                let out := (lno, rev cur) :: linesSegments e (S lno) [] (scan lineRegexp 0 s') in
                Forall (fun l => forallb notBreak (snd l) = true) out /\
                map fst out = seq lno (length out) /\
                concat (map snd out) = rev cur ++ filter notBreak s').
      { intros s' Hs'. destruct (IH s' e (S lno) [] Hs' eq_refl) as (H1 & H2 & H3).
        cbn zeta. split; [constructor; [exact Hrev | exact H1]|].
        split.
        { change (lno :: map fst (linesSegments e (S lno) [] (scan lineRegexp 0 s'))
                  = lno :: seq (S lno) (length (linesSegments e (S lno) [] (scan lineRegexp 0 s')))).
          f_equal. exact H2. }
        change (rev cur ++ concat (map snd (linesSegments e (S lno) [] (scan lineRegexp 0 s')))
                = rev cur ++ filter notBreak s').
        f_equal. exact H3. }
      destruct (N.eqb x CR) eqn:Hc.
      * assert (Hx : notBreak x = false) by (unfold notBreak; rewrite Hc; reflexivity).
        cbn [filter]. rewrite Hx.
        destruct s as [|y s'].
        -- cbn [length linesSegments]. apply (Hbreak []). simpl. lia.
        -- destruct (N.eqb y LF) eqn:Hl.
           ++ cbn [length linesSegments scan].
              assert (Hy : notBreak y = false)
                by (unfold notBreak; rewrite Hl; apply andb_false_r).
              cbn [filter]. rewrite Hy. apply Hbreak. simpl in Hn. lia.
           ++ cbn [length linesSegments]. apply (Hbreak (y :: s')). lia.
      * destruct (N.eqb x LF) eqn:Hl.
        -- assert (Hx : notBreak x = false)
             by (unfold notBreak; rewrite Hl; apply andb_false_r).
           cbn [filter]. rewrite Hx. cbn [length linesSegments]. apply Hbreak. lia.
        -- assert (Hx : notBreak x = true) by (unfold notBreak; rewrite Hc, Hl; reflexivity).
           cbn [linesSegments filter]. rewrite Hx.
           destruct (IH s e lno (x :: cur)) as (H1 & H2 & H3);
             [lia | simpl; rewrite Hx; exact Hcur |].
           split; [exact H1|]. split; [exact H2|].
           rewrite H3. simpl. rewrite <- app_assoc. reflexivity.
Qed.

Lemma linesSegments_nonempty l : forall e lno cur,
  (e = true \/ cur <> [] \/ l <> []) -> linesSegments e lno cur l <> [].
Proof.
  induction l as [|g l IH]; intros e lno cur H; simpl.
  - destruct H as [-> | [H | H]]; [rewrite orb_true_r; discriminate | | contradiction].
    destruct cur; [contradiction | discriminate].
  - destruct g; [|discriminate]. apply IH. right. left. discriminate.
Qed.

Lemma scan_nonempty r x s : scan r 0 (x :: s) <> [].
Proof.
  simpl. destruct (matchPrefix r (x :: s)) as [[[m rest] c]|]; [|discriminate].
  destruct (length m); discriminate.
Qed.

Lemma linesSegments_one_line : forall s e lno cur,
  forallb notBreak s = true ->
  linesSegments e lno cur (scan lineRegexp 0 s)
  = if negb (isEmpty (rev s ++ cur)) || e then [(lno, rev cur ++ s)] else [].
Proof.
  induction s as [|x s IH]; intros e lno cur Hs.
  - simpl. rewrite app_nil_r. reflexivity.
  - simpl in Hs. apply andb_true_iff in Hs. destruct Hs as [Hx Hs].
    unfold notBreak in Hx. apply andb_true_iff in Hx. destruct Hx as [Hc Hl].
    apply negb_true_iff in Hc, Hl.
    cbn [scan]. rewrite matchPrefix_lineRegexp, Hc, Hl. cbn [linesSegments].
    rewrite (IH e lno (x :: cur) Hs). simpl. rewrite <- !app_assoc. reflexivity.
Qed.

(** X1. The lines [lines] yields.  There is at least one; they are
    numbered 1, 2, 3 and so on without a gap; no line holds a carriage
    return or a line feed; put end to end they are the input without its
    carriage returns and line feeds, so no other code unit is lost or
    added; and an input without carriage return and line feed is yielded
    as it is, as line 1. *)
Theorem lines_partition input :
  lines input <> [] /\
  map fst (lines input) = seq 1 (length (lines input)) /\
  Forall (fun l => forallb notBreak (snd l) = true) (lines input) /\
  concat (map snd (lines input)) = filter notBreak input /\
  (forallb notBreak input = true -> lines input = [(1, input)]).
Proof.
  unfold lines.
  destruct (linesSegments_spec (length input) input (isEmpty input) 1 [] (le_n _) eq_refl)
    as (H1 & H2 & H3).
  split; [|split; [exact H2 | split; [exact H1 | split; [exact H3|]]]].
  - apply linesSegments_nonempty. destruct input; [left; reflexivity|].
    right. right. apply scan_nonempty.
  - intros Hnb. rewrite (linesSegments_one_line input _ 1 [] Hnb).
    rewrite app_nil_r. simpl. destruct input; [reflexivity|].
    replace (negb (isEmpty (rev (n :: input)))) with true; [reflexivity|].
    simpl. destruct (rev input); reflexivity.
Qed.

(** *** [trimLeft], [trimRight] and [cutPrefix] *)

Lemma takeWhile_forallb (p : N -> bool) s : forallb p (takeWhile p s) = true.
Proof.
  induction s as [|x s IH]; simpl; [reflexivity|].
  destruct (p x) eqn:Hx; simpl; [rewrite Hx; exact IH | reflexivity].
Qed.

Lemma dropWhile_stops (p : N -> bool) s :
  match dropWhile p s with x :: _ => p x = false | [] => True end.
Proof.
  induction s as [|x s IH]; simpl; [exact I|].
  destruct (p x) eqn:Hx; [exact IH | exact Hx].
Qed.

(** X2. What [trimLeft] returns.  The first part is the spaces and tabs
    the string starts with, all of them: the second part does not start
    with one.  The second part holds no line terminator, and the string
    is the two parts followed by a tail that is empty or starts with a
    line terminator (line feed, carriage return, U+2028, U+2029).  So a
    string without line terminator is cut in two and nothing is lost. *)
Theorem trimLeft_parts s :
  forallb isBlank (fst (trimLeft s)) = true /\
  match snd (trimLeft s) with x :: _ => isBlank x = false | [] => True end /\
  forallb notLineTerminator (snd (trimLeft s)) = true /\
  (exists tail, s = fst (trimLeft s) ++ snd (trimLeft s) ++ tail /\
                match tail with x :: _ => notLineTerminator x = false | [] => True end) /\
  (forallb notLineTerminator s = true -> fst (trimLeft s) ++ snd (trimLeft s) = s).
Proof.
  rewrite trimLeft_spec. cbn [fst snd].
  split; [apply takeWhile_forallb|]. split.
  { pose proof (dropWhile_stops isBlank s) as H.
    destruct (dropWhile isBlank s) as [|x t]; [exact I|]. simpl.
    destruct (notLineTerminator x); [exact H | exact I]. }
  split; [apply takeWhile_forallb|]. split.
  - exists (dropWhile notLineTerminator (dropWhile isBlank s)). split.
    + rewrite takeWhile_dropWhile, takeWhile_dropWhile. reflexivity.
    + apply dropWhile_stops.
  - intros H. rewrite (LexerProps.takeWhile_all notLineTerminator (dropWhile isBlank s)).
    + apply takeWhile_dropWhile.
    + apply LexerProps.forallb_dropWhile. exact H.
Qed.

Lemma dropWhile_idem (p : N -> bool) s : dropWhile p (dropWhile p s) = dropWhile p s.
Proof.
  induction s as [|x s IH]; simpl; [reflexivity|].
  destruct (p x) eqn:Hx; [exact IH|]. simpl. rewrite Hx. reflexivity.
Qed.

(** X3. What [trimRight] cuts.  The string is the result followed by code
    units of [chars] only; the result does not end in a code unit of
    [chars], so the run that is cut is the longest one; trimming again
    changes nothing; and a string made of code units of [chars] only is
    trimmed to the empty string. *)
Theorem trimRight_longest s chars :
  (exists tail, s = trimRight s chars ++ tail /\
                forallb (includes chars) tail = true) /\
  (forall t x, trimRight s chars = t ++ [x] -> includes chars x = false) /\
  trimRight (trimRight s chars) chars = trimRight s chars /\
  (forallb (includes chars) s = true -> trimRight s chars = []).
Proof.
  destruct (LexerProps.trimRight_spec s chars) as (tail & H1 & H2 & H3).
  split; [exists tail; auto|]. split; [exact H3|]. split.
  - unfold trimRight. rewrite rev_involutive, dropWhile_idem. reflexivity.
  - intros H. unfold trimRight. rewrite LexerProps.dropWhile_all; [reflexivity|].
    rewrite forallb_rev'. exact H.
Qed.

Lemma startsWith_app p : forall s, startsWith s p = true <-> exists r, s = p ++ r.
Proof.
  induction p as [|y p IH]; intros s; simpl.
  - split; [intros _; exists s; reflexivity | reflexivity].
  - destruct s as [|x s].
    + split; [discriminate | intros [r H]; discriminate].
    + split.
      * intros H. apply andb_true_iff in H. destruct H as [Hx H].
        apply N.eqb_eq in Hx. subst. apply IH in H. destruct H as [r ->].
        exists r. reflexivity.
      * intros [r H]. inversion H; subst. rewrite N.eqb_refl. simpl.
        apply IH. exists r. reflexivity.
Qed.

(** X4. [cutPrefix] reports the prefix found exactly when the string
    starts with it; the string is then the prefix followed by what is
    returned, and otherwise the string is returned as it is. *)
Theorem cutPrefix_parts s prefix :
  (snd (cutPrefix s prefix) = true <-> exists r, s = prefix ++ r) /\
  (snd (cutPrefix s prefix) = true -> s = prefix ++ fst (cutPrefix s prefix)) /\
  (snd (cutPrefix s prefix) = false -> fst (cutPrefix s prefix) = s).
Proof.
  unfold cutPrefix. destruct (startsWith s prefix) eqn:H; cbn [fst snd].
  - apply startsWith_app in H. destruct H as [r ->].
    split; [split; [intros _; exists r; reflexivity | reflexivity]|].
    split; [|discriminate]. intros _. unfold substringFrom.
    rewrite LexerProps.skipn_app_exact. reflexivity.
  - split; [|split; [discriminate | reflexivity]].
    split; [discriminate|]. intros Hex. apply startsWith_app in Hex. congruence.
Qed.

(** *** [splitUnquoted] and [splitLiteral] *)

Lemma indexOf_nth c : forall s i, indexOf c s = Some i -> nth_error s i = Some c.
Proof.
  induction s as [|x s IH]; intros i H; simpl in H; [discriminate|].
  destruct (N.eqb x c) eqn:Hx.
  - inversion H; subst. apply N.eqb_eq in Hx. subst. reflexivity.
  - destruct (indexOf c s) as [j|]; [|discriminate]. inversion H; subst.
    simpl. apply IH. reflexivity.
Qed.

Lemma indexOf_before c : forall s i,
  indexOf c s = Some i -> ~ In c (firstn i s) /\ i < length s.
Proof.
  induction s as [|x s IH]; intros i H; simpl in H; [discriminate|].
  destruct (N.eqb x c) eqn:Hx.
  - inversion H; subst. simpl. split; [tauto | lia].
  - destruct (indexOf c s) as [j|] eqn:Hj; [|discriminate].
    inversion H; subst. destruct (IH j eq_refl) as (H2 & H3).
    apply N.eqb_neq in Hx. cbn [firstn length]. split.
    + intros [Hin|Hin]; [congruence | tauto].
    + lia.
Qed.

Lemma indexOf_absent c : forall s, indexOf c s = None -> ~ In c s.
Proof.
  induction s as [|x s IH]; simpl; intros H; [tauto|].
  destruct (N.eqb x c) eqn:Hx; [discriminate|].
  destruct (indexOf c s); [discriminate|]. apply N.eqb_neq in Hx.
  intros [Hin|Hin]; [congruence | exact (IH eq_refl Hin)].
Qed.

Lemma skipn_nth (c : N) : forall (s : str) i,
  nth_error s i = Some c -> skipn i s = c :: skipn (S i) s.
Proof.
  induction s as [|x s IH]; intros [|i] H; simpl in H; try discriminate.
  - inversion H; subst. reflexivity.
  - cbn [skipn]. rewrite (IH i H). reflexivity.
Qed.

Lemma nth_error_firstn' : forall (s : str) e i,
  i < e -> nth_error (firstn e s) i = nth_error s i.
Proof.
  induction s as [|x s IH]; intros [|e] [|i] H; simpl; try reflexivity; try lia.
  apply IH. lia.
Qed.

Lemma dropWhile_split (p : N -> bool) s :
  exists ws, s = ws ++ dropWhile p s /\ forallb p ws = true.
Proof.
  induction s as [|x s (ws & H1 & H2)]; simpl.
  - exists []. split; reflexivity.
  - destruct (p x) eqn:Hx.
    + exists (x :: ws). simpl. rewrite Hx, H2. split; [f_equal; exact H1 | reflexivity].
    + exists []. split; reflexivity.
Qed.

Lemma trimEnd_split s :
  exists ws, s = trimEnd s ++ ws /\ forallb isJsSpace ws = true /\
             (forall t x, trimEnd s = t ++ [x] -> isJsSpace x = false).
Proof.
  unfold trimEnd. destruct (dropWhile_split isJsSpace (rev s)) as (ws & H1 & H2).
  exists (rev ws). split; [|split].
  - rewrite <- rev_app_distr, <- H1, rev_involutive. reflexivity.
  - rewrite forallb_rev'. exact H2.
  - intros t x Ht. apply (f_equal (@rev N)) in Ht.
    rewrite rev_involutive, rev_app_distr in Ht. simpl in Ht.
    clear H1 H2. induction (rev s) as [|y l IH]; simpl in Ht; [discriminate|].
    destruct (isJsSpace y) eqn:Hy; [exact (IH Ht)|]. congruence.
Qed.

Lemma trimEnd_incl s x : In x (trimEnd s) -> In x s.
Proof.
  destruct (trimEnd_split s) as (ws & H & _). intros Hin. rewrite H.
  apply in_or_app. left. exact Hin.
Qed.

Lemma splitsAt_firstn key input i c :
  nth_error input i = Some c ->
  c = SEMI \/ (key = true /\ c = EQUALS) ->
  splitsAt key input (trimEnd (firstn i input)) (skipn i input).
Proof.
  intros Hn Hc. destruct (trimEnd_split (firstn i input)) as (ws & Hw1 & Hw2 & Hw3).
  split; [|split].
  - exists ws. split; [|exact Hw2]. rewrite app_assoc, <- Hw1. apply eq_sym, firstn_skipn.
  - exact Hw3.
  - rewrite (skipn_nth _ _ _ Hn). exact Hc.
Qed.

Lemma splitsAt_end key input : splitsAt key input (trimEnd input) [].
Proof.
  destruct (trimEnd_split input) as (ws & Hw1 & Hw2 & Hw3).
  split; [|split; [exact Hw3 | exact I]].
  exists ws. rewrite app_nil_r. auto.
Qed.

Lemma splitUnquoted_spec input key :
  splitsAt key input (fst (splitUnquoted input key)) (snd (splitUnquoted input key)) /\
  ~ In SEMI (fst (splitUnquoted input key)) /\
  (key = true -> ~ In EQUALS (fst (splitUnquoted input key))) /\
  (snd (splitUnquoted input key) = [] ->
   ~ In SEMI input /\ (key = true -> ~ In EQUALS input)).
Proof.
  unfold splitUnquoted.
  assert (Hp : forall k, (k = true -> indexOf EQUALS input = None) ->
    let r := match indexOf SEMI input with
             | Some i => (trimEnd (substring input 0 i), substringFrom input i)
             | None => (trimEnd input, [])
             end in
    splitsAt k input (fst r) (snd r) /\ ~ In SEMI (fst r) /\
    (k = true -> ~ In EQUALS (fst r)) /\
    (snd r = [] -> ~ In SEMI input /\ (k = true -> ~ In EQUALS input))).
  { intros k Hk. destruct (indexOf SEMI input) as [i|] eqn:Hi; cbn [fst snd].
    - destruct (indexOf_before _ _ _ Hi) as (H2 & H3).
      pose proof (indexOf_nth _ _ _ Hi) as Hn.
      rewrite LexerProps.substring_0. unfold substringFrom.
      split; [apply (splitsAt_firstn _ _ _ _ Hn); left; reflexivity|].
      split; [intros Hin; apply H2; apply trimEnd_incl; exact Hin|]. split.
      + intros Hkt Hin. apply (indexOf_absent _ _ (Hk Hkt)).
        apply trimEnd_incl in Hin.
        rewrite <- (firstn_skipn i input). apply in_or_app. left. exact Hin.
      + rewrite (skipn_nth _ _ _ Hn). discriminate.
    - split; [apply splitsAt_end|].
      split; [intros Hin; apply (indexOf_absent _ _ Hi); apply trimEnd_incl; exact Hin|].
      split.
      + intros Hkt Hin. apply (indexOf_absent _ _ (Hk Hkt)). apply trimEnd_incl. exact Hin.
      + intros _. split; [apply indexOf_absent; exact Hi|].
        intros Hkt. apply indexOf_absent. exact (Hk Hkt). }
  destruct key; [|apply Hp; discriminate].
  destruct (indexOf EQUALS input) as [e|] eqn:He; [|apply Hp; reflexivity].
  clear Hp.
  destruct (indexOf_before _ _ _ He) as (H2 & H3).
  pose proof (indexOf_nth _ _ _ He) as Hne.
  rewrite (LexerProps.substring_0 input e).
  destruct (indexOf SEMI (firstn e input)) as [i|] eqn:Hi; cbn [fst snd].
  - destruct (indexOf_before _ _ _ Hi) as (G2 & G3).
    pose proof (indexOf_nth _ _ _ Hi) as Hni.
    rewrite length_firstn in G3.
    rewrite nth_error_firstn' in Hni by lia.
    rewrite LexerProps.substring_0.
    rewrite firstn_firstn in *. replace (Nat.min i e) with i in * by lia.
    unfold substringFrom.
    split; [apply (splitsAt_firstn _ _ _ _ Hni); left; reflexivity|].
    split; [intros Hin; apply G2; apply trimEnd_incl; exact Hin|]. split.
    + intros _ Hin. apply H2. apply trimEnd_incl in Hin.
      rewrite <- (firstn_skipn i (firstn e input)). apply in_or_app. left.
      rewrite firstn_firstn. replace (Nat.min i e) with i by lia. exact Hin.
    + rewrite (skipn_nth _ _ _ Hni). discriminate.
  - unfold substringFrom.
    split; [apply (splitsAt_firstn _ _ _ _ Hne); right; split; reflexivity|].
    split; [intros Hin; apply (indexOf_absent _ _ Hi); apply trimEnd_incl; exact Hin|].
    split.
    + intros _ Hin. apply H2. apply trimEnd_incl. exact Hin.
    + rewrite (skipn_nth _ _ _ Hne). discriminate.
Qed.

(** X5. What [splitUnquoted] splits off.  The input is the first part,
    then white space only, then the second part.  The first part does not
    end in white space and holds no semicolon, and no equals sign when a
    key is split.  The second part is empty, or starts with a semicolon,
    or, when a key is split, with an equals sign; it is empty only when
    the input holds no semicolon and, for a key, no equals sign. *)
Theorem splitUnquoted_parts input key :
  (exists ws, input = fst (splitUnquoted input key) ++ ws ++ snd (splitUnquoted input key) /\
              forallb isJsSpace ws = true) /\
  (forall t x, fst (splitUnquoted input key) = t ++ [x] -> isJsSpace x = false) /\
  match snd (splitUnquoted input key) with
  | [] => True
  | c :: _ => c = SEMI \/ (key = true /\ c = EQUALS)
  end /\
  ~ In SEMI (fst (splitUnquoted input key)) /\
  (key = true -> ~ In EQUALS (fst (splitUnquoted input key))) /\
  (snd (splitUnquoted input key) = [] ->
   ~ In SEMI input /\ (key = true -> ~ In EQUALS input)).
Proof.
  destruct (splitUnquoted_spec input key) as ((H1 & H2 & H3) & H4 & H5 & H6).
  repeat split; try assumption; apply H6; assumption.
Qed.

Lemma quoted_cases : forall tail esc,
  (exists inner after, tail = inner ++ QUOTE :: after /\ closedQuote esc inner = true) \/
  (forall input key i, splitQuoted input key i esc tail = (input, [])).
Proof.
  induction tail as [|c t IH]; intros esc.
  - right. reflexivity.
  - destruct (N.eqb c QUOTE && negb esc) eqn:Hc.
    + left. exists [], t. apply andb_true_iff in Hc. destruct Hc as [Hq He].
      apply N.eqb_eq in Hq. subst c. split; [reflexivity|]. exact He.
    + destruct (IH (N.eqb c BSLASH && negb esc)) as [(inner & after & -> & Hcl)|Hun].
      * left. exists (c :: inner), after. split; [reflexivity|].
        simpl. rewrite Hc. exact Hcl.
      * right. intros input key i. simpl. rewrite Hc. apply Hun.
Qed.

(** X6. What [splitLiteral] splits off.  For every input, quoted or not,
    the input is the first part, then white space only, then the second
    part, and the second part is empty or starts with a semicolon or, for
    a key, with an equals sign.  When the input starts with a quoted
    literal that is closed (the double quote, then [inner] in which every
    double quote is escaped, then the double quote), the literal is kept
    whole, semicolons and equals signs between the quotes included, and
    what follows it is split as [splitUnquoted] does.  When the literal
    is not closed, the whole input is the first part. *)
Theorem splitLiteral_parts input key :
  (exists ws, input = fst (splitLiteral input key) ++ ws ++ snd (splitLiteral input key) /\
              forallb isJsSpace ws = true) /\
  match snd (splitLiteral input key) with
  | [] => True
  | c :: _ => c = SEMI \/ (key = true /\ c = EQUALS)
  end /\
  (forall inner after,
     input = QUOTE :: inner ++ QUOTE :: after -> closedQuote false inner = true ->
     splitLiteral input key
     = (QUOTE :: inner ++ QUOTE :: fst (splitUnquoted after key),
        snd (splitUnquoted after key))) /\
  (startsWith input [QUOTE] = true ->
   (forall inner after,
      closedQuote false inner = true -> input <> QUOTE :: inner ++ QUOTE :: after) ->
   splitLiteral input key = (input, [])).
Proof.
  assert (H3 : forall inner after,
     input = QUOTE :: inner ++ QUOTE :: after -> closedQuote false inner = true ->
     splitLiteral input key
     = (QUOTE :: inner ++ QUOTE :: fst (splitUnquoted after key),
        snd (splitUnquoted after key))).
  { intros inner after -> Hcl. apply LexerProps.splitLiteral_quoted. exact Hcl. }
  assert (Hcases : startsWith input [QUOTE] = false \/
            (exists inner after, input = QUOTE :: inner ++ QUOTE :: after /\
                                 closedQuote false inner = true) \/
            (startsWith input [QUOTE] = true /\ splitLiteral input key = (input, []))).
  { destruct (startsWith input [QUOTE]) eqn:Hq; [right | left; reflexivity].
    destruct input as [|x t]; [discriminate|]. pose proof Hq as Hq'. cbn [startsWith] in Hq'.
    rewrite andb_true_r in Hq'. apply N.eqb_eq in Hq'. subst x.
    destruct (quoted_cases t false) as [(inner & after & -> & Hcl)|Hu].
    - left. exists inner, after. auto.
    - right. split; [reflexivity|]. unfold splitLiteral. rewrite Hq.
      unfold substringFrom. cbn [skipn]. apply Hu. }
  split; [|split; [|split; [exact H3|]]].
  - destruct Hcases as [Hq | [(inner & after & Hin & Hcl) | [_ Hun]]].
    + unfold splitLiteral. rewrite Hq.
      destruct (splitUnquoted_spec input key) as (((ws & Hw1 & Hw2) & _) & _).
      exists ws. auto.
    + rewrite (H3 inner after Hin Hcl). cbn [fst snd]. subst input.
      destruct (splitUnquoted_spec after key) as (((ws & Hw1 & Hw2) & _) & _).
      exists ws. split; [|exact Hw2]. cbn [app]. f_equal. rewrite <- app_assoc.
      f_equal. cbn [app]. f_equal. exact Hw1.
    + rewrite Hun. exists []. cbn [fst snd]. rewrite !app_nil_r. split; reflexivity.
  - destruct Hcases as [Hq | [(inner & after & Hin & Hcl) | [_ Hun]]].
    + unfold splitLiteral. rewrite Hq.
      destruct (splitUnquoted_spec input key) as ((_ & _ & Hr) & _). exact Hr.
    + rewrite (H3 inner after Hin Hcl). cbn [fst snd].
      destruct (splitUnquoted_spec after key) as ((_ & _ & Hr) & _). exact Hr.
    + rewrite Hun. exact I.
  - intros Hq Hno.
    destruct Hcases as [Hq' | [(inner & after & Hin & Hcl) | [_ Hun]]].
    + congruence.
    + exfalso. exact (Hno inner after Hcl Hin).
    + exact Hun.
Qed.

End UtilsProps.

(* ================================================================== *)
(** ** The two literal decoders *)

Module DecoderProps.

Import Tokenizer Utils LiteralSpec LiteralProps.

Lemma literal_loop_sound A (K : str -> caps -> option A) a : forall n s c,
  starLoop (fun s' c' k' => rmatch literalBody s' c' k') K n s c = Some a ->
  exists content s', s = content ++ s' /\ wellEscaped content = true /\ K s' c = Some a.
Proof.
  induction n as [|n IH]; intros s c H.
  - exists [], s. auto.
  - cbn [starLoop] in H. unfold literalBody at 1, chr, dot, noneOf in H. cbn [rmatch] in H.
    assert (Hstop : K s c = Some a ->
              exists content s', s = content ++ s' /\ wellEscaped content = true /\ K s' c = Some a).
    { intros HK. exists [], s. auto. }
    destruct s as [|x s1]; [apply Hstop; exact H|].
    rewrite (N.eqb_sym BSLASH x) in H.
    destruct (N.eqb x BSLASH) eqn:Hx.
    + apply N.eqb_eq in Hx. subst x.
      assert (Hsecond :
        match (if negb (existsb (N.eqb BSLASH) [BSLASH; QUOTE])
               then (if length s1 <? length (BSLASH :: s1)
                     then starLoop (fun s' c' k' => rmatch literalBody s' c' k') K n s1 c
                     else None)
               else None) with
        | Some a0 => Some a0
        | None => K (BSLASH :: s1) c
        end = K (BSLASH :: s1) c) by reflexivity.
      destruct s1 as [|y s2].
      * apply Hstop. exact H.
      * destruct (negb (isLineTerminator y)) eqn:Hy.
        -- destruct (length s2 <? length (BSLASH :: y :: s2)) eqn:Hlen.
           ++ destruct (starLoop _ K n s2 c) as [a0|] eqn:Hl.
              ** inversion H; subst a0.
                 destruct (IH _ _ Hl) as (content & s' & -> & Hw & HK).
                 exists (BSLASH :: y :: content), s'. split; [reflexivity|].
                 split; [|exact HK]. simpl. unfold notLineTerminator. rewrite Hy. exact Hw.
              ** apply Hstop. exact H.
           ++ apply Hstop. exact H.
        -- apply Hstop. exact H.
    + cbn [existsb] in H.
      destruct (N.eqb x QUOTE) eqn:Hq.
      * rewrite Hx in H. cbn [orb negb] in H. apply Hstop. exact H.
      * rewrite Hx in H. cbn [orb negb] in H.
        destruct (length s1 <? length (x :: s1)) eqn:Hlen; [|apply Hstop; exact H].
        destruct (starLoop _ K n s1 c) as [a0|] eqn:Hl; [|apply Hstop; exact H].
        inversion H; subst a0.
        destruct (IH _ _ Hl) as (content & s' & -> & Hw & HK).
        exists (x :: content), s'. split; [reflexivity|]. split; [|exact HK].
        simpl. rewrite Hx, Hq. exact Hw.
Qed.

Lemma literalRegex_sound input m rest c :
  matchPrefix literalRegex input = Some (m, rest, c) ->
  exists content, input = QUOTE :: content ++ [QUOTE] /\ wellEscaped content = true.
Proof.
  unfold matchPrefix, literalRegex.
  change (Alt (Seq (chr BSLASH) dot) (noneOf [BSLASH; QUOTE])) with literalBody.
  unfold chr at 1. cbn [rmatch].
  destruct input as [|x s1]; [discriminate|].
  destruct (N.eqb QUOTE x) eqn:Hx; [|discriminate].
  apply N.eqb_eq in Hx. subst x. intros H.
  apply literal_loop_sound in H. destruct H as (content & s' & -> & Hw & HK).
  exists content. split; [|exact Hw].
  unfold chr in HK. cbn [rmatch] in HK.
  destruct s' as [|y s'']; [discriminate|].
  destruct (N.eqb QUOTE y) eqn:Hy; [|discriminate].
  apply N.eqb_eq in Hy. subst y.
  destruct s''; [reflexivity | discriminate].
Qed.

Lemma endsWith_quote_snoc content : endsWith (QUOTE :: content ++ [QUOTE]) [QUOTE] = true.
Proof.
  change (QUOTE :: content ++ [QUOTE]) with ((QUOTE :: content) ++ [QUOTE]).
  apply endsWith_snoc.
Qed.

Lemma utils_unclosed input :
  startsWith input [QUOTE] = true -> endsWith input [QUOTE] = false ->
  Utils.decodeLiteral input = Ret ([], Some UnclosedQuotes).
Proof.
  intros Hs He. unfold Utils.decodeLiteral. rewrite Hs. cbn [negb].
  destruct (matchPrefix literalRegex input) as [[[m rest] c]|] eqn:Hm.
  - apply literalRegex_sound in Hm. destruct Hm as (content & -> & _).
    rewrite endsWith_quote_snoc in He. discriminate.
  - rewrite He. reflexivity.
Qed.

Lemma utils_after_quotes input :
  startsWith input [QUOTE] = true -> endsWith input [QUOTE] = true ->
  (forall content, wellEscaped content = true -> input <> QUOTE :: content ++ [QUOTE]) ->
  Utils.decodeLiteral input = Ret ([], Some CharactersAfterQuotes).
Proof.
  intros Hs He Hno. unfold Utils.decodeLiteral. rewrite Hs. cbn [negb].
  destruct (matchPrefix literalRegex input) as [[[m rest] c]|] eqn:Hm.
  - apply literalRegex_sound in Hm. destruct Hm as (content & Hin & Hw).
    exfalso. exact (Hno content Hw Hin).
  - rewrite He. reflexivity.
Qed.

Lemma utils_closed content :
  wellEscaped content = true ->
  Utils.decodeLiteral (QUOTE :: content ++ [QUOTE])
  = match decodeLoop content 0 0 content (mkDecode [] []) with
    | Throw e => Throw e
    | Ret st => if negb (isEmpty (badEscape st))
                then Ret ([], Some (InvalidEscape (badEscape st)))
                else Ret (result st, None)
    end.
Proof.
  intros Hw. unfold Utils.decodeLiteral.
  cbn [startsWith]. rewrite N.eqb_refl. cbn [andb negb].
  rewrite (literalRegex_match _ Hw). cbn [getCap Nat.eqb]. reflexivity.
Qed.

(** X7. The outcomes of [decodeLiteral] of src/utils.ts, case by case.
    Text that does not start with a double quote is returned as it is,
    without error.  Text that starts with a double quote and does not
    end with one is reported as  unclosed quotes ; text that starts and
    ends with one but is not [content] between two double quotes, with
    every backslash of [content] followed by a code unit that is no line
    terminator and every double quote of it escaped, is reported as
    characters after quotes  (so is the text made of one double quote).
    On the literals that are left, the decoder returns the decoded text
    without error, or no text and  invalid escape code  with the text of
    an escape that is not empty, or raises the RangeError of
    [String.fromCodePoint]; no text is ever returned with an error. *)
Theorem decodeLiteral_cases input :
  (startsWith input [QUOTE] = false -> Utils.decodeLiteral input = Ret (input, None)) /\
  (startsWith input [QUOTE] = true -> endsWith input [QUOTE] = false ->
   Utils.decodeLiteral input = Ret ([], Some UnclosedQuotes)) /\
  (startsWith input [QUOTE] = true -> endsWith input [QUOTE] = true ->
   (forall content, wellEscaped content = true -> input <> QUOTE :: content ++ [QUOTE]) ->
   Utils.decodeLiteral input = Ret ([], Some CharactersAfterQuotes)) /\
  (forall content, input = QUOTE :: content ++ [QUOTE] -> wellEscaped content = true ->
   Utils.decodeLiteral input = Throw RangeError \/
   (exists text, Utils.decodeLiteral input = Ret (text, None)) \/
   (exists code, code <> [] /\
                 Utils.decodeLiteral input = Ret ([], Some (InvalidEscape code)))).
Proof.
  split; [|split; [exact (utils_unclosed input) | split; [exact (utils_after_quotes input)|]]].
  - intros H. unfold Utils.decodeLiteral. rewrite H. reflexivity.
  - intros content -> Hw. rewrite (utils_closed _ Hw).
    destruct (decodeLoop content 0 0 content (mkDecode [] [])) as [st|e] eqn:Hl.
    + destruct (badEscape st) as [|b bs] eqn:Hb; cbn [isEmpty negb].
      * right. left. eauto.
      * right. right. exists (b :: bs). split; [discriminate | reflexivity].
    + left. f_equal. eapply LexerProps.decodeLoop_throws. exact Hl.
Qed.


Lemma wellEscaped_plain_skip a b :
  forallb plain a = true -> wellEscaped (a ++ b) = wellEscaped b.
Proof.
  induction a as [|x a IH]; intros H; [reflexivity|].
  simpl in H. apply andb_true_iff in H. destruct H as [Hx H].
  unfold plain in Hx. apply andb_true_iff in Hx. destruct Hx as [Hb Hq].
  apply negb_true_iff in Hb. cbn [app wellEscaped]. rewrite Hb, Hq. cbn [andb].
  apply IH. exact H.
Qed.

Lemma wellEscaped_pieces_skip ps t :
  forallb pieceOK ps = true -> wellEscaped (literalText ps ++ t) = wellEscaped t.
Proof.
  unfold literalText. induction ps as [|p ps IH]; intros H; [reflexivity|].
  simpl in H. apply andb_true_iff in H. destruct H as [Hp H]. specialize (IH H).
  cbn [map concat]. rewrite <- app_assoc. destruct p as [c | c | hex].
  - cbn [pieceText]. rewrite wellEscaped_plain_skip; [exact IH|].
    simpl in *. rewrite Hp. reflexivity.
  - simpl in Hp. destruct (simpleEscape c) as [x|] eqn:Hc; [|discriminate].
    cbn [pieceText app wellEscaped]. rewrite N.eqb_refl.
    rewrite (simpleEscape_notLineTerminator c x Hc), IH. reflexivity.
  - apply pieceOK_hex in Hp. destruct Hp as [Hh _].
    cbn [pieceText]. unfold escapeOf. cbn [app wellEscaped]. rewrite N.eqb_refl.
    replace (notLineTerminator LBRACE) with true by reflexivity. cbn [andb].
    rewrite <- !app_assoc. rewrite wellEscaped_plain_skip; [|apply hex_plain; exact Hh].
    cbn [app wellEscaped]. replace (N.eqb RBRACE BSLASH) with false by reflexivity.
    replace (N.eqb RBRACE QUOTE) with false by reflexivity. exact IH.
Qed.

Lemma scan_pieces_then ps t :
  forallb pieceOK ps = true ->
  scan escapeRegex 0 (literalText ps ++ t) = map pieceSegment ps ++ scan escapeRegex 0 t.
Proof.
  unfold literalText. induction ps as [|p ps IH]; intros H; [reflexivity|].
  simpl in H. apply andb_true_iff in H. destruct H as [Hp H].
  cbn [map concat]. rewrite <- app_assoc, (scan_piece p _ Hp), (IH H). reflexivity.
Qed.

Lemma replaceSegments_then lno ps l text :
  forallb pieceOK ps = true -> decodePieces ps = inl text ->
  replaceSegments lno (map pieceSegment ps ++ l)
  = match replaceSegments lno l with
    | Ret s => Ret (text ++ s)
    | Throw e => Throw e
    end.
Proof.
  revert text. induction ps as [|p ps IH]; intros text H Hd.
  - simpl in Hd. inversion Hd; subst. simpl. destruct (replaceSegments lno l); reflexivity.
  - simpl in H. apply andb_true_iff in H. destruct H as [Hp H].
    cbn [decodePieces] in Hd.
    destruct (pieceValue p) as [v|] eqn:Hv; [|discriminate].
    destruct (decodePieces ps) as [r|b] eqn:Hr; [|discriminate].
    inversion Hd; subst text. specialize (IH r H eq_refl).
    cbn [map app]. destruct p as [c | c | hex].
    + cbn [pieceSegment replaceSegments]. rewrite IH. simpl in Hv. inversion Hv; subst.
      destruct (replaceSegments lno l); reflexivity.
    + simpl in Hp. destruct (simpleEscape c) as [x|] eqn:Hc; [|discriminate].
      cbn [pieceSegment replaceSegments].
      rewrite (unescape_simple lno c x _ eq_refl Hc), IH.
      simpl in Hv. rewrite Hc in Hv. inversion Hv; subst.
      destruct (replaceSegments lno l); reflexivity.
    + apply pieceOK_hex in Hp. destruct Hp as [Hh Hl].
      cbn [pieceSegment replaceSegments]. rewrite (unescape_hex lno hex _ eq_refl Hh Hl).
      rewrite Hv, IH. destruct (replaceSegments lno l); [|reflexivity].
      rewrite app_assoc. reflexivity.
Qed.

Lemma matchPrefix_escape_quote rest :
  matchPrefix escapeRegex (QUOTE :: rest) = Some ([QUOTE], rest, [(3, [QUOTE])]).
Proof.
  assert (H1 : length (QUOTE :: rest) - length rest = 1) by (cbn [length]; lia).
  unfold matchPrefix, escapeRegex, chr, dot. cbn [rmatch]. rewrite H1. reflexivity.
Qed.

Lemma tok_after_quotes lno ps text rest :
  forallb pieceOK ps = true -> decodePieces ps = inl text ->
  Tokenizer.decodeLiteral lno (QUOTE :: (literalText ps ++ QUOTE :: rest) ++ [QUOTE])
  = Throw (ParseError (Some (lno + 1)) CharactersAfterQuotes).
Proof.
  intros H Hd. unfold Tokenizer.decodeLiteral.
  cbn [startsWith]. rewrite N.eqb_refl. cbn [andb negb].
  rewrite endsWith_quote_snoc. cbn [negb].
  rewrite substring_inner, (scan_pieces_then ps _ H).
  rewrite (replaceSegments_then lno ps _ text H Hd).
  cbn [scan]. rewrite matchPrefix_escape_quote. cbn [length replaceSegments].
  reflexivity.
Qed.

Lemma utils_after_quotes_pieces ps rest :
  forallb pieceOK ps = true ->
  Utils.decodeLiteral (QUOTE :: (literalText ps ++ QUOTE :: rest) ++ [QUOTE])
  = Ret ([], Some CharactersAfterQuotes).
Proof.
  intros H. apply utils_after_quotes.
  - cbn [startsWith]. rewrite N.eqb_refl. reflexivity.
  - apply endsWith_quote_snoc.
  - intros content Hw Heq. injection Heq as Heq. apply app_inj_tail in Heq.
    destruct Heq as [Heq _]. subst content.
    rewrite (wellEscaped_pieces_skip ps _ H) in Hw. simpl in Hw. discriminate.
Qed.

(** X8. Where the decoder of src/utils.ts and the one of src/tokenizer.ts
    agree: what the one reports in its second result, the other throws
    with the line number [lno + 1].  Both return text that does not start
    with a double quote as it is; both report  unclosed quotes  for text
    that starts with a double quote and does not end with one; on a
    literal made of pieces (code units that stand for themselves, the
    escapes with a letter, escapes of one to eight hexadecimal digits)
    both return the same text, or both report  invalid escape code  with
    the same escape; and when a double quote that is not escaped stands
    between the quotes, after pieces that decode, both report
    characters after quotes . *)
Theorem decoders_agree lno input :
  (startsWith input [QUOTE] = false ->
   Utils.decodeLiteral input = Ret (input, None) /\
   Tokenizer.decodeLiteral lno input = Ret input) /\
  (startsWith input [QUOTE] = true -> endsWith input [QUOTE] = false ->
   Utils.decodeLiteral input = Ret ([], Some UnclosedQuotes) /\
   Tokenizer.decodeLiteral lno input = Throw (ParseError (Some (lno + 1)) UnclosedQuotes)) /\
  (forall ps, input = QUOTE :: literalText ps ++ [QUOTE] -> forallb pieceOK ps = true ->
   match decodePieces ps with
   | inl text =>
       Utils.decodeLiteral input = Ret (text, None) /\
       Tokenizer.decodeLiteral lno input = Ret text
   | inr code =>
       Utils.decodeLiteral input = Ret ([], Some (InvalidEscape code)) /\
       Tokenizer.decodeLiteral lno input
       = Throw (ParseError (Some (lno + 1)) (InvalidEscape code))
   end) /\
  (forall ps text rest,
     input = QUOTE :: (literalText ps ++ QUOTE :: rest) ++ [QUOTE] ->
     forallb pieceOK ps = true -> decodePieces ps = inl text ->
     Utils.decodeLiteral input = Ret ([], Some CharactersAfterQuotes) /\
     Tokenizer.decodeLiteral lno input
     = Throw (ParseError (Some (lno + 1)) CharactersAfterQuotes)).
Proof.
  split; [|split; [|split]].
  - intros H. unfold Utils.decodeLiteral, Tokenizer.decodeLiteral. rewrite H. split; reflexivity.
  - intros Hs He. split; [apply utils_unclosed; assumption|].
    unfold Tokenizer.decodeLiteral. rewrite Hs, He. reflexivity.
  - intros ps -> H.
    rewrite (utils_decode_pieces ps H), (tok_decode_pieces lno ps H).
    destruct (decodePieces ps); split; reflexivity.
  - intros ps text rest -> H Hd. split.
    + apply utils_after_quotes_pieces. exact H.
    + apply (tok_after_quotes lno ps text rest H Hd).
Qed.

Lemma decoders_agree_witness :
  (Utils.decodeLiteral (QUOTE :: literalText [PPlain 97; PSimple 116; PHex (u "41")] ++ [QUOTE])
   = Ret ([97; TAB; 65]%N, None) /\
   Tokenizer.decodeLiteral 4 (QUOTE :: literalText [PPlain 97; PSimple 116; PHex (u "41")] ++ [QUOTE])
   = Ret [97; TAB; 65]%N) /\
  (Utils.decodeLiteral (QUOTE :: (literalText [PPlain 97] ++ QUOTE :: u "b") ++ [QUOTE])
   = Ret ([], Some CharactersAfterQuotes) /\
   Tokenizer.decodeLiteral 4 (QUOTE :: (literalText [PPlain 97] ++ QUOTE :: u "b") ++ [QUOTE])
   = Throw (ParseError (Some 5) CharactersAfterQuotes)).
Proof.
  split.
  - exact (proj1 (proj2 (proj2 (decoders_agree 4 _)))
             [PPlain 97; PSimple 116; PHex (u "41")] eq_refl eq_refl).
  - exact (proj2 (proj2 (proj2 (decoders_agree 4 _)))
             [PPlain 97] [97%N] (u "b") eq_refl eq_refl eq_refl).
Defined.

End DecoderProps.

(* ================================================================== *)
(** ** The order of the tokens of the lexer *)

Module GrammarProps.

Import Utils Lexer LexerSpec LexerProps GrammarSpec.

Lemma follow_app step p a b :
  follow step p (a ++ b)
  = match follow step p a with
    | Some q => follow step q b
    | None => None
    end.
Proof.
  revert p. induction a as [|t a IH]; intros p; simpl; [reflexivity|].
  destruct (step p (kind t)); [apply IH | reflexivity].
Qed.

Lemma follow_nesting p ts :
  forallb (fun t => negb (flat t)) ts = true -> p <> AfterHint ->
  exists q, follow rawNext p ts = Some q /\ q <> AfterHint.
Proof.
  revert p. induction ts as [|t ts IH]; intros p H Hp; simpl.
  - eauto.
  - simpl in H. apply andb_true_iff in H. destruct H as [Ht H].
    unfold flat in Ht.
    destruct (kind t); try discriminate; destruct p; try contradiction;
      simpl; apply IH; auto; discriminate.
Qed.

Lemma popOutdents_kinds lno indent stk :
  forallb (fun t => negb (flat t)) (snd (popOutdents lno indent stk)) = true.
Proof.
  induction stk as [|t stk IH]; simpl; [reflexivity|].
  destruct (startsWith indent t); [reflexivity|].
  destruct (popOutdents lno indent stk) as [stk' out]. simpl in *. exact IH.
Qed.

Lemma pushIndent_kinds lno indent stk :
  forallb (fun t => negb (flat t)) (snd (pushIndent lno indent stk)) = true.
Proof. unfold pushIndent. destruct (negb (str_eqb indent (top stk))); reflexivity. Qed.

Lemma commentOf_follow p lno after :
  follow rawNext p (commentOf lno after) = Some p.
Proof.
  unfold commentOf. destruct (cutPrefix after [SEMI]) as [c [|]]; [|reflexivity].
  destruct p; reflexivity.
Qed.

Lemma tokenizeValue_shaped st lno rest :
  multiline st = false -> rawShaped AfterKey (tokenizeValue st lno rest).
Proof.
  intros Hm. unfold tokenizeValue, rawShaped, collecting.
  destruct (cutPrefix rest [SEMI]) as [comment [|]].
  - simpl. exists AfterKey. split; [reflexivity|]. intros st' H. inversion H; subst.
    rewrite Hm. split; discriminate.
  - destruct (cutPrefix rest [QUOTE; QUOTE; QUOTE]) as [indicator [|]].
    + destruct (splitLiteral indicator false) as [hint afterHint].
      unfold bind, yield. cbv beta iota zeta. cbn [fst snd app follow kind rawNext].
      rewrite commentOf_follow. exists AfterHint. split; [reflexivity|].
      intros st' H. inversion H; subst. simpl. split; reflexivity.
    + destruct (splitLiteral rest false) as [value afterValue].
      destruct (negb (isEmpty value)).
      * destruct (decodeLiteral value) as [d|e]; unfold bind, yield, lift, ret;
          cbv beta iota zeta; cbn [fst snd app follow kind rawNext].
        -- rewrite commentOf_follow. exists Idle. split; [reflexivity|].
           intros st' H. inversion H; subst. rewrite Hm. split; discriminate.
        -- exists AfterKey. split; [reflexivity|]. discriminate.
      * unfold bind, ret. cbv beta iota zeta. cbn [fst snd app].
        rewrite commentOf_follow. exists AfterKey. split; [reflexivity|].
        intros st' H. inversion H; subst. rewrite Hm. split; discriminate.
Qed.

Lemma rawShaped_after p q ts m :
  follow rawNext p ts = Some q -> rawShaped q m -> rawShaped p (ts ++ fst m, snd m).
Proof.
  intros H (p' & Hf & Hc). exists p'. cbn [fst snd]. rewrite follow_app, H. auto.
Qed.

Lemma tokenizeEntry_shaped st lno indent rest p :
  multiline st = false -> p <> AfterHint ->
  rawShaped p (tokenizeEntry st lno indent rest).
Proof.
  intros Hm Hp.
  assert (Hret : rawShaped p (ret st)).
  { exists p. split; [reflexivity|]. intros st' H. inversion H; subst.
    unfold collecting. rewrite Hm. split; [discriminate | intros ->; contradiction]. }
  unfold tokenizeEntry.
  destruct (isEmpty rest); [exact Hret|].
  destruct (cutPrefix rest [SEMI]) as [comment [|]].
  - change (rawShaped p ([mkToken lno Comment comment (checkUtf8 comment)] ++ fst (ret st),
                         snd (@ret Token _ st))).
    apply (rawShaped_after p p); [destruct p; reflexivity | exact Hret].
  - pose proof (popOutdents_kinds lno indent (stack st)) as Hk1.
    destruct (popOutdents lno indent (stack st)) as [stk1 outdents]. simpl in Hk1.
    pose proof (pushIndent_kinds lno indent stk1) as Hk2.
    destruct (pushIndent lno indent stk1) as [stk2 indents]. simpl in Hk2.
    set (st2 := mkState stk2 (multiline st) (multilinePrefix st) (multilineValue st)
                        (multilineLno st)).
    destruct (follow_nesting p (outdents ++ indents)) as (q & Hq & Hqn);
      [rewrite forallb_app, Hk1, Hk2; reflexivity | exact Hp |].
    assert (Hval : forall r0, rawShaped AfterKey (tokenizeValue st2 lno r0)).
    { intros r0. apply tokenizeValue_shaped. exact Hm. }
    assert (Hkey : forall t, kind t = ListItem \/ kind t = MapKey ->
              follow rawNext q [t] = Some AfterKey).
    { intros t [Ht | Ht]; simpl; rewrite Ht; destruct q; try contradiction; reflexivity. }
    destruct (cutPrefix rest [EQUALS]) as [list [|]].
    + specialize (Hval (snd (trimLeft list))).
      destruct (tokenizeValue st2 lno (snd (trimLeft list))) as [tsv rv].
      unfold bind, yield. cbv beta iota zeta.
      apply (rawShaped_after p q (outdents ++ indents)
               (mkToken lno ListItem [] None :: tsv, rv) Hq).
      apply (rawShaped_after q AfterKey [mkToken lno ListItem [] None] (tsv, rv)).
      * apply Hkey. left. reflexivity.
      * exact Hval.
    + destruct (splitLiteral rest true) as [key afterKey].
      destruct (decodeLiteral key) as [d|e].
      * match goal with
        | |- context [tokenizeValue st2 lno ?r0] =>
            specialize (Hval r0);
            destruct (tokenizeValue st2 lno r0) as [tsv rv]
        end.
        unfold bind, yield, lift. cbv beta iota zeta.
        apply (rawShaped_after p q (outdents ++ indents)
                 (mkToken lno MapKey (fst d) (snd d) :: tsv, rv) Hq).
        apply (rawShaped_after q AfterKey [mkToken lno MapKey (fst d) (snd d)] (tsv, rv)).
        -- apply Hkey. right. reflexivity.
        -- exact Hval.
      * unfold bind, yield, lift. cbv beta iota.
        exists q. cbn [fst snd]. rewrite app_nil_r. split; [exact Hq | discriminate].
Qed.

Lemma tokenizeLine_shaped st line p :
  collecting p st -> rawShaped p (tokenizeLine st line).
Proof.
  intros Hc. destruct line as [lno content]. unfold tokenizeLine.
  destruct (trimLeft content) as [indent rest].
  unfold collecting in Hc.
  destruct (multiline st) eqn:Hm.
  - assert (Hp : p = AfterHint) by (apply Hc; reflexivity). subst p.
    assert (Hret : forall b c d, rawShaped AfterHint (ret (mkState (stack st) true b c d))).
    { intros. exists AfterHint. split; [reflexivity|]. intros st' H. inversion H; subst.
      unfold collecting. simpl. split; reflexivity. }
    assert (Hsame : rawShaped AfterHint (ret st)).
    { exists AfterHint. split; [reflexivity|]. intros st' H. inversion H; subst.
      unfold collecting. rewrite Hm. split; reflexivity. }
    assert (Hent : forall t b c d, kind t = MultilineScalar ->
               rawShaped AfterHint
                 (yield t ;;; tokenizeEntry (mkState (stack st) false b c d) lno indent rest)).
    { intros t b c d Ht.
      pose proof (tokenizeEntry_shaped (mkState (stack st) false b c d) lno indent rest Idle
                    eq_refl ltac:(discriminate)) as H.
      unfold bind, yield. cbv beta iota.
      destruct (tokenizeEntry _ lno indent rest) as [ts r].
      apply (rawShaped_after AfterHint Idle [t] (ts, r)); [|exact H].
      simpl. rewrite Ht. reflexivity. }
    destruct (isEmpty (multilinePrefix st)).
    + destruct (startsWith indent (top (stack st)) && negb (str_eqb indent (top (stack st)))).
      * apply Hret.
      * destruct (isEmpty rest); [exact Hsame|]. apply Hent. reflexivity.
    + destruct (startsWith content (multilinePrefix st)); [apply Hret|].
      destruct (isEmpty rest); [apply Hret|]. apply Hent. reflexivity.
  - apply tokenizeEntry_shaped; [exact Hm|]. intros ->.
    destruct Hc as [_ Hc]. specialize (Hc eq_refl). discriminate.
Qed.

Lemma tokenizeLines_shaped ls : forall st p,
  collecting p st -> rawShaped p (tokenizeLines st ls).
Proof.
  induction ls as [|l ls IH]; intros st p Hc; simpl.
  - exists p. split; [reflexivity|]. intros st' H. inversion H; subst. exact Hc.
  - destruct (tokenizeLine_shaped st l p Hc) as (q & Hq & Hcq).
    destruct (tokenizeLine st l) as [ts [st1|e]]; cbn [fst snd] in *.
    + specialize (IH st1 q (Hcq st1 eq_refl)). unfold bind.
      destruct (tokenizeLines st1 ls) as [ts2 r2].
      apply (rawShaped_after p q ts (ts2, r2) Hq IH).
    + unfold bind. exists q. cbn [fst snd]. split; [exact Hq | discriminate].
Qed.

Lemma tokenize_shaped input :
  exists p, follow rawNext Idle (fst (tokenize input)) = Some p /\
            (snd (tokenize input) = Ret tt -> p <> AfterHint).
Proof.
  unfold tokenize.
  destruct (tokenizeLines_shaped (lines input) initialState Idle) as (q & Hq & Hcq).
  { unfold collecting. simpl. split; discriminate. }
  destruct (tokenizeLines initialState (lines input)) as [ts [st1|e]]; cbn [fst snd] in *.
  - unfold bind. cbn [fst snd]. rewrite follow_app, Hq.
    specialize (Hcq st1 eq_refl). unfold collecting in Hcq. unfold tokenizeFlush.
    destruct (multiline st1).
    + assert (q = AfterHint) by (apply Hcq; reflexivity). subst q.
      exists Idle. split; [|discriminate].
      destruct (negb (isEmpty (multilineValue st1))); reflexivity.
    + exists q. split; [reflexivity|]. intros _ ->.
      destruct Hcq as [_ Hcq]. specialize (Hcq eq_refl). discriminate.
  - unfold bind. cbn [fst snd]. exists q. split; [exact Hq | discriminate].
Qed.

Lemma tokensStep_follow v t p p' :
  waiting (states v) p -> rawNext p (kind t) = Some p' ->
  exists q, follow next p (fst (tokensStep v t)) = Some q /\
            forall v', snd (tokensStep v t) = Ret v' -> q = p' /\ waiting (states v') p'.
Proof.
  intros (Hkinds & Hbelow & Htop) Hraw. unfold tokensStep.
  destruct (states v) as [|state below] eqn:Hs.
  - subst p. destruct (kind t) eqn:Hk; simpl in Hraw; try discriminate;
      inversion Hraw; subst p'; unfold bind, yield, ret, throw; cbn [fst snd app follow];
      rewrite ?Hk; cbn [next follow];
      try (exists Idle; split; [reflexivity | discriminate]).
    exists Idle. split; [reflexivity|]. intros v' H. inversion H; subst.
    split; [reflexivity|]. split; [reflexivity|]. split; [constructor | reflexivity].
  - cbn [tl] in Hbelow. unfold kindsOK in Hkinds. cbn [forallb] in Hkinds.
    apply andb_true_iff in Hkinds. destruct Hkinds as [Hk0 Hkb].
    assert (Hkb' : kindsOK (tl below)).
    { destruct below; [reflexivity|]. cbn [forallb] in Hkb.
      apply andb_true_iff in Hkb. apply Hkb. }
    assert (Hb' : Forall (fun s => hasKey s = false) (tl below)).
    { destruct below; [constructor|]. inversion Hbelow; assumption. }
    assert (Hhd : match below with [] => True | s :: _ => hasKey s = false end).
    { destruct below; [exact I|]. inversion Hbelow; assumption. }
    destruct (kind t) eqn:Hk; destruct p; simpl in Hraw; try discriminate;
      inversion Hraw; subst p'; clear Hraw;
      destruct (hasKey state) eqn:Hh; try discriminate;
      destruct (skind state) eqn:Hsk; try discriminate;
      unfold bind, yield, ret, throw; cbn [fst snd app follow kind TokenKind_eqb andb];
      rewrite ?Hk; cbn [fst snd app follow kind TokenKind_eqb andb next];
      (eexists; split; [reflexivity|]);
      intros v' H; inversion H; subst v'; cbn [states];
      (split; [reflexivity|]);
      (split; [unfold kindsOK; cbn [forallb skind entryKind andb]; try assumption;
               try (rewrite Hsk; exact Hkb);
               try (destruct below; [reflexivity | exact Hkb])
              |split; [cbn [tl]; try assumption; try (constructor; [reflexivity | assumption])
                      | try reflexivity; try exact Hh;
                        try (destruct below; [reflexivity | assumption])]]).
Qed.

Lemma tokensLoop_follow raw : forall v p p',
  waiting (states v) p -> follow rawNext p raw = Some p' ->
  exists q, follow next p (fst (tokensLoop v raw)) = Some q /\
            forall v', snd (tokensLoop v raw) = Ret v' -> q = p' /\ waiting (states v') p'.
Proof.
  induction raw as [|t raw IH]; intros v p p' Hw Hraw.
  - simpl in Hraw. inversion Hraw; subst p'. exists p. split; [reflexivity|].
    intros v' H. inversion H; subst. auto.
  - cbn [follow] in Hraw. destruct (rawNext p (kind t)) as [p1|] eqn:Hn; [|discriminate].
    destruct (tokensStep_follow v t p p1 Hw Hn) as (q1 & Hq1 & Hv1).
    cbn [tokensLoop]. destruct (tokensStep v t) as [ts1 [v1|e]]; cbn [fst snd] in *.
    + destruct (Hv1 v1 eq_refl) as [-> Hw1].
      destruct (IH v1 p1 p' Hw1 Hraw) as (q & Hq & Hv).
      unfold bind. destruct (tokensLoop v1 raw) as [ts2 r2]. cbn [fst snd] in *.
      exists q. rewrite follow_app, Hq1. auto.
    + unfold bind. cbn [fst snd]. exists q1. split; [exact Hq1 | discriminate].
Qed.

Lemma tokensFlush_follow l sts :
  Forall (fun s => hasKey s = false) sts ->
  follow next Idle (tokensFlush l sts) = Some Idle.
Proof.
  induction sts as [|s sts IH]; intros H; [reflexivity|].
  inversion H as [|s0 sts0 Hs Hrest]; subst.
  cbn [tokensFlush]. rewrite Hs. cbn [app].
  destruct (1 <? length (s :: sts)); cbn [app follow kind next]; apply IH; exact Hrest.
Qed.

(** X14. The order of the tokens [tokens] yields, as its documentation
    states it, and the converse.  Ignoring [Comment] tokens: after a
    [ListItem] or a [MapKey] comes a [Scalar], a [NoValue], an [Indent],
    or a [MultilineHint]; after a [MultilineHint] comes a
    [MultilineScalar]; and a [Scalar], [NoValue], [Indent] or
    [MultilineHint] comes only after a [ListItem] or a [MapKey], a
    [MultilineScalar] only after a [MultilineHint], a [ListItem], a
    [MapKey] or an [Outdent] only when no value is waited for.  This
    holds of everything that is yielded, also before a RangeError; and
    when the stream ends normally, no value is waited for at its end. *)
Theorem tokens_grammar input :
  exists p, follow next Idle (fst (tokens input)) = Some p /\
            (snd (tokens input) = Ret tt -> p = Idle).
Proof.
  unfold tokens. destruct (tokenize_shaped input) as (p' & Hraw & Hend).
  destruct (tokenize input) as [raw r]. cbn [fst snd] in *.
  assert (Hw : waiting (states initialValidator) Idle).
  { split; [reflexivity|]. split; [constructor | reflexivity]. }
  destruct (tokensLoop_follow raw initialValidator Idle p' Hw Hraw) as (q & Hq & Hv).
  destruct (tokensLoop initialValidator raw) as [out [v|e]]; cbn [fst snd] in *.
  - destruct (Hv v eq_refl) as [-> (Hk & Hbelow & Htop)].
    unfold bind. destruct r as [[]|e]; cbn [fst snd].
    + exists Idle. split; [|reflexivity]. rewrite follow_app, Hq.
      specialize (Hend eq_refl).
      destruct (states v) as [|s below]; [subst p'; reflexivity|].
      cbn [tl] in Hbelow. cbn [tokensFlush].
      destruct p'; [ | | contradiction].
      * rewrite Htop. cbn [app].
        destruct (1 <? length (s :: below)); cbn [app follow kind next];
          apply tokensFlush_follow; exact Hbelow.
      * rewrite Htop. cbn [app follow kind next].
        destruct (1 <? length (s :: below)); cbn [app follow kind next];
          apply tokensFlush_follow; exact Hbelow.
    + unfold throw. cbn [fst snd]. rewrite app_nil_r. exists p'. split; [exact Hq | discriminate].
  - unfold bind. cbn [fst snd]. exists q. split; [exact Hq | discriminate].
Qed.

End GrammarProps.

(* ================================================================== *)
(** ** The order of the tokens of src/tokenizer.ts *)

Module TokenizerGrammarProps.

Import Tokenizer TokenizerSpec TokenizerProps TokenizerGrammarSpec.

Lemma tokenFollow_app p a b :
  tokenFollow p (a ++ b)
  = match tokenFollow p a with
    | Some q => tokenFollow q b
    | None => None
    end.
Proof.
  revert p. induction a as [|t a IH]; intros p; simpl; [reflexivity|].
  destruct (tokenNext p (kind t)); [apply IH | reflexivity].
Qed.

Lemma lineFollow_app p a b :
  lineFollow p (a ++ b)
  = match lineFollow p a with
    | Some q => lineFollow q b
    | None => None
    end.
Proof.
  revert p. induction a as [|t a IH]; intros p; simpl; [reflexivity|].
  destruct (lineNext p t); [apply IH | reflexivity].
Qed.

Lemma handleToken_follow st lno ind rest t p p' :
  keyPending st p -> lineNext p t = Some p' ->
  exists q, tokenFollow p (fst (handleToken st lno ind rest t)) = Some q /\
            forall r, snd (handleToken st lno ind rest t) = Ret r ->
                      q = p' /\ keyPending (fst r) p'.
Proof.
  intros Hp Hn. unfold handleToken, nullBefore.
  destruct t as [[ | | | c | c | ]|]; simpl in Hn; try discriminate.
  - (* indent *)
    inversion Hn; subst p'. destruct p; simpl in Hp.
    + rewrite Hp. exists Nothing. split; [reflexivity | discriminate].
    + destruct (lastLno st); [|contradiction]. exists Nothing. split; [reflexivity|].
      intros r H. inversion H; subst. split; reflexivity.
  - (* outdent *)
    inversion Hn; subst p'. destruct p; simpl in Hp.
    + rewrite Hp. exists Nothing. split; [reflexivity|].
      intros r H. inversion H; subst. split; reflexivity.
    + destruct (lastLno st); [|contradiction]. exists Nothing. split; [reflexivity|].
      intros r H. inversion H; subst. split; reflexivity.
  - (* item *)
    inversion Hn; subst p'.
    destruct (stack st) as [|f below]; [exists p; split; [reflexivity | discriminate]|].
    destruct p; simpl in Hp.
    + rewrite Hp. destruct (fkind f) as [[]|]; cbn [fst snd throw app tokenFollow kind tokenNext];
        (eexists; split; [reflexivity|]); try discriminate;
        intros r H; inversion H; subst; (split; [reflexivity | simpl; discriminate]).
    + destruct (lastLno st); [|contradiction].
      destruct (fkind f) as [[]|]; cbn [fst snd throw app tokenFollow kind tokenNext];
        (eexists; split; [reflexivity|]); try discriminate;
        intros r H; inversion H; subst; (split; [reflexivity | simpl; discriminate]).
  - (* key *)
    inversion Hn; subst p'.
    destruct (stack st) as [|f below]; [exists p; split; [reflexivity | discriminate]|].
    destruct p; simpl in Hp.
    + rewrite Hp. destruct (fkind f) as [[]|]; cbn [fst snd throw app tokenFollow kind tokenNext];
        (eexists; split; [reflexivity|]); try discriminate;
        intros r H; inversion H; subst; (split; [reflexivity | simpl; discriminate]).
    + destruct (lastLno st); [|contradiction].
      destruct (fkind f) as [[]|]; cbn [fst snd throw app tokenFollow kind tokenNext];
        (eexists; split; [reflexivity|]); try discriminate;
        intros r H; inversion H; subst; (split; [reflexivity | simpl; discriminate]).
  - (* scalar *)
    destruct p; [discriminate|]. inversion Hn; subst p'.
    exists Nothing. split; [reflexivity|]. intros r H. inversion H; subst. split; reflexivity.
  - (* multiline *)
    destruct p; [discriminate|]. inversion Hn; subst p'.
    unfold bind, lift.
    destruct (consumeMultiline lno ind rest) as [r0|e] eqn:Hc; cbn [fst snd app].
    + unfold consumeMultiline in Hc.
      destruct (skipn (blankLines rest) rest) as [|l rest']; [discriminate|].
      destruct (negb (startsWith (lindent l) ind) || str_eqb (lindent l) ind); [discriminate|].
      destruct (collect (lindent l) (lcontent l) rest') as [res n].
      inversion Hc; subst. exists Nothing. split; [reflexivity|].
      intros r H. inversion H; subst. split; reflexivity.
    + exists Value. split; [reflexivity | discriminate].
Qed.

Lemma handleTokens_follow lno ind rest lts : forall st skip p p',
  keyPending st p -> lineFollow p lts = Some p' ->
  exists q, tokenFollow p (fst (handleTokens st lno ind rest lts skip)) = Some q /\
            forall r, snd (handleTokens st lno ind rest lts skip) = Ret r ->
                      q = p' /\ keyPending (fst r) p'.
Proof.
  induction lts as [|t lts IH]; intros st skip p p' Hp Hl.
  - simpl in *. inversion Hl; subst. exists p'. split; [reflexivity|].
    intros r H. inversion H. auto.
  - cbn [lineFollow] in Hl. destruct (lineNext p t) as [p1|] eqn:H1; [|discriminate].
    destruct (handleToken_follow st lno ind rest t p p1 Hp H1) as (q1 & Hq1 & Hret).
    cbn [handleTokens]. unfold bind.
    destruct (handleToken st lno ind rest t) as [out [r1|e]]; cbn [fst snd] in *.
    + destruct (Hret r1 eq_refl) as [-> Hp1].
      destruct (IH (fst r1) (skip + snd r1) p1 p' Hp1 Hl) as (q & Hq & Hret').
      destruct (handleTokens (fst r1) lno ind rest lts (skip + snd r1)) as [out' r'];
        cbn [fst snd] in *.
      exists q. rewrite tokenFollow_app, Hq1. auto.
    + exists q1. split; [exact Hq1 | discriminate].
Qed.

Lemma popOutdents_lineFollow ind stk p :
  exists q, lineFollow p (snd (popOutdents ind stk)) = Some q.
Proof.
  revert p. induction stk as [|f below IH]; intros p; simpl; [eauto|].
  destruct (startsWith ind (findent f)); [simpl; eauto|].
  destruct (IH Nothing) as [q Hq].
  destruct (popOutdents ind below) as [stk' out]. simpl in *. eauto.
Qed.

Lemma tokenizeLine_follow stk lno ind content p :
  exists q, lineFollow p (fst (snd (tokenizeLine stk lno ind content))) = Some q.
Proof.
  unfold tokenizeLine.
  destruct (isEmpty content || startsWith content [SEMI]); [simpl; eauto|].
  destruct (popOutdents_lineFollow ind stk p) as [q1 Hq1].
  destruct (popOutdents ind stk) as [stk1 outdents]. cbn [fst snd] in Hq1.
  set (rest := match matchPrefix SPLIT_LINE content with
               | None => _ | Some _ => _ end).
  assert (Hrest : forall p0, exists q, lineFollow p0 (fst rest) = Some q).
  { intros p0. unfold rest.
    destruct (matchPrefix SPLIT_LINE content) as [[[m s'] c]|]; [|simpl; eauto].
    set (vg := match getCap 2 c with None => _ | Some _ => _ end).
    assert (Hval : exists q, lineFollow Value (fst vg) = Some q).
    { unfold vg. destruct (getCap 2 c) as [tail'|]; [|simpl; eauto].
      destruct (matchPrefix multilineRegex tail'); [simpl; eauto|].
      destruct (negb (isEmpty tail')); [|simpl; eauto].
      unfold bind, lift, yield. destruct (decodeLiteral lno tail'); simpl; eauto. }
    destruct Hval as [qv Hqv]. destruct vg as [tsv rv]. cbn [fst] in Hqv.
    destruct (negb (isEmpty match getCap 1 c with Some k => k | None => [] end)).
    - unfold bind, lift, yield.
      destruct (decodeLiteral lno _) as [k|e]; [|simpl; eauto].
      cbn [fst snd app lineFollow lineNext]. eauto.
    - unfold bind, yield. cbn [fst snd app lineFollow lineNext]. eauto. }
  destruct (negb (str_eqb ind (topIndent stk1))); cbn [fst snd]; unfold bind;
    destruct rest as [lts r] eqn:Hr; cbn [fst snd] in *.
  - destruct (Hrest Nothing) as [q Hq]. exists q.
    rewrite lineFollow_app, lineFollow_app, Hq1. cbn [lineFollow lineNext]. exact Hq.
  - rewrite app_nil_r. destruct (Hrest q1) as [q Hq]. exists q.
    rewrite lineFollow_app, Hq1. exact Hq.
Qed.

Lemma tokenizer_tokensLoop_follow ls : forall st lno skip p,
  keyPending st p ->
  exists q, tokenFollow p (fst (tokensLoop st lno skip ls)) = Some q /\
            forall r, snd (tokensLoop st lno skip ls) = Ret r -> keyPending (fst r) q.
Proof.
  induction ls as [|l ls IH]; intros st lno skip p Hp.
  - exists p. split; [reflexivity|]. intros r H. inversion H. exact Hp.
  - cbn [tokensLoop]. destruct skip as [|k]; [|apply IH; exact Hp].
    destruct (tokenizeLine_follow (stack st) lno (lindent l) (lcontent l) p) as [p1 Hp1].
    destruct (tokenizeLine (stack st) lno (lindent l) (lcontent l)) as [stk [lts r]].
    cbn [fst snd] in Hp1.
    destruct (handleTokens_follow lno (lindent l) ls lts (mkTokensState stk (lastLno st)) 0
                p p1) as (q1 & Hq1 & Hret); [destruct p; exact Hp | exact Hp1 |].
    unfold bind.
    destruct (handleTokens (mkTokensState stk (lastLno st)) lno (lindent l) ls lts 0)
      as [out [h|e]]; cbn [fst snd] in *.
    + destruct (Hret h eq_refl) as [-> Hk].
      destruct r as [[]|e].
      * destruct (IH (fst h) (S lno) (snd h) p1 Hk) as (q & Hq & Hret').
        destruct (tokensLoop (fst h) (S lno) (snd h) ls) as [out' r']; cbn [fst snd] in *.
        exists q. rewrite tokenFollow_app, Hq1. auto.
      * exists p1. cbn [fst snd throw]. rewrite app_nil_r. split; [exact Hq1 | discriminate].
    + exists q1. split; [exact Hq1 | discriminate].
Qed.

Lemma closeStack_follow lno stk : tokenFollow Nothing (closeStack lno stk) = Some Nothing.
Proof.
  induction stk as [|f [|g below] IH]; try reflexivity.
  cbn [closeStack tokenFollow kind tokenNext]. exact IH.
Qed.

(** X15. The order of the tokens of src/tokenizer.ts, which [parse] reads.
    Every [key] and every [item] is followed at once by its value: a
    [scalar], a [null], or the [indent] that opens its section; and a
    [scalar], a [null] or an [indent] comes only there.  So [outdent],
    [key] and [item] come only when no value is waited for.  This holds
    of everything that is yielded, also before an exception; and when
    [tokens] returns, no value is waited for at the end. *)
Theorem tokenizer_grammar input :
  exists p, tokenFollow Nothing (fst (tokens input)) = Some p /\
            (snd (tokens input) = Ret tt -> p = Nothing).
Proof.
  unfold tokens, bind, lift.
  destruct (splitLines (split newlineRegex input)) as [ls|e]; cbn [fst snd app].
  2: { exists Nothing. split; [reflexivity | discriminate]. }
  destruct (tokenizer_tokensLoop_follow ls (mkTokensState [mkFrame [] None] None) 0 0 Nothing eq_refl)
    as (q & Hq & Hret).
  destruct (tokensLoop (mkTokensState [mkFrame [] None] None) 0 0 ls) as [out [r|e]];
    cbn [fst snd] in *.
  - specialize (Hret r eq_refl). exists Nothing. split; [|reflexivity].
    rewrite tokenFollow_app, Hq, tokenFollow_app. unfold nullBefore.
    destruct q; simpl in Hret.
    + rewrite Hret. cbn [tokenFollow]. apply closeStack_follow.
    + destruct (lastLno (fst r)); [|contradiction].
      cbn [tokenFollow kind tokenNext]. apply closeStack_follow.
  - exists q. split; [exact Hq | discriminate].
Qed.

End TokenizerGrammarProps.

(* ================================================================== *)
(** ** The tree [parse] builds *)

Module TreeProps.

Import Tokenizer Parser ParserSpec ParserProps TreeSpec.

Lemma conl_all (m : list (str * value)) :
  (fix all (m : list (str * value)) : Prop :=
     match m with
     | [] => True
     | e :: m' => conl (snd e) /\ all m'
     end) m
  <-> Forall (fun e => conl (snd e)) m.
Proof.
  split; intros H.
  - induction m as [|e m IH]; [constructor|]. destruct H as [He H]. constructor; auto.
  - induction m as [|e m IH]; [exact I|]. inversion H; subst.
    split; [assumption | exact (IH H3)].
Qed.

Lemma conl_map m :
  conl (VMap m) <-> NoDup (map fst m) /\ Forall (fun e => conl (snd e)) m.
Proof. cbn [conl]. rewrite conl_all. reflexivity. Qed.

Lemma conl_object p m :
  conl (VObject p m)
  <-> conl p /\ NoDup (map fst m) /\ Forall (fun e => conl (snd e)) m.
Proof. cbn [conl]. rewrite conl_all. reflexivity. Qed.

Lemma conl_list l : conl (VList l) <-> Forall conl l.
Proof.
  cbn [conl]. split; intros H.
  - induction l as [|x l IH]; [constructor|]. destruct H as [Hx H]. constructor; auto.
  - induction l as [|x l IH]; [exact I|]. inversion H; subst.
    split; [assumption | exact (IH H3)].
Qed.

Lemma str_eqb_neq a b : str_eqb a b = false -> a <> b.
Proof. intros H ->. rewrite LexerProps.str_eqb_refl in H. discriminate. Qed.

Lemma hasKey_In k m : hasKey k m = true <-> In k (map fst m).
Proof.
  unfold hasKey. rewrite existsb_exists. split.
  - intros [e [He Hk]]. apply LexerProps.str_eqb_eq in Hk. subst k. apply in_map. exact He.
  - intros H. apply in_map_iff in H. destruct H as [e [<- He]].
    exists e. split; [exact He | apply LexerProps.str_eqb_refl].
Qed.

Lemma replaceKey_keys k v m : map fst (replaceKey k v m) = map fst m.
Proof.
  induction m as [|[k' v'] m IH]; [reflexivity|]. cbn [replaceKey].
  destruct (str_eqb k k') eqn:Hk.
  - apply LexerProps.str_eqb_eq in Hk. subst. reflexivity.
  - cbn [map fst]. rewrite IH. reflexivity.
Qed.

Lemma insertKey_In k v m e : In e (insertKey k v m) <-> e = (k, v) \/ In e m.
Proof.
  induction m as [|[k' v'] m IH]; cbn [insertKey].
  - split; [intros [<-|[]]; auto | intros [->|[]]; left; reflexivity].
  - destruct (enumeratedBefore k k').
    + split; [intros [<-|H]; auto | intros [->|H]; [left; reflexivity | right; exact H]].
    + split.
      * intros [<-|H]; [right; left; reflexivity|].
        apply IH in H. destruct H as [H|H]; [left; exact H | right; right; exact H].
      * intros [->|[<-|H]].
        -- right. apply IH. left. reflexivity.
        -- left. reflexivity.
        -- right. apply IH. right. exact H.
Qed.

Lemma replaceKey_In k v m e : In e (replaceKey k v m) -> e = (k, v) \/ In e m.
Proof.
  induction m as [|[k' v'] m IH]; cbn [replaceKey]; [intros []|].
  destruct (str_eqb k k').
  - intros [<-|H]; [left; reflexivity | right; right; exact H].
  - intros [<-|H]; [right; left; reflexivity|].
    destruct (IH H) as [H'|H']; [left; exact H' | right; right; exact H'].
Qed.

Lemma insertKey_NoDup k v m :
  ~ In k (map fst m) -> NoDup (map fst m) -> NoDup (map fst (insertKey k v m)).
Proof.
  induction m as [|[k' v'] m IH]; intros Hk Hn; cbn [insertKey].
  - constructor; [intros [] | constructor].
  - destruct (enumeratedBefore k k').
    + cbn [map fst]. constructor; [exact Hk | exact Hn].
    + cbn [map fst] in *. inversion Hn as [|? ? Hk' Hn']; subst. constructor.
      * intros Hin. apply in_map_iff in Hin. destruct Hin as [e [He Hin]].
        apply insertKey_In in Hin. destruct Hin as [-> | Hin].
        -- cbn [fst] in He. subst k'. apply Hk. left. reflexivity.
        -- apply Hk'. rewrite <- He. apply in_map. exact Hin.
      * apply IH; [intros Hin; apply Hk; right; exact Hin | exact Hn'].
Qed.

(** Writing a property keeps the keys distinct. *)
Lemma setKey_NoDup k v m : NoDup (map fst m) -> NoDup (map fst (setKey k v m)).
Proof.
  intros Hn. unfold setKey. destruct (hasKey k m) eqn:Hk.
  - rewrite replaceKey_keys. exact Hn.
  - apply insertKey_NoDup; [|exact Hn]. intros Hin. apply hasKey_In in Hin. congruence.
Qed.

Lemma setKey_In k v m e : In e (setKey k v m) -> e = (k, v) \/ In e m.
Proof.
  unfold setKey. destruct (hasKey k m).
  - apply replaceKey_In.
  - intros H. apply insertKey_In in H. exact H.
Qed.

Lemma setKey_all k v m :
  conl v -> Forall (fun e => conl (snd e)) m ->
  Forall (fun e => conl (snd e)) (setKey k v m).
Proof.
  intros Hv Hm. apply Forall_forall. intros e He. apply setKey_In in He.
  destruct He as [-> | He]; [exact Hv|]. rewrite Forall_forall in Hm. exact (Hm e He).
Qed.

Lemma setKey_conl k v m : conl v -> conl (VMap m) -> conl (VMap (setKey k v m)).
Proof.
  intros Hv Hm. apply conl_map in Hm. destruct Hm as [Hn Hall]. apply conl_map. split.
  - apply setKey_NoDup. exact Hn.
  - apply setKey_all; assumption.
Qed.

Lemma setPrototype_conl v m obj :
  conl v -> conl (VMap m) -> conl obj -> conl (setPrototype v m obj).
Proof.
  intros Hv Hm Ho. apply conl_map in Hm.
  destruct v; cbn [setPrototype]; try exact Ho; apply conl_object; split; auto.
Qed.

(** An assignment to a key keeps a map a [Conl]. *)
Lemma assignKey_conl k v obj : conl v -> conl obj -> conl (assignKey k v obj).
Proof.
  intros Hv Ho. destruct obj as [| | |m|l|p m]; cbn [assignKey]; try exact Ho.
  - destruct (str_eqb k PROTO && negb (hasKey PROTO m)).
    + apply setPrototype_conl; assumption.
    + apply setKey_conl; assumption.
  - pose proof Ho as Ho'. apply conl_object in Ho'. destruct Ho' as (Hp & Hn & Hall).
    destruct (str_eqb k PROTO && negb (hasKey PROTO m) && reachesAccessor p).
    + apply setPrototype_conl; [exact Hv | apply conl_map; split; assumption | exact Ho].
    + apply conl_object. split; [exact Hp|]. split.
      * apply setKey_NoDup. exact Hn.
      * apply setKey_all; assumption.
Qed.

Lemma store_conl result currentKey v :
  conlResult result -> conl v ->
  conlResult (fst (fst (store identity result currentKey v))).
Proof.
  unfold store, identity. intros Hr Hv.
  destruct result as [[| | |m|l|p m]|]; cbn [fst conlResult] in *; try assumption.
  - destruct currentKey; cbn [fst conlResult]; [|exact Hr].
    apply assignKey_conl; assumption.
  - apply conl_list. apply conl_list in Hr. apply Forall_app. split; [exact Hr|].
    constructor; [exact Hv | constructor].
  - destruct currentKey; cbn [fst conlResult]; [|exact Hr].
    apply assignKey_conl; assumption.
Qed.

Lemma sectionToValue_conl fuel : forall result currentKey it v it' log,
  conlResult result ->
  sectionToValue fuel identity result currentKey it = Done (v, it', log) ->
  conl v.
Proof.
  induction fuel as [|fuel IH]; intros result currentKey it v it' log Hc; simpl;
    [discriminate|].
  assert (Hres : conl (resultToValue result)) by (destruct result; [exact Hc | exact I]).
  assert (Hstore : forall x it1 l1, conl x ->
            match (let '(result', key', lg) := store identity result currentKey x in
                   match sectionToValue fuel identity result' key' it1 with
                   | Done (v2, it2, l2) => Done (v2, it2, l1 ++ lg ++ l2)
                   | other => other
                   end) with
            | Done (v2, _, _) => conl v2
            | _ => True
            end).
  { intros x it1 l1 Hx. pose proof (store_conl result currentKey x Hc Hx) as Hs.
    destruct (store identity result currentKey x) as [[result' key'] lg]. cbn [fst] in Hs.
    destruct (sectionToValue fuel identity result' key' it1) as [[[v2 it2] l2]| |] eqn:H2;
      try exact I.
    eapply IH; eauto. }
  destruct it as [[|token ts] r].
  - destruct r; [|discriminate]. intros H. inversion H; subst. exact Hres.
  - destruct (kind token) eqn:K.
    + (* indent *)
      destruct (sectionToValue fuel identity None None (ts, r)) as [[[nv it1] l1]| |] eqn:H1;
        try discriminate.
      assert (Hnv : conl nv) by (eapply (IH None); [exact I | exact H1]).
      specialize (Hstore nv it1 l1 Hnv).
      destruct (store identity result currentKey nv) as [[result' key'] lg].
      destruct (sectionToValue fuel identity result' key' it1) as [[[v2 it2] l2]| |];
        try discriminate.
      intros H. inversion H; subst. exact Hstore.
    + (* outdent *)
      intros H. inversion H; subst. exact Hres.
    + (* item *)
      intros H. eapply IH; [|exact H]. destruct result; [exact Hc | exact I].
    + (* key *)
      intros H. eapply IH; [|exact H]. destruct result; [exact Hc|].
      cbn. split; [constructor | exact I].
    + (* scalar *)
      specialize (Hstore (VString content) (ts, r) [] I).
      destruct (store identity result currentKey (VString content)) as [[result' key'] lg].
      destruct (sectionToValue fuel identity result' key' (ts, r)) as [[[v2 it2] l2]| |];
        try discriminate.
      intros H. inversion H; subst. exact Hstore.
    + (* null *)
      specialize (Hstore VNull (ts, r) [] I).
      destruct (store identity result currentKey VNull) as [[result' key'] lg].
      destruct (sectionToValue fuel identity result' key' (ts, r)) as [[[v2 it2] l2]| |];
        try discriminate.
      intros H. inversion H; subst. exact Hstore.
Qed.

(** X16. What [parse] returns without a reviver is a [Conl] all the way
    down: strings, nulls, lists, and maps whose keys are distinct (a key
    that comes twice in a section is kept once); no other value, such as
    a number, stands anywhere in it. *)
Theorem parse_conl input v :
  parse input None = Done v -> conl v.
Proof.
  unfold parse, parseLog.
  destruct (sectionToValue _ identity None None (tokens input)) as [[[v0 it] log]| |] eqn:Hs;
    try discriminate.
  intros Hd. inversion Hd; subst. unfold identity.
  apply sectionToValue_conl in Hs; [|exact I].
  destruct v0; try exact Hs. cbn. split; [constructor | exact I].
Qed.

Lemma parse_conl_witness :
  conl (VMap [(u "a", VString (u "2"));
              (u "b", VList [VString (u "x"); VNull])]).
Proof.
  apply (parse_conl (u "a = 1" ++ [LF] ++ u "b" ++ [LF] ++ u "  = x" ++ [LF] ++ u "  =" ++ [LF]
                       ++ u "a = 2")).
  vm_compute. reflexivity.
Defined.

(** Which tokens [sectionToValue] takes, and whether it returns or
    throws, does not depend on the reviver nor on what was stored. *)
Lemma sectionToValue_same fuel : forall f g result result' key key' it,
  match sectionToValue fuel f result key it, sectionToValue fuel g result' key' it with
  | Done (_, it1, _), Done (_, it2, _) => it1 = it2
  | Raise e1, Raise e2 => e1 = e2
  | OutOfFuel, OutOfFuel => True
  | _, _ => False
  end.
Proof.
  induction fuel as [|fuel IH]; intros f g result result' key key' it; [exact I|].
  assert (Hstore : forall x y it1 (l1 l2 : list call),
            match (let '(r1, k1, lg) := store f result key x in
                   match sectionToValue fuel f r1 k1 it1 with
                   | Done (v, it', log') => Done (v, it', l1 ++ lg ++ log')
                   | other => other
                   end),
                  (let '(r2, k2, lg) := store g result' key' y in
                   match sectionToValue fuel g r2 k2 it1 with
                   | Done (v, it', log') => Done (v, it', l2 ++ lg ++ log')
                   | other => other
                   end) with
            | Done (_, ita, _), Done (_, itb, _) => ita = itb
            | Raise e1, Raise e2 => e1 = e2
            | OutOfFuel, OutOfFuel => True
            | _, _ => False
            end).
  { intros x y it1 l1 l2.
    destruct (store f result key x) as [[r1 k1] lg1].
    destruct (store g result' key' y) as [[r2 k2] lg2].
    specialize (IH f g r1 r2 k1 k2 it1).
    destruct (sectionToValue fuel f r1 k1 it1) as [[[va ita] la]| |];
      destruct (sectionToValue fuel g r2 k2 it1) as [[[vb itb] lb]| |]; exact IH. }
  cbn [sectionToValue]. destruct it as [[|token ts] r].
  - destruct r; reflexivity.
  - destruct (kind token) eqn:K.
    + (* indent *)
      pose proof (IH f g None None None None (ts, r)) as Hn.
      destruct (sectionToValue fuel f None None (ts, r)) as [[[nv1 ita] la]| |];
        destruct (sectionToValue fuel g None None (ts, r)) as [[[nv2 itb] lb]| |];
        try contradiction; try exact Hn.
      subst itb. exact (Hstore nv1 nv2 ita la lb).
    + reflexivity.
    + apply IH.
    + apply IH.
    + exact (Hstore (VString content) (VString content) (ts, r) [] []).
    + exact (Hstore VNull VNull (ts, r) [] []).
Qed.

(** X17. A reviver that returns changes neither whether [parse] throws nor
    what it throws: with the reviver [f], [parse] throws an exception
    exactly when it throws that exception without reviver, and it
    returns exactly when it returns without reviver. *)
Theorem parse_reviver_keeps_errors f input :
  (forall e, parse input (Some f) = Raise e <-> parse input None = Raise e) /\
  ((exists v, parse input (Some f) = Done v) <-> (exists v0, parse input None = Done v0)).
Proof.
  unfold parse, parseLog.
  pose proof (sectionToValue_same (S (length (fst (tokens input)))) f identity
                None None None None (tokens input)) as H.
  destruct (sectionToValue _ f None None (tokens input)) as [[[v1 it1] l1]|e1|];
    destruct (sectionToValue _ identity None None (tokens input)) as [[[v2 it2] l2]|e2|];
    try contradiction.
  - split.
    + intros e. split; discriminate.
    + split; intros _; eexists; reflexivity.
  - subst e2. split.
    + intros e'. split; intros He; exact He.
    + split; intros [v Hv]; discriminate.
  - split.
    + intros e. split; discriminate.
    + split; intros [v Hv]; discriminate.
Qed.

End TreeProps.

(* ================================================================== *)
(** ** Multiline values in src/tokenizer.ts *)

Module MultilineProps.

Import Utils Tokenizer TokenizerSpec RegexProps MultilineSpec.

Lemma matchPrefix_trailingNewlines s :
  matchPrefix trailingNewlines s
  = match s with
    | [] => None
    | x :: s' => if N.eqb LF x && forallb (N.eqb LF) s' then Some (s, [], []) else None
    end.
Proof.
  unfold matchPrefix, trailingNewlines, Plus. cbn [rmatch]. unfold chr at 1. cbn [rmatch].
  destruct s as [|x s']; [reflexivity|].
  destruct (N.eqb LF x); [|reflexivity]. cbn [andb].
  change (starLoop _ _ (length s') s' [])
    with (rmatch (Star (chr LF)) s' []
            (fun s'' c'' => rmatch Eol s'' c''
               (fun s0 c0 => Some (firstn (length (x :: s') - length s0) (x :: s'), s0, c0)))).
  unfold chr. rewrite rmatch_star_class.
  rewrite starClass_to_end by reflexivity.
  destruct (forallb (N.eqb LF) s'); [|reflexivity].
  cbn [rmatch length]. rewrite Nat.sub_0_r.
  change (S (length s')) with (length (x :: s')). rewrite firstn_all. reflexivity.
Qed.

Lemma includes_LF x : includes [LF] x = N.eqb LF x.
Proof. unfold includes. cbn [existsb]. rewrite orb_false_r. apply N.eqb_sym. Qed.

Lemma forallb_ext' (p q : N -> bool) s : (forall x, p x = q x) -> forallb p s = forallb q s.
Proof. intros H. induction s as [|x s IH]; simpl; [reflexivity|]. rewrite H, IH. reflexivity. Qed.

Lemma forallb_rev_N (p : N -> bool) (l : str) : forallb p (rev l) = forallb p l.
Proof.
  induction l as [|x l IH]; simpl; [reflexivity|].
  rewrite forallb_app, IH. simpl. rewrite andb_true_r. apply andb_comm.
Qed.

Lemma dropWhile_snoc (p : N -> bool) a x :
  dropWhile p (a ++ [x])
  = if forallb p a then (if p x then [] else [x]) else dropWhile p a ++ [x].
Proof.
  induction a as [|y a IH]; simpl; [reflexivity|].
  destruct (p y); simpl; [exact IH | reflexivity].
Qed.

Lemma replaceFirst_trailingNewlines s :
  replaceFirst trailingNewlines (fun _ _ => []) s = trimRight s [LF].
Proof.
  unfold trimRight. induction s as [|x s IH].
  - reflexivity.
  - cbn [replaceFirst]. rewrite matchPrefix_trailingNewlines.
    cbn [rev]. rewrite dropWhile_snoc, forallb_rev_N.
    rewrite (forallb_ext' (includes [LF]) (N.eqb LF) s includes_LF), includes_LF.
    destruct (forallb (N.eqb LF) s) eqn:Hs.
    + destruct (N.eqb LF x); cbn [andb app rev]; [reflexivity|].
      rewrite IH. rewrite LexerProps.dropWhile_all; [reflexivity|].
      rewrite forallb_rev_N, (forallb_ext' (includes [LF]) (N.eqb LF) s includes_LF). exact Hs.
    + rewrite andb_false_r. rewrite IH, rev_app_distr. reflexivity.
Qed.

Lemma join_cons x l :
  LexerSpec.join [LF] (x :: l) = x ++ concat (map (fun t => [LF] ++ t) l).
Proof.
  revert x. induction l as [|y l IH]; intros x.
  - simpl. rewrite app_nil_r. reflexivity.
  - change (LexerSpec.join [LF] (x :: y :: l)) with (x ++ [LF] ++ LexerSpec.join [LF] (y :: l)).
    rewrite IH. cbn [map concat]. rewrite <- !app_assoc. reflexivity.
Qed.

Lemma collect_block prefix body after : forall result,
  forallb (blockLine prefix) body = true ->
  match after with [] => True | l :: _ => blockLine prefix l = false end ->
  collect prefix result (body ++ after)
  = (result ++ concat (map (fun t => [LF] ++ t) (map (blockText prefix) body)), length body).
Proof.
  induction body as [|l body IH]; intros result Hb Ha.
  - cbn [app map concat length]. rewrite app_nil_r.
    destruct after as [|l after]; [reflexivity|].
    cbn [collect]. unfold blockLine in Ha. rewrite Ha. reflexivity.
  - cbn [forallb] in Hb. apply andb_true_iff in Hb. destruct Hb as [Hl Hb].
    cbn [app collect]. unfold blockLine in Hl. rewrite Hl.
    rewrite (IH _ Hb Ha). cbn [map concat length]. unfold blockText at 2.
    rewrite <- !app_assoc. reflexivity.
Qed.

Lemma blankLines_skip blanks rest :
  forallb emptyLine blanks = true ->
  match rest with [] => True | l :: _ => emptyLine l = false end ->
  blankLines (blanks ++ rest) = length blanks /\ skipn (length blanks) (blanks ++ rest) = rest.
Proof.
  intros Hb Hr. induction blanks as [|l blanks IH].
  - cbn [app length skipn]. split; [|reflexivity].
    destruct rest as [|l rest]; [reflexivity|]. cbn [blankLines].
    unfold emptyLine in Hr. rewrite Hr. reflexivity.
  - cbn [forallb] in Hb. apply andb_true_iff in Hb. destruct Hb as [Hl Hb].
    destruct (IH Hb) as [H1 H2]. cbn [app blankLines length skipn].
    unfold emptyLine in Hl. rewrite Hl, H1. auto.
Qed.

(** X18. What [consumeMultiline] of src/tokenizer.ts gathers.  The lines
    with empty content that follow the marker are skipped.  When the
    next line has content and is indented more than the line of the
    marker, its indentation is the prefix of the block; the block goes
    on over the lines whose indentation starts with the prefix or whose
    content is empty, and the scalar is the content of the first line
    and, for every further line, its indentation without the prefix and
    its content, joined with line feeds, the line feeds at the end cut
    off; the line index moves forward by the lines skipped and taken.
    When the input ends after the skipped lines, or the next line is not
    indented more than the line of the marker,  missing multiline value
    is thrown with the number of the last line skipped. *)
Theorem consumeMultiline_block lno ind blanks :
  forallb emptyLine blanks = true ->
  (forall first body after,
     emptyLine first = false ->
     startsWith (lindent first) ind = true -> str_eqb (lindent first) ind = false ->
     forallb (blockLine (lindent first)) body = true ->
     match after with [] => True | l :: _ => blockLine (lindent first) l = false end ->
     consumeMultiline lno ind (blanks ++ first :: body ++ after)
     = Ret (scalar (trimRight
                      (LexerSpec.join [LF]
                         (lcontent first :: map (blockText (lindent first)) body)) [LF]),
            length blanks + 1 + length body)) /\
  (forall rest,
     match rest with
     | [] => True
     | l :: _ => emptyLine l = false /\
                 (startsWith (lindent l) ind = false \/ str_eqb (lindent l) ind = true)
     end ->
     consumeMultiline lno ind (blanks ++ rest)
     = Throw (ParseError (Some (lno + length blanks + 1)) MissingMultilineValue)).
Proof.
  intros Hblanks. split.
  - intros first body after Hf Hs He Hbody Hafter.
    destruct (blankLines_skip blanks (first :: body ++ after) Hblanks Hf) as [Hn Hskip].
    unfold consumeMultiline. rewrite Hn, Hskip, Hs, He. cbn [negb orb].
    rewrite (collect_block _ body after _ Hbody Hafter).
    rewrite replaceFirst_trailingNewlines, join_cons. reflexivity.
  - intros rest Hrest.
    assert (Hr : match rest with [] => True | l :: _ => emptyLine l = false end).
    { destruct rest; [exact I | apply Hrest]. }
    destruct (blankLines_skip blanks rest Hblanks Hr) as [Hn Hskip].
    unfold consumeMultiline. rewrite Hn, Hskip.
    destruct rest as [|l rest']; [reflexivity|].
    destruct Hrest as [_ [Hs | He]].
    + rewrite Hs. reflexivity.
    + rewrite He, orb_true_r. reflexivity.
Qed.

Lemma consumeMultiline_block_witness :
  consumeMultiline 0 []
    ([mkLine [] []]
       ++ mkLine (u "  ") (u "one")
       :: ([mkLine (u "    ") (u "two"); mkLine [] []; mkLine (u "  ") (u "three"); mkLine [] []]
             ++ [mkLine [] (u "b = 1")]))
  = Ret (scalar (u "one" ++ [LF] ++ u "  two" ++ [LF] ++ [LF] ++ u "three"), 6).
Proof.
  exact (proj1 (consumeMultiline_block 0 [] [mkLine [] []] eq_refl)
           (mkLine (u "  ") (u "one"))
           [mkLine (u "    ") (u "two"); mkLine [] []; mkLine (u "  ") (u "three"); mkLine [] []]
           [mkLine [] (u "b = 1")] eq_refl eq_refl eq_refl eq_refl eq_refl).
Defined.

End MultilineProps.

(* ================================================================== *)
(** ** Where the lexer does not throw *)

Module ToleranceProps.

Import Utils Lexer LexerSpec LexerProps UtilsSpec UtilsProps LiteralSpec ToleranceSpec.

Lemma free_app c a b : free c (a ++ b) = free c a && free c b.
Proof. apply forallb_app. Qed.

Lemma free_skipn c n s : free c s = true -> free c (skipn n s) = true.
Proof.
  revert n. induction s as [|x s IH]; intros [|n] H; simpl in *; auto.
  apply andb_true_iff in H. apply IH, H.
Qed.

Lemma free_firstn c n s : free c s = true -> free c (firstn n s) = true.
Proof.
  revert n. induction s as [|x s IH]; intros [|n] H; simpl in *; auto.
  apply andb_true_iff in H. destruct H as [Hx H]. rewrite Hx. apply IH, H.
Qed.

Lemma free_takeWhile c p s : free c s = true -> free c (takeWhile p s) = true.
Proof.
  induction s as [|x s IH]; simpl; [reflexivity|]. intros H.
  apply andb_true_iff in H. destruct H as [Hx H].
  destruct (p x); simpl; [rewrite Hx; auto | reflexivity].
Qed.

Lemma free_trimLeft c s :
  free c s = true ->
  free c (fst (trimLeft s)) = true /\ free c (snd (trimLeft s)) = true.
Proof.
  intros H. rewrite RegexProps.trimLeft_spec. cbn [fst snd]. split.
  - apply free_takeWhile. exact H.
  - apply free_takeWhile. apply forallb_dropWhile. exact H.
Qed.

Lemma free_cutPrefix c s p :
  free c s = true -> free c (fst (cutPrefix s p)) = true.
Proof.
  intros H. unfold cutPrefix. destruct (startsWith s p); cbn [fst]; [|exact H].
  apply free_skipn. exact H.
Qed.

Lemma splitLiteral_lossless input key :
  exists ws, input = fst (splitLiteral input key) ++ ws ++ snd (splitLiteral input key) /\
             forallb isJsSpace ws = true.
Proof.
  destruct (startsWith input [QUOTE]) eqn:Hq.
  - destruct input as [|x t]; [discriminate|]. pose proof Hq as Hq'. cbn [startsWith] in Hq'.
    rewrite andb_true_r in Hq'. apply N.eqb_eq in Hq'. subst x.
    destruct (quoted_cases t false) as [(inner & after & -> & Hcl)|Hu].
    + rewrite (splitLiteral_quoted inner after key Hcl). cbn [fst snd].
      destruct (splitUnquoted_spec after key) as (((ws & Hw1 & Hw2) & _) & _).
      exists ws. split; [|exact Hw2]. cbn [app]. f_equal. rewrite <- app_assoc.
      f_equal. cbn [app]. f_equal. exact Hw1.
    + unfold splitLiteral. rewrite Hq. unfold substringFrom. cbn [skipn]. rewrite Hu.
      exists []. cbn [fst snd]. rewrite !app_nil_r. split; reflexivity.
  - unfold splitLiteral. rewrite Hq.
    destruct (splitUnquoted_spec input key) as (((ws & Hw1 & Hw2) & _) & _).
    exists ws. auto.
Qed.

Lemma free_splitLiteral c input key :
  free c input = true ->
  free c (fst (splitLiteral input key)) = true /\
  free c (snd (splitLiteral input key)) = true.
Proof.
  intros H. destruct (splitLiteral_lossless input key) as (ws & Hin & _).
  rewrite Hin in H. rewrite !free_app in H.
  apply andb_true_iff in H. destruct H as [H1 H].
  apply andb_true_iff in H. destruct H as [_ H2]. auto.
Qed.

(** What keeps [free] keeps [harmless]. *)
Lemma harmless_kept (s t : str) :
  (forall c, free c s = true -> free c t = true) -> harmless s = true -> harmless t = true.
Proof.
  intros Hk H. unfold harmless in *. apply orb_true_iff in H. apply orb_true_iff.
  destruct H as [H | H]; [left | right]; apply Hk; exact H.
Qed.

Lemma harmless_trimLeft s : harmless s = true -> harmless (snd (trimLeft s)) = true.
Proof. apply harmless_kept. intros c H. apply free_trimLeft. exact H. Qed.

Lemma harmless_cutPrefix s p : harmless s = true -> harmless (fst (cutPrefix s p)) = true.
Proof. apply harmless_kept. intros c H. apply free_cutPrefix. exact H. Qed.

Lemma harmless_splitLiteral input key :
  harmless input = true ->
  harmless (fst (splitLiteral input key)) = true /\
  harmless (snd (splitLiteral input key)) = true.
Proof.
  intros H. split; revert H; apply harmless_kept; intros c H; apply free_splitLiteral; exact H.
Qed.

Lemma free_substring c s a b : free c s = true -> free c (substring s a b) = true.
Proof. intros H. unfold substring. apply free_firstn, free_skipn, H. Qed.

Lemma free_In c s : free c s = true -> ~ In c s.
Proof.
  induction s as [|x s IH]; simpl; [tauto|]. intros H [Hx | Hin].
  - subst x. rewrite N.eqb_refl in H. discriminate.
  - apply andb_true_iff in H. apply IH; tauto.
Qed.

Lemma dropWhile_incl (p : N -> bool) s x : In x (dropWhile p s) -> In x s.
Proof.
  induction s as [|y s IH]; simpl; [tauto|].
  destruct (p y); [right; auto | intros H; exact H].
Qed.

Lemma parseInt16_nonneg s v :
  free MINUS s = true -> parseInt16 s = Some v -> (0 <= v)%Z.
Proof.
  intros Hf. unfold parseInt16.
  assert (Hs1 : match dropWhile isJsSpace s with
                | c :: _ => N.eqb c MINUS = false
                | [] => True
                end).
  { pose proof (dropWhile_incl isJsSpace s) as Hin.
    destruct (dropWhile isJsSpace s) as [|c t]; [exact I|].
    destruct (N.eqb c MINUS) eqn:Hc; [|reflexivity].
    apply N.eqb_eq in Hc. subst c. exfalso.
    apply (free_In MINUS s Hf). apply Hin. left. reflexivity. }
  destruct (dropWhile isJsSpace s) as [|c t].
  - simpl. discriminate.
  - rewrite Hs1. destruct (N.eqb c PLUS);
      match goal with
      | |- context [takeWhile isHexDigit ?s3] => destruct (takeWhile isHexDigit s3)
      end; intros H; try discriminate; inversion H; lia.
Qed.

Lemma decodeStep_returns content i c st :
  free MINUS content = true -> exists r, decodeStep content i c st = Ret r.
Proof.
  intros Hf. unfold decodeStep.
  destruct (N.eqb c BSLASH && (i + 1 <? length content)); [|eauto].
  repeat match goal with
         | |- context [if N.eqb ?a ?b then _ else _] =>
             destruct (N.eqb a b); [solve [eauto]|]
         end.
  destruct (N.eqb (nth (i + 1) content 0%N) LBRACE); [|eauto].
  destruct (indexOfFrom RBRACE content (i + 2)) as [ci|]; [|eauto].
  destruct ((ci =? i + 2) || (10 <? ci - i)); [eauto|].
  destruct (parseInt16 (substring content (i + 2) ci)) as [cp|] eqn:Hp; [|eauto].
  apply parseInt16_nonneg in Hp; [|apply free_substring; exact Hf].
  destruct (1114111 <? cp)%Z eqn:Hmax; [cbn [orb]; eauto|]. cbn [orb].
  destruct ((55296 <=? cp)%Z && (cp <=? 57343)%Z); [eauto|].
  unfold fromCodePoint. rewrite Hmax.
  replace (cp <? 0)%Z with false by (symmetry; apply Z.ltb_ge; exact Hp).
  cbn [orb]. destruct (N.leb (Z.to_N cp) 65535); eauto.
Qed.

Lemma decodeLoop_returns content : forall tail i skip st,
  free MINUS content = true -> exists st', decodeLoop content i skip tail st = Ret st'.
Proof.
  induction tail as [|c tail IH]; intros i skip st Hf; [simpl; eauto|].
  cbn [decodeLoop]. destruct skip as [|k]; [|apply IH; exact Hf].
  destruct (decodeStep_returns content i c st Hf) as [[st1 i1] Hs]. rewrite Hs.
  apply IH. exact Hf.
Qed.

Lemma decodeLoop_plain content : forall tail i st,
  free BSLASH tail = true ->
  decodeLoop content i 0 tail st = Ret (mkDecode (result st ++ tail) (badEscape st)).
Proof.
  induction tail as [|c tail IH]; intros i st H.
  - simpl. rewrite app_nil_r. destruct st; reflexivity.
  - simpl in H. apply andb_true_iff in H. destruct H as [Hc H].
    apply negb_true_iff in Hc. cbn [decodeLoop]. unfold decodeStep. rewrite Hc. cbn [andb].
    replace (i + 1 - i - 1) with 0 by lia. rewrite (IH (S i) _ H).
    cbn [result badEscape]. rewrite <- app_assoc. reflexivity.
Qed.

Lemma decodeLiteral_returns s :
  harmless s = true -> exists r, decodeLiteral s = Ret r.
Proof.
  intros H. unfold decodeLiteral.
  destruct (negb (startsWith s [QUOTE])); [eauto|].
  destruct (matchPrefix literalRegex s) as [[[m rest] c]|] eqn:Hm.
  - destruct (DecoderProps.literalRegex_sound _ _ _ _ Hm) as (content & -> & Hw).
    rewrite (LiteralProps.literalRegex_match content Hw) in Hm. inversion Hm; subst.
    cbn [getCap Nat.eqb].
    assert (Hc : harmless content = true).
    { revert H. apply harmless_kept. intros c H.
      change (QUOTE :: content ++ [QUOTE]) with ([QUOTE] ++ content ++ [QUOTE]) in H.
      rewrite !free_app in H. apply andb_true_iff in H. destruct H as [_ H].
      apply andb_true_iff in H. apply H. }
    unfold harmless in Hc. apply orb_true_iff in Hc. destruct Hc as [Hc | Hc].
    + rewrite (decodeLoop_plain content content 0 _ Hc). cbn [badEscape isEmpty negb]. eauto.
    + destruct (decodeLoop_returns content content 0 0 (mkDecode [] []) Hc) as [st Hst].
      rewrite Hst. destruct (negb (isEmpty (badEscape st))); eauto.
  - destruct (negb (endsWith s [QUOTE])); eauto.
Qed.

Lemma returns_bind {T A B} (m : gen T A) (k : A -> gen T B) :
  returns m -> (forall a, returns (k a)) -> returns (bind m k).
Proof.
  intros [a Ha] Hk. destruct m as [ts r]. simpl in Ha. subst r. unfold bind.
  destruct (Hk a) as [b Hb]. destruct (k a) as [ts' r']. simpl in *. exists b. exact Hb.
Qed.

Lemma tokenizeValue_returns st lno rest :
  harmless rest = true -> returns (tokenizeValue st lno rest).
Proof.
  intros H. unfold tokenizeValue.
  destruct (cutPrefix rest [SEMI]) as [comment [|]].
  - apply returns_bind; [eexists; reflexivity | intros; eexists; reflexivity].
  - pose proof (harmless_cutPrefix rest [QUOTE; QUOTE; QUOTE] H) as Hi.
    destruct (cutPrefix rest [QUOTE; QUOTE; QUOTE]) as [indicator [|]]; cbn [fst] in Hi.
    + destruct (splitLiteral indicator false) as [hint afterHint].
      apply returns_bind; [eexists; reflexivity | intros; eexists; reflexivity].
    + destruct (harmless_splitLiteral rest false H) as [Hv _].
      destruct (splitLiteral rest false) as [value afterValue]. cbn [fst] in Hv.
      apply returns_bind; [|intros; eexists; reflexivity].
      destruct (negb (isEmpty value)); [|eexists; reflexivity].
      destruct (decodeLiteral_returns value Hv) as [d Hd]. rewrite Hd.
      apply returns_bind; [eexists; reflexivity | intros; eexists; reflexivity].
Qed.

Lemma tokenizeEntry_returns st lno indent rest :
  harmless rest = true -> returns (tokenizeEntry st lno indent rest).
Proof.
  intros H. unfold tokenizeEntry.
  destruct (isEmpty rest); [eexists; reflexivity|].
  destruct (cutPrefix rest [SEMI]) as [comment [|]].
  - apply returns_bind; [eexists; reflexivity | intros; eexists; reflexivity].
  - destruct (popOutdents lno indent (stack st)) as [stk1 outdents].
    destruct (pushIndent lno indent stk1) as [stk2 indents].
    apply returns_bind; [eexists; reflexivity|]. intros _.
    pose proof (harmless_cutPrefix rest [EQUALS] H) as Hl.
    destruct (cutPrefix rest [EQUALS]) as [list [|]]; cbn [fst] in Hl.
    + apply returns_bind; [eexists; reflexivity|]. intros _.
      apply tokenizeValue_returns. apply harmless_trimLeft. exact Hl.
    + destruct (harmless_splitLiteral rest true H) as [Hk Ha].
      destruct (splitLiteral rest true) as [key afterKey]. cbn [fst snd] in Hk, Ha.
      destruct (decodeLiteral_returns key Hk) as [d Hd]. rewrite Hd.
      apply returns_bind; [eexists; reflexivity|]. intros d'.
      apply returns_bind; [eexists; reflexivity|]. intros _.
      apply tokenizeValue_returns.
      pose proof (harmless_trimLeft afterKey Ha) as Ht.
      pose proof (harmless_cutPrefix _ [EQUALS] Ht) as Hc.
      destruct (negb (str_eqb _ _)); [|exact Ht].
      apply harmless_trimLeft. exact Hc.
Qed.

Lemma tokenizeLine_returns st line :
  harmless (snd line) = true -> returns (tokenizeLine st line).
Proof.
  destruct line as [lno content]. cbn [snd]. intros H. unfold tokenizeLine.
  pose proof (harmless_trimLeft content H) as Hr.
  destruct (trimLeft content) as [indent rest]. cbn [snd] in Hr.
  assert (Hent : forall t st0, returns (yield t ;;; tokenizeEntry st0 lno indent rest)).
  { intros t st0. apply returns_bind; [eexists; reflexivity|]. intros _.
    apply tokenizeEntry_returns. exact Hr. }
  destruct (multiline st).
  - destruct (isEmpty (multilinePrefix st)).
    + destruct (startsWith indent (top (stack st)) && negb (str_eqb indent (top (stack st))));
        [eexists; reflexivity|].
      destruct (isEmpty rest); [eexists; reflexivity | apply Hent].
    + destruct (startsWith content (multilinePrefix st)); [eexists; reflexivity|].
      destruct (isEmpty rest); [eexists; reflexivity | apply Hent].
  - apply tokenizeEntry_returns. exact Hr.
Qed.

Lemma tokenizeLines_returns ls : forall st,
  forallb (fun l => harmless (snd l)) ls = true -> returns (tokenizeLines st ls).
Proof.
  induction ls as [|l ls IH]; intros st H; [eexists; reflexivity|].
  simpl in H. apply andb_true_iff in H. destruct H as [Hl H].
  cbn [tokenizeLines]. apply returns_bind; [apply tokenizeLine_returns; exact Hl|].
  intros st'. apply IH. exact H.
Qed.

Lemma free_concat c (l : list (nat * str)) :
  free c (concat (map snd l)) = true ->
  forallb (fun l => free c (snd l)) l = true.
Proof.
  induction l as [|x l IH]; [reflexivity|]. cbn [map concat forallb].
  rewrite free_app. intros H. apply andb_true_iff in H. destruct H as [Hx H].
  rewrite Hx. apply IH. exact H.
Qed.

Lemma free_filter c p s : free c s = true -> free c (filter p s) = true.
Proof.
  induction s as [|x s IH]; simpl; [reflexivity|]. intros H.
  apply andb_true_iff in H. destruct H as [Hx H].
  destruct (p x); simpl; [rewrite Hx|]; auto.
Qed.

Lemma lines_free c input :
  free c input = true -> forallb (fun l => free c (snd l)) (lines input) = true.
Proof.
  intros H. apply free_concat. unfold lines.
  destruct (linesSegments_spec (length input) input (isEmpty input) 1 [] (le_n _) eq_refl)
    as (_ & _ & H3).
  rewrite H3. cbn [rev app]. apply free_filter. exact H.
Qed.

Lemma lines_harmless input :
  harmless input = true -> forallb (fun l => harmless (snd l)) (lines input) = true.
Proof.
  intros H. unfold harmless in H. apply orb_true_iff in H.
  destruct H as [H | H]; apply lines_free in H;
    (apply forallb_forall; intros l Hl; unfold harmless;
     rewrite (proj1 (forallb_forall _ _) H l Hl)); [reflexivity | apply orb_true_r].
Qed.

Lemma tokensStep_throws v t e :
  snd (tokensStep v t) = Throw e -> e = TypeError \/ e = UnknownTokenKind.
Proof.
  unfold tokensStep.
  destruct (kind t); destruct (states v) as [|state below];
    try destruct (hasKey state); try destruct (skind state);
    unfold bind, yield, ret, throw; cbn [fst snd TokenKind_eqb andb];
    intros H; try discriminate; inversion H; auto.
Qed.

Lemma tokensLoop_throws raw : forall v e,
  snd (tokensLoop v raw) = Throw e -> e = TypeError \/ e = UnknownTokenKind.
Proof.
  induction raw as [|t raw IH]; intros v e; [discriminate|].
  cbn [tokensLoop]. unfold bind.
  destruct (tokensStep v t) as [ts [v1|e1]] eqn:Hs.
  - destruct (tokensLoop v1 raw) as [ts2 r2] eqn:Hl. cbn [snd]. intros H. subst r2.
    apply (IH v1 e). rewrite Hl. reflexivity.
  - cbn [snd]. intros H. inversion H; subst. apply (tokensStep_throws v t). rewrite Hs. reflexivity.
Qed.

(** X19. Where the lexer is tolerant.  On an input that holds no backslash,
    and on an input that holds no minus sign, [tokens] never throws: the
    stream runs to its normal end, and what is wrong with the input is
    reported in the tokens.  (The one exception [tokens] can end with is
    the RangeError of [String.fromCodePoint], which takes an escape, and
    so a backslash, with a negative number, and so a minus sign.) *)
Theorem tokens_returns_on_harmless input :
  harmless input = true -> snd (tokens input) = Ret tt.
Proof.
  intros H.
  assert (Hraw : snd (tokenize input) = Ret tt).
  { unfold tokenize.
    destruct (tokenizeLines_returns (lines input) initialState (lines_harmless input H))
      as [st Hst].
    destruct (tokenizeLines initialState (lines input)) as [ts r]. cbn [snd] in Hst. subst r.
    reflexivity. }
  destruct (snd (tokens input)) as [[]|e] eqn:Ht; [reflexivity|].
  exfalso. pose proof (proj2 (proj2 (tokens_replay input)) e Ht) as He. subst e.
  revert Ht. unfold tokens. destruct (tokenize input) as [raw r]. cbn [snd] in Hraw. subst r.
  unfold bind. destruct (tokensLoop initialValidator raw) as [out [v|e]] eqn:Hl; cbn [snd].
  - discriminate.
  - intros Hr. inversion Hr; subst.
    destruct (tokensLoop_throws raw initialValidator RangeError) as [H1 | H1];
      [rewrite Hl; reflexivity | discriminate | discriminate].
Qed.

Lemma tokens_returns_on_harmless_witness :
  snd (tokens (u "a-b = " ++ QUOTE :: u "x-y" ++ [LF] ++ u "  = 1 ; c")) = Ret tt /\
  snd (tokens (u "a = " ++ QUOTE :: u "\{41}\q" ++ [QUOTE])) = Ret tt.
Proof. split; apply tokens_returns_on_harmless; reflexivity. Defined.

End ToleranceProps.

(* ================================================================== *)
(** ** Documents of  key = value  lines *)

Module DocumentProps.

Import Utils Tokenizer TokenizerSpec RegexProps Parser ParserSpec DocumentSpec.

Lemma word_loop A (K : str -> caps -> option A) a stop w : forall n rest c,
  forallb (fun x => negb (existsb (N.eqb x) stop)) w = true ->
  (forall k, rmatch (wordBody stop) rest c k = @None A) ->
  length (w ++ rest) <= n ->
  K rest c = Some a ->
  starLoop (fun s' c' k' => rmatch (wordBody stop) s' c' k') K n (w ++ rest) c = Some a.
Proof.
  induction w as [|x w IH]; intros n rest c Hw Hstuck Hn HK.
  - cbn [app]. destruct n as [|n]; [exact HK|]. cbn [starLoop].
    rewrite Hstuck. exact HK.
  - destruct n as [|n]; [simpl in Hn; lia|].
    simpl in Hw. apply andb_true_iff in Hw. destruct Hw as [Hx Hw].
    cbn [app starLoop]. unfold wordBody at 1, noneOf. cbn [rmatch]. rewrite Hx.
    replace (length (w ++ rest) <? length (x :: w ++ rest)) with true
      by (symmetry; apply Nat.ltb_lt; simpl; lia).
    rewrite (IH n rest c Hw Hstuck); [reflexivity | simpl in Hn; lia | exact HK].
Qed.

Lemma wordBody_stuck A stop rest c (k : str -> caps -> option A) :
  match rest with
  | [] => True
  | x :: rest' =>
      existsb (N.eqb x) stop = true /\
      (isBlank x = true ->
       match rest' with
       | [] => True
       | y :: _ => existsb (N.eqb y) stop = true
       end)
  end ->
  rmatch (wordBody stop) rest c k = None.
Proof.
  intros Hr. destruct rest as [|x rest']; [reflexivity|].
  destruct Hr as [Hx Hy].
  unfold wordBody, noneOf, ws, oneOf. cbn [rmatch]. rewrite Hx. cbn [negb].
  unfold isBlank in Hy.
  destruct (existsb (N.eqb x) [SP; TAB]); [|reflexivity].
  destruct rest' as [|y rest'']; [reflexivity|]. rewrite (Hy eq_refl). reflexivity.
Qed.

Lemma wordChar_key x :
  wordChar x = true -> negb (existsb (N.eqb x) [EQUALS; SEMI; SP; TAB]) = true.
Proof.
  unfold wordChar. intros H. apply andb_true_iff in H. destruct H as [H _].
  apply negb_true_iff in H. apply negb_true_iff. cbn [existsb] in *.
  repeat (apply orb_false_iff in H; destruct H as [? H]).
  repeat (apply orb_false_iff; split); assumption.
Qed.

Lemma wordChar_value x :
  wordChar x = true -> negb (existsb (N.eqb x) [SEMI; SP; TAB]) = true.
Proof.
  unfold wordChar. intros H. apply andb_true_iff in H. destruct H as [H _].
  apply negb_true_iff in H. apply negb_true_iff. cbn [existsb] in *.
  repeat (apply orb_false_iff in H; destruct H as [? H]).
  repeat (apply orb_false_iff; split); assumption.
Qed.

Lemma wordChar_not_quote x : wordChar x = true -> N.eqb QUOTE x = false.
Proof.
  unfold wordChar. intros H. apply andb_true_iff in H. destruct H as [H _].
  apply negb_true_iff in H. cbn [existsb] in H.
  repeat (apply orb_false_iff in H; destruct H as [? H]).
  rewrite N.eqb_sym. assumption.
Qed.

Lemma wordChar_not_blank x : wordChar x = true -> isBlank x = false.
Proof.
  unfold wordChar, isBlank. intros H. apply andb_true_iff in H. destruct H as [H _].
  apply negb_true_iff in H. cbn [existsb] in *.
  repeat (apply orb_false_iff in H; destruct H as [? H]).
  repeat (apply orb_false_iff; split); assumption.
Qed.

(** A quoted literal does not start at a code unit of a word. *)
Lemma quoted_none A x s c (k : str -> caps -> option A) :
  N.eqb QUOTE x = false -> rmatch quoted (x :: s) c k = None.
Proof. intros H. unfold quoted, chr. cbn [rmatch]. rewrite H. reflexivity. Qed.

Lemma dropWhile_gap g x rest :
  forallb isBlank g = true -> isBlank x = false ->
  dropWhile isBlank (g ++ x :: rest) = x :: rest.
Proof.
  intros Hg Hx. induction g as [|y g IH]; simpl.
  - rewrite Hx. reflexivity.
  - simpl in Hg. apply andb_true_iff in Hg. destruct Hg as [Hy Hg]. rewrite Hy. auto.
Qed.

Lemma gap_stuck A g rest c (k : str -> caps -> option A) :
  forallb isBlank g = true ->
  rmatch (wordBody [EQUALS; SEMI; SP; TAB]) (g ++ EQUALS :: rest) c k = None.
Proof.
  intros Hg. apply wordBody_stuck.
  assert (Hb : forall y, isBlank y = true -> existsb (N.eqb y) [EQUALS; SEMI; SP; TAB] = true).
  { intros y. unfold isBlank. cbn [existsb]. rewrite !orb_false_r. intros H.
    rewrite H. rewrite !orb_true_r. reflexivity. }
  destruct g as [|a g]; cbn [app].
  - split; [reflexivity | discriminate].
  - simpl in Hg. apply andb_true_iff in Hg. destruct Hg as [Ha Hg].
    split; [apply Hb; exact Ha|]. intros _.
    destruct g as [|b g]; cbn [app]; [reflexivity|].
    simpl in Hg. apply andb_true_iff in Hg. apply Hb, Hg.
Qed.

Lemma firstn_front (w rest : str) :
  firstn (length (w ++ rest) - length rest) (w ++ rest) = w.
Proof.
  rewrite length_app. replace (length w + length rest - length rest) with (length w) by lia.
  rewrite firstn_app, firstn_all, Nat.sub_diag. simpl. apply app_nil_r.
Qed.

(** A group that holds an optional quoted literal and then a bare word
    takes the word, when the word cannot go on. *)
Lemma group_word A i stop x w rest c (K : str -> caps -> option A) a :
  N.eqb QUOTE x = false ->
  forallb (fun y => negb (existsb (N.eqb y) stop)) (x :: w) = true ->
  (forall c' k, rmatch (wordBody stop) rest c' k = @None A) ->
  K rest ((i, x :: w) :: c) = Some a ->
  rmatch (Group i (Seq (Opt quoted) (Star (wordBody stop)))) ((x :: w) ++ rest) c K = Some a.
Proof.
  intros Hq Hw Hstuck HK. cbn [rmatch]. unfold Opt. cbn [rmatch].
  cbn [app]. rewrite (quoted_none _ x _ _ _ Hq).
  change (x :: w ++ rest) with ((x :: w) ++ rest).
  apply word_loop; [exact Hw | intros k; apply Hstuck | lia |].
  rewrite firstn_front. exact HK.
Qed.

Lemma star_ws_gap A g x rest c (K : str -> caps -> option A) a :
  forallb isBlank g = true -> isBlank x = false ->
  K (x :: rest) c = Some a ->
  rmatch (Star ws) (g ++ x :: rest) c K = Some a.
Proof.
  intros Hg Hx HK. unfold ws, oneOf. rewrite rmatch_star_class.
  apply starClass_greedy. change (fun x0 : N => existsb (N.eqb x0) [SP; TAB]) with isBlank.
  rewrite (dropWhile_gap g x rest Hg Hx). exact HK.
Qed.

Lemma forallb_impl (p q : N -> bool) s :
  (forall x, p x = true -> q x = true) -> forallb p s = true -> forallb q s = true.
Proof.
  intros H. induction s as [|x s IH]; simpl; [reflexivity|]. intros Hs.
  apply andb_true_iff in Hs. destruct Hs as [Hx Hs]. rewrite (H x Hx). auto.
Qed.

Lemma rmatch_seq A r1 r2 s c (k : str -> caps -> option A) a :
  rmatch r1 s c (fun s' c' => rmatch r2 s' c' k) = Some a ->
  rmatch (Seq r1 r2) s c k = Some a.
Proof. intros H. exact H. Qed.

Lemma rmatch_chr A x s c (k : str -> caps -> option A) a :
  k s c = Some a -> rmatch (chr x) (x :: s) c k = Some a.
Proof. intros H. unfold chr. cbn [rmatch]. rewrite N.eqb_refl. exact H. Qed.

Lemma rmatch_opt A r s c (k : str -> caps -> option A) a :
  rmatch r s c k = Some a -> rmatch (Opt r) s c k = Some a.
Proof. intros H. unfold Opt. cbn [rmatch]. rewrite H. reflexivity. Qed.

Lemma SPLIT_LINE_entry e :
  entryOK e = true ->
  matchPrefix SPLIT_LINE (entryLine e)
  = Some (entryLine e, [], [(2, evalue e); (1, ekey e)]).
Proof.
  unfold entryOK, word. intros H.
  apply andb_true_iff in H. destruct H as [H Hv].
  apply andb_true_iff in H. destruct H as [H Hg2].
  apply andb_true_iff in H. destruct H as [Hk Hg1].
  apply andb_true_iff in Hk. destruct Hk as [Hkne Hk].
  apply andb_true_iff in Hv. destruct Hv as [Hvne Hv].
  destruct e as [k g1 g2 v]. cbn [ekey egap1 egap2 evalue] in *. unfold entryLine.
  cbn [ekey egap1 egap2 evalue].
  destruct k as [|k0 k']; [discriminate|]. destruct v as [|v0 v']; [discriminate|].
  clear Hkne Hvne.
  assert (Hk0 : wordChar k0 = true) by (simpl in Hk; apply andb_true_iff in Hk; apply Hk).
  assert (Hv0 : wordChar v0 = true) by (simpl in Hv; apply andb_true_iff in Hv; apply Hv).
  set (line := (k0 :: k') ++ g1 ++ [EQUALS] ++ g2 ++ v0 :: v').
  unfold matchPrefix, SPLIT_LINE.
  change (Alt (noneOf [EQUALS; SEMI; SP; TAB]) (Seq ws (noneOf [EQUALS; SEMI; SP; TAB])))
    with (wordBody [EQUALS; SEMI; SP; TAB]).
  change (Alt (noneOf [SEMI; SP; TAB]) (Seq ws (noneOf [SEMI; SP; TAB])))
    with (wordBody [SEMI; SP; TAB]).
  apply rmatch_seq. unfold line at 1.
  apply group_word.
  - apply wordChar_not_quote. exact Hk0.
  - revert Hk. apply forallb_impl. exact wordChar_key.
  - intros c' k. cbn [app]. apply gap_stuck. exact Hg1.
  - apply rmatch_seq. apply rmatch_opt. apply rmatch_seq. cbn [app].
    apply star_ws_gap; [exact Hg1 | reflexivity |].
    apply rmatch_seq. apply rmatch_chr. apply rmatch_seq.
    apply star_ws_gap; [exact Hg2 | apply wordChar_not_blank; exact Hv0 |].
    rewrite <- (app_nil_r (v0 :: v')) at 1.
    apply group_word.
    + apply wordChar_not_quote. exact Hv0.
    + revert Hv. apply forallb_impl. exact wordChar_value.
    + intros c' k. reflexivity.
    + cbv beta. cbn [rmatch length starLoop]. unfold chr. cbn [rmatch]. rewrite Nat.sub_0_r.
      rewrite firstn_all. reflexivity.
Qed.

(** *** The tokens of a line  key = value  *)

Lemma word_first s : word s = true -> exists x s', s = x :: s' /\ wordChar x = true.
Proof.
  unfold word. destruct s as [|x s']; [discriminate|]. intros H.
  apply andb_true_iff in H. destruct H as [_ H]. simpl in H.
  apply andb_true_iff in H. exists x, s'. split; [reflexivity | apply H].
Qed.

Lemma decodeLiteral_word lno s : word s = true -> decodeLiteral lno s = Ret s.
Proof.
  intros H. destruct (word_first s H) as (x & s' & -> & Hx).
  unfold decodeLiteral. cbn [startsWith]. rewrite N.eqb_sym, (wordChar_not_quote x Hx).
  reflexivity.
Qed.

Lemma entryOK_parts e :
  entryOK e = true ->
  word (ekey e) = true /\ forallb isBlank (egap1 e) = true /\
  forallb isBlank (egap2 e) = true /\ word (evalue e) = true.
Proof.
  unfold entryOK. intros H.
  apply andb_true_iff in H. destruct H as [H Hv].
  apply andb_true_iff in H. destruct H as [H Hg2].
  apply andb_true_iff in H. destruct H as [Hk Hg1]. auto.
Qed.

Lemma tokenizeLine_entry fk below lno e :
  entryOK e = true ->
  tokenizeLine (mkFrame [] fk :: below) lno [] (entryLine e)
  = (mkFrame [] fk :: below, ([LT (key (ekey e)); LT (scalar (evalue e))], Ret tt)).
Proof.
  intros H. pose proof (SPLIT_LINE_entry e H) as Hm.
  destruct (entryOK_parts e H) as (Hk & Hg1 & Hg2 & Hv).
  destruct (word_first _ Hk) as (k0 & k' & Hke & Hk0).
  destruct (word_first _ Hv) as (v0 & v' & Hve & Hv0).
  unfold tokenizeLine. rewrite Hm.
  assert (Hline : entryLine e = k0 :: k' ++ egap1 e ++ [EQUALS] ++ egap2 e ++ evalue e).
  { unfold entryLine. rewrite Hke. reflexivity. }
  rewrite Hline at 1 2. cbn [isEmpty startsWith orb].
  replace (N.eqb k0 SEMI) with false.
  2: { symmetry. pose proof (wordChar_key k0 Hk0) as Hs. apply negb_true_iff in Hs.
       cbn [existsb] in Hs. apply orb_false_iff in Hs. destruct Hs as [_ Hs].
       apply orb_false_iff in Hs. apply Hs. }
  cbn [andb popOutdents findent topIndent str_eqb negb getCap Nat.eqb].
  assert (Hkne : negb (isEmpty (ekey e)) = true) by (rewrite Hke; reflexivity).
  assert (Hvne : negb (isEmpty (evalue e)) = true) by (rewrite Hve; reflexivity).
  rewrite Hkne, Hvne, (decodeLiteral_word lno _ Hk), (decodeLiteral_word lno _ Hv).
  replace (matchPrefix multilineRegex (evalue e)) with (@None (str * str * caps)).
  2: { rewrite Hve. unfold matchPrefix, multilineRegex, lit, chr. cbn [rmatch].
       rewrite (wordChar_not_quote v0 Hv0). reflexivity. }
  reflexivity.
Qed.

Lemma handleTokens_entry fk lno rest k v :
  fk = None \/ fk = Some kKey ->
  handleTokens (mkTokensState [mkFrame [] fk] None) lno [] rest [LT (key k); LT (scalar v)] 0
  = ([mkToken lno (key k); mkToken lno (scalar v)],
     Ret (mkTokensState [mkFrame [] (Some kKey)] None, 0)).
Proof. intros [-> | ->]; reflexivity. Qed.

Lemma tokensLoop_entries es : forall fk lno,
  fk = None \/ fk = Some kKey ->
  forallb entryOK es = true ->
  exists fk',
    tokensLoop (mkTokensState [mkFrame [] fk] None) lno 0 (map lineOf es)
    = (entryTokens lno es, Ret (mkTokensState [mkFrame [] fk'] None, lno + length es)).
Proof.
  induction es as [|e es IH]; intros fk lno Hfk H.
  - exists fk. simpl. rewrite Nat.add_0_r. reflexivity.
  - simpl in H. apply andb_true_iff in H. destruct H as [He H].
    destruct (IH (Some kKey) (S lno) (or_intror eq_refl) H) as [fk' Hl]. exists fk'.
    cbn [map tokensLoop lineOf lindent lcontent stack lastLno].
    rewrite (tokenizeLine_entry fk [] lno e He).
    rewrite (handleTokens_entry fk lno (map lineOf es) _ _ Hfk).
    unfold bind. cbn [fst snd]. fold lineOf. rewrite Hl.
    cbn [entryTokens app length]. rewrite Nat.add_succ_r. reflexivity.
Qed.

Lemma wordChar_notLineTerminator x : wordChar x = true -> notLineTerminator x = true.
Proof. unfold wordChar. intros H. apply andb_true_iff in H. apply H. Qed.

Lemma entryLine_cut e :
  entryOK e = true ->
  forallb notLineTerminator (entryLine e) = true /\
  takeWhile isBlank (entryLine e) = [] /\ dropWhile isBlank (entryLine e) = entryLine e.
Proof.
  intros H. destruct (entryOK_parts e H) as (Hk & Hg1 & Hg2 & Hv).
  destruct (word_first _ Hk) as (k0 & k' & Hke & Hk0).
  unfold word in Hk, Hv. apply andb_true_iff in Hk, Hv. destruct Hk as [_ Hk], Hv as [_ Hv].
  split.
  - unfold entryLine. rewrite !forallb_app.
    rewrite (forallb_impl _ _ _ wordChar_notLineTerminator Hk).
    rewrite (forallb_impl _ _ _ blank_not_terminator Hg1).
    rewrite (forallb_impl _ _ _ blank_not_terminator Hg2).
    rewrite (forallb_impl _ _ _ wordChar_notLineTerminator Hv). reflexivity.
  - unfold entryLine. rewrite Hke. cbn [app takeWhile dropWhile].
    rewrite (wordChar_not_blank k0 Hk0). split; reflexivity.
Qed.

Lemma splitLines_entries es :
  forallb entryOK es = true -> splitLines (map entryLine es) = Ret (map lineOf es).
Proof.
  intros H. rewrite ParserProps.splitLines_spec.
  assert (Hall : forallb (forallb notLineTerminator) (map entryLine es) = true /\
                 map (fun l => mkLine (takeWhile isBlank l) (dropWhile isBlank l))
                     (map entryLine es) = map lineOf es).
  { induction es as [|e es IH]; [split; reflexivity|].
    simpl in H. apply andb_true_iff in H. destruct H as [He H].
    destruct (IH H) as [IH1 IH2]. destruct (entryLine_cut e He) as (H1 & H2 & H3).
    cbn [map forallb]. rewrite H1, IH1, H2, H3, IH2. split; reflexivity. }
  destruct Hall as [-> ->]. reflexivity.
Qed.

Lemma tokens_entries input es :
  split newlineRegex input = map entryLine es -> forallb entryOK es = true ->
  tokens input = (entryTokens 0 es, Ret tt).
Proof.
  intros Hs H. unfold tokens. rewrite Hs, (splitLines_entries es H).
  destruct (tokensLoop_entries es None 0 (or_introl eq_refl) H) as [fk' Hl].
  unfold bind, lift. rewrite Hl. cbn [fst snd stack lastLno nullBefore closeStack app].
  rewrite app_nil_r. reflexivity.
Qed.

(** *** The map of the entries *)

Lemma keyOK_plain k : keyOK k = true -> str_eqb k PROTO = false.
Proof.
  unfold keyOK. intros H. apply andb_true_iff in H. destruct H as [_ H].
  apply negb_true_iff in H. exact H.
Qed.

(** An assignment to a key other than  __proto__  writes the property. *)
Lemma assignKey_plain k v m :
  str_eqb k PROTO = false -> assignKey k v (VMap m) = VMap (setKey k v m).
Proof. intros H. cbn [assignKey]. rewrite H. reflexivity. Qed.

(** A string assigned to any key leaves a map a map. *)
Lemma assignKey_string k v m : exists m', assignKey k (VString v) (VMap m) = VMap m'.
Proof.
  cbn [assignKey]. destruct (str_eqb k PROTO && negb (hasKey PROTO m));
    cbn [setPrototype]; eexists; reflexivity.
Qed.

Lemma sectionToValue_entries es : forall fuel lno result m,
  forallb (fun e => keyOK (ekey e)) es = true ->
  mapOf result = Some m -> 2 * length es < fuel ->
  exists log,
    sectionToValue fuel identity result None (entryTokens lno es, Ret tt)
    = Done (match es with
            | [] => resultToValue result
            | _ => VMap (fold_left assign es m)
            end, ([], Ret tt), log).
Proof.
  induction es as [|e es IH]; intros fuel lno result m Hkeys Hm Hf.
  - destruct fuel as [|fuel]; [simpl in Hf; lia|]. exists []. reflexivity.
  - destruct fuel as [|[|fuel]]; try (simpl in Hf; lia).
    cbn [forallb] in Hkeys. apply andb_true_iff in Hkeys. destruct Hkeys as [Hk Hkeys].
    cbn [entryTokens]. cbn [sectionToValue kind].
    assert (Hres : match result with None => Some (VMap []) | _ => result end = Some (VMap m)).
    { destruct result as [[| | |m'| |]|]; simpl in Hm; try discriminate; inversion Hm;
        reflexivity. }
    rewrite Hres. cbn [store].
    change (identity (ekey e) (VString (evalue e))) with (VString (evalue e)).
    rewrite (assignKey_plain _ (VString (evalue e)) m (keyOK_plain _ Hk)).
    destruct (IH fuel (S lno) (Some (VMap (assign m e))) (assign m e) Hkeys eq_refl)
      as [log Hlog]; [simpl in *; lia|].
    unfold assign at 1 in Hlog. unfold assign at 1 in Hlog. rewrite Hlog.
    eexists. f_equal. f_equal. f_equal.
    destruct es; reflexivity.
Qed.

(** *** Splitting the text into lines *)

Lemma tight_tail x l : tight (x :: l) = true -> tight l = true.
Proof.
  cbn [tight]. intros H. apply andb_true_iff in H. destruct H as [_ H].
  destruct l; [reflexivity | exact H].
Qed.

(** After the blanks a tight line starts with, a code unit of the line
    follows, which is no carriage return and no line feed. *)
Lemma tight_dropWhile l rest :
  tight l = true -> l <> [] ->
  exists y t, dropWhile isBlank (l ++ rest) = y :: t /\ N.eqb y CR = false /\ N.eqb y LF = false.
Proof.
  induction l as [|x l IH]; intros H Hne; [contradiction|].
  pose proof H as H0. cbn [tight] in H. apply andb_true_iff in H. destruct H as [Hx H].
  apply andb_true_iff in Hx. destruct Hx as [Hcr Hlf]. apply negb_true_iff in Hcr, Hlf.
  cbn [app dropWhile]. destruct (isBlank x) eqn:Hb.
  - destruct l as [|y l]; [discriminate|]. apply IH; [exact H | discriminate].
  - exists x, (l ++ rest). auto.
Qed.

Lemma newline_after A (K : str -> caps -> option A) y t c :
  N.eqb y CR = false -> N.eqb y LF = false ->
  rmatch (Alt (lit [CR; LF]) (Alt (chr CR) (chr LF))) (y :: t) c K = None.
Proof.
  intros Hcr Hlf. unfold lit, chr. cbn [rmatch].
  rewrite (N.eqb_sym CR y), (N.eqb_sym LF y), Hcr, Hlf. reflexivity.
Qed.

Lemma takeWhile_skipn_head (p : N -> bool) s n :
  n < length (takeWhile p s) ->
  exists y t, skipn n s = y :: t /\ p y = true.
Proof.
  revert n. induction s as [|x s IH]; intros n Hn; simpl in Hn; [lia|].
  destruct (p x) eqn:Hx; [|simpl in Hn; lia].
  destruct n as [|n]; [exists x, s; auto|]. simpl in Hn. cbn [skipn]. apply IH. lia.
Qed.

Lemma blank_not_break y : isBlank y = true -> N.eqb y CR = false /\ N.eqb y LF = false.
Proof.
  unfold isBlank. cbn [existsb]. rewrite orb_false_r. intros H.
  apply orb_true_iff in H. destruct H as [H | H]; apply N.eqb_eq in H; subst; split; reflexivity.
Qed.

Lemma newlineRegex_none l rest :
  tight l = true -> l <> [] -> matchPrefix newlineRegex (l ++ rest) = None.
Proof.
  intros H Hne. unfold matchPrefix, newlineRegex.
  change (rmatch (Seq (Star ws) (Alt (lit [CR; LF]) (Alt (chr CR) (chr LF)))) (l ++ rest) []
            (fun s' c => Some (firstn (length (l ++ rest) - length s') (l ++ rest), s', c)))
    with (rmatch (Star ws) (l ++ rest) []
            (fun s1 c1 => rmatch (Alt (lit [CR; LF]) (Alt (chr CR) (chr LF))) s1 c1
               (fun s' c => Some (firstn (length (l ++ rest) - length s') (l ++ rest), s', c)))).
  unfold ws, oneOf. rewrite rmatch_star_class.
  change (fun x : N => existsb (N.eqb x) [SP; TAB]) with isBlank.
  apply starClass_none. intros n Hn.
  destruct (Nat.eq_dec n (length (takeWhile isBlank (l ++ rest)))) as [-> | Hlt].
  - rewrite skipn_takeWhile.
    destruct (tight_dropWhile l rest H Hne) as (y & t & -> & Hcr & Hlf).
    apply newline_after; assumption.
  - destruct (takeWhile_skipn_head isBlank (l ++ rest) n) as (y & t & -> & Hy); [lia|].
    destruct (blank_not_break y Hy) as [Hcr Hlf]. apply newline_after; assumption.
Qed.

Lemma scan_tight rest : forall l,
  tight l = true ->
  scan newlineRegex 0 (l ++ rest) = map SLit l ++ scan newlineRegex 0 rest.
Proof.
  induction l as [|x l IH]; intros H; [reflexivity|].
  change ((x :: l) ++ rest) with (x :: l ++ rest). cbn [scan].
  change (x :: l ++ rest) with ((x :: l) ++ rest).
  rewrite (newlineRegex_none (x :: l) rest H) by discriminate.
  cbn [map app]. rewrite (IH (tight_tail x l H)). reflexivity.
Qed.

Lemma splitSegments_lits l segs : forall cur,
  splitSegments cur (map SLit l ++ segs) = splitSegments (rev l ++ cur) segs.
Proof.
  induction l as [|x l IH]; intros cur; [reflexivity|].
  cbn [map app splitSegments rev]. rewrite IH, <- app_assoc. reflexivity.
Qed.

Lemma split_join ls :
  forallb tight ls = true -> ls <> [] ->
  split newlineRegex (LexerSpec.join [LF] ls) = ls.
Proof.
  unfold split. induction ls as [|l ls IH]; intros H Hne; [contradiction|].
  simpl in H. apply andb_true_iff in H. destruct H as [Hl H].
  destruct ls as [|l2 ls].
  - cbn [LexerSpec.join]. rewrite <- (app_nil_r l) at 1. rewrite (scan_tight [] l Hl).
    rewrite splitSegments_lits. cbn [scan]. rewrite app_nil_r.
    replace (matchPrefix newlineRegex []) with (@None (str * str * caps)) by reflexivity.
    cbn [splitSegments]. rewrite rev_involutive. reflexivity.
  - change (LexerSpec.join [LF] (l :: l2 :: ls))
      with (l ++ [LF] ++ LexerSpec.join [LF] (l2 :: ls)).
    rewrite (scan_tight _ l Hl), splitSegments_lits.
    cbn [app scan].
    replace (matchPrefix newlineRegex (LF :: LexerSpec.join [LF] (l2 :: ls)))
      with (Some ([LF], LexerSpec.join [LF] (l2 :: ls), @nil (nat * str))).
    2: { unfold matchPrefix, newlineRegex, ws, oneOf, lit, chr. cbn [rmatch length starLoop].
         cbn [existsb N.eqb Pos.eqb orb]. unfold LF, CR, SP, TAB. cbn [N.eqb Pos.eqb].
         replace (S (length (LexerSpec.join [10%N] (l2 :: ls)))
                  - length (LexerSpec.join [10%N] (l2 :: ls))) with 1 by lia.
         reflexivity. }
    cbn [length splitSegments]. rewrite app_nil_r, rev_involutive.
    f_equal. apply IH; [exact H | discriminate].
Qed.

Lemma word_tight_after g s :
  forallb isBlank g = true -> word s = true -> tight (g ++ s) = true.
Proof.
  intros Hg Hs. destruct (word_first s Hs) as (x & s' & -> & Hx).
  unfold word in Hs. apply andb_true_iff in Hs. destruct Hs as [_ Hs].
  assert (Hw : forall t, forallb wordChar t = true -> t <> [] -> tight t = true).
  { induction t as [|y t IHt]; intros Ht Hne; [contradiction|].
    simpl in Ht. apply andb_true_iff in Ht. destruct Ht as [Hy Ht].
    pose proof (wordChar_notLineTerminator y Hy) as Hnl.
    unfold notLineTerminator, isLineTerminator in Hnl. apply negb_true_iff in Hnl.
    apply orb_false_iff in Hnl. destruct Hnl as [Hnl _].
    apply orb_false_iff in Hnl. destruct Hnl as [Hnl _].
    apply orb_false_iff in Hnl. destruct Hnl as [Hlf Hcr].
    cbn [tight]. rewrite Hcr, Hlf. cbn [negb andb].
    destruct t as [|z t]; [rewrite (wordChar_not_blank y Hy); reflexivity|].
    apply IHt; [exact Ht | discriminate]. }
  induction g as [|b g IH]; cbn [app].
  - apply Hw; [exact Hs | discriminate].
  - simpl in Hg. apply andb_true_iff in Hg. destruct Hg as [Hb Hg].
    destruct (blank_not_break b Hb) as [Hcr Hlf].
    cbn [tight]. rewrite Hcr, Hlf. cbn [negb andb].
    destruct (g ++ x :: s') eqn:Hgs; [destruct g; discriminate|].
    apply IH. exact Hg.
Qed.

Lemma tight_app_nonblank a b : tight b = true -> b <> [] ->
  forallb (fun x => negb (N.eqb x CR) && negb (N.eqb x LF)) a = true -> tight (a ++ b) = true.
Proof.
  intros Hb Hne. induction a as [|x a IH]; intros Ha; [exact Hb|].
  simpl in Ha. apply andb_true_iff in Ha. destruct Ha as [Hx Ha].
  cbn [app tight]. rewrite Hx. cbn [andb].
  destruct (a ++ b) eqn:Hab; [destruct a; [contradiction | discriminate]|].
  apply IH. exact Ha.
Qed.

Lemma entryLine_tight e : entryOK e = true -> tight (entryLine e) = true.
Proof.
  intros H. destruct (entryOK_parts e H) as (Hk & Hg1 & Hg2 & Hv).
  unfold entryLine.
  assert (Hnb : forall p s, (forall x, p x = true -> notLineTerminator x = true) ->
            forallb p s = true ->
            forallb (fun x => negb (N.eqb x CR) && negb (N.eqb x LF)) s = true).
  { intros p s Hp. apply forallb_impl. intros x Hx. specialize (Hp x Hx).
    unfold notLineTerminator, isLineTerminator in Hp. apply negb_true_iff in Hp.
    apply orb_false_iff in Hp. destruct Hp as [Hp _].
    apply orb_false_iff in Hp. destruct Hp as [Hp _].
    apply orb_false_iff in Hp. destruct Hp as [Hlf Hcr]. rewrite Hcr, Hlf. reflexivity. }
  pose proof (word_tight_after (egap2 e) (evalue e) Hg2 Hv) as Ht.
  assert (Hne : egap2 e ++ evalue e <> []).
  { destruct (word_first _ Hv) as (x & s' & -> & _). destruct (egap2 e); discriminate. }
  unfold word in Hk. apply andb_true_iff in Hk. destruct Hk as [_ Hk].
  apply tight_app_nonblank.
  - apply tight_app_nonblank.
    + apply (tight_app_nonblank [EQUALS]); [exact Ht | exact Hne | reflexivity].
    + discriminate.
    + exact (Hnb _ _ blank_not_terminator Hg1).
  - destruct (egap1 e); discriminate.
  - exact (Hnb _ _ wordChar_notLineTerminator Hk).
Qed.

Lemma length_entryTokens es : forall lno, length (entryTokens lno es) = 2 * length es.
Proof.
  induction es as [|e es IH]; intros lno; [reflexivity|].
  cbn [entryTokens length]. rewrite IH. lia.
Qed.

(** X20. A document of lines  key = value  parses to the map of the keys to
    the values.  Keys and values are bare words (one code unit or more,
    none of them a blank, an equals sign, a semicolon, a double quote or
    a line terminator), no key is __proto__, any number of blanks stands
    around the equals sign, and the lines are joined with line feeds.
    [parse] returns the object that is assigned the values, as strings,
    under the keys in the order of the lines: a key that comes again
    takes the later value and keeps its place, and the object lists its
    keys as the language enumerates them, first the keys that are array
    indices (canonical decimal numbers below 2^32 - 1) in ascending
    order, then the other keys in the order of their first assignment. *)
Theorem parse_flat_map es :
  forallb entryOK es = true -> forallb (fun e => keyOK (ekey e)) es = true -> es <> [] ->
  parse (LexerSpec.join [LF] (map entryLine es)) None
  = Done (VMap (fold_left assign es [])).
Proof.
  intros H Hkeys Hne.
  assert (Hsplit : split newlineRegex (LexerSpec.join [LF] (map entryLine es))
                   = map entryLine es).
  { apply split_join.
    - clear Hne Hkeys. induction es as [|e es IH]; [reflexivity|].
      simpl in H. apply andb_true_iff in H. destruct H as [He H].
      cbn [map forallb]. rewrite (entryLine_tight e He). apply IH. exact H.
    - destruct es; [contradiction | discriminate]. }
  unfold parse, parseLog. rewrite (tokens_entries _ es Hsplit H). cbn [fst].
  destruct (sectionToValue_entries es (S (length (entryTokens 0 es))) 0 None [] Hkeys eq_refl)
    as [log Hlog].
  { rewrite length_entryTokens. lia. }
  rewrite Hlog. destruct es as [|e es]; [contradiction|]. reflexivity.
Qed.

Lemma parse_flat_map_witness :
  parse (u "name = web" ++ [LF] ++ u "2=b" ++ [LF] ++ u "01 = c" ++ [LF] ++ u "1 = a"
           ++ [LF] ++ u "name  =" ++ [TAB] ++ u "api") None
  = Done (VMap [(u "1", VString (u "a")); (u "2", VString (u "b"));
                (u "name", VString (u "api")); (u "01", VString (u "c"))]).
Proof.
  exact (parse_flat_map
           [mkEntry (u "name") (u " ") (u " ") (u "web");
            mkEntry (u "2") [] [] (u "b");
            mkEntry (u "01") (u " ") (u " ") (u "c");
            mkEntry (u "1") (u " ") (u " ") (u "a");
            mkEntry (u "name") (u "  ") [TAB] (u "api")]
           eq_refl eq_refl ltac:(discriminate)).
Defined.

End DocumentProps.

(* ================================================================== *)
(** ** Documents of  = value  lines *)

Module SequenceProps.

Import Utils Tokenizer TokenizerSpec RegexProps Parser ParserSpec DocumentSpec DocumentProps.
Import SequenceSpec.

(** The same group takes nothing where no word starts. *)
Lemma group_empty A i stop x rest c (K : str -> caps -> option A) a :
  N.eqb QUOTE x = false ->
  (forall c' k, rmatch (wordBody stop) (x :: rest) c' k = @None A) ->
  K (x :: rest) ((i, []) :: c) = Some a ->
  rmatch (Group i (Seq (Opt quoted) (Star (wordBody stop)))) (x :: rest) c K = Some a.
Proof.
  intros Hq Hstuck HK. cbn [rmatch]. unfold Opt. cbn [rmatch].
  rewrite (quoted_none _ x _ _ _ Hq).
  apply (word_loop _ _ a stop [] (length (x :: rest)) (x :: rest) c);
    [reflexivity | intros k; apply Hstuck | cbn [app]; lia |].
  rewrite Nat.sub_diag. exact HK.
Qed.

Lemma SPLIT_LINE_item i :
  itemOK i = true ->
  matchPrefix SPLIT_LINE (itemLine i) = Some (itemLine i, [], [(2, ivalue i); (1, [])]).
Proof.
  unfold itemOK. intros H. apply andb_true_iff in H. destruct H as [Hg Hv].
  destruct (word_first _ Hv) as (v0 & v' & Hve & Hv0).
  unfold word in Hv. apply andb_true_iff in Hv. destruct Hv as [_ Hv].
  destruct i as [g v]. cbn [igap ivalue] in *. subst v. unfold itemLine. cbn [igap ivalue].
  set (line := [EQUALS] ++ g ++ v0 :: v').
  unfold matchPrefix, SPLIT_LINE.
  change (Alt (noneOf [EQUALS; SEMI; SP; TAB]) (Seq ws (noneOf [EQUALS; SEMI; SP; TAB])))
    with (wordBody [EQUALS; SEMI; SP; TAB]).
  change (Alt (noneOf [SEMI; SP; TAB]) (Seq ws (noneOf [SEMI; SP; TAB])))
    with (wordBody [SEMI; SP; TAB]).
  apply rmatch_seq. unfold line at 1. cbn [app].
  apply group_empty; [reflexivity | intros c' k; apply (gap_stuck _ [] _ _ _ eq_refl) |].
  apply rmatch_seq. apply rmatch_opt. apply rmatch_seq.
  apply (star_ws_gap _ [] EQUALS (g ++ v0 :: v')); [reflexivity | reflexivity |].
  apply rmatch_seq. apply rmatch_chr. apply rmatch_seq.
  apply star_ws_gap; [exact Hg | apply wordChar_not_blank; exact Hv0 |].
  rewrite <- (app_nil_r (v0 :: v')) at 1.
  apply group_word.
  - apply wordChar_not_quote. exact Hv0.
  - revert Hv. apply forallb_impl. exact wordChar_value.
  - intros c' k. reflexivity.
  - cbv beta. cbn [rmatch length starLoop]. unfold chr. cbn [rmatch]. rewrite Nat.sub_0_r.
    rewrite firstn_all. reflexivity.
Qed.

Lemma tokenizeLine_item fk below lno i :
  itemOK i = true ->
  tokenizeLine (mkFrame [] fk :: below) lno [] (itemLine i)
  = (mkFrame [] fk :: below, ([LT item; LT (scalar (ivalue i))], Ret tt)).
Proof.
  intros H. pose proof (SPLIT_LINE_item i H) as Hm.
  unfold itemOK in H. apply andb_true_iff in H. destruct H as [Hg Hv].
  destruct (word_first _ Hv) as (v0 & v' & Hve & Hv0).
  unfold tokenizeLine. rewrite Hm. unfold itemLine at 1 2.
  cbn [app isEmpty startsWith orb N.eqb andb popOutdents findent topIndent str_eqb negb getCap
       Nat.eqb].
  replace (N.eqb EQUALS SEMI) with false by reflexivity. cbn [andb].
  assert (Hvne : negb (isEmpty (ivalue i)) = true) by (rewrite Hve; reflexivity).
  rewrite Hvne, (decodeLiteral_word lno _ Hv).
  replace (matchPrefix multilineRegex (ivalue i)) with (@None (str * str * caps)).
  2: { rewrite Hve. unfold matchPrefix, multilineRegex, lit, chr. cbn [rmatch].
       rewrite (wordChar_not_quote v0 Hv0). reflexivity. }
  reflexivity.
Qed.

Lemma handleTokens_item fk lno rest v :
  fk = None \/ fk = Some kItem ->
  handleTokens (mkTokensState [mkFrame [] fk] None) lno [] rest [LT item; LT (scalar v)] 0
  = ([mkToken lno item; mkToken lno (scalar v)],
     Ret (mkTokensState [mkFrame [] (Some kItem)] None, 0)).
Proof. intros [-> | ->]; reflexivity. Qed.

Lemma tokensLoop_items its : forall fk lno,
  fk = None \/ fk = Some kItem ->
  forallb itemOK its = true ->
  exists fk',
    (fk' = fk \/ fk' = Some kItem) /\
    tokensLoop (mkTokensState [mkFrame [] fk] None) lno 0 (map itemLineOf its)
    = (itemTokens lno its, Ret (mkTokensState [mkFrame [] fk'] None, lno + length its)).
Proof.
  induction its as [|i its IH]; intros fk lno Hfk H.
  - exists fk. split; [left; reflexivity|]. simpl. rewrite Nat.add_0_r. reflexivity.
  - simpl in H. apply andb_true_iff in H. destruct H as [Hi H].
    destruct (IH (Some kItem) (S lno) (or_intror eq_refl) H) as (fk' & Hfk' & Hl). exists fk'.
    split; [right; destruct Hfk'; assumption|].
    cbn [map tokensLoop itemLineOf lindent lcontent stack lastLno].
    rewrite (tokenizeLine_item fk [] lno i Hi).
    rewrite (handleTokens_item fk lno (map itemLineOf its) _ Hfk).
    unfold bind. cbn [fst snd]. fold itemLineOf. rewrite Hl.
    cbn [itemTokens app length]. rewrite Nat.add_succ_r. reflexivity.
Qed.

Lemma itemLine_cut i :
  itemOK i = true ->
  forallb notLineTerminator (itemLine i) = true /\
  takeWhile isBlank (itemLine i) = [] /\ dropWhile isBlank (itemLine i) = itemLine i.
Proof.
  unfold itemOK. intros H. apply andb_true_iff in H. destruct H as [Hg Hv].
  unfold word in Hv. apply andb_true_iff in Hv. destruct Hv as [_ Hv].
  split; [|split; reflexivity].
  unfold itemLine. rewrite !forallb_app.
  rewrite (forallb_impl _ _ _ blank_not_terminator Hg).
  rewrite (forallb_impl _ _ _ wordChar_notLineTerminator Hv). reflexivity.
Qed.

Lemma splitLines_items its :
  forallb itemOK its = true -> splitLines (map itemLine its) = Ret (map itemLineOf its).
Proof.
  intros H. rewrite ParserProps.splitLines_spec.
  assert (Hall : forallb (forallb notLineTerminator) (map itemLine its) = true /\
                 map (fun l => mkLine (takeWhile isBlank l) (dropWhile isBlank l))
                     (map itemLine its) = map itemLineOf its).
  { induction its as [|i its IH]; [split; reflexivity|].
    simpl in H. apply andb_true_iff in H. destruct H as [Hi H].
    destruct (IH H) as [IH1 IH2]. destruct (itemLine_cut i Hi) as (H1 & H2 & H3).
    cbn [map forallb]. rewrite H1, IH1, H2, H3, IH2. split; reflexivity. }
  destruct Hall as [-> ->]. reflexivity.
Qed.

Lemma tokens_items input its :
  split newlineRegex input = map itemLine its -> forallb itemOK its = true ->
  tokens input = (itemTokens 0 its, Ret tt).
Proof.
  intros Hs H. unfold tokens. rewrite Hs, (splitLines_items its H).
  destruct (tokensLoop_items its None 0 (or_introl eq_refl) H) as (fk' & _ & Hl).
  unfold bind, lift. rewrite Hl. cbn [fst snd stack lastLno nullBefore closeStack app].
  rewrite app_nil_r. reflexivity.
Qed.

Lemma sectionToValue_items its : forall fuel lno result l,
  listOf result = Some l -> 2 * length its < fuel ->
  exists log,
    sectionToValue fuel identity result None (itemTokens lno its, Ret tt)
    = Done (match its with
            | [] => resultToValue result
            | _ => VList (l ++ map (fun i => VString (ivalue i)) its)
            end, ([], Ret tt), log).
Proof.
  induction its as [|i its IH]; intros fuel lno result l Hl Hf.
  - destruct fuel as [|fuel]; [simpl in Hf; lia|]. exists []. reflexivity.
  - destruct fuel as [|[|fuel]]; try (simpl in Hf; lia).
    cbn [itemTokens]. cbn [sectionToValue kind].
    assert (Hres : match result with None => Some (VList []) | _ => result end = Some (VList l)).
    { destruct result as [[| | | |l'|]|]; simpl in Hl; try discriminate; inversion Hl; reflexivity. }
    rewrite Hres. cbn [store].
    change (identity (numberToString (length l)) (VString (ivalue i))) with (VString (ivalue i)).
    destruct (IH fuel (S lno) (Some (VList (l ++ [VString (ivalue i)])))
                (l ++ [VString (ivalue i)]) eq_refl) as [log Hlog]; [simpl in *; lia|].
    rewrite Hlog. eexists. f_equal. f_equal. f_equal.
    destruct its; cbn [map resultToValue]; rewrite <- ?app_assoc; reflexivity.
Qed.

Lemma length_itemTokens its : forall lno, length (itemTokens lno its) = 2 * length its.
Proof.
  induction its as [|i its IH]; intros lno; [reflexivity|].
  cbn [itemTokens length]. rewrite IH. lia.
Qed.

Lemma itemLine_tight i : itemOK i = true -> tight (itemLine i) = true.
Proof.
  unfold itemOK. intros H. apply andb_true_iff in H. destruct H as [Hg Hv].
  unfold itemLine. apply (tight_app_nonblank [EQUALS]).
  - apply word_tight_after; assumption.
  - destruct (word_first _ Hv) as (x & s' & -> & _). destruct (igap i); discriminate.
  - reflexivity.
Qed.

(** X21. A document of lines  = value  parses to the list of the values.  The
    values are bare words, any number of blanks stands between the
    equals sign and the value, and the lines are joined with line feeds.
    [parse] returns the list of the values as strings, in the order of
    the lines. *)
Theorem parse_flat_list its :
  forallb itemOK its = true -> its <> [] ->
  parse (LexerSpec.join [LF] (map itemLine its)) None
  = Done (VList (map (fun i => VString (ivalue i)) its)).
Proof.
  intros H Hne.
  assert (Hsplit : split newlineRegex (LexerSpec.join [LF] (map itemLine its))
                   = map itemLine its).
  { apply split_join.
    - clear Hne. induction its as [|i its IH]; [reflexivity|].
      simpl in H. apply andb_true_iff in H. destruct H as [Hi H].
      cbn [map forallb]. rewrite (itemLine_tight i Hi). apply IH. exact H.
    - destruct its; [contradiction | discriminate]. }
  unfold parse, parseLog. rewrite (tokens_items _ its Hsplit H). cbn [fst].
  destruct (sectionToValue_items its (S (length (itemTokens 0 its))) 0 None [] eq_refl)
    as [log Hlog].
  { rewrite length_itemTokens. lia. }
  rewrite Hlog. destruct its as [|i its]; [contradiction|]. reflexivity.
Qed.

Lemma parse_flat_list_witness :
  parse (u "= one" ++ [LF] ++ u "=two" ++ [LF] ++ u "=" ++ [TAB] ++ u "one") None
  = Done (VList [VString (u "one"); VString (u "two"); VString (u "one")]).
Proof.
  exact (parse_flat_list
           [mkItem (u " ") (u "one"); mkItem [] (u "two"); mkItem [TAB] (u "one")]
           eq_refl ltac:(discriminate)).
Defined.

End SequenceProps.

(* ================================================================== *)
(** ** Documents that [parse] rejects *)

Module RejectionProps.

Import Utils Tokenizer TokenizerSpec RegexProps Parser ParserSpec DocumentSpec DocumentProps.
Import SequenceSpec SequenceProps.

Lemma tokensLoop_entries_then es tail : forall fk lno,
  fk = None \/ fk = Some kKey ->
  forallb entryOK es = true ->
  tokensLoop (flatState fk) lno 0 (map lineOf es ++ tail)
  = (entryTokens lno es
       ++ fst (tokensLoop (flatState (match es with [] => fk | _ => Some kKey end))
                 (lno + length es) 0 tail),
     snd (tokensLoop (flatState (match es with [] => fk | _ => Some kKey end))
            (lno + length es) 0 tail)).
Proof.
  induction es as [|e es IH]; intros fk lno Hfk H.
  - cbn [map app entryTokens length]. rewrite Nat.add_0_r.
    destruct (tokensLoop (flatState fk) lno 0 tail). reflexivity.
  - simpl in H. apply andb_true_iff in H. destruct H as [He H].
    specialize (IH (Some kKey) (S lno) (or_intror eq_refl) H).
    cbn [map app tokensLoop lineOf lindent lcontent]. unfold flatState at 1.
    cbn [stack lastLno].
    rewrite (tokenizeLine_entry fk [] lno e He).
    rewrite (handleTokens_entry fk lno _ _ _ Hfk).
    unfold bind. cbn [fst snd]. fold lineOf. fold (flatState (Some kKey)). rewrite IH.
    cbn [entryTokens app length]. rewrite Nat.add_succ_r.
    replace (match es with [] => Some kKey | _ :: _ => Some kKey end) with (Some kKey)
      by (destruct es; reflexivity).
    reflexivity.
Qed.

Lemma tokensLoop_items_then its tail : forall fk lno,
  fk = None \/ fk = Some kItem ->
  forallb itemOK its = true ->
  tokensLoop (flatState fk) lno 0 (map itemLineOf its ++ tail)
  = (itemTokens lno its
       ++ fst (tokensLoop (flatState (match its with [] => fk | _ => Some kItem end))
                 (lno + length its) 0 tail),
     snd (tokensLoop (flatState (match its with [] => fk | _ => Some kItem end))
            (lno + length its) 0 tail)).
Proof.
  induction its as [|i its IH]; intros fk lno Hfk H.
  - cbn [map app itemTokens length]. rewrite Nat.add_0_r.
    destruct (tokensLoop (flatState fk) lno 0 tail). reflexivity.
  - simpl in H. apply andb_true_iff in H. destruct H as [Hi H].
    specialize (IH (Some kItem) (S lno) (or_intror eq_refl) H).
    cbn [map app tokensLoop itemLineOf lindent lcontent]. unfold flatState at 1.
    cbn [stack lastLno].
    rewrite (tokenizeLine_item fk [] lno i Hi).
    rewrite (handleTokens_item fk lno _ _ Hfk).
    unfold bind. cbn [fst snd]. fold itemLineOf. fold (flatState (Some kItem)). rewrite IH.
    cbn [itemTokens app length]. rewrite Nat.add_succ_r.
    replace (match its with [] => Some kItem | _ :: _ => Some kItem end) with (Some kItem)
      by (destruct its; reflexivity).
    reflexivity.
Qed.

Lemma tokensLoop_item_in_map lno i :
  itemOK i = true ->
  tokensLoop (flatState (Some kKey)) lno 0 [itemLineOf i]
  = ([], Throw (ParseError (Some (lno + 1)) UnexpectedListItem)).
Proof.
  intros Hi. cbn [tokensLoop itemLineOf lindent lcontent]. unfold flatState.
  cbn [stack lastLno]. rewrite (tokenizeLine_item (Some kKey) [] lno i Hi). reflexivity.
Qed.

Lemma tokensLoop_key_in_list lno e :
  entryOK e = true ->
  tokensLoop (flatState (Some kItem)) lno 0 [lineOf e]
  = ([], Throw (ParseError (Some (lno + 1)) UnexpectedMapKey)).
Proof.
  intros He. cbn [tokensLoop lineOf lindent lcontent]. unfold flatState.
  cbn [stack lastLno]. rewrite (tokenizeLine_entry (Some kItem) [] lno e He). reflexivity.
Qed.

Lemma tokenizeLine_entry_indented fk lno ind e :
  entryOK e = true -> ind <> [] ->
  tokenizeLine [mkFrame [] fk] lno ind (entryLine e)
  = ([mkFrame ind None; mkFrame [] fk],
     ([LT indent; LT (key (ekey e)); LT (scalar (evalue e))], Ret tt)).
Proof.
  intros H Hind. pose proof (SPLIT_LINE_entry e H) as Hm.
  destruct (entryOK_parts e H) as (Hk & Hg1 & Hg2 & Hv).
  destruct (word_first _ Hk) as (k0 & k' & Hke & Hk0).
  destruct (word_first _ Hv) as (v0 & v' & Hve & Hv0).
  unfold tokenizeLine. rewrite Hm.
  assert (Hline : entryLine e = k0 :: k' ++ egap1 e ++ [EQUALS] ++ egap2 e ++ evalue e).
  { unfold entryLine. rewrite Hke. reflexivity. }
  rewrite Hline at 1 2. cbn [isEmpty startsWith orb].
  replace (N.eqb k0 SEMI) with false.
  2: { symmetry. pose proof (wordChar_key k0 Hk0) as Hs. apply negb_true_iff in Hs.
       cbn [existsb] in Hs. apply orb_false_iff in Hs. destruct Hs as [_ Hs].
       apply orb_false_iff in Hs. apply Hs. }
  cbn [andb popOutdents findent]. 
  replace (startsWith ind []) with true by (destruct ind; reflexivity).
  cbn [topIndent findent].
  replace (str_eqb ind []) with false by (destruct ind; [contradiction | reflexivity]).
  cbn [negb getCap Nat.eqb].
  assert (Hkne : negb (isEmpty (ekey e)) = true) by (rewrite Hke; reflexivity).
  assert (Hvne : negb (isEmpty (evalue e)) = true) by (rewrite Hve; reflexivity).
  rewrite Hkne, Hvne, (decodeLiteral_word lno _ Hk), (decodeLiteral_word lno _ Hv).
  replace (matchPrefix multilineRegex (evalue e)) with (@None (str * str * caps)).
  2: { rewrite Hve. unfold matchPrefix, multilineRegex, lit, chr. cbn [rmatch].
       rewrite (wordChar_not_quote v0 Hv0). reflexivity. }
  reflexivity.
Qed.

Lemma tokensLoop_indented fk lno ind e :
  entryOK e = true -> ind <> [] ->
  tokensLoop (flatState fk) lno 0 [mkLine ind (entryLine e)]
  = ([], Throw (ParseError (Some (lno + 1)) UnexpectedIndent)).
Proof.
  intros He Hind. cbn [tokensLoop lindent lcontent]. unfold flatState.
  cbn [stack lastLno]. rewrite (tokenizeLine_entry_indented fk lno ind e He Hind). reflexivity.
Qed.

Lemma sectionToValue_entries_raise es x : forall fuel lno result m,
  mapOf result = Some m -> 2 * length es < fuel ->
  sectionToValue fuel identity result None (entryTokens lno es, Throw x) = Raise x.
Proof.
  induction es as [|e es IH]; intros fuel lno result m Hm Hf.
  - destruct fuel as [|fuel]; [simpl in Hf; lia|]. reflexivity.
  - destruct fuel as [|[|fuel]]; try (simpl in Hf; lia).
    cbn [entryTokens]. cbn [sectionToValue kind].
    assert (Hres : match result with None => Some (VMap []) | _ => result end = Some (VMap m)).
    { destruct result as [[| | |m'| |]|]; simpl in Hm; try discriminate; inversion Hm; reflexivity. }
    rewrite Hres. cbn [store].
    change (identity (ekey e) (VString (evalue e))) with (VString (evalue e)).
    destruct (assignKey_string (ekey e) (evalue e) m) as [m' Hm']. rewrite Hm'.
    rewrite (IH fuel (S lno) (Some (VMap m')) m' eq_refl); [reflexivity | simpl in *; lia].
Qed.

Lemma sectionToValue_items_raise its x : forall fuel lno result l,
  listOf result = Some l -> 2 * length its < fuel ->
  sectionToValue fuel identity result None (itemTokens lno its, Throw x) = Raise x.
Proof.
  induction its as [|i its IH]; intros fuel lno result l Hl Hf.
  - destruct fuel as [|fuel]; [simpl in Hf; lia|]. reflexivity.
  - destruct fuel as [|[|fuel]]; try (simpl in Hf; lia).
    cbn [itemTokens]. cbn [sectionToValue kind].
    assert (Hres : match result with None => Some (VList []) | _ => result end = Some (VList l)).
    { destruct result as [[| | | |l'|]|]; simpl in Hl; try discriminate; inversion Hl; reflexivity. }
    rewrite Hres. cbn [store].
    rewrite (IH fuel (S lno)
               (Some (VList (l ++ [identity (numberToString (length l)) (VString (ivalue i))])))
               (l ++ [identity (numberToString (length l)) (VString (ivalue i))])
               eq_refl); [reflexivity | simpl in *; lia].
Qed.

Lemma forallb_tight_entries es :
  forallb entryOK es = true -> forallb tight (map entryLine es) = true.
Proof.
  induction es as [|e es IH]; intros H; [reflexivity|].
  simpl in H. apply andb_true_iff in H. destruct H as [He H].
  cbn [map forallb]. rewrite (entryLine_tight e He). apply IH. exact H.
Qed.

Lemma forallb_tight_items its :
  forallb itemOK its = true -> forallb tight (map itemLine its) = true.
Proof.
  induction its as [|i its IH]; intros H; [reflexivity|].
  simpl in H. apply andb_true_iff in H. destruct H as [Hi H].
  cbn [map forallb]. rewrite (itemLine_tight i Hi). apply IH. exact H.
Qed.

Lemma splitLines_app a b la lb :
  splitLines a = Ret la -> splitLines b = Ret lb -> splitLines (a ++ b) = Ret (la ++ lb).
Proof.
  revert la. induction a as [|l a IH]; intros la Ha Hb.
  - simpl in Ha. inversion Ha; subst. exact Hb.
  - cbn [app splitLines] in *.
    destruct (matchPrefix lineRegex l) as [[[m s'] c]|]; [|discriminate].
    destruct (splitLines a) as [ra|]; [|discriminate]. inversion Ha; subst.
    rewrite (IH ra eq_refl Hb). reflexivity.
Qed.

Lemma indented_cut ind e :
  entryOK e = true -> forallb isBlank ind = true ->
  splitLines [ind ++ entryLine e] = Ret [mkLine ind (entryLine e)] /\
  tight (ind ++ entryLine e) = true.
Proof.
  intros He Hind. destruct (entryLine_cut e He) as (H1 & H2 & H3). split.
  - rewrite ParserProps.splitLines_spec. cbn [forallb map].
    rewrite forallb_app, (forallb_impl _ _ _ blank_not_terminator Hind), H1. cbn [andb].
    assert (Hfirst : exists x t, entryLine e = x :: t /\ isBlank x = false).
    { destruct (entryOK_parts e He) as (Hk & _).
      destruct (word_first _ Hk) as (k0 & k' & Hke & Hk0). unfold entryLine. rewrite Hke.
      exists k0, (k' ++ egap1 e ++ [EQUALS] ++ egap2 e ++ evalue e).
      split; [reflexivity | apply wordChar_not_blank; exact Hk0]. }
    destruct Hfirst as (x & t & Hxt & Hx). rewrite Hxt.
    rewrite (LexerProps.takeWhile_app_stop isBlank ind (x :: t) Hind Hx).
    rewrite (dropWhile_gap ind x t Hind Hx). reflexivity.
  - apply tight_app_nonblank.
    + apply entryLine_tight. exact He.
    + destruct (entryOK_parts e He) as (Hk & _).
      destruct (word_first _ Hk) as (k0 & k' & Hke & _). unfold entryLine. rewrite Hke.
      discriminate.
    + revert Hind. apply forallb_impl. intros x Hx.
      destruct (blank_not_break x Hx) as [-> ->]. reflexivity.
Qed.

Lemma tokens_throw input ls rows ts x :
  split newlineRegex input = ls -> splitLines ls = Ret rows ->
  tokensLoop (flatState None) 0 0 rows = (ts, Throw x) ->
  tokens input = (ts, Throw x).
Proof.
  intros Hs Hl Ht. unfold tokens. rewrite Hs, Hl. unfold bind, lift.
  change (mkTokensState [mkFrame [] None] None) with (flatState None). rewrite Ht.
  reflexivity.
Qed.

Lemma parse_raise_entries input es x :
  tokens input = (entryTokens 0 es, Throw x) -> parse input None = Raise x.
Proof.
  intros Ht. unfold parse, parseLog. rewrite Ht. cbn [fst].
  rewrite (sectionToValue_entries_raise es x _ 0 None [] eq_refl); [reflexivity|].
  rewrite length_entryTokens. lia.
Qed.

Lemma parse_raise_items input its x :
  tokens input = (itemTokens 0 its, Throw x) -> parse input None = Raise x.
Proof.
  intros Ht. unfold parse, parseLog. rewrite Ht. cbn [fst].
  rewrite (sectionToValue_items_raise its x _ 0 None [] eq_refl); [reflexivity|].
  rewrite length_itemTokens. lia.
Qed.

Lemma split_join_snoc ls l :
  forallb tight ls = true -> tight l = true ->
  split newlineRegex (LexerSpec.join [LF] (ls ++ [l])) = ls ++ [l].
Proof.
  intros Hls Hl. apply split_join.
  - rewrite forallb_app, Hls. cbn [forallb]. rewrite Hl. reflexivity.
  - destruct ls; discriminate.
Qed.

(** X22. [parse] rejects a section that mixes its kinds, and a line indented
    under a line that has its value.  After one or more lines
    key = value  a line  = value  raises "unexpected list item"; after one
    or more lines  = value  a line  key = value  raises "unexpected map
    key"; after any number of lines  key = value  a line  key = value
    that starts with blanks raises "unexpected indent".  Each error
    carries the number of the offending line, counted from one. *)
Theorem parse_rejects :
  (forall es i,
     forallb entryOK es = true -> es <> [] -> itemOK i = true ->
     parse (LexerSpec.join [LF] (map entryLine es ++ [itemLine i])) None
     = Raise (ParseError (Some (length es + 1)) UnexpectedListItem)) /\
  (forall its e,
     forallb itemOK its = true -> its <> [] -> entryOK e = true ->
     parse (LexerSpec.join [LF] (map itemLine its ++ [entryLine e])) None
     = Raise (ParseError (Some (length its + 1)) UnexpectedMapKey)) /\
  (forall es ind e,
     forallb entryOK es = true -> entryOK e = true ->
     ind <> [] -> forallb isBlank ind = true ->
     parse (LexerSpec.join [LF] (map entryLine es ++ [ind ++ entryLine e])) None
     = Raise (ParseError (Some (length es + 1)) UnexpectedIndent)).
Proof.
  split; [|split].
  - intros es i Hes Hne Hi. apply (parse_raise_entries _ es).
    apply (tokens_throw _ (map entryLine es ++ [itemLine i]) (map lineOf es ++ [itemLineOf i])).
    + apply split_join_snoc; [apply forallb_tight_entries; exact Hes | apply itemLine_tight; exact Hi].
    + apply splitLines_app; [apply splitLines_entries; exact Hes|].
      apply (splitLines_items [i]). cbn [forallb]. rewrite Hi. reflexivity.
    + rewrite (tokensLoop_entries_then es _ None 0 (or_introl eq_refl) Hes).
      destruct es as [|e0 es0]; [contradiction|].
      rewrite (tokensLoop_item_in_map _ i Hi). cbn [fst snd]. rewrite app_nil_r. reflexivity.
  - intros its e Hits Hne He. apply (parse_raise_items _ its).
    apply (tokens_throw _ (map itemLine its ++ [entryLine e]) (map itemLineOf its ++ [lineOf e])).
    + apply split_join_snoc; [apply forallb_tight_items; exact Hits | apply entryLine_tight; exact He].
    + apply splitLines_app; [apply splitLines_items; exact Hits|].
      apply (splitLines_entries [e]). cbn [forallb]. rewrite He. reflexivity.
    + rewrite (tokensLoop_items_then its _ None 0 (or_introl eq_refl) Hits).
      destruct its as [|i0 its0]; [contradiction|].
      rewrite (tokensLoop_key_in_list _ e He). cbn [fst snd]. rewrite app_nil_r. reflexivity.
  - intros es ind e Hes He Hne Hind. apply (parse_raise_entries _ es).
    destruct (indented_cut ind e He Hind) as [Hcut Htight].
    apply (tokens_throw _ (map entryLine es ++ [ind ++ entryLine e])
             (map lineOf es ++ [mkLine ind (entryLine e)])).
    + apply split_join_snoc; [apply forallb_tight_entries; exact Hes | exact Htight].
    + apply splitLines_app; [apply splitLines_entries; exact Hes | exact Hcut].
    + rewrite (tokensLoop_entries_then es _ None 0 (or_introl eq_refl) Hes).
      rewrite (tokensLoop_indented _ _ ind e He Hne). cbn [fst snd]. rewrite app_nil_r.
      reflexivity.
Qed.

Lemma parse_rejects_witness :
  parse (u "a = 1" ++ [LF] ++ u "= 2") None = Raise (ParseError (Some 2) UnexpectedListItem) /\
  parse (u "= 1" ++ [LF] ++ u "= 2" ++ [LF] ++ u "a = 3") None
  = Raise (ParseError (Some 3) UnexpectedMapKey) /\
  parse (u "a = 1" ++ [LF] ++ u "  b = 2") None = Raise (ParseError (Some 2) UnexpectedIndent).
Proof.
  split; [|split].
  - exact (proj1 parse_rejects [mkEntry (u "a") (u " ") (u " ") (u "1")] (mkItem (u " ") (u "2"))
             eq_refl ltac:(discriminate) eq_refl).
  - exact (proj1 (proj2 parse_rejects) [mkItem (u " ") (u "1"); mkItem (u " ") (u "2")]
             (mkEntry (u "a") (u " ") (u " ") (u "3")) eq_refl ltac:(discriminate) eq_refl).
  - exact (proj2 (proj2 parse_rejects) [mkEntry (u "a") (u " ") (u " ") (u "1")] (u "  ")
             (mkEntry (u "b") (u " ") (u " ") (u "2")) eq_refl eq_refl ltac:(discriminate) eq_refl).
Defined.

End RejectionProps.

(* ================================================================== *)
(** ** Documents with sections

    The lines of a document are read back to the tree they were written
    from, at any depth, and whatever comments and empty lines stand
    between them. *)

Module RenderProps.

Import Utils Tokenizer TokenizerSpec RegexProps Parser ParserSpec DocumentSpec DocumentProps.
Import SequenceSpec SequenceProps RenderSpec.

Lemma rmatch_opt_skip A r s c (k : str -> caps -> option A) :
  rmatch r s c k = None -> rmatch (Opt r) s c k = k s c.
Proof. intros H. unfold Opt. cbn [rmatch]. rewrite H. reflexivity. Qed.

Lemma SPLIT_LINE_key k :
  word k = true -> matchPrefix SPLIT_LINE k = Some (k, [], [(1, k)]).
Proof.
  intros Hk. destruct (word_first _ Hk) as (k0 & k' & -> & Hk0).
  unfold word in Hk. apply andb_true_iff in Hk. destruct Hk as [_ Hk].
  unfold matchPrefix, SPLIT_LINE.
  change (Alt (noneOf [EQUALS; SEMI; SP; TAB]) (Seq ws (noneOf [EQUALS; SEMI; SP; TAB])))
    with (wordBody [EQUALS; SEMI; SP; TAB]).
  change (Alt (noneOf [SEMI; SP; TAB]) (Seq ws (noneOf [SEMI; SP; TAB])))
    with (wordBody [SEMI; SP; TAB]).
  apply rmatch_seq. rewrite <- (app_nil_r (k0 :: k')) at 1.
  apply group_word.
  - apply wordChar_not_quote. exact Hk0.
  - revert Hk. apply forallb_impl. exact wordChar_key.
  - intros c' k. reflexivity.
  - cbv beta. apply rmatch_seq. rewrite rmatch_opt_skip by reflexivity.
    cbn [rmatch length starLoop]. unfold chr. cbn [rmatch]. rewrite Nat.sub_0_r.
    change (S (length k')) with (length (k0 :: k')). rewrite firstn_all. reflexivity.
Qed.

Lemma startsWith_refl s : startsWith s s = true.
Proof. induction s as [|x s IH]; simpl; [reflexivity|]. rewrite N.eqb_refl. exact IH. Qed.

Lemma word_not_comment k :
  word k = true -> isEmpty k || startsWith k [SEMI] = false.
Proof.
  intros Hk. destruct (word_first _ Hk) as (k0 & k' & -> & Hk0).
  cbn [isEmpty startsWith orb].
  pose proof (wordChar_key k0 Hk0) as Hs. apply negb_true_iff in Hs.
  cbn [existsb] in Hs. apply orb_false_iff in Hs. destruct Hs as [_ Hs].
  apply orb_false_iff in Hs. destruct Hs as [Hs _]. rewrite Hs. reflexivity.
Qed.

(** A line that holds a key only, at the indentation of its section. *)
Lemma tokenizeLine_key ind fk below lno k :
  word k = true ->
  tokenizeLine (mkFrame ind fk :: below) lno ind k
  = (mkFrame ind fk :: below, ([LT (key k)], Ret tt)).
Proof.
  intros Hk. unfold tokenizeLine. rewrite (word_not_comment k Hk), (SPLIT_LINE_key k Hk).
  cbn [popOutdents findent topIndent]. rewrite startsWith_refl, LexerProps.str_eqb_refl.
  cbn [negb getCap Nat.eqb].
  replace (negb (isEmpty k)) with true
    by (destruct (word_first _ Hk) as (k0 & k' & -> & _); reflexivity).
  rewrite (decodeLiteral_word lno k Hk). reflexivity.
Qed.

Lemma entryLine_not_comment e :
  entryOK e = true -> isEmpty (entryLine e) || startsWith (entryLine e) [SEMI] = false.
Proof.
  intros H. destruct (entryOK_parts e H) as (Hk & _).
  destruct (word_first _ Hk) as (k0 & k' & Hke & Hk0).
  unfold entryLine. rewrite Hke. cbn [app isEmpty startsWith orb].
  pose proof (wordChar_key k0 Hk0) as Hs. apply negb_true_iff in Hs.
  cbn [existsb] in Hs. apply orb_false_iff in Hs. destruct Hs as [_ Hs].
  apply orb_false_iff in Hs. destruct Hs as [Hs _]. rewrite Hs. reflexivity.
Qed.

(** *** The members of a section *)

Lemma tree_members_ind (P : tree -> Prop) :
  (forall t, (forall ht, In ht (membersOf t) -> P (snd ht)) -> P t) ->
  forall t, P t.
Proof.
  intros H. fix IH 1. intros t. apply H. destruct t as [v| |ms|its]; cbn [membersOf].
  - intros ht [].
  - intros ht [].
  - induction ms as [|kt ms IHms]; intros ht Hin; [destruct Hin|].
    destruct Hin as [<- | Hin]; [apply IH | apply IHms; exact Hin].
  - induction its as [|t' its IHits]; intros ht Hin; [destruct Hin|].
    destruct Hin as [<- | Hin]; [apply IH | apply IHits; exact Hin].
Qed.

Lemma flat_map_map {A B C} (f : A -> B) (g : B -> list C) l :
  flat_map g (map f l) = flat_map (fun x => g (f x)) l.
Proof. induction l as [|x l IH]; [reflexivity|]. cbn [map flat_map]. rewrite IH. reflexivity. Qed.

Lemma sectionRows_members unit d t :
  sectionRows unit d t = flat_map (fun ht => rows unit d (fst ht) (snd ht)) (membersOf t).
Proof. destruct t; cbn [sectionRows membersOf]; try reflexivity; rewrite flat_map_map; reflexivity. Qed.

Lemma rows_head unit d h t :
  rows unit d h t = mkLine d (headContent h t) :: sectionRows unit (d ++ unit) t.
Proof. destruct t; reflexivity. Qed.

Lemma bodyKinds_section t :
  isSection t = true ->
  bodyKinds t = indent :: flat_map memberKinds (membersOf t) ++ [outdent].
Proof.
  destruct t; try discriminate; intros _; cbn [bodyKinds membersOf];
    rewrite flat_map_map; reflexivity.
Qed.

(** *** One line *)

Lemma startsWith_longer s : forall p, length s < length p -> startsWith s p = false.
Proof.
  induction s as [|x s IH]; intros [|y p] H; simpl in *; try lia; try reflexivity.
  rewrite (IH p) by lia. apply andb_false_r.
Qed.

Lemma startsWith_prefix p r : startsWith (p ++ r) p = true.
Proof. induction p as [|x p IH]; simpl; [reflexivity|]. rewrite N.eqb_refl. exact IH. Qed.

Lemma str_eqb_longer d w : w <> [] -> str_eqb (d ++ w) d = false.
Proof.
  intros Hw. destruct (str_eqb (d ++ w) d) eqn:H; [|reflexivity].
  apply LexerProps.str_eqb_eq in H. apply (f_equal (@length N)) in H.
  rewrite length_app in H. destruct w; [contradiction | simpl in H; lia].
Qed.

Lemma popOutdents_above d fk below extra :
  above d extra ->
  popOutdents d (extra ++ mkFrame d fk :: below)
  = (mkFrame d fk :: below, repeat (LT outdent) (length extra)).
Proof.
  induction 1 as [|f extra Hf _ IH].
  - cbn [app popOutdents findent length repeat]. rewrite startsWith_refl. reflexivity.
  - cbn [app popOutdents length repeat]. rewrite (startsWith_longer d _ Hf), IH. reflexivity.
Qed.

(** The line tokens of a line do not depend on the stack: the pops and the
    push come first, and then what the line yields on its own. *)
Lemma tokenizeLine_shift stk lno ind c lts :
  isEmpty c || startsWith c [SEMI] = false ->
  tokenizeLine [mkFrame [] None] lno [] c = ([mkFrame [] None], (lts, Ret tt)) ->
  tokenizeLine stk lno ind c
  = (if negb (str_eqb ind (topIndent (fst (popOutdents ind stk))))
     then mkFrame ind None :: fst (popOutdents ind stk)
     else fst (popOutdents ind stk),
     ((snd (popOutdents ind stk)
       ++ if negb (str_eqb ind (topIndent (fst (popOutdents ind stk))))
          then [LT indent] else [])
      ++ lts, Ret tt)).
Proof.
  intros Hc H. unfold tokenizeLine in *. rewrite Hc in *.
  cbn [popOutdents findent startsWith topIndent str_eqb negb app] in H.
  destruct (popOutdents ind stk) as [stk1 outs]. cbn [fst snd].
  destruct (negb (str_eqb ind (topIndent stk1))).
  - f_equal. unfold bind in *.
    destruct (match matchPrefix SPLIT_LINE c with Some _ => _ | None => _ end) as [l r].
    cbn [app] in H. inversion H; subst. reflexivity.
  - f_equal. unfold bind in *.
    destruct (match matchPrefix SPLIT_LINE c with Some _ => _ | None => _ end) as [l r].
    cbn [app] in H. inversion H; subst. reflexivity.
Qed.

Lemma headOK_parts h t :
  headOK h t = true ->
  (forall k, h = Some k -> word k = true) /\ (forall v, t = TScalar v -> word v = true).
Proof.
  unfold headOK. intros H. apply andb_true_iff in H. destruct H as [Hh Ht]. split.
  - intros k ->. exact Hh.
  - intros v ->. exact Ht.
Qed.

Lemma entryOK_plain k v : word k = true -> word v = true -> entryOK (mkEntry k [SP] [SP] v) = true.
Proof. intros Hk Hv. unfold entryOK. cbn [ekey egap1 egap2 evalue]. rewrite Hk, Hv. reflexivity. Qed.

Lemma itemOK_plain v : word v = true -> itemOK (mkItem [SP] v) = true.
Proof. intros Hv. unfold itemOK. cbn [igap ivalue]. rewrite Hv. reflexivity. Qed.

(** What the first line of a member yields on its own. *)
Lemma tokenizeLine_head lno h t :
  headOK h t = true ->
  tokenizeLine [mkFrame [] None] lno [] (headContent h t)
  = ([mkFrame [] None], (headTokens h t, Ret tt)).
Proof.
  intros H. destruct (headOK_parts h t H) as [Hk Hv].
  destruct h as [k|]; [specialize (Hk k eq_refl)|];
    destruct t as [v| |ms|its]; try specialize (Hv v eq_refl);
    cbn [headContent assignment label headTokens headKind scalarOf map].
  - exact (tokenizeLine_entry None [] lno _ (entryOK_plain k v Hk Hv)).
  - exact (tokenizeLine_key [] None [] lno k Hk).
  - exact (tokenizeLine_key [] None [] lno k Hk).
  - exact (tokenizeLine_key [] None [] lno k Hk).
  - exact (tokenizeLine_item None [] lno _ (itemOK_plain v Hv)).
  - reflexivity.
  - reflexivity.
  - reflexivity.
Qed.

Lemma head_not_comment h t :
  headOK h t = true ->
  isEmpty (headContent h t) || startsWith (headContent h t) [SEMI] = false.
Proof.
  intros H. destruct (headOK_parts h t H) as [Hk Hv].
  destruct h as [k|]; [specialize (Hk k eq_refl)|];
    destruct t as [v| |ms|its]; try specialize (Hv v eq_refl);
    cbn [headContent assignment label];
    try exact (word_not_comment k Hk); try reflexivity.
  exact (entryLine_not_comment _ (entryOK_plain k v Hk Hv)).
Qed.

(** The first line of a member at the level [d] of its section, under the
    sections [extra] that the line closes. *)
Lemma tokenizeLine_level extra d fk below lno h t :
  above d extra -> headOK h t = true ->
  tokenizeLine (extra ++ mkFrame d fk :: below) lno d (headContent h t)
  = (mkFrame d fk :: below, (repeat (LT outdent) (length extra) ++ headTokens h t, Ret tt)).
Proof.
  intros Ha H.
  rewrite (tokenizeLine_shift _ lno d _ _ (head_not_comment h t H) (tokenizeLine_head lno h t H)).
  rewrite (popOutdents_above d fk below extra Ha). cbn [fst snd topIndent findent].
  rewrite LexerProps.str_eqb_refl. cbn [negb]. rewrite app_nil_r. reflexivity.
Qed.

(** The first line of the first member of a section, indented more than
    the line before. *)
Lemma tokenizeLine_deeper d fk below w lno h t :
  w <> [] -> headOK h t = true ->
  tokenizeLine (mkFrame d fk :: below) lno (d ++ w) (headContent h t)
  = (mkFrame (d ++ w) None :: mkFrame d fk :: below, (LT indent :: headTokens h t, Ret tt)).
Proof.
  intros Hw H.
  rewrite (tokenizeLine_shift _ lno (d ++ w) _ _ (head_not_comment h t H)
             (tokenizeLine_head lno h t H)).
  cbn [popOutdents findent]. rewrite startsWith_prefix. cbn [fst snd topIndent findent].
  rewrite (str_eqb_longer d w Hw). reflexivity.
Qed.

Lemma handleTokens_outdents stk lno ind rest lts n : forall ll,
  handleTokens (mkTokensState stk ll) lno ind rest (repeat (LT outdent) (S n) ++ lts) 0
  = (nullBefore (mkTokensState stk ll) ++ repeat (mkToken lno outdent) (S n)
       ++ fst (handleTokens (mkTokensState stk None) lno ind rest lts 0),
     snd (handleTokens (mkTokensState stk None) lno ind rest lts 0)).
Proof.
  induction n as [|n IH]; intros ll.
  - cbn [repeat app handleTokens handleToken stack]. unfold bind. cbn [fst snd Nat.add].
    destruct (handleTokens (mkTokensState stk None) lno ind rest lts 0) as [l r].
    cbn [fst snd]. rewrite <- app_assoc. reflexivity.
  - change (repeat (LT outdent) (S (S n)) ++ lts)
      with (LT outdent :: (repeat (LT outdent) (S n) ++ lts)).
    cbn [handleTokens handleToken stack]. unfold bind at 1. cbn [fst snd Nat.add].
    rewrite (IH None). cbn [nullBefore lastLno app].
    change (repeat (mkToken lno outdent) (S (S n)))
      with (mkToken lno outdent :: repeat (mkToken lno outdent) (S n)).
    rewrite <- app_assoc. reflexivity.
Qed.

Lemma handleTokens_head d fk below ll lno ind rest h t :
  fk = None \/ fk = Some (headSection h) ->
  handleTokens (mkTokensState (mkFrame d fk :: below) ll) lno ind rest (headTokens h t) 0
  = (nullBefore (mkTokensState (mkFrame d fk :: below) ll)
       ++ map (mkToken lno) (headKind h :: scalarOf t),
     Ret (mkTokensState (mkFrame d (Some (headSection h)) :: below) (afterLine lno t), 0)).
Proof.
  intros [-> | ->]; destruct h as [k|], t as [v| |ms|its], ll as [l|]; reflexivity.
Qed.

Lemma runs_line st lno ind c stk lts T st' :
  tokenizeLine (stack st) lno ind c = (stk, (lts, Ret tt)) ->
  (forall rest, handleTokens (mkTokensState stk (lastLno st)) lno ind rest lts 0
                = (T, Ret (st', 0))) ->
  runs st lno [mkLine ind c] T st'.
Proof.
  intros Hl Hh tail. cbn [app tokensLoop lindent lcontent length]. rewrite Hl, Hh.
  unfold bind. cbn [fst snd]. rewrite Nat.add_1_r.
  destruct (tokensLoop st' (S lno) 0 tail). reflexivity.
Qed.

Lemma runs_nil st lno : runs st lno [] [] st.
Proof.
  intros tail. cbn [app length]. rewrite Nat.add_0_r.
  destruct (tokensLoop st lno 0 tail). reflexivity.
Qed.

Lemma runs_app st lno l1 T1 st1 l2 T2 st2 :
  runs st lno l1 T1 st1 -> runs st1 (lno + length l1) l2 T2 st2 ->
  runs st lno (l1 ++ l2) (T1 ++ T2) st2.
Proof.
  intros H1 H2 tail. rewrite <- app_assoc, (H1 (l2 ++ tail)), (H2 tail).
  cbn [fst snd]. rewrite length_app, Nat.add_assoc, <- app_assoc. reflexivity.
Qed.

Lemma map_kind_mkToken lno ks : map kind (map (mkToken lno) ks) = ks.
Proof. induction ks as [|k ks IH]; [reflexivity|]. cbn [map kind]. rewrite IH. reflexivity. Qed.

Lemma map_kind_repeat lno k n : map kind (repeat (mkToken lno k) n) = repeat k n.
Proof. induction n as [|n IH]; [reflexivity|]. cbn [repeat map kind]. rewrite IH. reflexivity. Qed.

Lemma map_kind_nullBefore stk ll : map kind (nullBefore (mkTokensState stk ll)) = owed 0 ll.
Proof. destruct ll; reflexivity. Qed.

(** The first line of a member at the level of its section: what was
    owed, and then the tokens of the line. *)
Lemma head_level extra d fk below ll lno h t :
  above d extra -> fk = None \/ fk = Some (headSection h) -> headOK h t = true ->
  exists T,
    runs (mkTokensState (extra ++ mkFrame d fk :: below) ll) lno
         [mkLine d (headContent h t)] T
         (mkTokensState (mkFrame d (Some (headSection h)) :: below) (afterLine lno t)) /\
    map kind T = owed (length extra) ll ++ headKind h :: scalarOf t.
Proof.
  intros Ha Hfk H. destruct extra as [|f extra].
  - eexists. split.
    + eapply runs_line.
      * cbn [stack app]. apply (tokenizeLine_level [] d fk below lno h t Ha H).
      * intros rest. cbn [length repeat app lastLno]. apply handleTokens_head. exact Hfk.
    + rewrite map_app, map_kind_nullBefore, map_kind_mkToken. reflexivity.
  - eexists. split.
    + eapply runs_line.
      * cbn [stack]. apply (tokenizeLine_level (f :: extra) d fk below lno h t Ha H).
      * intros rest. cbn [length lastLno]. rewrite handleTokens_outdents.
        rewrite (handleTokens_head d fk below None lno d rest h t Hfk). cbn [fst snd].
        reflexivity.
    + rewrite !map_app, map_kind_nullBefore, map_kind_repeat, map_kind_mkToken.
      unfold owed. cbn [repeat length]. rewrite !app_nil_r, <- app_assoc. reflexivity.
Qed.

(** The first line of the first member of a section, under the line of
    the key or item that the section belongs to. *)
Lemma head_deeper d fk below l0 w lno h t :
  w <> [] -> headOK h t = true ->
  exists T,
    runs (mkTokensState (mkFrame d fk :: below) (Some l0)) lno
         [mkLine (d ++ w) (headContent h t)] T
         (mkTokensState (mkFrame (d ++ w) (Some (headSection h)) :: mkFrame d fk :: below)
                        (afterLine lno t)) /\
    map kind T = indent :: headKind h :: scalarOf t.
Proof.
  intros Hw H. eexists. split.
  - eapply runs_line.
    + cbn [stack]. apply (tokenizeLine_deeper d fk below w lno h t Hw H).
    + intros rest. cbn [lastLno].
      change (LT indent :: headTokens h t) with ([LT indent] ++ headTokens h t).
      cbn [app handleTokens handleToken lastLno stack]. unfold bind at 1. cbn [fst snd Nat.add].
      rewrite (handleTokens_head (d ++ w) None (mkFrame d fk :: below) None lno (d ++ w) rest h t
                 (or_introl eq_refl)).
      cbn [nullBefore lastLno app]. reflexivity.
  - cbn [map kind]. rewrite map_kind_mkToken. reflexivity.
Qed.

(** *** Comments and empty lines *)

Lemma runs_notes ns : forallb note ns = true -> forall st lno, runs st lno ns [] st.
Proof.
  induction ns as [|[ind c] ns IH]; intros H st lno; [apply runs_nil|].
  simpl in H. apply andb_true_iff in H. destruct H as [Hn H].
  apply (runs_app st lno [mkLine ind c] [] st ns [] st).
  - apply (runs_line st lno ind c (stack st) [] [] st).
    + unfold tokenizeLine. unfold note in Hn. cbn [lcontent] in Hn. rewrite Hn. reflexivity.
    + intros rest. destruct st. reflexivity.
  - apply IH. exact H.
Qed.

Lemma strip_nil_inv ls : strip ls = [] -> forallb note ls = true.
Proof.
  induction ls as [|x ls IH]; [reflexivity|]. cbn [strip filter forallb].
  destruct (note x); [exact IH | discriminate].
Qed.

Lemma strip_app_inv ls : forall a b,
  strip ls = a ++ b -> exists la lb, ls = la ++ lb /\ strip la = a /\ strip lb = b.
Proof.
  induction ls as [|x ls IH]; intros a b H.
  - cbn [strip filter] in H. symmetry in H. apply app_eq_nil in H. destruct H as [-> ->].
    exists [], []. repeat split.
  - cbn [strip filter] in H. destruct (note x) eqn:Hx; cbn [negb] in H.
    + destruct (IH a b H) as (la & lb & -> & Ha & Hb).
      exists (x :: la), lb. repeat split; [|exact Hb].
      cbn [strip filter]. rewrite Hx. exact Ha.
    + destruct a as [|y a].
      * exists [], (x :: ls). repeat split. cbn [strip filter]. rewrite Hx. exact H.
      * cbn [app] in H. injection H as <- H.
        destruct (IH a b H) as (la & lb & -> & Ha & Hb).
        exists (x :: la), lb. repeat split; [|exact Hb].
        cbn [strip filter]. rewrite Hx. cbn [negb]. f_equal. exact Ha.
Qed.

Lemma strip_cons_inv ls : forall l rest,
  strip ls = l :: rest ->
  exists ns ls2, ls = ns ++ l :: ls2 /\ forallb note ns = true /\ strip ls2 = rest.
Proof.
  induction ls as [|x ls IH]; intros l rest H; [discriminate|].
  cbn [strip filter] in H. destruct (note x) eqn:Hx; cbn [negb] in H.
  - destruct (IH l rest H) as (ns & ls2 & -> & Hns & H2).
    exists (x :: ns), ls2. repeat split; [|exact H2]. cbn [forallb]. rewrite Hx. exact Hns.
  - injection H as <- H. exists [], ls. repeat split. exact H.
Qed.

(** *** The lines of a section *)

Lemma wellFormed_members t ht :
  wellFormed t = true -> In ht (membersOf t) ->
  headOK (fst ht) (snd ht) = true /\ wellFormed (snd ht) = true /\
  headSection (fst ht) = kindOf t.
Proof.
  assert (Hs : forall t', wellFormed t' = true ->
                 match t' with TScalar v => word v | _ => true end = true).
  { intros [v| |ms|its] H; [exact H | reflexivity | reflexivity | reflexivity]. }
  destruct t as [v| |ms|its]; cbn [membersOf]; try (intros _ []).
  - intros H Hin. apply in_map_iff in Hin. destruct Hin as ([k t'] & <- & Hin).
    cbn [wellFormed] in H.
    assert (Hall : forallb (fun kt => keyOK (fst kt) && wellFormed (snd kt)) ms = true)
      by (destruct ms; [discriminate | exact H]).
    rewrite forallb_forall in Hall. specialize (Hall _ Hin). cbn [fst snd] in *.
    apply andb_true_iff in Hall. destruct Hall as [Hk Hw].
    unfold keyOK in Hk. apply andb_true_iff in Hk. destruct Hk as [Hword _].
    repeat split; [| exact Hw]. unfold headOK. rewrite Hword. exact (Hs t' Hw).
  - intros H Hin. apply in_map_iff in Hin. destruct Hin as (t' & <- & Hin).
    cbn [wellFormed] in H.
    assert (Hall : forallb wellFormed its = true) by (destruct its; [discriminate | exact H]).
    rewrite forallb_forall in Hall. specialize (Hall _ Hin). cbn [fst snd] in *.
    repeat split; [| exact Hall]. unfold headOK. exact (Hs t' Hall).
Qed.

Lemma wellFormed_nonempty t :
  isSection t = true -> wellFormed t = true -> membersOf t <> [].
Proof.
  destruct t as [v| |[|kt ms]|[|t' its]]; try discriminate; intros _ _; discriminate.
Qed.

Lemma owed_snoc n ll : owed (S n) ll = owed n ll ++ [outdent].
Proof.
  unfold owed. rewrite <- app_assoc. f_equal.
  change (repeat outdent (S n)) with (outdent :: repeat outdent n). apply repeat_cons.
Qed.

Lemma bodyKinds_split t : bodyKinds t = scalarOf t ++ afterHead t.
Proof. destruct t; reflexivity. Qed.

Lemma above_deeper d w extra f :
  w <> [] -> above (d ++ w) extra -> findent f = d ++ w -> above d (extra ++ [f]).
Proof.
  intros Hw Ha Hf. apply Forall_app. split.
  - revert Ha. apply Forall_impl. intros g Hg. rewrite length_app in Hg. lia.
  - constructor; [|constructor]. rewrite Hf, length_app. destruct w; [contradiction|].
    simpl. lia.
Qed.

(** The lines under the first line of a member, and then the lines [F] of
    the members after it, which yield the kinds [K]. *)
Lemma rest_run unit d sk below t F K :
  blockRuns unit t -> wellFormed t = true ->
  (forall extra ll lno ls,
     above d extra -> strip ls = F ->
     exists T extra' ll',
       runs (mkTokensState (extra ++ mkFrame d (Some sk) :: below) ll) lno ls T
            (mkTokensState (extra' ++ mkFrame d (Some sk) :: below) ll') /\
       above d extra' /\
       map kind T ++ owed (length extra') ll' = owed (length extra) ll ++ K) ->
  forall l0 lno ls,
    strip ls = sectionRows unit (d ++ unit) t ++ F ->
    exists T extra' ll',
      runs (mkTokensState (mkFrame d (Some sk) :: below) (afterLine l0 t)) lno ls T
           (mkTokensState (extra' ++ mkFrame d (Some sk) :: below) ll') /\
      above d extra' /\
      map kind T ++ owed (length extra') ll' = afterHead t ++ K.
Proof.
  intros Hblock Hw Hrest l0 lno ls Hs.
  destruct (strip_app_inv ls _ _ Hs) as (la & lb & -> & Hla & Hlb).
  destruct (Hblock d sk below lno l0 la Hw Hla) as (T2 & extra2 & ll2 & Hr2 & Ha2 & Hk2).
  destruct (Hrest extra2 ll2 (lno + length la) lb Ha2 Hlb)
    as (T3 & extra3 & ll3 & Hr3 & Ha3 & Hk3).
  exists (T2 ++ T3), extra3, ll3. split; [|split; [exact Ha3|]].
  - apply (runs_app _ _ la _ _ lb _ _ Hr2 Hr3).
  - rewrite map_app, <- app_assoc, Hk3, app_assoc, Hk2. reflexivity.
Qed.

(** The lines of the members of a section, from the second one on or
    from the first. *)
Lemma members_run unit d sk below ms :
  (forall ht, In ht ms ->
     blockRuns unit (snd ht) /\ headOK (fst ht) (snd ht) = true /\
     wellFormed (snd ht) = true /\ headSection (fst ht) = sk) ->
  forall extra ll lno ls,
    above d extra ->
    strip ls = flat_map (fun ht => rows unit d (fst ht) (snd ht)) ms ->
    exists T extra' ll',
      runs (mkTokensState (extra ++ mkFrame d (Some sk) :: below) ll) lno ls T
           (mkTokensState (extra' ++ mkFrame d (Some sk) :: below) ll') /\
      above d extra' /\
      map kind T ++ owed (length extra') ll'
      = owed (length extra) ll ++ flat_map memberKinds ms.
Proof.
  induction ms as [|[h t] ms IH]; intros Hall extra ll lno ls Ha Hs.
  - exists [], extra, ll. split; [|split; [exact Ha|]].
    + apply runs_notes. apply strip_nil_inv. exact Hs.
    + cbn [map flat_map app]. rewrite app_nil_r. reflexivity.
  - destruct (Hall (h, t) (or_introl eq_refl)) as (Hblock & Hh & Hw & Hsk).
    cbn [fst snd] in *. cbn [flat_map fst snd] in Hs. rewrite rows_head in Hs.
    cbn [app] in Hs.
    destruct (strip_cons_inv ls _ _ Hs) as (ns & ls2 & -> & Hns & Hs2).
    destruct (head_level extra d (Some sk) below ll (lno + length ns) h t Ha
                (or_intror (f_equal Some (eq_sym Hsk))) Hh) as (T1 & Hr1 & Hk1).
    rewrite Hsk in Hr1.
    destruct (rest_run unit d sk below t _ _ Hblock Hw
                (fun extra ll lno ls => IH (fun ht Hin => Hall ht (or_intror Hin)) extra ll lno ls)
                (lno + length ns) (lno + length ns + 1) ls2 Hs2)
      as (T2 & extra2 & ll2 & Hr2 & Ha2 & Hk2).
    exists (T1 ++ T2), extra2, ll2. split; [|split; [exact Ha2|]].
    + apply (runs_app _ lno ns [] _ (mkLine d (headContent h t) :: ls2) _ _
               (runs_notes ns Hns _ lno)).
      apply (runs_app _ _ [mkLine d (headContent h t)] _ _ ls2 _ _ Hr1). exact Hr2.
    + rewrite map_app, <- app_assoc, Hk2, Hk1.
      change (flat_map memberKinds ((h, t) :: ms))
        with ((headKind h :: bodyKinds t) ++ flat_map memberKinds ms).
      rewrite bodyKinds_split. repeat (rewrite <- app_assoc || rewrite <- app_comm_cons).
      reflexivity.
Qed.

(** The lines under the first line of a member. *)
Lemma block_run unit t : unit <> [] -> blockRuns unit t.
Proof.
  intros Hu. induction t as [t IH] using tree_members_ind.
  intros d hs below lno l0 ls Hw Hs.
  destruct (isSection t) eqn:Hsec.
  2: { exists [], [], (afterLine l0 t). split; [|split; [constructor|]].
       - apply runs_notes. apply strip_nil_inv. rewrite Hs.
         destruct t; [reflexivity | reflexivity | discriminate | discriminate].
       - destruct t; [reflexivity | reflexivity | discriminate | discriminate]. }
  assert (Hl0 : afterLine l0 t = Some l0) by (destruct t; [discriminate | reflexivity..]).
  rewrite Hl0. rewrite sectionRows_members in Hs.
  pose proof (wellFormed_nonempty t Hsec Hw) as Hne.
  assert (Hall : forall ht, In ht (membersOf t) ->
            blockRuns unit (snd ht) /\ headOK (fst ht) (snd ht) = true /\
            wellFormed (snd ht) = true /\ headSection (fst ht) = kindOf t).
  { intros ht Hin. destruct (wellFormed_members t ht Hw Hin) as (H1 & H2 & H3).
    split; [apply IH; exact Hin | auto]. }
  assert (Hafter : afterHead t = indent :: flat_map memberKinds (membersOf t) ++ [outdent]).
  { rewrite <- (bodyKinds_section t Hsec). destruct t; [discriminate | reflexivity..]. }
  rewrite Hafter. clear Hafter.
  destruct (membersOf t) as [|[h1 t1] ms]; [contradiction|]. clear Hne IH.
  destruct (Hall (h1, t1) (or_introl eq_refl)) as (Hblock & Hh & Hw1 & Hsk).
  cbn [fst snd] in *. cbn [flat_map fst snd] in Hs. rewrite rows_head in Hs.
  cbn [app] in Hs.
  destruct (strip_cons_inv ls _ _ Hs) as (ns & ls2 & -> & Hns & Hs2).
  destruct (head_deeper d (Some hs) below l0 unit (lno + length ns) h1 t1 Hu Hh)
    as (T1 & Hr1 & Hk1).
  rewrite Hsk in Hr1.
  destruct (rest_run unit (d ++ unit) (kindOf t) (mkFrame d (Some hs) :: below) t1 _ _
              Hblock Hw1
              (members_run unit (d ++ unit) (kindOf t) (mkFrame d (Some hs) :: below) ms
                 (fun ht Hin => Hall ht (or_intror Hin)))
              (lno + length ns) (lno + length ns + 1) ls2 Hs2)
    as (T2 & extra2 & ll2 & Hr2 & Ha2 & Hk2).
  exists (T1 ++ T2), (extra2 ++ [mkFrame (d ++ unit) (Some (kindOf t))]), ll2.
  split; [|split].
  - replace ((extra2 ++ [mkFrame (d ++ unit) (Some (kindOf t))]) ++ mkFrame d (Some hs) :: below)
      with (extra2 ++ mkFrame (d ++ unit) (Some (kindOf t)) :: mkFrame d (Some hs) :: below)
      by (rewrite <- app_assoc; reflexivity).
    apply (runs_app _ lno ns [] _ (mkLine (d ++ unit) (headContent h1 t1) :: ls2) _ _
             (runs_notes ns Hns _ lno)).
    apply (runs_app _ _ [mkLine (d ++ unit) (headContent h1 t1)] _ _ ls2 _ _ Hr1). exact Hr2.
  - apply (above_deeper d unit extra2 _ Hu Ha2). reflexivity.
  - rewrite length_app. cbn [length]. rewrite Nat.add_1_r, owed_snoc.
    rewrite map_app, <- app_assoc, (app_assoc (map kind T2)), Hk2, Hk1.
    change (flat_map memberKinds ((h1, t1) :: ms))
      with ((headKind h1 :: bodyKinds t1) ++ flat_map memberKinds ms).
    rewrite bodyKinds_split. repeat (rewrite <- app_assoc || rewrite <- app_comm_cons).
    reflexivity.
Qed.

(** *** The value of a section *)

Lemma forget_done (X : run (value * iterator * list call)) v it :
  forget X = Done (v, it) -> exists log, X = Done (v, it, log).
Proof.
  destruct X as [[[v' it'] l]| |]; cbn [forget]; intros H; inversion H; subst.
  exists l. reflexivity.
Qed.

Lemma store_place acc h v :
  holds (headSection h) acc = true ->
  exists lg, store identity (Some acc) h v = (Some (place acc h v), None, lg).
Proof.
  destruct h as [k|], acc as [s| |n|m|l|p m]; try discriminate; intros _; eexists;
    reflexivity.
Qed.

Lemma holds_assignKey k v acc :
  holds kKey acc = true -> holds kKey (assignKey k v acc) = true.
Proof.
  destruct acc as [s| |n|m|l|p m]; try discriminate; intros _; cbn [assignKey].
  - destruct (str_eqb k PROTO && negb (hasKey PROTO m)); [destruct v|]; reflexivity.
  - destruct (str_eqb k PROTO && negb (hasKey PROTO m) && reachesAccessor p);
      [destruct v|]; reflexivity.
Qed.

Lemma holds_place sk acc h v :
  headSection h = sk -> holds sk acc = true -> holds sk (place acc h v) = true.
Proof.
  intros <-. destruct h as [k|]; cbn [headSection].
  - intros H. pose proof (holds_assignKey k v acc H) as H'.
    destruct acc as [s| |n|m|l|p m]; try discriminate; exact H'.
  - destruct acc as [s| |n|m|l|p m]; try discriminate; reflexivity.
Qed.

Lemma step_head fuel result acc h th ts r :
  kind th = headKind h -> startsAs (headSection h) result acc ->
  sectionToValue (S fuel) identity result None (th :: ts, r)
  = sectionToValue fuel identity (Some acc) h (ts, r).
Proof.
  intros Hk Hs. cbn [sectionToValue]. rewrite Hk.
  destruct h as [k|]; cbn [headKind headSection] in *;
    destruct Hs as [[-> ->] | [-> _]]; reflexivity.
Qed.

Lemma step_leaf fuel acc h tv ts r v :
  (exists c, kind tv = scalar c /\ v = VString c) \/ (kind tv = null /\ v = VNull) ->
  holds (headSection h) acc = true ->
  forget (sectionToValue (S fuel) identity (Some acc) h (tv :: ts, r))
  = forget (sectionToValue fuel identity (Some (place acc h v)) None (ts, r)).
Proof.
  intros Hk Hh. destruct (store_place acc h v Hh) as [lg Hst].
  cbn [sectionToValue]. destruct Hk as [(c & -> & ->) | [-> ->]];
    rewrite Hst;
    match goal with
    | |- context [sectionToValue fuel ?f ?a ?b ?c] =>
        destruct (sectionToValue fuel f a b c) as [[[v' it] l]| |]; reflexivity
    end.
Qed.

Lemma step_indent fuel acc h ti ts r nv rest :
  kind ti = indent -> holds (headSection h) acc = true ->
  forget (sectionToValue fuel identity None None (ts, r)) = Done (nv, (rest, r)) ->
  forget (sectionToValue (S fuel) identity (Some acc) h (ti :: ts, r))
  = forget (sectionToValue fuel identity (Some (place acc h nv)) None (rest, r)).
Proof.
  intros Hk Hh Hn. destruct (store_place acc h nv Hh) as [lg Hst].
  destruct (forget_done _ _ _ Hn) as [nlog Hnested].
  cbn [sectionToValue]. rewrite Hk, Hnested, Hst.
  destruct (sectionToValue fuel identity (Some (place acc h nv)) None (rest, r))
    as [[[v it] l]| |]; reflexivity.
Qed.

Lemma step_outdent fuel result key' o ts r :
  kind o = outdent ->
  forget (sectionToValue (S fuel) identity result key' (o :: ts, r))
  = Done (resultToValue result, (ts, r)).
Proof. intros Hk. cbn [sectionToValue]. rewrite Hk. reflexivity. Qed.

Lemma map_kind_one T k : map kind T = [k] -> exists t, T = [t] /\ kind t = k.
Proof.
  destruct T as [|t [|t' T]]; cbn [map]; intros H; inversion H; subst.
  exists t. split; reflexivity.
Qed.

(** The tokens of the members of a section, one member after the other. *)
Lemma members_value sk ms :
  (forall ht, In ht ms ->
     nestedValue (snd ht) /\ wellFormed (snd ht) = true /\ headSection (fst ht) = sk) ->
  forall fuel result acc T rest r,
    startsAs sk result acc ->
    map kind T = flat_map memberKinds ms ->
    length (T ++ rest) < fuel ->
    exists fuel2,
      length rest < fuel2 /\
      forget (sectionToValue fuel identity result None (T ++ rest, r))
      = forget (sectionToValue fuel2 identity
                  (match ms with [] => result | _ => Some (fold_left put ms acc) end)
                  None (rest, r)).
Proof.
  induction ms as [|[h t] ms IH]; intros Hall fuel result acc T rest r Hs HT Hf.
  - cbn [flat_map] in HT. apply map_eq_nil in HT. subst T.
    exists fuel. split; [exact Hf | reflexivity].
  - destruct (Hall (h, t) (or_introl eq_refl)) as (Hnested & Hw & Hsk). cbn [fst snd] in *.
    change (flat_map memberKinds ((h, t) :: ms))
      with ((headKind h :: bodyKinds t) ++ flat_map memberKinds ms) in HT.
    apply map_eq_app in HT. destruct HT as (T1 & T2 & -> & HT1 & HT2).
    destruct T1 as [|th T1]; [discriminate|]. cbn [map] in HT1.
    injection HT1 as Hth HT1.
    destruct fuel as [|fuel]; [lia|].
    rewrite <- app_assoc. cbn [app].
    rewrite (step_head fuel result acc h th _ r Hth) by (rewrite Hsk; exact Hs).
    assert (Hholds : holds (headSection h) acc = true).
    { rewrite Hsk. destruct Hs as [[_ ->] | [_ Hh]]; [destruct sk; reflexivity | exact Hh]. }
    assert (Hnext : forall fuel' v,
              length (T2 ++ rest) < fuel' ->
              exists fuel2,
                length rest < fuel2 /\
                forget (sectionToValue fuel' identity (Some (place acc h v)) None
                          (T2 ++ rest, r))
                = forget (sectionToValue fuel2 identity
                            (Some (fold_left put ms (place acc h v))) None (rest, r))).
    { intros fuel' v Hf'.
      destruct (IH (fun ht Hin => Hall ht (or_intror Hin)) fuel' (Some (place acc h v))
                   (place acc h v) T2 rest r
                   (or_intror (conj eq_refl (holds_place sk acc h v Hsk
                                               ltac:(rewrite <- Hsk; exact Hholds))))
                   HT2 Hf') as (fuel2 & Hf2 & Heq).
      exists fuel2. split; [exact Hf2|]. rewrite Heq. destruct ms; reflexivity. }
    cbn [length] in Hf. rewrite !length_app in Hf.
    cbn [fold_left]. unfold put at 2. cbn [fst snd].
    destruct (isSection t) eqn:Hsec.
    + rewrite (bodyKinds_section t Hsec) in HT1.
      destruct T1 as [|ti T1]; [discriminate|]. cbn [map] in HT1. injection HT1 as Hti HT1.
      apply map_eq_app in HT1. destruct HT1 as (Tn & To & -> & HTn & HTo).
      apply map_kind_one in HTo. destruct HTo as (o & -> & Ho).
      destruct fuel as [|fuel]; [simpl in Hf; lia|].
      cbn [length] in Hf. rewrite length_app in Hf. cbn [length] in Hf.
      cbn [app]. rewrite <- app_assoc. cbn [app].
      rewrite (step_indent fuel acc h ti _ r (valueOf t) (T2 ++ rest) Hti Hholds).
      * apply Hnext. rewrite length_app. lia.
      * apply (Hnested fuel Tn o (T2 ++ rest) r Hsec Hw Ho HTn).
        rewrite length_app. cbn [length]. rewrite length_app. lia.
    + assert (Hleaf : exists tv, T1 = [tv] /\
                ((exists c, kind tv = scalar c /\ valueOf t = VString c) \/
                 (kind tv = null /\ valueOf t = VNull))).
      { destruct t as [v| |ms'|its']; try discriminate; cbn [bodyKinds] in HT1;
          apply map_kind_one in HT1; destruct HT1 as (tv & -> & Hk); exists tv;
          (split; [reflexivity|]); [left; exists v; auto | right; auto]. }
      destruct Hleaf as (tv & -> & Hk).
      destruct fuel as [|fuel]; [simpl in Hf; lia|]. cbn [length] in Hf.
      cbn [app]. rewrite (step_leaf fuel acc h tv _ r (valueOf t) Hk Hholds).
      apply Hnext. rewrite length_app. lia.
Qed.

Lemma valueOf_members t :
  isSection t = true -> valueOf t = fold_left put (membersOf t) (emptyOf (kindOf t)).
Proof.
  destruct t as [v| |ms|its]; try discriminate; intros _;
    cbn [valueOf membersOf kindOf emptyOf].
  - assert (H : forall acc, holds kKey acc = true ->
                fold_left (fun acc kt => assignKey (fst kt) (valueOf (snd kt)) acc) ms acc
                = fold_left put (map (fun kt => (Some (fst kt), snd kt)) ms) acc).
    { induction ms as [|kt ms IH]; intros acc Hacc; [reflexivity|].
      cbn [map fold_left]. rewrite (IH _ (holds_assignKey _ _ _ Hacc)).
      destruct acc as [s| |n|m|l|p m]; try discriminate; reflexivity. }
    apply H. reflexivity.
  - rewrite <- (app_nil_l (map valueOf its)). generalize (@nil value) as l.
    induction its as [|t' its IH]; intros l; cbn [map fold_left].
    + rewrite app_nil_r. reflexivity.
    + change (put (VList l) (None, t')) with (VList (l ++ [valueOf t'])).
      rewrite <- IH, <- app_assoc. reflexivity.
Qed.

(** The value of a section of keyed members is a map. *)
Lemma valueOf_map_holds ms : holds kKey (valueOf (TMap ms)) = true.
Proof.
  cbn [valueOf]. generalize (VMap []) (eq_refl : holds kKey (VMap []) = true).
  induction ms as [|kt ms IH]; intros acc Hacc; [exact Hacc|].
  cbn [fold_left]. apply IH. apply holds_assignKey. exact Hacc.
Qed.

(** The tokens of a nested section, up to its [outdent]. *)
Lemma nested_value t : nestedValue t.
Proof.
  induction t as [t IH] using tree_members_ind.
  intros fuel T o rest r Hsec Hw Ho HT Hf.
  destruct (members_value (kindOf t) (membersOf t)) with
    (fuel := fuel) (result := @None value) (acc := emptyOf (kindOf t)) (T := T)
    (rest := o :: rest) (r := r) as (fuel2 & Hf2 & Heq).
  - intros ht Hin. destruct (wellFormed_members t ht Hw Hin) as (_ & H2 & H3).
    split; [apply IH; exact Hin | split; assumption].
  - left. split; reflexivity.
  - exact HT.
  - exact Hf.
  - rewrite Heq. destruct fuel2 as [|fuel2]; [simpl in Hf2; lia|].
    rewrite (step_outdent fuel2 _ None o rest r Ho), (valueOf_members t Hsec).
    pose proof (wellFormed_nonempty t Hsec Hw) as Hne.
    destruct (membersOf t); [contradiction | reflexivity].
Qed.

(** The tokens of the top section, up to the end of the stream. *)
Lemma top_value t T :
  isSection t = true -> wellFormed t = true ->
  map kind T = flat_map memberKinds (membersOf t) ->
  forget (sectionToValue (S (length T)) identity None None (T, Ret tt))
  = Done (valueOf t, ([], Ret tt)).
Proof.
  intros Hsec Hw HT.
  destruct (members_value (kindOf t) (membersOf t)) with
    (fuel := S (length T)) (result := @None value) (acc := emptyOf (kindOf t)) (T := T)
    (rest := @nil Token) (r := @Ret unit tt) as (fuel2 & Hf2 & Heq).
  - intros ht Hin. destruct (wellFormed_members t ht Hw Hin) as (_ & H2 & H3).
    split; [apply nested_value | split; assumption].
  - left. split; reflexivity.
  - exact HT.
  - rewrite app_nil_r. lia.
  - rewrite app_nil_r in Heq. rewrite Heq.
    destruct fuel2 as [|fuel2]; [simpl in Hf2; lia|]. cbn [sectionToValue forget].
    rewrite (valueOf_members t Hsec).
    pose proof (wellFormed_nonempty t Hsec Hw) as Hne.
    destruct (membersOf t); [contradiction | reflexivity].
Qed.

(** *** The tokens of a document *)

Lemma top_run unit t ls :
  unit <> [] -> isSection t = true -> wellFormed t = true ->
  strip ls = sectionRows unit [] t ->
  exists T extra ll,
    runs (mkTokensState [mkFrame [] None] None) 0 ls T
         (mkTokensState (extra ++ [mkFrame [] (Some (kindOf t))]) ll) /\
    map kind T ++ owed (length extra) ll = flat_map memberKinds (membersOf t).
Proof.
  intros Hu Hsec Hw Hs. rewrite sectionRows_members in Hs.
  pose proof (wellFormed_nonempty t Hsec Hw) as Hne.
  assert (Hall : forall ht, In ht (membersOf t) ->
            blockRuns unit (snd ht) /\ headOK (fst ht) (snd ht) = true /\
            wellFormed (snd ht) = true /\ headSection (fst ht) = kindOf t).
  { intros ht Hin. destruct (wellFormed_members t ht Hw Hin) as (H1 & H2 & H3).
    split; [apply block_run; exact Hu | auto]. }
  destruct (membersOf t) as [|[h1 t1] ms]; [contradiction|]. clear Hne.
  destruct (Hall (h1, t1) (or_introl eq_refl)) as (Hblock & Hh & Hw1 & Hsk).
  cbn [fst snd] in *. cbn [flat_map fst snd] in Hs. rewrite rows_head in Hs.
  cbn [app] in Hs.
  destruct (strip_cons_inv ls _ _ Hs) as (ns & ls2 & -> & Hns & Hs2).
  destruct (head_level [] [] None [] None (0 + length ns) h1 t1 (Forall_nil _)
              (or_introl eq_refl) Hh) as (T1 & Hr1 & Hk1).
  rewrite Hsk in Hr1. cbn [app] in Hr1.
  destruct (rest_run unit [] (kindOf t) [] t1 _ _ Hblock Hw1
              (members_run unit [] (kindOf t) [] ms (fun ht Hin => Hall ht (or_intror Hin)))
              (0 + length ns) (0 + length ns + 1) ls2 Hs2)
    as (T2 & extra2 & ll2 & Hr2 & Ha2 & Hk2).
  exists (T1 ++ T2), extra2, ll2. split.
  - apply (runs_app _ 0 ns [] _ (mkLine [] (headContent h1 t1) :: ls2) _ _
             (runs_notes ns Hns _ 0)).
    apply (runs_app _ _ [mkLine [] (headContent h1 t1)] _ _ ls2 _ _ Hr1). exact Hr2.
  - rewrite map_app, <- app_assoc, Hk2, Hk1.
    change (flat_map memberKinds ((h1, t1) :: ms))
      with ((headKind h1 :: bodyKinds t1) ++ flat_map memberKinds ms).
    rewrite bodyKinds_split. cbn [owed repeat length app].
    repeat (rewrite <- app_assoc || rewrite <- app_comm_cons). reflexivity.
Qed.

Lemma closeStack_kinds lno f extra :
  map kind (closeStack lno (extra ++ [f])) = repeat outdent (length extra).
Proof.
  induction extra as [|g extra IH]; [reflexivity|].
  cbn [app closeStack length repeat].
  destruct (extra ++ [f]) as [|g' rest] eqn:He; [destruct extra; discriminate|].
  cbn [map kind]. rewrite IH. reflexivity.
Qed.

(** The token kinds of a document whose lines, the comments and empty
    lines left out, are those of a tree. *)
Lemma tokens_kinds unit t ls input :
  unit <> [] -> isSection t = true -> wellFormed t = true ->
  strip ls = sectionRows unit [] t ->
  splitLines (split newlineRegex input) = Ret ls ->
  exists T, tokens input = (T, Ret tt) /\ map kind T = flat_map memberKinds (membersOf t).
Proof.
  intros Hu Hsec Hw Hs Hl.
  destruct (top_run unit t ls Hu Hsec Hw Hs) as (T & extra & ll & Hr & Hk).
  specialize (Hr []). rewrite app_nil_r in Hr. cbn [tokensLoop] in Hr.
  unfold ret in Hr. cbn [fst snd] in Hr.
  unfold tokens. rewrite Hl. unfold lift, bind at 1. cbn [app].
  rewrite Hr. unfold bind. cbn [fst snd stack].
  eexists. split; [reflexivity|].
  rewrite !map_app, closeStack_kinds, map_kind_nullBefore, <- Hk. cbn [map app].
  unfold owed. cbn [repeat]. rewrite !app_nil_r. reflexivity.
Qed.

(** *** The lines of a document *)

Lemma solid_parts c :
  solid c = true ->
  tight c = true /\ forallb notLineTerminator c = true /\
  exists x s, c = x :: s /\ isBlank x = false.
Proof.
  unfold solid. intros H. apply andb_true_iff in H. destruct H as [H H3].
  apply andb_true_iff in H. destruct H as [H1 H2].
  destruct c as [|x s]; [discriminate|]. apply negb_true_iff in H3.
  repeat split; try assumption. exists x, s. auto.
Qed.

Lemma solid_word k : word k = true -> solid k = true.
Proof.
  intros Hk. unfold solid.
  pose proof (word_tight_after [] k eq_refl Hk) as Ht. cbn [app] in Ht. rewrite Ht.
  destruct (word_first _ Hk) as (x & s & -> & Hx).
  unfold word in Hk. apply andb_true_iff in Hk. destruct Hk as [_ Hk].
  rewrite (forallb_impl _ _ _ wordChar_notLineTerminator Hk), (wordChar_not_blank x Hx).
  reflexivity.
Qed.

Lemma solid_cut c :
  tight c = true -> forallb notLineTerminator c = true ->
  c <> [] -> takeWhile isBlank c = [] -> solid c = true.
Proof.
  intros H1 H2 H3 H4. unfold solid. rewrite H1, H2.
  destruct c as [|x s]; [contradiction|]. cbn [takeWhile] in H4.
  destruct (isBlank x); [discriminate | reflexivity].
Qed.

Lemma head_solid h t : headOK h t = true -> solid (headContent h t) = true.
Proof.
  intros H. destruct (headOK_parts h t H) as [Hk Hv].
  destruct h as [k|]; [specialize (Hk k eq_refl)|];
    destruct t as [v| |ms|its]; try specialize (Hv v eq_refl);
    cbn [headContent assignment label];
    try exact (solid_word k Hk); try reflexivity.
  - pose proof (entryOK_plain k v Hk Hv) as He.
    destruct (entryLine_cut _ He) as (H1 & H2 & _).
    apply solid_cut; [apply entryLine_tight; exact He | exact H1 | | exact H2].
    destruct (word_first _ Hk) as (x & s & -> & _). discriminate.
  - pose proof (itemOK_plain v Hv) as Hi.
    destruct (itemLine_cut _ Hi) as (H1 & H2 & _).
    apply solid_cut; [apply itemLine_tight; exact Hi | exact H1 | discriminate | exact H2].
Qed.

Lemma rows_cut ls :
  forallb rowOK ls = true ->
  splitLines (map lineText ls) = Ret ls /\ forallb tight (map lineText ls) = true.
Proof.
  intros H. rewrite ParserProps.splitLines_spec.
  assert (Hall : forallb (forallb notLineTerminator) (map lineText ls) = true /\
                 map (fun l => mkLine (takeWhile isBlank l) (dropWhile isBlank l))
                     (map lineText ls) = ls /\
                 forallb tight (map lineText ls) = true).
  { induction ls as [|[d c] ls IH]; [repeat split; reflexivity|].
    simpl in H. apply andb_true_iff in H. destruct H as [Hl H].
    destruct (IH H) as (IH1 & IH2 & IH3).
    unfold rowOK in Hl. cbn [lindent lcontent] in Hl.
    cbn [map forallb]. change (lineText (mkLine d c)) with (d ++ c).
    rewrite IH1, IH2, IH3.
    apply orb_true_iff in Hl. destruct Hl as [Hl | Hl].
    - apply andb_true_iff in Hl. destruct Hl as [Hd Hc].
      destruct (solid_parts c Hc) as (Ht & Hn & x & s & -> & Hx).
      rewrite forallb_app, (forallb_impl _ _ _ blank_not_terminator Hd), Hn.
      rewrite (LexerProps.takeWhile_app_stop isBlank d (x :: s) Hd Hx).
      rewrite (dropWhile_gap d x s Hd Hx).
      rewrite tight_app_nonblank; [repeat split; reflexivity | exact Ht | discriminate |].
      revert Hd. apply forallb_impl. intros y Hy.
      destruct (blank_not_break y Hy) as [-> ->]. reflexivity.
    - apply andb_true_iff in Hl. destruct Hl as [Hd Hc].
      destruct d; [|discriminate]. destruct c; [|discriminate]. repeat split; reflexivity. }
  destruct Hall as (-> & -> & ->). split; reflexivity.
Qed.

Lemma forallb_flat_map {A B} (p : B -> bool) (f : A -> list B) l :
  (forall x, In x l -> forallb p (f x) = true) -> forallb p (flat_map f l) = true.
Proof.
  induction l as [|x l IH]; intros H; [reflexivity|].
  cbn [flat_map]. rewrite forallb_app, (H x (or_introl eq_refl)), IH; [reflexivity|].
  intros y Hy. apply H. right. exact Hy.
Qed.

(** The lines of a tree are lines of a document, and none of them is a
    comment or empty. *)
Lemma rows_ok unit t :
  forallb isBlank unit = true ->
  forall d h, forallb isBlank d = true -> headOK h t = true -> wellFormed t = true ->
              forallb (fun l => rowOK l && negb (note l)) (rows unit d h t) = true.
Proof.
  intros Hu. induction t as [t IH] using tree_members_ind. intros d h Hd Hh Hw.
  rewrite rows_head. cbn [forallb]. unfold rowOK at 1, note at 1. cbn [lindent lcontent].
  rewrite Hd, (head_solid h t Hh), (head_not_comment h t Hh). cbn [andb orb negb].
  rewrite sectionRows_members. apply forallb_flat_map. intros ht Hin.
  destruct (wellFormed_members t ht Hw Hin) as (H1 & H2 & _).
  apply (IH ht Hin); [rewrite forallb_app, Hd, Hu; reflexivity | exact H1 | exact H2].
Qed.

Lemma sectionRows_ok unit t :
  forallb isBlank unit = true -> wellFormed t = true ->
  forallb rowOK (sectionRows unit [] t) = true /\
  strip (sectionRows unit [] t) = sectionRows unit [] t.
Proof.
  intros Hu Hw.
  assert (H : forallb (fun l => rowOK l && negb (note l)) (sectionRows unit [] t) = true).
  { rewrite sectionRows_members. apply forallb_flat_map. intros ht Hin.
    destruct (wellFormed_members t ht Hw Hin) as (H1 & H2 & _).
    apply rows_ok; [exact Hu | reflexivity | exact H1 | exact H2]. }
  induction (sectionRows unit [] t) as [|l ls IH]; [split; reflexivity|].
  cbn [forallb] in H. apply andb_true_iff in H. destruct H as [Hl H].
  apply andb_true_iff in Hl. destruct Hl as [Hr Hn].
  destruct (IH H) as [IH1 IH2]. cbn [forallb strip filter]. rewrite Hr, Hn, IH1. split.
  - reflexivity.
  - f_equal. exact IH2.
Qed.

(** A document given by its lines. *)
Lemma parse_lines unit t ls :
  unit <> [] -> isSection t = true -> wellFormed t = true ->
  forallb rowOK ls = true -> strip ls = sectionRows unit [] t ->
  parse (LexerSpec.join [LF] (map lineText ls)) None = Done (valueOf t).
Proof.
  intros Hne Hsec Hw Hok Hs.
  destruct (rows_cut ls Hok) as [Hcut Htight].
  assert (Hrows : ls <> []).
  { intros ->. cbn [strip filter] in Hs. rewrite sectionRows_members in Hs.
    pose proof (wellFormed_nonempty t Hsec Hw) as Hm.
    destruct (membersOf t) as [|[h1 t1] ms]; [contradiction|].
    cbn [flat_map fst snd] in Hs. rewrite rows_head in Hs. discriminate. }
  assert (Hsplit : split newlineRegex (LexerSpec.join [LF] (map lineText ls))
                   = map lineText ls).
  { apply split_join; [exact Htight|]. destruct ls; [contradiction | discriminate]. }
  destruct (tokens_kinds unit t ls (LexerSpec.join [LF] (map lineText ls)) Hne Hsec Hw Hs)
    as (T & HT & Hk).
  { rewrite Hsplit. exact Hcut. }
  unfold parse, parseLog. rewrite HT. cbn [fst].
  destruct (forget_done _ _ _ (top_value t T Hsec Hw Hk)) as [log Hlog].
  rewrite Hlog. destruct t as [v| |ms|its]; try discriminate; [|reflexivity].
  pose proof (valueOf_map_holds ms) as Hh.
  destruct (valueOf (TMap ms)); try discriminate; reflexivity.
Qed.

(** X23. A document written from a tree is read back as the value of the
    tree.  A tree is a bare word, nothing, a section of keyed members or
    a section of items; its top is a section, every section has a
    member, and no key is __proto__.  A member with a word is written
    key = word  or  = word, a member with nothing as its key or an equals
    sign alone, and a member with a section as that line followed by the
    lines of the section, indented by one more [unit] of blanks; the
    lines are joined with line feeds.  [parse] returns the string of a
    word, null for nothing, for a section of keyed members the object
    that is assigned their values in their order, and for a section of
    items the list of their values.  The object lists its keys as the
    language enumerates them: first the keys that are array indices, in
    ascending order, then the other keys in the order of their first
    assignment. *)
Theorem parse_render unit t :
  unit <> [] -> forallb isBlank unit = true ->
  isSection t = true -> wellFormed t = true ->
  parse (render unit t) None = Done (valueOf t).
Proof.
  intros Hne Hu Hsec Hw. destruct (sectionRows_ok unit t Hu Hw) as [Hok Hs].
  exact (parse_lines unit t _ Hne Hsec Hw Hok Hs).
Qed.

Lemma parse_render_witness :
  parse (u "server" ++ [LF] ++ u "  name = web" ++ [LF] ++ u "  ports" ++ [LF]
           ++ u "    = 80" ++ [LF] ++ u "    =" ++ [LF] ++ u "  tls" ++ [LF]
           ++ u "  443 = on" ++ [LF] ++ u "  80 = off" ++ [LF] ++ u "debug = off")
        None
  = Done (VMap [(u "server",
                 VMap [(u "80", VString (u "off"));
                       (u "443", VString (u "on"));
                       (u "name", VString (u "web"));
                       (u "ports", VList [VString (u "80"); VNull]);
                       (u "tls", VNull)]);
                (u "debug", VString (u "off"))]).
Proof.
  exact (parse_render (u "  ")
           (TMap [(u "server",
                   TMap [(u "name", TScalar (u "web"));
                         (u "ports", TList [TScalar (u "80"); TNull]);
                         (u "tls", TNull);
                         (u "443", TScalar (u "on"));
                         (u "80", TScalar (u "off"))]);
                  (u "debug", TScalar (u "off"))])
           ltac:(discriminate) eq_refl eq_refl eq_refl).
Defined.

(** X24. [parse] passes over comments and empty lines.  When the lines of a
    document, those without content and those whose content starts with
    a semicolon left out, are the lines written from a tree, [parse]
    returns the value of the tree: such lines may stand before, between
    and after the others, and a comment may be indented in any way.  The
    value of a section of keyed members is the object that is assigned
    the values of the members in their order, its keys listed as the
    language enumerates them: array indices first, in ascending order,
    then the other keys in the order of their first assignment. *)
Theorem parse_skips_notes unit t ls :
  unit <> [] -> isSection t = true -> wellFormed t = true ->
  forallb rowOK ls = true -> strip ls = sectionRows unit [] t ->
  parse (LexerSpec.join [LF] (map lineText ls)) None = Done (valueOf t).
Proof. exact (parse_lines unit t ls). Qed.

Lemma parse_skips_notes_witness :
  parse (u "; settings" ++ [LF] ++ u "server" ++ [LF] ++ [LF] ++ u "    ; the name"
           ++ [LF] ++ u "  name = web" ++ [LF] ++ u "  7 = x" ++ [LF] ++ u ";last" ++ [LF]
           ++ u "debug = off" ++ [LF])
        None
  = Done (VMap [(u "server", VMap [(u "7", VString (u "x")); (u "name", VString (u "web"))]);
                (u "debug", VString (u "off"))]).
Proof.
  exact (parse_skips_notes (u "  ")
           (TMap [(u "server", TMap [(u "name", TScalar (u "web")); (u "7", TScalar (u "x"))]);
                  (u "debug", TScalar (u "off"))])
           [mkLine [] (u "; settings"); mkLine [] (u "server"); mkLine [] [];
            mkLine (u "    ") (u "; the name"); mkLine (u "  ") (u "name = web");
            mkLine (u "  ") (u "7 = x");
            mkLine [] (u ";last"); mkLine [] (u "debug = off"); mkLine [] []]
           ltac:(discriminate) eq_refl eq_refl eq_refl eq_refl).
Defined.

End RenderProps.

(* ================================================================== *)
(** ** Lines that the pattern of a line does not match *)

Module GapProps.

Import Utils Tokenizer TokenizerSpec RegexProps Parser ParserSpec DocumentSpec DocumentProps.
Import SequenceSpec SequenceProps RejectionProps RenderSpec RenderProps PatternSpec.

(** *** What the matcher finds is a match *)

Lemma starLoop_sound A r (k : str -> caps -> option A) a :
  (forall s c (k' : str -> caps -> option A) a',
     rmatch r s c k' = Some a' -> exists s' c', derives r s s' /\ k' s' c' = Some a') ->
  forall n s c,
    starLoop (fun s' c' k' => rmatch r s' c' k') k n s c = Some a ->
    exists s' c', derives (Star r) s s' /\ k s' c' = Some a.
Proof.
  intros IHr. induction n as [|n IH]; intros s c H; cbn [starLoop] in H.
  - exists s, c. split; [constructor | exact H].
  - destruct (rmatch r s c
                (fun s' c' => if length s' <? length s
                              then starLoop (fun s'' c'' k' => rmatch r s'' c'' k') k n s' c'
                              else None)) as [a0|] eqn:E.
    + apply IHr in E. destruct E as (s1 & c1 & D1 & E).
      destruct (length s1 <? length s); [|discriminate].
      inversion H; subst a0. destruct (IH s1 c1 E) as (s2 & c2 & D2 & Hk).
      exists s2, c2. split; [econstructor; eassumption | exact Hk].
    + exists s, c. split; [constructor | exact H].
Qed.

Lemma rmatch_sound r : forall A s c (k : str -> caps -> option A) a,
  rmatch r s c k = Some a -> exists s' c', derives r s s' /\ k s' c' = Some a.
Proof.
  induction r as [|p|r1 IH1 r2 IH2|r1 IH1 r2 IH2|r IH|i r IH| |r IH]; intros A s c k a H;
    cbn [rmatch] in H.
  - exists s, c. split; [constructor | exact H].
  - destruct s as [|x s]; [discriminate|]. destruct (p x) eqn:Hp; [|discriminate].
    exists s, c. split; [constructor; exact Hp | exact H].
  - apply IH1 in H. destruct H as (s1 & c1 & D1 & H).
    apply IH2 in H. destruct H as (s2 & c2 & D2 & H).
    exists s2, c2. split; [econstructor; eassumption | exact H].
  - destruct (rmatch r1 s c k) as [a0|] eqn:E.
    + inversion H; subst a0. apply IH1 in E. destruct E as (s' & c' & D & E).
      exists s', c'. split; [apply derives_alt_l; exact D | exact E].
    + apply IH2 in H. destruct H as (s' & c' & D & H).
      exists s', c'. split; [apply derives_alt_r; exact D | exact H].
  - apply (starLoop_sound A r k a (IH A) _ _ _ H).
  - apply IH in H. destruct H as (s' & c' & D & H).
    exists s', ((i, firstn (length s - length s') s) :: c').
    split; [constructor; exact D | exact H].
  - destruct s; [|discriminate]. exists [], c. split; [constructor | exact H].
  - destruct (rmatch r s c (fun _ _ => Some tt)); [discriminate|].
    exists s, c. split; [constructor | exact H].
Qed.

Lemma derives_star_class p s s' :
  derives (Star (Class p)) s s' -> exists bl, s = bl ++ s' /\ forallb p bl = true.
Proof.
  intros D. remember (Star (Class p)) as r eqn:Hr. induction D; try discriminate.
  - exists []. split; reflexivity.
  - inversion Hr; subst r. inversion D1; subst.
    destruct (IHD2 eq_refl) as (bl & -> & Hbl).
    exists (x :: bl). split; [reflexivity|]. cbn [forallb].
    match goal with Hx : p x = true |- _ => rewrite Hx end. exact Hbl.
Qed.


Lemma derives_class_inv p s s' :
  derives (Class p) s s' -> exists x, s = x :: s' /\ p x = true.
Proof. inversion 1; subst. eexists. split; [reflexivity | assumption]. Qed.

Lemma derives_seq_inv r1 r2 s s2 :
  derives (Seq r1 r2) s s2 -> exists s1, derives r1 s s1 /\ derives r2 s1 s2.
Proof. inversion 1; subst. eexists. split; eassumption. Qed.

Lemma derives_alt_inv r1 r2 s s' :
  derives (Alt r1 r2) s s' -> derives r1 s s' \/ derives r2 s s'.
Proof. inversion 1; subst; [left | right]; assumption. Qed.

Lemma derives_star_inv r s s' :
  derives (Star r) s s' ->
  s' = s \/ exists s1, derives r s s1 /\ derives (Star r) s1 s'.
Proof. inversion 1; subst; [left; reflexivity | right; eexists; split; eassumption]. Qed.

Lemma derives_group_inv i r s s' : derives (Group i r) s s' -> derives r s s'.
Proof. inversion 1; subst. assumption. Qed.

Lemma derives_eps_inv s s' : derives Eps s s' -> s' = s.
Proof. inversion 1; subst. reflexivity. Qed.

Lemma derives_eol_inv s s' : derives Eol s s' -> s = [] /\ s' = [].
Proof. inversion 1; subst. split; reflexivity. Qed.

(** *** A gap in a value *)

(** One turn of the body of a word: a code unit that does not end the
    word, or a blank and such a code unit. *)
Lemma wordBody_inv stop s s' :
  derives (wordBody stop) s s' ->
  (exists x, s = x :: s' /\ existsb (N.eqb x) stop = false) \/
  (exists b y, s = b :: y :: s' /\ isBlank b = true /\ existsb (N.eqb y) stop = false).
Proof.
  unfold wordBody, ws, oneOf, noneOf. intros D.
  apply derives_alt_inv in D. destruct D as [D | D].
  - apply derives_class_inv in D. destruct D as (x & -> & Hx).
    left. exists x. split; [reflexivity | apply negb_true_iff; exact Hx].
  - apply derives_seq_inv in D. destruct D as (s1 & D1 & D2).
    apply derives_class_inv in D1. destruct D1 as (b & -> & Hb).
    apply derives_class_inv in D2. destruct D2 as (y & -> & Hy).
    right. exists b, y. split; [reflexivity|]. split; [exact Hb | apply negb_true_iff; exact Hy].
Qed.

Lemma star_word_reach stop s s' :
  derives (Star (wordBody stop)) s s' ->
  forall w rest,
    s = w ++ rest ->
    forallb (fun x => negb (isBlank x)) w = true ->
    (forall s'', ~ derives (wordBody stop) rest s'') ->
    exists i, s' = skipn i w ++ rest.
Proof.
  intros D. remember (Star (wordBody stop)) as r eqn:Hr.
  induction D; try discriminate; intros w rest Hs Hw Hstuck.
  - exists 0. exact Hs.
  - inversion Hr; subst r. clear IHD1. destruct w as [|x w].
    + cbn [app] in Hs. subst s. exfalso. exact (Hstuck _ D1).
    + cbn [app] in Hs. subst s. cbn [forallb] in Hw. apply andb_true_iff in Hw.
      destruct Hw as [Hx Hw]. apply negb_true_iff in Hx.
      apply wordBody_inv in D1. destruct D1 as [(x' & E & _) | (b & y & E & Hb & _)].
      * injection E as <- <-.
        destruct (IHD2 eq_refl w rest eq_refl Hw Hstuck) as [i Hi].
        exists (S i). exact Hi.
      * injection E as <- _. rewrite Hb in Hx. discriminate.
Qed.

(** Where two blanks follow each other, or a blank and a code unit that
    ends the word, the body of a word does not match. *)
Lemma wordBody_gap stop b y rest s'' :
  existsb (N.eqb b) stop = true -> existsb (N.eqb y) stop = true ->
  ~ derives (wordBody stop) (b :: y :: rest) s''.
Proof.
  intros Hbs Hys D. apply wordBody_inv in D.
  destruct D as [(x' & E & Hx) | (b' & y' & E & _ & Hy)].
  - injection E as <- _. rewrite Hbs in Hx. discriminate.
  - injection E as <- <- _. rewrite Hys in Hy. discriminate.
Qed.

Lemma group_reach i stop x s s1 :
  N.eqb QUOTE x = false ->
  derives (Group i (Seq (Opt quoted) (Star (wordBody stop)))) (x :: s) s1 ->
  derives (Star (wordBody stop)) (x :: s) s1.
Proof.
  intros Hq D. apply derives_group_inv in D. apply derives_seq_inv in D.
  destruct D as (s0 & D0 & D). unfold Opt in D0. apply derives_alt_inv in D0.
  destruct D0 as [D0 | D0].
  - unfold quoted, chr in D0. apply derives_seq_inv in D0. destruct D0 as (sq & Dq & _).
    apply derives_class_inv in Dq. destruct Dq as (y & E & Hy). injection E as <- _.
    rewrite Hq in Hy. discriminate.
  - apply derives_eps_inv in D0. subst s0. exact D.
Qed.

(** The end of the pattern needs blanks up to a semicolon or up to the
    end of the line. *)
Lemma tail_reach s s' :
  derives (Seq (Star ws) (Alt (chr SEMI) Eol)) s s' ->
  forallb isBlank s = true \/ existsb (N.eqb SEMI) s = true.
Proof.
  intros D. apply derives_seq_inv in D. destruct D as (s1 & D1 & D2).
  unfold ws, oneOf in D1. apply derives_star_class in D1. destruct D1 as (bl & -> & Hbl).
  apply derives_alt_inv in D2. destruct D2 as [D2 | D2].
  - unfold chr in D2. apply derives_class_inv in D2. destruct D2 as (y & -> & Hy).
    right. rewrite existsb_app. cbn [existsb]. rewrite Hy. apply orb_true_r.
  - apply derives_eol_inv in D2. destruct D2 as [-> _].
    left. rewrite app_nil_r. exact Hbl.
Qed.

Lemma word_chars w :
  word w = true ->
  forallb (fun x => negb (isBlank x)) w = true /\ existsb (N.eqb SEMI) w = false.
Proof.
  unfold word. intros H. apply andb_true_iff in H. destruct H as [_ H].
  induction w as [|x w IH]; [split; reflexivity|].
  cbn [forallb] in H. apply andb_true_iff in H. destruct H as [Hx H].
  destruct (IH H) as [IH1 IH2]. cbn [forallb existsb].
  rewrite (wordChar_not_blank x Hx), IH1, IH2.
  pose proof (wordChar_value x Hx) as Hv. apply negb_true_iff in Hv.
  cbn [existsb] in Hv. apply orb_false_iff in Hv. destruct Hv as [Hs _].
  rewrite N.eqb_sym, Hs. split; reflexivity.
Qed.

Lemma blank_chars g :
  forallb isBlank g = true -> existsb (N.eqb SEMI) g = false.
Proof.
  induction g as [|x g IH]; [reflexivity|]. cbn [forallb existsb]. intros H.
  apply andb_true_iff in H. destruct H as [Hx H]. rewrite (IH H).
  unfold isBlank in Hx. cbn [existsb] in Hx. rewrite orb_false_r in Hx.
  apply orb_true_iff in Hx. destruct Hx as [Hx | Hx]; apply N.eqb_eq in Hx; subst x; reflexivity.
Qed.

Lemma existsb_skipn (p : N -> bool) i : forall s,
  existsb p s = false -> existsb p (skipn i s) = false.
Proof.
  induction i as [|i IH]; intros [|x s] H; cbn [skipn]; try assumption.
  cbn [existsb] in H. apply orb_false_iff in H. apply IH. apply H.
Qed.

Lemma forallb_skipn (p : N -> bool) i : forall s,
  forallb p s = true -> forallb p (skipn i s) = true.
Proof.
  induction i as [|i IH]; intros [|x s] H; cbn [skipn]; try assumption.
  cbn [forallb] in H. apply andb_true_iff in H. apply IH. apply H.
Qed.

Lemma blank_stops b : isBlank b = true -> existsb (N.eqb b) [SEMI; SP; TAB] = true.
Proof. intros Hb. unfold isBlank in Hb. cbn [existsb] in *. rewrite Hb. apply orb_true_r. Qed.

(** The value that the pattern can take from a value with a gap ends
    before the gap. *)
Lemma value_reach v1 b1 b2 rest sc s2 :
  word v1 = true -> isBlank b1 = true -> isBlank b2 = true ->
  sc = SP :: v1 ++ b1 :: b2 :: rest \/ sc = v1 ++ b1 :: b2 :: rest ->
  derives (Group 2 (Seq (Opt quoted) (Star (wordBody [SEMI; SP; TAB])))) sc s2 ->
  exists p, s2 = p ++ b1 :: b2 :: rest /\ existsb (N.eqb SEMI) p = false.
Proof.
  intros Hv1 Hb1 Hb2 Hcases Dg.
  destruct (word_chars v1 Hv1) as [Hv1b Hv1s].
  destruct (word_first v1 Hv1) as (w0 & w' & Hwe & Hw0).
  assert (Hstuck : forall s'', ~ derives (wordBody [SEMI; SP; TAB]) (b1 :: b2 :: rest) s'').
  { intros s''. apply wordBody_gap; apply blank_stops; assumption. }
  destruct Hcases as [-> | ->].
  - apply group_reach in Dg; [|reflexivity].
    apply derives_star_inv in Dg. destruct Dg as [-> | (s1 & D1 & D2)].
    + exists (SP :: v1). split; [reflexivity|].
      cbn [existsb]. exact Hv1s.
    + apply wordBody_inv in D1. destruct D1 as [(x & E & Hx) | (b & y & E & _ & _)].
      * injection E as <- _. discriminate.
      * rewrite Hwe in E. cbn [app] in E. injection E as _ _ E.
        destruct (star_word_reach _ _ _ D2 w' (b1 :: b2 :: rest) (eq_sym E)) as [j Hj].
        { rewrite Hwe in Hv1b. cbn [forallb] in Hv1b. apply andb_true_iff in Hv1b.
          apply Hv1b. }
        { exact Hstuck. }
        exists (skipn j w'). split; [exact Hj|].
        rewrite Hwe in Hv1s. cbn [existsb] in Hv1s. apply orb_false_iff in Hv1s.
        apply existsb_skipn. apply Hv1s.
  - rewrite Hwe in Dg. cbn [app] in Dg.
    apply group_reach in Dg; [|apply wordChar_not_quote; exact Hw0].
    destruct (star_word_reach _ _ _ Dg (w0 :: w') (b1 :: b2 :: rest) eq_refl) as [j Hj].
    { rewrite <- Hwe. exact Hv1b. }
    { exact Hstuck. }
    exists (skipn j (w0 :: w')). split; [exact Hj|].
    rewrite <- Hwe. apply existsb_skipn. exact Hv1s.
Qed.

(** After the key, the pattern finds the equals sign where it is. *)
Lemma equals_reach k i bl bl2 sb sc rest v1 :
  word k = true -> word v1 = true ->
  forallb isBlank bl = true -> forallb isBlank bl2 = true ->
  skipn i k ++ SP :: EQUALS :: SP :: v1 ++ rest = bl ++ EQUALS :: sb ->
  sb = bl2 ++ sc ->
  sc = SP :: v1 ++ rest \/ sc = v1 ++ rest.
Proof.
  intros Hk Hv1 Hblb Hbl2 Hbl ->.
  destruct (word_first v1 Hv1) as (w0 & w' & Hwe & Hw0).
  assert (Hword : forall y t, skipn i k = y :: t -> isBlank y = false /\ N.eqb EQUALS y = false).
  { intros y t Hy.
    unfold word in Hk. apply andb_true_iff in Hk. destruct Hk as [_ Hk].
    apply (forallb_skipn wordChar i) in Hk. rewrite Hy in Hk. cbn [forallb] in Hk.
    apply andb_true_iff in Hk. destruct Hk as [Hk _].
    split; [apply wordChar_not_blank; exact Hk|].
    pose proof (wordChar_key y Hk) as Hy'. apply negb_true_iff in Hy'.
    cbn [existsb] in Hy'. apply orb_false_iff in Hy'. destruct Hy' as [Hy' _].
    rewrite N.eqb_sym. exact Hy'. }
  assert (Hsc : bl2 ++ sc = SP :: v1 ++ rest).
  { destruct (skipn i k) as [|y t] eqn:Hsk.
    - cbn [app] in Hbl. destruct bl as [|b bl]; [discriminate|].
      cbn [app] in Hbl. injection Hbl as _ Hbl.
      destruct bl as [|b' bl]; [cbn [app] in Hbl; injection Hbl as Hbl; exact (eq_sym Hbl)|].
      cbn [app] in Hbl. injection Hbl as Hb' _. subst b'.
      cbn [forallb] in Hblb. rewrite andb_comm in Hblb. discriminate.
    - destruct (Hword y t eq_refl) as [Hyb Hye].
      destruct bl as [|b bl]; cbn [app] in Hbl; injection Hbl as Hb _.
      + subst y. rewrite N.eqb_refl in Hye. discriminate.
      + subst y. cbn [forallb] in Hblb. rewrite Hyb in Hblb. discriminate. }
  destruct bl2 as [|b bl2]; [left; exact Hsc|]. right.
  cbn [app] in Hsc. injection Hsc as _ Hsc. rewrite Hwe in Hsc |- *.
  destruct bl2 as [|b' bl2]; [exact Hsc|].
  cbn [app] in Hsc. injection Hsc as Hb' _. subst b'.
  cbn [forallb] in Hbl2. rewrite (wordChar_not_blank w0 Hw0) in Hbl2.
  rewrite andb_comm in Hbl2. discriminate.
Qed.

(** The line is no match of the pattern: the value ends before the gap,
    and what follows is neither a comment nor the end of the line. *)
Lemma SPLIT_LINE_gap k v1 g v2 :
  word k = true -> word v1 = true -> word v2 = true ->
  forallb isBlank g = true -> 2 <= length g ->
  matchPrefix SPLIT_LINE (gapLine k v1 g v2) = None.
Proof.
  intros Hk Hv1 Hv2 Hg Hlen.
  destruct (matchPrefix SPLIT_LINE (gapLine k v1 g v2)) as [x|] eqn:E; [exfalso|reflexivity].
  unfold matchPrefix in E. apply rmatch_sound in E. destruct E as (s' & c' & D & _).
  destruct (word_chars k Hk) as [Hkb Hks], (word_chars v1 Hv1) as [Hv1b Hv1s],
    (word_chars v2 Hv2) as [Hv2b Hv2s].
  pose proof (blank_chars g Hg) as Hgs.
  destruct (word_first k Hk) as (k0 & k' & Hke & Hk0).
  destruct (word_first v2 Hv2) as (z0 & z' & Hze & Hz0).
  destruct g as [|b1 [|b2 g']]; try (simpl in Hlen; lia).
  cbn [forallb] in Hg. apply andb_true_iff in Hg. destruct Hg as [Hb1 Hg].
  apply andb_true_iff in Hg. destruct Hg as [Hb2 Hg].
  (* what the end of the pattern cannot take *)
  assert (Hend : forall p s'', existsb (N.eqb SEMI) p = false ->
            ~ derives (Seq (Star ws) (Alt (chr SEMI) Eol)) (p ++ v2) s'').
  { intros p s'' Hp Dt. destruct (tail_reach _ _ Dt) as [Hall | Hsemi].
    - rewrite forallb_app in Hall. apply andb_true_iff in Hall. destruct Hall as [_ Hall].
      rewrite Hze in Hall. cbn [forallb] in Hall.
      rewrite (wordChar_not_blank z0 Hz0) in Hall. discriminate.
    - rewrite existsb_app, Hp, Hv2s in Hsemi. discriminate. }
  unfold SPLIT_LINE in D.
  change (Alt (noneOf [EQUALS; SEMI; SP; TAB]) (Seq ws (noneOf [EQUALS; SEMI; SP; TAB])))
    with (wordBody [EQUALS; SEMI; SP; TAB]) in D.
  change (Alt (noneOf [SEMI; SP; TAB]) (Seq ws (noneOf [SEMI; SP; TAB])))
    with (wordBody [SEMI; SP; TAB]) in D.
  apply derives_seq_inv in D. destruct D as (s1 & D1 & D).
  apply derives_seq_inv in D. destruct D as (s2 & D2 & D3).
  (* the key *)
  unfold gapLine in D1. rewrite Hke in D1. cbn [app] in D1.
  apply group_reach in D1; [|apply wordChar_not_quote; exact Hk0].
  destruct (star_word_reach _ _ _ D1 (k0 :: k') (SP :: EQUALS :: SP :: v1 ++ (b1 :: b2 :: g') ++ v2))
    as [i Hi].
  { reflexivity. }
  { rewrite <- Hke. exact Hkb. }
  { intros s''. apply wordBody_gap; reflexivity. }
  rewrite <- Hke in Hi. clear D1. subst s1.
  assert (Hki : existsb (N.eqb SEMI) (skipn i k) = false) by (apply existsb_skipn; exact Hks).
  (* the value *)
  unfold Opt in D2. apply derives_alt_inv in D2. destruct D2 as [DX | DE].
  2: { apply derives_eps_inv in DE. subst s2.
       apply (Hend (skipn i k ++ SP :: EQUALS :: SP :: v1 ++ b1 :: b2 :: g') s').
       - rewrite existsb_app, Hki. cbn [existsb]. rewrite existsb_app, Hv1s. exact Hgs.
       - repeat (rewrite <- app_assoc || rewrite <- app_comm_cons). exact D3. }
  apply derives_seq_inv in DX. destruct DX as (sa & Dw1 & DX).
  apply derives_seq_inv in DX. destruct DX as (sb & De & DX).
  apply derives_seq_inv in DX. destruct DX as (sc & Dw2 & Dg).
  unfold ws, oneOf in Dw1, Dw2.
  apply derives_star_class in Dw1. destruct Dw1 as (bl & Hbl & Hblb).
  unfold chr in De. apply derives_class_inv in De. destruct De as (e & -> & He).
  apply N.eqb_eq in He. subst e.
  apply derives_star_class in Dw2. destruct Dw2 as (bl2 & Hsb & Hbl2).
  pose proof (equals_reach k i bl bl2 sb sc ((b1 :: b2 :: g') ++ v2) v1 Hk Hv1 Hblb Hbl2 Hbl Hsb)
    as Hcases.
  destruct (value_reach v1 b1 b2 (g' ++ v2) sc s2 Hv1 Hb1 Hb2 Hcases Dg) as (p & -> & Hp).
  apply (Hend (p ++ b1 :: b2 :: g') s').
  - rewrite existsb_app, Hp. exact Hgs.
  - repeat (rewrite <- app_assoc || rewrite <- app_comm_cons). exact D3.
Qed.

Lemma gapLine_solid k v1 g v2 :
  word k = true -> word v1 = true -> word v2 = true -> forallb isBlank g = true ->
  solid (gapLine k v1 g v2) = true.
Proof.
  intros Hk Hv1 Hv2 Hg.
  destruct (word_first k Hk) as (k0 & k' & Hke & Hk0).
  destruct (word_first v2 Hv2) as (z0 & z' & Hze & _).
  pose proof (word_tight_after [] v2 eq_refl Hv2) as Ht. cbn [app] in Ht.
  unfold word in Hk, Hv1, Hv2. apply andb_true_iff in Hk, Hv1, Hv2.
  destruct Hk as [_ Hk], Hv1 as [_ Hv1], Hv2 as [_ Hv2].
  assert (Hnb : forall p s, (forall x, p x = true -> notLineTerminator x = true) ->
            forallb p s = true ->
            forallb (fun x => negb (N.eqb x CR) && negb (N.eqb x LF)) s = true).
  { intros p s Hp. apply forallb_impl. intros x Hx. specialize (Hp x Hx).
    unfold notLineTerminator, isLineTerminator in Hp. apply negb_true_iff in Hp.
    apply orb_false_iff in Hp. destruct Hp as [Hp _].
    apply orb_false_iff in Hp. destruct Hp as [Hp _].
    apply orb_false_iff in Hp. destruct Hp as [Hlf Hcr]. rewrite Hcr, Hlf. reflexivity. }
  apply solid_cut.
  - unfold gapLine.
    replace (k ++ [SP; EQUALS; SP] ++ v1 ++ g ++ v2)
      with ((k ++ [SP; EQUALS; SP] ++ v1 ++ g) ++ v2)
      by (repeat (rewrite <- app_assoc || rewrite <- app_comm_cons); reflexivity).
    apply tight_app_nonblank; [exact Ht | rewrite Hze; discriminate |].
    rewrite !forallb_app, (Hnb _ _ wordChar_notLineTerminator Hk),
      (Hnb _ _ wordChar_notLineTerminator Hv1), (Hnb _ _ blank_not_terminator Hg).
    reflexivity.
  - unfold gapLine. rewrite !forallb_app.
    rewrite (forallb_impl _ _ _ wordChar_notLineTerminator Hk),
      (forallb_impl _ _ _ wordChar_notLineTerminator Hv1),
      (forallb_impl _ _ _ blank_not_terminator Hg),
      (forallb_impl _ _ _ wordChar_notLineTerminator Hv2).
    reflexivity.
  - unfold gapLine. rewrite Hke. discriminate.
  - unfold gapLine. rewrite Hke. cbn [app takeWhile].
    rewrite (wordChar_not_blank k0 Hk0). reflexivity.
Qed.

(** The line of the gap ends [tokens] with the exception of a failed
    match. *)
Lemma tokensLoop_gap fk lno k v1 g v2 :
  word k = true -> word v1 = true -> word v2 = true ->
  forallb isBlank g = true -> 2 <= length g ->
  tokensLoop (flatState fk) lno 0 [mkLine [] (gapLine k v1 g v2)] = ([], Throw TypeError).
Proof.
  intros Hk Hv1 Hv2 Hg Hlen.
  cbn [tokensLoop lindent lcontent]. unfold flatState. cbn [stack lastLno].
  unfold tokenizeLine. rewrite (SPLIT_LINE_gap k v1 g v2 Hk Hv1 Hv2 Hg Hlen).
  replace (isEmpty (gapLine k v1 g v2) || startsWith (gapLine k v1 g v2) [SEMI]) with false.
  - reflexivity.
  - destruct (word_first k Hk) as (k0 & k' & Hke & Hk0).
    unfold gapLine. rewrite Hke. cbn [app isEmpty startsWith orb].
    pose proof (wordChar_key k0 Hk0) as Hs. apply negb_true_iff in Hs.
    cbn [existsb] in Hs. apply orb_false_iff in Hs. destruct Hs as [_ Hs].
    apply orb_false_iff in Hs. destruct Hs as [Hs _]. rewrite Hs. reflexivity.
Qed.

(** X25. A value with a gap ends [parse] with a TypeError.  On a line
    key = value  whose value holds two bare words with two or more blanks
    between them, the pattern SPLIT_LINE finds no match, the result of
    [match] is null, and taking it apart throws.  [parse] throws that
    exception, after any number of lines  key = value  before it. *)
Theorem parse_gap_in_value es k v1 g v2 :
  forallb entryOK es = true ->
  word k = true -> word v1 = true -> word v2 = true ->
  forallb isBlank g = true -> 2 <= length g ->
  parse (LexerSpec.join [LF] (map entryLine es ++ [gapLine k v1 g v2])) None
  = Raise TypeError.
Proof.
  intros Hes Hk Hv1 Hv2 Hg Hlen.
  pose proof (gapLine_solid k v1 g v2 Hk Hv1 Hv2 Hg) as Hsolid.
  destruct (rows_cut [mkLine [] (gapLine k v1 g v2)]) as [Hcut Htight].
  { cbn [forallb]. unfold rowOK. cbn [lindent lcontent forallb]. rewrite Hsolid. reflexivity. }
  cbn [map forallb] in Hcut, Htight. change (lineText (mkLine [] (gapLine k v1 g v2)))
    with (gapLine k v1 g v2) in Hcut, Htight.
  rewrite andb_true_r in Htight.
  apply (parse_raise_entries _ es).
  apply (tokens_throw _ (map entryLine es ++ [gapLine k v1 g v2])
           (map lineOf es ++ [mkLine [] (gapLine k v1 g v2)])).
  - apply split_join_snoc; [apply forallb_tight_entries; exact Hes | exact Htight].
  - apply splitLines_app; [apply splitLines_entries; exact Hes | exact Hcut].
  - rewrite (tokensLoop_entries_then es _ None 0 (or_introl eq_refl) Hes).
    rewrite (tokensLoop_gap _ _ k v1 g v2 Hk Hv1 Hv2 Hg Hlen). cbn [fst snd].
    rewrite app_nil_r. reflexivity.
Qed.

Lemma parse_gap_in_value_witness :
  parse (u "name = web" ++ [LF] ++ u "title = Hello  World") None = Raise TypeError.
Proof.
  exact (parse_gap_in_value [mkEntry (u "name") (u " ") (u " ") (u "web")]
           (u "title") (u "Hello") (u "  ") (u "World")
           eq_refl eq_refl eq_refl eq_refl eq_refl ltac:(cbn; lia)).
Defined.

End GapProps.

(* ================================================================== *)
(** ** The lexer on documents with sections *)

Module LexRenderProps.

Import Utils RegexProps DocumentSpec DocumentProps SequenceSpec RenderSpec RenderProps.
Import UtilsSpec UtilsProps Lexer LexerSpec LexerProps LexRenderSpec.

(** *** One line *)

Lemma crisp_trimEnd s : crisp s = true -> trimEnd s = s.
Proof.
  unfold crisp, trimEnd. intros H. destruct (rev s) as [|x r] eqn:Hr.
  - apply (f_equal (@rev N)) in Hr. rewrite rev_involutive in Hr. subst s. reflexivity.
  - cbn [dropWhile]. apply negb_true_iff in H. rewrite H, <- Hr. apply rev_involutive.
Qed.

Lemma trimEnd_blank s : trimEnd (s ++ [SP]) = trimEnd s.
Proof. unfold trimEnd. rewrite rev_app_distr. reflexivity. Qed.

Lemma word_noSemi w : word w = true -> noSemi w = true.
Proof.
  unfold word, noSemi. intros H. apply andb_true_iff in H. destruct H as [_ H].
  revert H. apply forallb_impl. intros x Hx.
  pose proof (wordChar_value x Hx) as Hv. apply negb_true_iff in Hv.
  cbn [existsb] in Hv. apply orb_false_iff in Hv. destruct Hv as [Hs _]. rewrite Hs. reflexivity.
Qed.

Lemma word_noEquals w : word w = true -> noEquals w = true.
Proof.
  unfold word, noEquals. intros H. apply andb_true_iff in H. destruct H as [_ H].
  revert H. apply forallb_impl. intros x Hx.
  pose proof (wordChar_key x Hx) as Hv. apply negb_true_iff in Hv.
  cbn [existsb] in Hv. apply orb_false_iff in Hv. destruct Hv as [Hs _]. rewrite Hs. reflexivity.
Qed.

Lemma word_head w :
  word w = true ->
  exists x s, w = x :: s /\ N.eqb x SEMI = false /\ N.eqb x EQUALS = false /\
              N.eqb x QUOTE = false /\ isBlank x = false.
Proof.
  intros H. destruct (word_first w H) as (x & s & -> & Hx). exists x, s.
  pose proof (wordChar_key x Hx) as Hk. apply negb_true_iff in Hk.
  cbn [existsb] in Hk. apply orb_false_iff in Hk. destruct Hk as [He Hk].
  apply orb_false_iff in Hk. destruct Hk as [Hs _].
  pose proof (wordChar_not_quote x Hx) as Hq. rewrite N.eqb_sym in Hq.
  repeat split; try assumption. apply wordChar_not_blank. exact Hx.
Qed.

Lemma word_notLineTerminator w : word w = true -> forallb notLineTerminator w = true.
Proof.
  unfold word. intros H. apply andb_true_iff in H. destruct H as [_ H].
  revert H. apply forallb_impl. exact wordChar_notLineTerminator.
Qed.

(** The value of a line, a bare word. *)
Lemma tokenizeValue_word st lno v :
  word v = true -> crisp v = true ->
  tokenizeValue st lno v = ([mkToken lno Scalar v None], Ret st).
Proof.
  intros Hv Hc. destruct (word_head v Hv) as (x & s & Hve & Hs & He & Hq & Hb).
  unfold tokenizeValue.
  assert (Hc1 : cutPrefix v [SEMI] = (v, false)).
  { rewrite Hve. unfold cutPrefix. cbn [startsWith]. rewrite Hs. reflexivity. }
  assert (Hc2 : cutPrefix v [QUOTE; QUOTE; QUOTE] = (v, false)).
  { rewrite Hve. unfold cutPrefix. cbn [startsWith]. rewrite Hq. reflexivity. }
  assert (Hsq : startsWith v [QUOTE] = false).
  { rewrite Hve. cbn [startsWith]. rewrite Hq. reflexivity. }
  assert (Hsl : splitLiteral v false = (v, [])).
  { unfold splitLiteral. rewrite Hsq. unfold splitUnquoted.
    rewrite (LexerProps.indexOf_none SEMI v (word_noSemi v Hv)), (crisp_trimEnd v Hc).
    reflexivity. }
  rewrite Hc1, Hc2, Hsl.
  replace (negb (isEmpty v)) with true by (rewrite Hve; reflexivity).
  rewrite (decodeLiteral_bare v Hsq). reflexivity.
Qed.

(** The first line of a member, after the indentation. *)
Lemma tokenizeEntry_head stk lno d h t :
  headOK h t = true ->
  match h with Some k => crisp k | None => true end = true ->
  match t with TScalar v => crisp v | _ => true end = true ->
  tokenizeEntry (between stk) lno d (headContent h t)
  = (snd (popOutdents lno d stk)
       ++ snd (pushIndent lno d (fst (popOutdents lno d stk)))
       ++ headRaw lno h t,
     Ret (between (fst (pushIndent lno d (fst (popOutdents lno d stk)))))).
Proof.
  intros Hok Hck Hcv. destruct (headOK_parts h t Hok) as [Hk Hv].
  pose proof (head_not_comment h t Hok) as Hnc. apply orb_false_iff in Hnc.
  destruct Hnc as [Hne Hns].
  unfold tokenizeEntry. rewrite Hne. unfold cutPrefix at 1. rewrite Hns.
  unfold between. cbn [stack multiline multilinePrefix multilineValue multilineLno].
  destruct (popOutdents lno d stk) as [stk1 outs]. cbn [fst snd].
  destruct (pushIndent lno d stk1) as [stk2 ins]. cbn [fst snd].
  fold (between stk2).
  assert (Hval : forall v, t = TScalar v ->
            tokenizeValue (between stk2) lno v
            = ([mkToken lno Scalar v None], Ret (between stk2))).
  { intros v ->. apply tokenizeValue_word; [apply Hv; reflexivity | exact Hcv]. }
  destruct h as [k|].
  - specialize (Hk k eq_refl).
    destruct (word_head k Hk) as (x & s & Hke & Hs & He & Hq & Hb).
    assert (Hsq : startsWith k [QUOTE] = false).
    { rewrite Hke. cbn [startsWith]. rewrite Hq. reflexivity. }
    assert (Hkey : forall t', match t' with TScalar _ => False | _ => True end ->
              (outs ++ ins, Ret tt) ;;;
              match cutPrefix k [EQUALS] with
              | (list, true) =>
                  yield (mkToken lno ListItem [] None) ;;;
                  tokenizeValue (between stk2) lno (snd (trimLeft list))
              | (list, false) =>
                  let '(key, afterKey) := splitLiteral k true in
                  d0 <- lift (decodeLiteral key) ;;
                  yield (mkToken lno MapKey (fst d0) (snd d0)) ;;;
                  tokenizeValue (between stk2) lno
                    (if negb (str_eqb (snd (trimLeft afterKey))
                                (fst (cutPrefix (snd (trimLeft afterKey)) [EQUALS])))
                     then snd (trimLeft (fst (cutPrefix (snd (trimLeft afterKey)) [EQUALS])))
                     else snd (trimLeft afterKey))
              end = (outs ++ ins ++ headRaw lno (Some k) t', Ret (between stk2))).
    { intros t' Ht'.
      assert (Hce : cutPrefix k [EQUALS] = (k, false))
        by (rewrite Hke; unfold cutPrefix; cbn [startsWith]; rewrite He; reflexivity).
      assert (Hsl : splitLiteral k true = (k, [])).
      { unfold splitLiteral. rewrite Hsq. unfold splitUnquoted.
        rewrite (LexerProps.indexOf_none EQUALS k (word_noEquals k Hk)),
          (LexerProps.indexOf_none SEMI k (word_noSemi k Hk)), (crisp_trimEnd k Hck).
        reflexivity. }
      rewrite Hce, Hsl, (decodeLiteral_bare k Hsq).
      replace (if negb (str_eqb (snd (trimLeft [])) (fst (cutPrefix (snd (trimLeft [])) [EQUALS])))
               then snd (trimLeft (fst (cutPrefix (snd (trimLeft [])) [EQUALS])))
               else snd (trimLeft [])) with (@nil N) by reflexivity.
      replace (tokenizeValue (between stk2) lno []) with (@nil Token, Ret (between stk2))
        by reflexivity.
      unfold bind, lift, yield, ret. cbn [fst snd app].
      destruct t'; [contradiction | | |]; cbn [headRaw headShape fst snd];
        rewrite ?app_nil_r, <- ?app_assoc; reflexivity. }
    destruct t as [v| |ms|its]; cbn [headContent assignment label];
      try (apply Hkey; exact I).
    clear Hkey.
    (* key and value *)
    unfold DocumentSpec.entryLine. cbn [ekey egap1 egap2 evalue].
    assert (Hce : cutPrefix (k ++ [SP] ++ [EQUALS] ++ [SP] ++ v) [EQUALS]
                  = (k ++ [SP] ++ [EQUALS] ++ [SP] ++ v, false)).
    { rewrite Hke. unfold cutPrefix. cbn [app startsWith]. rewrite He. reflexivity. }
    assert (Hsl : splitLiteral (k ++ [SP] ++ [EQUALS] ++ [SP] ++ v) true
                  = (k, EQUALS :: SP :: v)).
    { unfold splitLiteral.
      replace (startsWith (k ++ [SP] ++ [EQUALS] ++ [SP] ++ v) [QUOTE]) with false
        by (rewrite Hke; cbn [app startsWith]; rewrite Hq; reflexivity).
      replace (k ++ [SP] ++ [EQUALS] ++ [SP] ++ v) with ((k ++ [SP]) ++ EQUALS :: SP :: v)
        by (rewrite <- app_assoc; reflexivity).
      rewrite splitUnquoted_key_equals.
      - rewrite trimEnd_blank, (crisp_trimEnd k Hck). reflexivity.
      - unfold noSemi. rewrite forallb_app. fold (noSemi k). rewrite (word_noSemi k Hk).
        reflexivity.
      - unfold noEquals. rewrite forallb_app. fold (noEquals k).
        rewrite (word_noEquals k Hk). reflexivity. }
    rewrite Hce, Hsl, (decodeLiteral_bare k Hsq).
    specialize (Hv v eq_refl).
    destruct (word_head v Hv) as (y & s' & Hve & _ & Hye & _ & Hyb).
    assert (Ht1 : trimLeft (EQUALS :: SP :: v) = ([], EQUALS :: SP :: v)).
    { apply (trimLeft_indented [] (EQUALS :: SP :: v) eq_refl); [reflexivity|].
      cbn [forallb]. rewrite (word_notLineTerminator v Hv). reflexivity. }
    assert (Ht2 : trimLeft (SP :: v) = ([SP], v)).
    { apply (trimLeft_indented [SP] v eq_refl); [rewrite Hve; exact Hyb|].
      apply word_notLineTerminator. exact Hv. }
    assert (Hc3 : cutPrefix (EQUALS :: SP :: v) [EQUALS] = (SP :: v, true)) by reflexivity.
    rewrite Ht1. cbn [snd]. rewrite Hc3. cbn [fst].
    rewrite (LexerProps.str_eqb_cons EQUALS (SP :: v)). cbn [negb]. rewrite Ht2. cbn [snd].
    rewrite (Hval v eq_refl).
    unfold bind, lift, yield, ret. cbn [fst snd app headRaw headShape].
    rewrite ?app_nil_r, <- ?app_assoc. reflexivity.
  - assert (Hitem : forall t', match t' with TScalar _ => False | _ => True end ->
              (outs ++ ins, Ret tt) ;;;
              match cutPrefix [EQUALS] [EQUALS] with
              | (list, true) =>
                  yield (mkToken lno ListItem [] None) ;;;
                  tokenizeValue (between stk2) lno (snd (trimLeft list))
              | (list, false) =>
                  let '(key, afterKey) := splitLiteral [EQUALS] true in
                  d0 <- lift (decodeLiteral key) ;;
                  yield (mkToken lno MapKey (fst d0) (snd d0)) ;;;
                  tokenizeValue (between stk2) lno
                    (if negb (str_eqb (snd (trimLeft afterKey))
                                (fst (cutPrefix (snd (trimLeft afterKey)) [EQUALS])))
                     then snd (trimLeft (fst (cutPrefix (snd (trimLeft afterKey)) [EQUALS])))
                     else snd (trimLeft afterKey))
              end = (outs ++ ins ++ headRaw lno None t', Ret (between stk2))).
    { intros t' Ht'.
      replace (cutPrefix [EQUALS] [EQUALS]) with (@nil N, true) by reflexivity.
      replace (tokenizeValue (between stk2) lno (snd (trimLeft [])))
        with (@nil Token, Ret (between stk2)) by reflexivity.
      unfold bind, lift, yield, ret. cbn [fst snd app].
      destruct t'; [contradiction | | |]; cbn [headRaw headShape fst snd];
        rewrite ?app_nil_r, <- ?app_assoc; reflexivity. }
    destruct t as [v| |ms|its]; cbn [headContent assignment label];
      try (apply Hitem; exact I).
    clear Hitem.
    unfold itemLine. cbn [igap ivalue]. specialize (Hv v eq_refl).
    destruct (word_head v Hv) as (y & s' & Hve & _ & _ & _ & Hyb).
    assert (Hce : cutPrefix ([EQUALS] ++ [SP] ++ v) [EQUALS] = (SP :: v, true)) by reflexivity.
    assert (Ht2 : trimLeft (SP :: v) = ([SP], v)).
    { apply (trimLeft_indented [SP] v eq_refl); [rewrite Hve; exact Hyb|].
      apply word_notLineTerminator. exact Hv. }
    rewrite Hce, Ht2. cbn [snd]. rewrite (Hval v eq_refl).
    unfold bind, lift, yield, ret. cbn [fst snd app headRaw headShape].
    rewrite ?app_nil_r, <- ?app_assoc. reflexivity.
Qed.

(** *** The raw tokens of a section *)

Lemma number_app lno a b : number lno (a ++ b) = number lno a ++ number (lno + length a) b.
Proof.
  unfold number. revert lno. induction a as [|x a IH]; intros lno.
  - cbn [app length seq combine]. rewrite Nat.add_0_r. reflexivity.
  - cbn [app length seq combine]. rewrite IH, Nat.add_succ_r. reflexivity.
Qed.

Lemma rawRuns_nil stk lno : rawRuns stk lno [] [] stk.
Proof.
  intros tail. unfold number. cbn [length seq combine app].
  destruct (tokenizeLines (between stk) tail). reflexivity.
Qed.

Lemma rawRuns_app stk lno l1 T1 stk1 l2 T2 stk2 :
  rawRuns stk lno l1 T1 stk1 -> rawRuns stk1 (lno + length l1) l2 T2 stk2 ->
  rawRuns stk lno (l1 ++ l2) (T1 ++ T2) stk2.
Proof.
  intros H1 H2 tail. rewrite number_app, <- app_assoc, (H1 _), (H2 tail).
  cbn [fst snd]. rewrite <- app_assoc. reflexivity.
Qed.

Lemma rawRuns_line stk lno l T stk' :
  tokenizeLine (between stk) (lno, l) = (T, Ret (between stk')) ->
  rawRuns stk lno [l] T stk'.
Proof.
  intros H tail. unfold number. cbn [length seq combine app tokenizeLines]. rewrite H.
  unfold bind. destruct (tokenizeLines (between stk') tail). reflexivity.
Qed.

Lemma popOutdents_deeper lno (d : str) (below extra : list str) :
  deeper d extra ->
  popOutdents lno d (extra ++ d :: below)
  = (d :: below, repeat (mkToken lno Outdent [] None) (length extra)).
Proof.
  induction 1 as [|e extra He _ IH].
  - cbn [app popOutdents length repeat]. rewrite startsWith_refl. reflexivity.
  - cbn [app popOutdents length repeat]. rewrite (startsWith_longer d e He), IH. reflexivity.
Qed.

Lemma lexer_line_head stk lno d h t :
  forallb isBlank d = true -> headOK h t = true ->
  match h with Some k => crisp k | None => true end = true ->
  match t with TScalar v => crisp v | _ => true end = true ->
  tokenizeLine (between stk) (lno, d ++ headContent h t)
  = (snd (popOutdents lno d stk)
       ++ snd (pushIndent lno d (fst (popOutdents lno d stk)))
       ++ headRaw lno h t,
     Ret (between (fst (pushIndent lno d (fst (popOutdents lno d stk)))))).
Proof.
  intros Hd Hok Hck Hcv.
  destruct (solid_parts _ (head_solid h t Hok)) as (_ & Hn & x & s & Hc & Hx).
  unfold tokenizeLine. rewrite (trimLeft_indented d (headContent h t) Hd).
  - cbn [multiline between]. apply tokenizeEntry_head; assumption.
  - rewrite Hc. exact Hx.
  - exact Hn.
Qed.

Lemma map_shape_repeat lno n :
  map shapeOf (repeat (mkToken lno Outdent [] None) n) = repeat outShape n.
Proof. induction n as [|n IH]; [reflexivity|]. cbn [repeat map]. rewrite IH. reflexivity. Qed.

Lemma map_shape_headRaw lno h t : map shapeOf (headRaw lno h t) = headShape h :: rawScalar t.
Proof. destruct h, t; reflexivity. Qed.

(** The first line of a member at the level of its section. *)
Lemma raw_head_level (extra : list str) (d : str) (below : list str) lno h t :
  deeper d extra -> forallb isBlank d = true -> headOK h t = true ->
  match h with Some k => crisp k | None => true end = true ->
  match t with TScalar v => crisp v | _ => true end = true ->
  exists T,
    rawRuns (extra ++ d :: below) lno [d ++ headContent h t] T (d :: below) /\
    map shapeOf T = repeat outShape (length extra) ++ headShape h :: rawScalar t.
Proof.
  intros Ha Hd Hok Hck Hcv. eexists. split.
  - apply rawRuns_line. rewrite (lexer_line_head _ lno d h t Hd Hok Hck Hcv).
    rewrite (popOutdents_deeper lno d below extra Ha). cbn [fst snd].
    unfold pushIndent. cbn [top]. rewrite LexerProps.str_eqb_refl. cbn [negb fst snd app].
    reflexivity.
  - rewrite map_app, map_shape_repeat, map_shape_headRaw. reflexivity.
Qed.

(** The first line of the first member of a section. *)
Lemma raw_head_deeper (d : str) (below : list str) (w : str) lno h t :
  w <> [] -> forallb isBlank (d ++ w) = true -> headOK h t = true ->
  match h with Some k => crisp k | None => true end = true ->
  match t with TScalar v => crisp v | _ => true end = true ->
  exists T,
    rawRuns (d :: below) lno [(d ++ w) ++ headContent h t] T ((d ++ w) :: d :: below) /\
    map shapeOf T = (Indent, d ++ w, None) :: headShape h :: rawScalar t.
Proof.
  intros Hw Hd Hok Hck Hcv. eexists. split.
  - apply rawRuns_line. rewrite (lexer_line_head _ lno (d ++ w) h t Hd Hok Hck Hcv).
    cbn [popOutdents]. rewrite startsWith_prefix. cbn [fst snd].
    unfold pushIndent. cbn [top]. rewrite (str_eqb_longer d w Hw). cbn [negb fst snd app].
    reflexivity.
  - cbn [map shapeOf kind content error]. rewrite map_shape_headRaw. reflexivity.
Qed.

Lemma crispTree_members t ht :
  crispTree t = true -> In ht (membersOf t) ->
  match fst ht with Some k => crisp k | None => true end = true /\
  crispTree (snd ht) = true.
Proof.
  destruct t as [v| |ms|its]; cbn [membersOf crispTree]; try (intros _ []).
  - intros H Hin. apply in_map_iff in Hin. destruct Hin as ([k t'] & <- & Hin).
    rewrite forallb_forall in H. specialize (H _ Hin). cbn [fst snd] in *.
    apply andb_true_iff in H. exact H.
  - intros H Hin. apply in_map_iff in Hin. destruct Hin as (t' & <- & Hin).
    rewrite forallb_forall in H. specialize (H _ Hin). cbn [fst snd]. split; [reflexivity | exact H].
Qed.

Lemma crispTree_scalar t :
  crispTree t = true -> match t with TScalar v => crisp v | _ => true end = true.
Proof. destruct t; intros H; [exact H | reflexivity..]. Qed.

Lemma rawBody_split unit d t : rawBody unit d t = rawScalar t ++ rawAfter unit d t.
Proof. destruct t; reflexivity. Qed.

Lemma rawAfter_section unit d t :
  isSection t = true ->
  rawAfter unit d t
  = (Indent, d ++ unit, None) :: flat_map (rawMember unit (d ++ unit)) (membersOf t) ++ [outShape].
Proof.
  destruct t; try discriminate; intros _; cbn [rawAfter rawBody membersOf];
    rewrite flat_map_map; reflexivity.
Qed.

Lemma deeper_snoc (d w : str) (extra : list str) :
  w <> [] -> deeper (d ++ w) extra -> deeper d (extra ++ [d ++ w]).
Proof.
  intros Hw Ha. apply Forall_app. split.
  - revert Ha. apply Forall_impl. intros g Hg. rewrite length_app in Hg. lia.
  - constructor; [|constructor]. rewrite length_app. destruct w; [contradiction|]. simpl. lia.
Qed.

Lemma map_lineText_rows unit d h t :
  map lineText (rows unit d h t)
  = (d ++ headContent h t) :: map lineText (sectionRows unit (d ++ unit) t).
Proof. rewrite rows_head. reflexivity. Qed.

(** The lines under the first line of a member, and then the lines [F] of
    the members after it, which yield the shapes [K]. *)
Lemma raw_rest_run unit (d : str) (below : list str) t F K :
  rawBlock unit t -> forallb isBlank d = true ->
  wellFormed t = true -> crispTree t = true ->
  (forall (extra : list str) lno,
     deeper d extra ->
     exists T (extra' : list str),
       rawRuns (extra ++ d :: below) lno F T (extra' ++ d :: below) /\
       deeper d extra' /\
       map shapeOf T ++ repeat outShape (length extra')
       = repeat outShape (length extra) ++ K) ->
  forall lno,
    exists T (extra' : list str),
      rawRuns (d :: below) lno (map lineText (sectionRows unit (d ++ unit) t) ++ F) T
              (extra' ++ d :: below) /\
      deeper d extra' /\
      map shapeOf T ++ repeat outShape (length extra') = rawAfter unit d t ++ K.
Proof.
  intros Hblock Hd Hw Hc Hrest lno.
  destruct (Hblock d below lno Hd Hw Hc) as (T2 & extra2 & Hr2 & Ha2 & Hk2).
  destruct (Hrest extra2 (lno + length (map lineText (sectionRows unit (d ++ unit) t))) Ha2)
    as (T3 & extra3 & Hr3 & Ha3 & Hk3).
  exists (T2 ++ T3), extra3. split; [|split; [exact Ha3|]].
  - apply (rawRuns_app _ _ _ _ _ _ _ _ Hr2 Hr3).
  - rewrite map_app, <- app_assoc, Hk3, app_assoc, Hk2. reflexivity.
Qed.

Lemma raw_members_run unit (d : str) (below : list str) ms :
  forallb isBlank d = true ->
  (forall ht, In ht ms ->
     rawBlock unit (snd ht) /\ headOK (fst ht) (snd ht) = true /\
     wellFormed (snd ht) = true /\ crispTree (snd ht) = true /\
     match fst ht with Some k => crisp k | None => true end = true) ->
  forall (extra : list str) lno,
    deeper d extra ->
    exists T (extra' : list str),
      rawRuns (extra ++ d :: below) lno
              (map lineText (flat_map (fun ht => rows unit d (fst ht) (snd ht)) ms)) T
              (extra' ++ d :: below) /\
      deeper d extra' /\
      map shapeOf T ++ repeat outShape (length extra')
      = repeat outShape (length extra) ++ flat_map (rawMember unit d) ms.
Proof.
  intros Hd. induction ms as [|[h t] ms IH]; intros Hall extra lno Ha.
  - exists [], extra. split; [apply rawRuns_nil | split; [exact Ha|]].
    cbn [map flat_map app]. rewrite app_nil_r. reflexivity.
  - destruct (Hall (h, t) (or_introl eq_refl)) as (Hblock & Hh & Hw & Hc & Hck).
    cbn [fst snd] in *.
    destruct (raw_head_level extra d below lno h t Ha Hd Hh Hck (crispTree_scalar t Hc))
      as (T1 & Hr1 & Hk1).
    destruct (raw_rest_run unit d below t _ _ Hblock Hd Hw Hc
                (fun extra lno => IH (fun ht Hin => Hall ht (or_intror Hin)) extra lno)
                (lno + 1))
      as (T2 & extra2 & Hr2 & Ha2 & Hk2).
    exists (T1 ++ T2), extra2. split; [|split; [exact Ha2|]].
    + cbn [flat_map fst snd]. rewrite map_app, map_lineText_rows.
      apply (rawRuns_app _ lno [d ++ headContent h t] _ _ _ _ _ Hr1). exact Hr2.
    + rewrite map_app, <- app_assoc, Hk2, Hk1.
      change (flat_map (rawMember unit d) ((h, t) :: ms))
        with ((headShape h :: rawBody unit d t) ++ flat_map (rawMember unit d) ms).
      rewrite rawBody_split. repeat (rewrite <- app_assoc || rewrite <- app_comm_cons).
      reflexivity.
Qed.

Lemma members_facts unit t :
  (forall ht, In ht (membersOf t) -> rawBlock unit (snd ht)) ->
  wellFormed t = true -> crispTree t = true ->
  forall ht, In ht (membersOf t) ->
    rawBlock unit (snd ht) /\ headOK (fst ht) (snd ht) = true /\
    wellFormed (snd ht) = true /\ crispTree (snd ht) = true /\
    match fst ht with Some k => crisp k | None => true end = true.
Proof.
  intros IH Hw Hc ht Hin.
  destruct (wellFormed_members t ht Hw Hin) as (H1 & H2 & _).
  destruct (crispTree_members t ht Hc Hin) as (H3 & H4).
  repeat split; try assumption. apply IH. exact Hin.
Qed.

Lemma raw_block_run unit t :
  unit <> [] -> forallb isBlank unit = true -> rawBlock unit t.
Proof.
  intros Hu Hub. induction t as [t IH] using tree_members_ind.
  intros d below lno Hd Hw Hc.
  destruct (isSection t) eqn:Hsec.
  2: { exists [], []. split; [|split; [constructor|]].
       - replace (sectionRows unit (d ++ unit) t) with (@nil Tokenizer.line)
           by (destruct t; [reflexivity | reflexivity | discriminate | discriminate]).
         apply rawRuns_nil.
       - destruct t; [reflexivity | reflexivity | discriminate | discriminate]. }
  rewrite (rawAfter_section unit d t Hsec), sectionRows_members.
  pose proof (wellFormed_nonempty t Hsec Hw) as Hne.
  pose proof (members_facts unit t IH Hw Hc) as Hall.
  destruct (membersOf t) as [|[h1 t1] ms]; [contradiction|]. clear Hne IH.
  destruct (Hall (h1, t1) (or_introl eq_refl)) as (Hblock & Hh & Hw1 & Hc1 & Hck).
  cbn [fst snd] in *.
  assert (Hdu : forallb isBlank (d ++ unit) = true) by (rewrite forallb_app, Hd, Hub; reflexivity).
  destruct (raw_head_deeper d below unit lno h1 t1 Hu Hdu Hh Hck (crispTree_scalar t1 Hc1))
    as (T1 & Hr1 & Hk1).
  destruct (raw_rest_run unit (d ++ unit) (d :: below) t1 _ _ Hblock Hdu Hw1 Hc1
              (raw_members_run unit (d ++ unit) (d :: below) ms Hdu
                 (fun ht Hin => Hall ht (or_intror Hin)))
              (lno + 1))
    as (T2 & extra2 & Hr2 & Ha2 & Hk2).
  exists (T1 ++ T2), (extra2 ++ [d ++ unit]). split; [|split].
  - replace ((extra2 ++ [d ++ unit]) ++ d :: below) with (extra2 ++ (d ++ unit) :: d :: below)
      by (rewrite <- app_assoc; reflexivity).
    cbn [flat_map fst snd]. rewrite map_app, map_lineText_rows.
    apply (rawRuns_app _ lno [(d ++ unit) ++ headContent h1 t1] _ _ _ _ _ Hr1). exact Hr2.
  - apply deeper_snoc; assumption.
  - rewrite length_app. cbn [length]. rewrite Nat.add_1_r.
    change (repeat outShape (S (length extra2))) with (outShape :: repeat outShape (length extra2)).
    rewrite repeat_cons.
    rewrite map_app, <- app_assoc, (app_assoc (map shapeOf T2)), Hk2, Hk1.
    change (flat_map (rawMember unit (d ++ unit)) ((h1, t1) :: ms))
      with ((headShape h1 :: rawBody unit (d ++ unit) t1)
              ++ flat_map (rawMember unit (d ++ unit)) ms).
    rewrite rawBody_split. repeat (rewrite <- app_assoc || rewrite <- app_comm_cons).
    reflexivity.
Qed.

(** The raw tokens of the lines of a document. *)
Lemma raw_top_run unit t :
  unit <> [] -> forallb isBlank unit = true ->
  isSection t = true -> wellFormed t = true -> crispTree t = true ->
  exists T (extra : list str),
    rawRuns [[]] 1 (map lineText (sectionRows unit [] t)) T (extra ++ [[]]) /\
    map shapeOf T ++ repeat outShape (length extra)
    = flat_map (rawMember unit []) (membersOf t).
Proof.
  intros Hu Hub Hsec Hw Hc. rewrite sectionRows_members.
  pose proof (members_facts unit t (fun ht _ => raw_block_run unit (snd ht) Hu Hub) Hw Hc) as Hall.
  destruct (raw_members_run unit [] [] (membersOf t) eq_refl Hall [] 1 (Forall_nil _))
    as (T & extra & Hr & _ & Hk).
  exists T, extra. split; [exact Hr | exact Hk].
Qed.

(** *** The validator on the raw tokens *)

Lemma tokensLoop_app a : forall v b,
  tokensLoop v (a ++ b)
  = match tokensLoop v a with
    | (T, Ret v') => (T ++ fst (tokensLoop v' b), snd (tokensLoop v' b))
    | (T, Throw e) => (T, Throw e)
    end.
Proof.
  induction a as [|t a IH]; intros v b.
  - cbn [app tokensLoop ret]. destruct (tokensLoop v b). reflexivity.
  - cbn [app tokensLoop]. destruct (tokensStep v t) as [T1 [v1|e]]; unfold bind.
    + rewrite IH. destruct (tokensLoop v1 a) as [T2 [v2|e2]].
      * destruct (tokensLoop v2 b) as [T3 r3]. cbn [fst snd]. rewrite app_assoc. reflexivity.
      * reflexivity.
    + reflexivity.
Qed.

Lemma val_head sk hk below l th h :
  shapeOf th = headShape h -> sk = Comment \/ sk = headLexKind h ->
  exists T,
    tokensStep (mkValidator (mkParseState sk hk :: below) l) th
    = (T, Ret (mkValidator (mkParseState (headLexKind h) true :: below) (lno th))) /\
    map shapeOf T = owedValue hk ++ [headShape h].
Proof.
  intros Hs Hsk. destruct th as [n k c e]. unfold shapeOf in Hs. cbn [kind content error] in Hs.
  destruct h as [key|]; cbn [headShape] in Hs; inversion Hs; subst;
    destruct Hsk as [-> | ->]; destruct hk; eexists; split; reflexivity.
Qed.

Lemma val_scalar sk hk below l tv v :
  shapeOf tv = (Scalar, v, None) ->
  tokensStep (mkValidator (mkParseState sk hk :: below) l) tv
  = ([tv], Ret (mkValidator (mkParseState sk false :: below) (lno tv))).
Proof.
  intros Hs. destruct tv as [n k c e]. unfold shapeOf in Hs. cbn [kind content error] in Hs.
  inversion Hs; subst. reflexivity.
Qed.

Lemma val_indent sk below l ti c :
  shapeOf ti = (Indent, c, None) ->
  tokensStep (mkValidator (mkParseState sk true :: below) l) ti
  = ([ti], Ret (mkValidator (mkParseState Comment false :: mkParseState sk false :: below)
                            (lno ti))).
Proof.
  intros Hs. destruct ti as [n k c' e]. unfold shapeOf in Hs. cbn [kind content error] in Hs.
  inversion Hs; subst. reflexivity.
Qed.

Lemma val_outdent sk hk below l o :
  shapeOf o = outShape ->
  exists T,
    tokensStep (mkValidator (mkParseState sk hk :: below) l) o
    = (T, Ret (mkValidator below (lno o))) /\
    map shapeOf T = owedValue hk ++ [outShape].
Proof.
  intros Hs. destruct o as [n k c e]. unfold shapeOf, outShape in Hs.
  cbn [kind content error] in Hs. inversion Hs; subst.
  destruct hk; eexists; split; reflexivity.
Qed.

Lemma map_shape_one R x : map shapeOf R = [x] -> exists t, R = [t] /\ shapeOf t = x.
Proof.
  destruct R as [|t [|t' R]]; cbn [map]; intros H; inversion H; subst.
  exists t. split; reflexivity.
Qed.

(** The raw tokens of the members of a section, one member after the
    other. *)
Lemma val_members unit (d : str) K ms :
  (forall ht, In ht ms -> valBody unit (snd ht) /\ headLexKind (fst ht) = K) ->
  forall sk hk below l R,
    sk = Comment \/ sk = K ->
    map shapeOf R = flat_map (rawMember unit d) ms ->
    exists T' sk' hk' l',
      tokensLoop (mkValidator (mkParseState sk hk :: below) l) R
      = (T', Ret (mkValidator (mkParseState sk' hk' :: below) l')) /\
      (sk' = Comment \/ sk' = K) /\
      map shapeOf T' ++ owedValue hk' = owedValue hk ++ flat_map (lexMember unit d) ms.
Proof.
  induction ms as [|[h t] ms IH]; intros Hall sk hk below l R Hsk HR.
  - cbn [flat_map] in HR. apply map_eq_nil in HR. subst R.
    exists [], sk, hk, l. split; [reflexivity | split; [exact Hsk|]].
    cbn [map flat_map app]. rewrite app_nil_r. reflexivity.
  - destruct (Hall (h, t) (or_introl eq_refl)) as (Hbody & HK). cbn [fst snd] in *.
    change (flat_map (rawMember unit d) ((h, t) :: ms))
      with ((headShape h :: rawBody unit d t) ++ flat_map (rawMember unit d) ms) in HR.
    apply map_eq_app in HR. destruct HR as (R1 & R2 & -> & HR1 & HR2).
    destruct R1 as [|th R1]; [discriminate|]. cbn [map] in HR1. injection HR1 as Hth HR1.
    destruct (val_head sk hk below l th h Hth) as (T1 & Hs1 & Hk1).
    { rewrite HK. exact Hsk. }
    destruct (Hbody d (headLexKind h) below (lno th) R1 HR1) as (T2 & hk2 & l2 & Hs2 & Hk2).
    destruct (IH (fun ht Hin => Hall ht (or_intror Hin)) (headLexKind h) hk2 below l2 R2
                 (or_intror HK) HR2) as (T3 & sk3 & hk3 & l3 & Hs3 & Hsk3 & Hk3).
    exists (T1 ++ T2 ++ T3), sk3, hk3, l3. split; [|split; [exact Hsk3|]].
    + cbn [app tokensLoop]. rewrite Hs1. unfold bind.
      rewrite tokensLoop_app, Hs2, Hs3. cbn [fst snd]. reflexivity.
    + rewrite !map_app, <- !app_assoc, Hk3, Hk1, (app_assoc (map shapeOf T2)), Hk2.
      change (flat_map (lexMember unit d) ((h, t) :: ms))
        with ((headShape h :: lexBody unit d t) ++ flat_map (lexMember unit d) ms).
      repeat (rewrite <- app_assoc || rewrite <- app_comm_cons). reflexivity.
Qed.

Lemma rawBody_section unit d t :
  isSection t = true ->
  rawBody unit d t
  = (Indent, d ++ unit, None) :: flat_map (rawMember unit (d ++ unit)) (membersOf t) ++ [outShape]
  /\ lexBody unit d t
  = (Indent, d ++ unit, None) :: flat_map (lexMember unit (d ++ unit)) (membersOf t) ++ [outShape].
Proof.
  destruct t; try discriminate; intros _; cbn [rawBody lexBody membersOf];
    rewrite !flat_map_map; split; reflexivity.
Qed.

Lemma headLexKind_members t ht :
  In ht (membersOf t) -> headLexKind (fst ht) = match t with TList _ => ListItem | _ => MapKey end.
Proof.
  destruct t as [v| |ms|its]; cbn [membersOf]; try (intros []); intros Hin;
    apply in_map_iff in Hin; destruct Hin as (x & <- & _); reflexivity.
Qed.

(** The raw tokens of a member after its first. *)
Lemma val_body unit t : valBody unit t.
Proof.
  induction t as [t IH] using tree_members_ind. intros d sk below l R HR.
  destruct (isSection t) eqn:Hsec.
  - destruct (rawBody_section unit d t Hsec) as [Hraw Hlex]. rewrite Hraw in HR. rewrite Hlex.
    apply map_eq_cons in HR. destruct HR as (ti & R' & -> & Hti & HR).
    apply map_eq_app in HR. destruct HR as (Rm & Ro & -> & HRm & HRo).
    apply map_shape_one in HRo. destruct HRo as (o & -> & Ho).
    destruct (val_members unit (d ++ unit) (match t with TList _ => ListItem | _ => MapKey end)
                (membersOf t)
                (fun ht Hin => conj (IH ht Hin) (headLexKind_members t ht Hin))
                Comment false (mkParseState sk false :: below) (lno ti) Rm
                (or_introl eq_refl) HRm)
      as (T2 & sk2 & hk2 & l2 & Hs2 & _ & Hk2).
    destruct (val_outdent sk2 hk2 (mkParseState sk false :: below) l2 o Ho) as (T3 & Hs3 & Hk3).
    exists (ti :: T2 ++ T3), false, (lno o). split.
    + cbn [tokensLoop]. rewrite (val_indent sk below l ti _ Hti). unfold bind.
      rewrite tokensLoop_app, Hs2. cbn [tokensLoop]. rewrite Hs3. unfold bind, ret.
      cbn [fst snd app]. rewrite app_nil_r. reflexivity.
    + cbn [map owedValue]. rewrite app_nil_r, map_app, Hk3, app_assoc, Hk2, Hti.
      cbn [owedValue app]. reflexivity.
  - destruct t as [v| |ms|its]; try discriminate; cbn [rawBody lexBody] in *.
    + apply map_shape_one in HR. destruct HR as (tv & -> & Hv).
      exists [tv], false, (lno tv). split.
      * cbn [tokensLoop]. rewrite (val_scalar sk true below l tv v Hv). reflexivity.
      * cbn [map owedValue app]. rewrite Hv. reflexivity.
    + apply map_eq_nil in HR. subst R. exists [], true, l. split; reflexivity.
Qed.

(** The closing loop of the validator yields what the [Outdent] tokens
    of the open sections would have made it yield. *)
Lemma flush_outdents outs : forall v X v'' l,
  Forall (fun o => shapeOf o = outShape) outs ->
  tokensLoop v outs = (X, Ret v'') -> length (states v'') = 1 ->
  map shapeOf (tokensFlush l (states v))
  = map shapeOf X ++ map shapeOf (tokensFlush l (states v'')).
Proof.
  induction outs as [|o outs IH]; intros v X v'' l Hall Hrun Hlen.
  - cbn [tokensLoop ret] in Hrun. inversion Hrun; subst. reflexivity.
  - inversion Hall as [|o' outs' Ho Hall']; subst.
    cbn [tokensLoop] in Hrun. destruct v as [sts l0]. cbn [states].
    destruct sts as [|[sk hk] below].
    + destruct o as [n k c e]. unfold shapeOf, outShape in Ho. cbn [kind content error] in Ho.
      inversion Ho; subst. cbn in Hrun. discriminate.
    + destruct (val_outdent sk hk below l0 o Ho) as (T1 & Hs1 & Hk1).
      rewrite Hs1 in Hrun. unfold bind in Hrun.
      destruct (tokensLoop (mkValidator below (lno o)) outs) as [X2 [v2|e2]] eqn:Hrest;
        [|discriminate].
      inversion Hrun; subst.
      pose proof (IH _ _ _ l Hall' Hrest Hlen) as IH'. cbn [states] in IH'.
      assert (Hbelow : below <> []).
      { intros ->. destruct outs as [|o2 outs].
        - cbn [tokensLoop ret] in Hrest. inversion Hrest; subst. cbn [states length] in Hlen.
          discriminate.
        - inversion Hall' as [|o2' outs2 Ho2 _]; subst.
          destruct o2 as [n k c e]. unfold shapeOf, outShape in Ho2.
          cbn [kind content error] in Ho2. inversion Ho2; subst. cbn in Hrest. discriminate. }
      cbn [tokensFlush]. rewrite !map_app, IH', Hk1.
      replace (1 <? length (mkParseState sk hk :: below)) with true
        by (destruct below; [contradiction | reflexivity]).
      destruct hk; cbn [hasKey owedValue map app]; rewrite <- ?app_assoc; reflexivity.
Qed.

(** *** The lines of the text *)

Lemma linesSegments_through l : forall e lno cur rest,
  forallb notBreak l = true ->
  linesSegments e lno cur (scan lineRegexp 0 (l ++ rest))
  = linesSegments e lno (rev l ++ cur) (scan lineRegexp 0 rest).
Proof.
  induction l as [|x l IH]; intros e lno cur rest H; [reflexivity|].
  cbn [forallb] in H. apply andb_true_iff in H. destruct H as [Hx H].
  unfold notBreak in Hx. apply andb_true_iff in Hx. destruct Hx as [Hc Hl].
  apply negb_true_iff in Hc, Hl.
  cbn [app scan]. rewrite matchPrefix_lineRegexp, Hc, Hl. cbn [linesSegments].
  rewrite (IH e lno (x :: cur) rest H). cbn [rev]. rewrite <- app_assoc. reflexivity.
Qed.

Lemma linesSegments_join ls : forall l e lno cur,
  forallb (forallb notBreak) (l :: ls) = true ->
  forallb (fun x => negb (isEmpty x)) (l :: ls) = true ->
  linesSegments e lno cur (scan lineRegexp 0 (join [LF] (l :: ls)))
  = (lno, rev cur ++ l) :: number (S lno) ls.
Proof.
  induction ls as [|l2 ls IH]; intros l e lno cur Hb Hne.
  - cbn [join forallb] in *. rewrite andb_true_r in Hb, Hne.
    rewrite (linesSegments_one_line l e lno cur Hb).
    destruct l as [|x l]; [discriminate|].
    replace (negb (isEmpty (rev (x :: l) ++ cur))) with true.
    + reflexivity.
    + cbn [rev]. destruct (rev l); reflexivity.
  - change (join [LF] (l :: l2 :: ls)) with (l ++ [LF] ++ join [LF] (l2 :: ls)).
    cbn [forallb] in Hb, Hne. apply andb_true_iff in Hb, Hne.
    destruct Hb as [Hl Hb], Hne as [_ Hne].
    rewrite (linesSegments_through l e lno cur _ Hl). cbn [app scan].
    rewrite matchPrefix_lineRegexp.
    replace (N.eqb LF CR) with false by reflexivity.
    replace (N.eqb LF LF) with true by reflexivity.
    cbn [length linesSegments].
    rewrite (IH l2 e (S lno) [] Hb Hne). cbn [rev app].
    rewrite rev_app_distr, rev_involutive. unfold number. cbn [length seq combine].
    reflexivity.
Qed.

Lemma lines_join ls :
  ls <> [] ->
  forallb (forallb notBreak) ls = true ->
  forallb (fun x => negb (isEmpty x)) ls = true ->
  lines (join [LF] ls) = number 1 ls.
Proof.
  intros Hne Hb He. destruct ls as [|l ls]; [contradiction|].
  unfold lines. rewrite (linesSegments_join ls l _ 1 [] Hb He).
  unfold number. cbn [length seq combine rev app]. reflexivity.
Qed.

Lemma tight_notBreak l : tight l = true -> forallb notBreak l = true.
Proof.
  induction l as [|x l IH]; [reflexivity|]. intros H.
  pose proof (tight_tail x l H) as Ht. cbn [tight] in H.
  apply andb_true_iff in H. destruct H as [Hx _].
  cbn [forallb]. unfold notBreak at 1. rewrite Hx. apply IH. exact Ht.
Qed.

Lemma texts_ok unit t :
  forallb isBlank unit = true -> wellFormed t = true ->
  forallb (forallb notBreak) (map lineText (sectionRows unit [] t)) = true /\
  forallb (fun x => negb (isEmpty x)) (map lineText (sectionRows unit [] t)) = true.
Proof.
  intros Hu Hw. destruct (sectionRows_ok unit t Hu Hw) as [Hok Hstrip].
  destruct (rows_cut _ Hok) as [_ Htight].
  split.
  - revert Htight. generalize (map lineText (sectionRows unit [] t)).
    induction l as [|x l IH]; [reflexivity|]. cbn [forallb]. intros H.
    apply andb_true_iff in H. destruct H as [Hx H].
    rewrite (tight_notBreak x Hx). apply IH. exact H.
  - rewrite <- Hstrip. generalize (sectionRows unit [] t).
    induction l as [|[d c] l IH]; [reflexivity|].
    cbn [strip filter]. unfold note at 1. cbn [Tokenizer.lcontent].
    destruct (isEmpty c || startsWith c [SEMI]) eqn:Hn; cbn [negb]; [exact IH|].
    cbn [map forallb]. fold (strip l). rewrite IH.
    apply orb_false_iff in Hn. destruct Hn as [Hn _].
    unfold lineText. cbn [Tokenizer.lindent Tokenizer.lcontent].
    destruct c; [discriminate|]. destruct d; reflexivity.
Qed.

(** *** The tokens of a document *)

Lemma tokenize_render unit t :
  unit <> [] -> forallb isBlank unit = true ->
  isSection t = true -> wellFormed t = true -> crispTree t = true ->
  exists T n,
    tokenize (render unit t) = (T, Ret tt) /\
    map shapeOf T ++ repeat outShape n = flat_map (rawMember unit []) (membersOf t).
Proof.
  intros Hu Hub Hsec Hw Hc.
  destruct (raw_top_run unit t Hu Hub Hsec Hw Hc) as (T & extra & Hr & Hk).
  destruct (texts_ok unit t Hub Hw) as [Hb Hne].
  assert (Hrows : map lineText (sectionRows unit [] t) <> []).
  { rewrite sectionRows_members. pose proof (wellFormed_nonempty t Hsec Hw) as Hm.
    destruct (membersOf t) as [|[h1 t1] ms]; [contradiction|].
    cbn [flat_map fst snd]. rewrite rows_head. discriminate. }
  exists T, (length extra). split; [|exact Hk].
  unfold tokenize, render. rewrite (lines_join _ Hrows Hb Hne).
  specialize (Hr []). rewrite app_nil_r in Hr.
  change initialState with (between [[]]). rewrite Hr.
  cbn [tokenizeLines ret fst snd]. unfold bind. cbn [tokenizeFlush between multiline].
  rewrite !app_nil_r. reflexivity.
Qed.

(** X26. The lexer on a document written from a tree.  For a tree as above
    whose keys and scalars do not end with white space, [tokens] of
    types.ts runs to its normal end, and its tokens are, in this order and
    without any error: for a member its MapKey with the key or its
    ListItem; then the Scalar with the word, or the NoValue of a member
    with nothing, or for a section the Indent that carries the
    indentation of the section, the tokens of its members, and an
    Outdent. *)
Theorem lexer_render unit t :
  unit <> [] -> forallb isBlank unit = true ->
  isSection t = true -> wellFormed t = true -> crispTree t = true ->
  snd (tokens (render unit t)) = Ret tt /\
  map shapeOf (fst (tokens (render unit t))) = lexTokens unit [] t.
Proof.
  intros Hu Hub Hsec Hw Hc.
  destruct (tokenize_render unit t Hu Hub Hsec Hw Hc) as (Traw & n & Hraw & Hk).
  set (outs := repeat (mkToken 0 Outdent [] None) n).
  assert (Houts : map shapeOf outs = repeat outShape n) by apply map_shape_repeat.
  assert (Hall : Forall (fun o => shapeOf o = outShape) outs).
  { unfold outs. clear. induction n as [|n IH]; constructor; [reflexivity | exact IH]. }
  destruct (val_members unit [] (match t with TList _ => ListItem | _ => MapKey end)
              (membersOf t)
              (fun ht Hin => conj (val_body unit (snd ht)) (headLexKind_members t ht Hin))
              Comment false [] 0 (Traw ++ outs) (or_introl eq_refl))
    as (T2 & sk2 & hk2 & l2 & Hs2 & _ & Hk2).
  { rewrite map_app, Houts. exact Hk. }
  rewrite tokensLoop_app in Hs2.
  change (mkValidator [mkParseState Comment false] 0) with initialValidator in Hs2.
  destruct (tokensLoop initialValidator Traw) as [T1 [v1|e1]] eqn:H1; [|discriminate].
  destruct (tokensLoop v1 outs) as [X [v2|e2]] eqn:HX; cbn [fst snd] in Hs2; [|discriminate].
  inversion Hs2; subst T2 v2.
  pose proof (flush_outdents outs v1 X _ (lastLine v1) Hall HX eq_refl) as Hflush.
  cbn [states] in Hflush.
  unfold tokens. rewrite Hraw, H1. unfold bind. cbn [fst snd]. split; [reflexivity|].
  rewrite map_app, Hflush, app_assoc, <- map_app.
  cbn [owedValue app] in Hk2. unfold lexTokens.
  replace (flat_map (fun ht => headShape (fst ht) :: lexBody unit [] (snd ht)) (membersOf t))
    with (flat_map (lexMember unit []) (membersOf t)) by reflexivity.
  rewrite <- Hk2. f_equal.
  cbn [tokensFlush hasKey length Nat.ltb Nat.leb app]. destruct hk2; reflexivity.
Qed.

Lemma lexer_render_witness :
  snd (tokens (u "server" ++ [LF] ++ u "  name = web" ++ [LF] ++ u "  ports" ++ [LF]
                 ++ u "    = 80" ++ [LF] ++ u "    =" ++ [LF] ++ u "  tls" ++ [LF]
                 ++ u "debug = off")) = Ret tt /\
  map shapeOf
    (fst (tokens (u "server" ++ [LF] ++ u "  name = web" ++ [LF] ++ u "  ports" ++ [LF]
                    ++ u "    = 80" ++ [LF] ++ u "    =" ++ [LF] ++ u "  tls" ++ [LF]
                    ++ u "debug = off")))
  = [(MapKey, u "server", None); (Indent, u "  ", None);
     (MapKey, u "name", None); (Scalar, u "web", None);
     (MapKey, u "ports", None); (Indent, u "    ", None);
     (ListItem, [], None); (Scalar, u "80", None);
     (ListItem, [], None); (NoValue, [], None); (Outdent, [], None);
     (MapKey, u "tls", None); (NoValue, [], None); (Outdent, [], None);
     (MapKey, u "debug", None); (Scalar, u "off", None)].
Proof.
  exact (lexer_render (u "  ")
           (TMap [(u "server",
                   TMap [(u "name", TScalar (u "web"));
                         (u "ports", TList [TScalar (u "80"); TNull]);
                         (u "tls", TNull)]);
                  (u "debug", TScalar (u "off"))])
           ltac:(discriminate) eq_refl eq_refl eq_refl eq_refl).
Defined.

End LexRenderProps.

(* ================================================================== *)
(** ** The lexer on a value with a gap *)

Module LexGapProps.

Import Utils RegexProps DocumentSpec DocumentProps SequenceSpec RenderSpec RenderProps.
Import PatternSpec GapProps.
Import UtilsSpec UtilsProps Lexer LexerSpec LexerProps LexRenderSpec LexRenderProps.

(** The value of a line, words with blanks between them. *)
Lemma tokenizeValue_text st lno v :
  solid v = true -> noSemi v = true -> crisp v = true ->
  match v with x :: _ => N.eqb x QUOTE = false | [] => True end ->
  tokenizeValue st lno v = ([mkToken lno Scalar v None], Ret st).
Proof.
  intros Hsolid Hns Hc Hq. destruct (solid_parts v Hsolid) as (_ & _ & x & s & Hve & Hb).
  subst v. cbn [noSemi forallb] in Hns. apply andb_true_iff in Hns. destruct Hns as [Hx Hns].
  apply negb_true_iff in Hx. unfold tokenizeValue.
  assert (Hc1 : cutPrefix (x :: s) [SEMI] = (x :: s, false)).
  { unfold cutPrefix. cbn [startsWith]. rewrite Hx. reflexivity. }
  assert (Hc2 : cutPrefix (x :: s) [QUOTE; QUOTE; QUOTE] = (x :: s, false)).
  { unfold cutPrefix. cbn [startsWith]. rewrite Hq. reflexivity. }
  assert (Hsq : startsWith (x :: s) [QUOTE] = false).
  { cbn [startsWith]. rewrite Hq. reflexivity. }
  assert (Hsl : splitLiteral (x :: s) false = (x :: s, [])).
  { unfold splitLiteral. rewrite Hsq. unfold splitUnquoted.
    rewrite (LexerProps.indexOf_none SEMI (x :: s)), (crisp_trimEnd _ Hc); [reflexivity|].
    cbn [forallb]. rewrite Hx. exact Hns. }
  rewrite Hc1, Hc2, Hsl. cbn [isEmpty negb]. rewrite (decodeLiteral_bare _ Hsq). reflexivity.
Qed.

Lemma crisp_app a b : b <> [] -> crisp b = true -> crisp (a ++ b) = true.
Proof.
  unfold crisp. intros Hb H. rewrite rev_app_distr.
  destruct (rev b) as [|x r] eqn:Hr; [|exact H].
  apply (f_equal (@rev N)) in Hr. rewrite rev_involutive in Hr. contradiction.
Qed.

(** The line of the gap, as the lexer reads it. *)
Lemma lexer_line_gap lno k v1 g v2 :
  word k = true -> crisp k = true -> word v1 = true -> word v2 = true -> crisp v2 = true ->
  forallb isBlank g = true ->
  tokenizeLine (between [[]]) (lno, gapLine k v1 g v2)
  = ([mkToken lno MapKey k None; mkToken lno Scalar (v1 ++ g ++ v2) None],
     Ret (between [[]])).
Proof.
  intros Hk Hck Hv1 Hv2 Hcv Hg.
  pose proof (gapLine_solid k v1 g v2 Hk Hv1 Hv2 Hg) as Hsolid.
  destruct (solid_parts _ Hsolid) as (_ & Hn & x0 & s0 & Hline & Hx0).
  destruct (word_head k Hk) as (x & s & Hke & Hs & He & Hq & Hb).
  destruct (word_head v1 Hv1) as (y & s' & Hve & Hys & _ & Hyq & Hyb).
  destruct (word_first v2 Hv2) as (z & s'' & Hze & _).
  set (v := v1 ++ g ++ v2).
  assert (Hvn : forallb notLineTerminator v = true).
  { unfold gapLine in Hn. rewrite !forallb_app in Hn. unfold v. rewrite !forallb_app.
    apply andb_true_iff in Hn. destruct Hn as [_ Hn].
    apply andb_true_iff in Hn. destruct Hn as [_ Hn]. exact Hn. }
  assert (Hvs : noSemi v = true).
  { unfold v, noSemi. rewrite !forallb_app. fold (noSemi v1) (noSemi v2).
    rewrite (word_noSemi v1 Hv1), (word_noSemi v2 Hv2). cbn [andb]. rewrite andb_true_r.
    revert Hg. apply forallb_impl. intros b Hb'.
    pose proof (blank_chars [b]) as Hbc. cbn [forallb existsb] in Hbc.
    rewrite Hb' in Hbc. specialize (Hbc eq_refl). rewrite orb_false_r in Hbc.
    rewrite N.eqb_sym, Hbc. reflexivity. }
  assert (Hvc : crisp v = true).
  { unfold v. rewrite app_assoc. apply crisp_app; [rewrite Hze; discriminate | exact Hcv]. }
  assert (Hvsolid : solid v = true).
  { apply solid_cut.
    - unfold v. rewrite app_assoc. apply tight_app_nonblank.
      + pose proof (word_tight_after [] v2 eq_refl Hv2) as Ht. exact Ht.
      + rewrite Hze. discriminate.
      + clear -Hvn Hze. unfold v in Hvn. rewrite app_assoc, forallb_app in Hvn.
        apply andb_true_iff in Hvn. destruct Hvn as [Hvn _]. revert Hvn.
        apply forallb_impl. intros c Hc. unfold notLineTerminator, isLineTerminator in Hc.
        apply negb_true_iff in Hc. apply orb_false_iff in Hc. destruct Hc as [Hc _].
        apply orb_false_iff in Hc. destruct Hc as [Hc _].
        apply orb_false_iff in Hc. destruct Hc as [Hlf Hcr]. rewrite Hcr, Hlf. reflexivity.
    - exact Hvn.
    - unfold v. rewrite Hve. discriminate.
    - unfold v. rewrite Hve. cbn [app takeWhile]. rewrite Hyb. reflexivity. }
  assert (Ht0 : trimLeft (gapLine k v1 g v2) = ([], gapLine k v1 g v2)).
  { apply (trimLeft_indented [] (gapLine k v1 g v2) eq_refl);
      [rewrite Hline; exact Hx0 | exact Hn]. }
  unfold tokenizeLine. rewrite Ht0.
  cbn [multiline between]. fold (between [[]]).
  unfold tokenizeEntry. rewrite Hline. cbn [isEmpty]. rewrite <- Hline.
  assert (Hc0 : cutPrefix (gapLine k v1 g v2) [SEMI] = (gapLine k v1 g v2, false)).
  { unfold gapLine. rewrite Hke. unfold cutPrefix. cbn [app startsWith]. rewrite Hs.
    reflexivity. }
  assert (Hce : cutPrefix (gapLine k v1 g v2) [EQUALS] = (gapLine k v1 g v2, false)).
  { unfold gapLine. rewrite Hke. unfold cutPrefix. cbn [app startsWith]. rewrite He.
    reflexivity. }
  assert (Hsq : startsWith k [QUOTE] = false).
  { rewrite Hke. cbn [startsWith]. rewrite Hq. reflexivity. }
  assert (Hsl : splitLiteral (gapLine k v1 g v2) true = (k, EQUALS :: SP :: v)).
  { unfold splitLiteral.
    replace (startsWith (gapLine k v1 g v2) [QUOTE]) with false
      by (unfold gapLine; rewrite Hke; cbn [app startsWith]; rewrite Hq; reflexivity).
    replace (gapLine k v1 g v2) with ((k ++ [SP]) ++ EQUALS :: SP :: v)
      by (unfold gapLine, v; rewrite <- app_assoc; reflexivity).
    rewrite splitUnquoted_key_equals.
    - rewrite trimEnd_blank, (crisp_trimEnd k Hck). reflexivity.
    - unfold noSemi. rewrite forallb_app. fold (noSemi k). rewrite (word_noSemi k Hk).
      reflexivity.
    - unfold noEquals. rewrite forallb_app. fold (noEquals k).
      rewrite (word_noEquals k Hk). reflexivity. }
  rewrite Hc0, Hce, Hsl, (decodeLiteral_bare k Hsq).
  assert (Ht1 : trimLeft (EQUALS :: SP :: v) = ([], EQUALS :: SP :: v)).
  { apply (trimLeft_indented [] (EQUALS :: SP :: v) eq_refl); [reflexivity|].
    cbn [forallb]. rewrite Hvn. reflexivity. }
  assert (Ht2 : trimLeft (SP :: v) = ([SP], v)).
  { apply (trimLeft_indented [SP] v eq_refl); [unfold v; rewrite Hve; exact Hyb | exact Hvn]. }
  assert (Hc3 : cutPrefix (EQUALS :: SP :: v) [EQUALS] = (SP :: v, true)) by reflexivity.
  rewrite Ht1. cbn [snd]. rewrite Hc3. cbn [fst].
  rewrite (LexerProps.str_eqb_cons EQUALS (SP :: v)). cbn [negb]. rewrite Ht2. cbn [snd].
  cbn [stack multiline multilinePrefix multilineValue multilineLno between popOutdents].
  replace (startsWith [] []) with true by reflexivity.
  unfold pushIndent. cbn [top str_eqb negb]. fold (between [[]]).
  rewrite (tokenizeValue_text (between [[]]) lno v Hvsolid Hvs Hvc).
  - reflexivity.
  - unfold v. rewrite Hve. exact Hyq.
Qed.

(** X27. The lexer keeps a value with a gap whole.  For a line  key = value
    whose value holds two bare words with any blanks between them, and
    whose key and last word do not end with white space, [tokens] of
    types.ts runs to its normal end and yields the MapKey with the key and
    one Scalar with the whole value, the blanks in it, without any error.
    This is the line on which [parse] throws a TypeError when the gap is
    two blanks or more. *)
Theorem lexer_gap_in_value k v1 g v2 :
  word k = true -> crisp k = true -> word v1 = true -> word v2 = true -> crisp v2 = true ->
  forallb isBlank g = true ->
  snd (tokens (gapLine k v1 g v2)) = Ret tt /\
  map shapeOf (fst (tokens (gapLine k v1 g v2)))
  = [(MapKey, k, None); (Scalar, v1 ++ g ++ v2, None)].
Proof.
  intros Hk Hck Hv1 Hv2 Hcv Hg.
  pose proof (gapLine_solid k v1 g v2 Hk Hv1 Hv2 Hg) as Hsolid.
  destruct (solid_parts _ Hsolid) as (Ht & _ & x0 & s0 & Hline & _).
  assert (Hlines : lines (gapLine k v1 g v2) = [(1, gapLine k v1 g v2)]).
  { apply (lines_join [gapLine k v1 g v2]); [discriminate | |].
    - cbn [forallb]. rewrite (tight_notBreak _ Ht). reflexivity.
    - cbn [forallb]. rewrite Hline. reflexivity. }
  unfold tokens, tokenize. rewrite Hlines. cbn [tokenizeLines].
  change initialState with (between [[]]).
  rewrite (lexer_line_gap 1 k v1 g v2 Hk Hck Hv1 Hv2 Hcv Hg).
  split; reflexivity.
Qed.

Lemma lexer_gap_in_value_witness :
  snd (tokens (u "title = Hello  World")) = Ret tt /\
  map shapeOf (fst (tokens (u "title = Hello  World")))
  = [(MapKey, u "title", None); (Scalar, u "Hello  World", None)].
Proof.
  exact (lexer_gap_in_value (u "title") (u "Hello") (u "  ") (u "World")
           eq_refl eq_refl eq_refl eq_refl eq_refl eq_refl).
Defined.

End LexGapProps.

(* ================================================================== *)
(** ** The reviver *)

Module ReviverProps.

Import Utils Tokenizer TokenizerSpec TokenizerProps RegexProps Parser ParserSpec ParserProps.
Import DocumentSpec DocumentProps SequenceSpec RenderSpec RenderProps ReviverSpec ReadingSpec.

(** *** The calls of the reviver *)

Lemma prepend_app a b X : prepend a (prepend b X) = prepend (a ++ b) X.
Proof. destruct X as [[[v it] l]| |]; cbn [prepend]; [rewrite app_assoc|..]; reflexivity. Qed.

Lemma prepend_nil X : prepend [] X = X.
Proof. destruct X as [[[v it] l]| |]; reflexivity. Qed.

Lemma store_by f acc h v :
  holds (headSection h) acc = true ->
  store f (Some acc) h v = (Some (place acc h (f (keyAt acc h) v)), None, [(keyAt acc h, v)]).
Proof.
  destruct h as [k|], acc as [s| |n|m|l|p m]; try discriminate; intros _; reflexivity.
Qed.

Lemma step_head_by f fuel result acc h th ts r :
  kind th = headKind h -> startsAs (headSection h) result acc ->
  sectionToValue (S fuel) f result None (th :: ts, r)
  = sectionToValue fuel f (Some acc) h (ts, r).
Proof.
  intros Hk Hs. cbn [sectionToValue]. rewrite Hk.
  destruct h as [k|]; cbn [headKind headSection] in *;
    destruct Hs as [[-> ->] | [-> _]]; reflexivity.
Qed.

Lemma step_leaf_by f fuel acc h tv ts r v :
  (exists c, kind tv = scalar c /\ v = VString c) \/ (kind tv = null /\ v = VNull) ->
  holds (headSection h) acc = true ->
  sectionToValue (S fuel) f (Some acc) h (tv :: ts, r)
  = prepend [(keyAt acc h, v)]
      (sectionToValue fuel f (Some (place acc h (f (keyAt acc h) v))) None (ts, r)).
Proof.
  intros Hk Hh. cbn [sectionToValue].
  destruct Hk as [(c & -> & ->) | [-> ->]]; rewrite (store_by f acc h _ Hh);
    match goal with
    | |- context [sectionToValue fuel ?g ?a ?b ?c] =>
        destruct (sectionToValue fuel g a b c) as [[[v' it] l]| |]; reflexivity
    end.
Qed.

Lemma step_indent_by f fuel acc h ti ts r nv rest nlog :
  kind ti = indent -> holds (headSection h) acc = true ->
  sectionToValue fuel f None None (ts, r) = Done (nv, (rest, r), nlog) ->
  sectionToValue (S fuel) f (Some acc) h (ti :: ts, r)
  = prepend (nlog ++ [(keyAt acc h, nv)])
      (sectionToValue fuel f (Some (place acc h (f (keyAt acc h) nv))) None (rest, r)).
Proof.
  intros Hk Hh Hn. cbn [sectionToValue]. rewrite Hk, Hn, (store_by f acc h nv Hh).
  destruct (sectionToValue fuel f (Some (place acc h (f (keyAt acc h) nv))) None (rest, r))
    as [[[v it] l]| |]; cbn [prepend]; [rewrite <- app_assoc|..]; reflexivity.
Qed.

Lemma step_outdent_by f fuel result key' o ts r :
  kind o = outdent ->
  sectionToValue (S fuel) f result key' (o :: ts, r)
  = Done (resultToValue result, (ts, r), []).
Proof. intros Hk. cbn [sectionToValue]. rewrite Hk. reflexivity. Qed.

Lemma inhabited_members t ht :
  inhabited t = true -> In ht (membersOf t) ->
  inhabited (snd ht) = true /\ headSection (fst ht) = kindOf t.
Proof.
  destruct t as [v| |ms|its]; cbn [membersOf inhabited]; try (intros _ []).
  - intros H Hin. apply andb_true_iff in H. destruct H as [_ H].
    apply in_map_iff in Hin. destruct Hin as ([k t'] & <- & Hin).
    rewrite forallb_forall in H. split; [exact (H _ Hin) | reflexivity].
  - intros H Hin. apply andb_true_iff in H. destruct H as [_ H].
    apply in_map_iff in Hin. destruct Hin as (t' & <- & Hin).
    rewrite forallb_forall in H. split; [exact (H _ Hin) | reflexivity].
Qed.

Lemma inhabited_nonempty t : isSection t = true -> inhabited t = true -> membersOf t <> [].
Proof.
  destruct t as [v| |[|kt ms]|[|t' its]]; try discriminate; intros _ _; discriminate.
Qed.

Lemma holds_putBy f sk acc ht :
  headSection (fst ht) = sk -> holds sk acc = true -> holds sk (putBy f acc ht) = true.
Proof. intros Hsk Hh. unfold putBy. apply holds_place; assumption. Qed.

(** The tokens of the members of a section, one member after the other. *)
Lemma members_by f sk ms :
  (forall ht, In ht ms ->
     nestedBy f (snd ht) /\ inhabited (snd ht) = true /\ headSection (fst ht) = sk) ->
  forall fuel result acc T rest r,
    startsAs sk result acc ->
    map kind T = flat_map memberKinds ms ->
    length (T ++ rest) < fuel ->
    exists fuel2,
      length rest < fuel2 /\
      sectionToValue fuel f result None (T ++ rest, r)
      = prepend (memberCalls f acc ms)
          (sectionToValue fuel2 f
             (match ms with [] => result | _ => Some (fold_left (putBy f) ms acc) end)
             None (rest, r)).
Proof.
  induction ms as [|[h t] ms IH]; intros Hall fuel result acc T rest r Hs HT Hf.
  - cbn [flat_map] in HT. apply map_eq_nil in HT. subst T.
    exists fuel. split; [exact Hf|]. cbn [memberCalls]. rewrite prepend_nil. reflexivity.
  - destruct (Hall (h, t) (or_introl eq_refl)) as (Hnested & Hw & Hsk). cbn [fst snd] in *.
    change (flat_map memberKinds ((h, t) :: ms))
      with ((headKind h :: bodyKinds t) ++ flat_map memberKinds ms) in HT.
    apply map_eq_app in HT. destruct HT as (T1 & T2 & -> & HT1 & HT2).
    destruct T1 as [|th T1]; [discriminate|]. cbn [map] in HT1.
    injection HT1 as Hth HT1.
    destruct fuel as [|fuel]; [lia|].
    rewrite <- app_assoc. cbn [app].
    rewrite (step_head_by f fuel result acc h th _ r Hth) by (rewrite Hsk; exact Hs).
    assert (Hholds : holds (headSection h) acc = true).
    { rewrite Hsk. destruct Hs as [[_ ->] | [_ Hh]]; [destruct sk; reflexivity | exact Hh]. }
    assert (Hnext : forall fuel' v,
              length (T2 ++ rest) < fuel' ->
              exists fuel2,
                length rest < fuel2 /\
                sectionToValue fuel' f (Some (place acc h v)) None (T2 ++ rest, r)
                = prepend (memberCalls f (place acc h v) ms)
                    (sectionToValue fuel2 f
                       (Some (fold_left (putBy f) ms (place acc h v))) None (rest, r))).
    { intros fuel' v Hf'.
      destruct (IH (fun ht Hin => Hall ht (or_intror Hin)) fuel' (Some (place acc h v))
                   (place acc h v) T2 rest r
                   (or_intror (conj eq_refl (holds_place sk acc h v Hsk
                                               ltac:(rewrite <- Hsk; exact Hholds))))
                   HT2 Hf') as (fuel2 & Hf2 & Heq).
      exists fuel2. split; [exact Hf2|]. rewrite Heq. destruct ms; reflexivity. }
    cbn [length] in Hf. rewrite !length_app in Hf.
    cbn [fold_left memberCalls fst snd].
    change (putBy f acc (h, t)) with (place acc h (f (keyAt acc h) (assembled f t))).
    destruct (isSection t) eqn:Hsec.
    + rewrite (bodyKinds_section t Hsec) in HT1.
      destruct T1 as [|ti T1]; [discriminate|]. cbn [map] in HT1. injection HT1 as Hti HT1.
      apply map_eq_app in HT1. destruct HT1 as (Tn & To & -> & HTn & HTo).
      apply map_kind_one in HTo. destruct HTo as (o & -> & Ho).
      destruct fuel as [|fuel]; [simpl in Hf; lia|].
      cbn [length] in Hf. rewrite length_app in Hf. cbn [length] in Hf.
      cbn [app]. rewrite <- app_assoc. cbn [app].
      rewrite (step_indent_by f fuel acc h ti _ r (assembled f t) (T2 ++ rest) (callsOf f t)
                 Hti Hholds).
      * destruct (Hnext fuel (f (keyAt acc h) (assembled f t))) as (fuel2 & Hf2 & Heq);
          [rewrite length_app; lia|].
        exists fuel2. split; [exact Hf2|]. rewrite Heq, prepend_app, <- app_assoc.
        reflexivity.
      * apply (Hnested fuel Tn o (T2 ++ rest) r Hsec Hw Ho HTn).
        rewrite length_app. cbn [length]. rewrite length_app. lia.
    + assert (Hleaf : exists tv, T1 = [tv] /\ callsOf f t = [] /\
                ((exists c, kind tv = scalar c /\ assembled f t = VString c) \/
                 (kind tv = null /\ assembled f t = VNull))).
      { destruct t as [v| |ms'|its']; try discriminate; cbn [bodyKinds] in HT1;
          apply map_kind_one in HT1; destruct HT1 as (tv & -> & Hk); exists tv;
          (split; [reflexivity|]); (split; [reflexivity|]);
          [left; exists v; auto | right; auto]. }
      destruct Hleaf as (tv & -> & Hc & Hk).
      destruct fuel as [|fuel]; [simpl in Hf; lia|]. cbn [length] in Hf.
      cbn [app]. rewrite (step_leaf_by f fuel acc h tv _ r (assembled f t) Hk Hholds).
      destruct (Hnext fuel (f (keyAt acc h) (assembled f t))) as (fuel2 & Hf2 & Heq);
        [rewrite length_app; lia|].
      exists fuel2. split; [exact Hf2|]. rewrite Heq, prepend_app, Hc. reflexivity.
Qed.

Lemma callsOf_list f its : callsOf f (TList its) = itemCalls f 0 its.
Proof.
  cbn [callsOf]. generalize 0. induction its as [|t' its IH]; intros i; [reflexivity|].
  cbn [itemCalls]. rewrite IH. reflexivity.
Qed.

Lemma assembled_members f t :
  isSection t = true ->
  assembled f t = fold_left (putBy f) (membersOf t) (emptyOf (kindOf t)).
Proof.
  destruct t as [v| |ms|its]; try discriminate; intros _;
    cbn [assembled membersOf kindOf emptyOf].
  - assert (H : forall acc, holds kKey acc = true ->
                fold_left (fun acc kt =>
                             assignKey (fst kt) (f (fst kt) (assembled f (snd kt))) acc) ms acc
                = fold_left (putBy f) (map (fun kt => (Some (fst kt), snd kt)) ms) acc).
    { induction ms as [|kt ms IH]; intros acc Hacc; [reflexivity|].
      cbn [map fold_left]. rewrite (IH _ (holds_assignKey _ _ _ Hacc)).
      destruct acc as [s| |n|m|l|p m]; try discriminate; reflexivity. }
    apply H. reflexivity.
  - assert (H : forall l,
                VList (fold_left (fun l t' =>
                                    l ++ [f (numberToString (length l)) (assembled f t')])
                                 its l)
                = fold_left (putBy f) (map (fun t' => (None, t')) its) (VList l)).
    { induction its as [|t' its IH]; intros l; [reflexivity|].
      cbn [map fold_left].
      change (putBy f (VList l) (None, t'))
        with (VList (l ++ [f (numberToString (length l)) (assembled f t')])).
      rewrite <- IH. reflexivity. }
    apply H.
Qed.

Lemma callsOf_members f t :
  callsOf f t = memberCalls f (emptyOf (kindOf t)) (membersOf t).
Proof.
  destruct t as [v| |ms|its]; try reflexivity.
  - cbn [callsOf membersOf kindOf emptyOf]. generalize (VMap []) as acc.
    induction ms as [|kt ms IH]; intros acc; [reflexivity|].
    cbn [flat_map map memberCalls fst snd]. rewrite (IH (putBy f acc (Some (fst kt), snd kt))).
    rewrite <- app_assoc. reflexivity.
  - rewrite callsOf_list. cbn [membersOf kindOf emptyOf].
    assert (H : forall l,
                itemCalls f (length l) its
                = memberCalls f (VList l) (map (fun t' => (None, t')) its)).
    { induction its as [|t' its IH]; intros l; [reflexivity|].
      cbn [itemCalls map memberCalls fst snd keyAt].
      change (putBy f (VList l) (None, t'))
        with (VList (l ++ [f (numberToString (length l)) (assembled f t')])).
      rewrite <- IH, length_app. cbn [length]. rewrite Nat.add_1_r. reflexivity. }
    exact (H []).
Qed.

(** The tokens of a nested section, up to its [outdent]. *)
Lemma nested_by f t : nestedBy f t.
Proof.
  induction t as [t IH] using tree_members_ind.
  intros fuel T o rest r Hsec Hw Ho HT Hf.
  destruct (members_by f (kindOf t) (membersOf t)) with
    (fuel := fuel) (result := @None value) (acc := emptyOf (kindOf t)) (T := T)
    (rest := o :: rest) (r := r) as (fuel2 & Hf2 & Heq).
  - intros ht Hin. destruct (inhabited_members t ht Hw Hin) as [H1 H2].
    split; [apply IH; exact Hin | split; assumption].
  - left. split; reflexivity.
  - exact HT.
  - exact Hf.
  - rewrite Heq. destruct fuel2 as [|fuel2]; [simpl in Hf2; lia|].
    rewrite (step_outdent_by f fuel2 _ None o rest r Ho). cbn [prepend].
    rewrite app_nil_r, <- (callsOf_members f t), (assembled_members f t Hsec).
    pose proof (inhabited_nonempty t Hsec Hw) as Hne.
    destruct (membersOf t); [contradiction | reflexivity].
Qed.

Lemma document_members t ht :
  document t = true -> In ht (membersOf t) ->
  inhabited (snd ht) = true /\ headSection (fst ht) = kindOf t.
Proof.
  destruct t as [v| |ms|its]; cbn [membersOf document]; try discriminate.
  - intros H Hin. apply in_map_iff in Hin. destruct Hin as ([k t'] & <- & Hin).
    rewrite forallb_forall in H. split; [exact (H _ Hin) | reflexivity].
  - intros H Hin. exact (inhabited_members (TList its) ht H Hin).
Qed.

Lemma document_section t : document t = true -> isSection t = true.
Proof. destruct t; try discriminate; reflexivity. Qed.

(** The tokens of a document. *)
Lemma top_by f t T :
  document t = true ->
  map kind T = flat_map memberKinds (membersOf t) ->
  sectionToValue (S (length T)) f None None (T, Ret tt)
  = Done (match membersOf t with [] => VNull | _ => assembled f t end,
          ([], Ret tt), callsOf f t).
Proof.
  intros Hd HT.
  destruct (members_by f (kindOf t) (membersOf t)) with
    (fuel := S (length T)) (result := @None value) (acc := emptyOf (kindOf t)) (T := T)
    (rest := @nil Token) (r := @Ret unit tt) as (fuel2 & Hf2 & Heq).
  - intros ht Hin. destruct (document_members t ht Hd Hin) as [H1 H2].
    split; [apply nested_by | split; assumption].
  - left. split; reflexivity.
  - exact HT.
  - rewrite app_nil_r. lia.
  - rewrite app_nil_r in Heq. rewrite Heq.
    destruct fuel2 as [|fuel2]; [simpl in Hf2; lia|]. cbn [sectionToValue prepend].
    rewrite app_nil_r, <- (callsOf_members f t), (assembled_members f t (document_section t Hd)).
    destruct (membersOf t); reflexivity.
Qed.

(** The value assembled for a section of keyed members is a map. *)
Lemma assembled_map_holds f ms : holds kKey (assembled f (TMap ms)) = true.
Proof.
  cbn [assembled]. generalize (VMap []) (eq_refl : holds kKey (VMap []) = true).
  induction ms as [|kt ms IH]; intros acc Hacc; [exact Hacc|].
  cbn [fold_left]. apply IH. apply holds_assignKey. exact Hacc.
Qed.

(** [parse] on an input whose tokens are those of a document. *)
Lemma parseLog_by f input t :
  document t = true ->
  tokens input = (fst (tokens input), Ret tt) ->
  map kind (fst (tokens input)) = flat_map memberKinds (membersOf t) ->
  parseLog input (Some f)
  = Done (f [] (assembled f t), callsOf f t ++ [([], assembled f t)]).
Proof.
  intros Hd Hret HT. unfold parseLog. rewrite Hret. cbn [fst].
  rewrite (top_by f t _ Hd HT).
  destruct t as [v| |ms|its]; try discriminate.
  - pose proof (assembled_map_holds f ms) as Hh.
    destruct (membersOf (TMap ms)) eqn:Hm.
    + destruct ms; [reflexivity | discriminate].
    + destruct (assembled f (TMap ms)); try discriminate; reflexivity.
  - cbn [document inhabited] in Hd. destruct its as [|t' its]; [discriminate|].
    reflexivity.
Qed.

(** *** When the tokenizer throws *)

(** [sectionToValue] returns before the end of the tokens only at an
    [outdent] that closes no section of those it has read. *)
Lemma sectionToValue_throw fuel : forall f result key T e d d' v it log,
  nesting d T = Some d' ->
  sectionToValue fuel f result key (T, Throw e) = Done (v, it, log) ->
  0 < d /\ exists rest, it = (rest, Throw e) /\ nesting (d - 1) rest = Some d'.
Proof.
  induction fuel as [|fuel IH]; intros f result key T e d d' v it log Hn H; [discriminate|].
  cbn [sectionToValue] in H. destruct T as [|token ts]; [discriminate|].
  cbn [nesting] in Hn.
  assert (Hstore : forall x it1 (l1 : list call) d1,
            (exists rest1, it1 = (rest1, Throw e) /\ nesting d1 rest1 = Some d') ->
            (let '(r1, k1, lg) := store f result key x in
             match sectionToValue fuel f r1 k1 it1 with
             | Done (v, it', log') => Done (v, it', l1 ++ lg ++ log')
             | other => other
             end) = Done (v, it, log) ->
            0 < d1 /\ exists rest, it = (rest, Throw e) /\ nesting (d1 - 1) rest = Some d').
  { intros x it1 l1 d1 (rest1 & -> & Hn1) Hx.
    destruct (store f result key x) as [[r1 k1] lg].
    destruct (sectionToValue fuel f r1 k1 (rest1, Throw e)) as [[[v2 it2] l2]| |] eqn:H2;
      try discriminate.
    inversion Hx; subst. exact (IH _ _ _ _ _ _ _ _ _ _ Hn1 H2). }
  destruct (kind token) eqn:K.
  - (* indent *)
    destruct (sectionToValue fuel f None None (ts, Throw e)) as [[[nv it1] l1]| |] eqn:H1;
      try discriminate.
    destruct (IH _ _ _ _ _ _ _ _ _ _ Hn H1) as (_ & rest1 & -> & Hn1).
    cbn [Nat.sub] in Hn1. rewrite Nat.sub_0_r in Hn1.
    apply (Hstore nv (rest1, Throw e) l1 d); [eauto | exact H].
  - (* outdent *)
    destruct d as [|d0]; [discriminate|]. inversion H; subst.
    split; [lia|]. exists ts. cbn [Nat.sub]. rewrite Nat.sub_0_r. auto.
  - exact (IH _ _ _ _ _ _ _ _ _ _ Hn H).
  - exact (IH _ _ _ _ _ _ _ _ _ _ Hn H).
  - apply (Hstore (VString content) (ts, Throw e) [] d); [eauto | exact H].
  - apply (Hstore VNull (ts, Throw e) [] d); [eauto | exact H].
Qed.

(** When [parse] returns, [tokens] has returned. *)
Lemma parseLog_returns input reviver' v log :
  parseLog input reviver' = Done (v, log) -> snd (tokens input) = Ret tt.
Proof.
  unfold parseLog. intros H.
  destruct (tokens_nesting input) as ([d Hd] & _).
  destruct (tokens input) as [T [[]|e]]; [reflexivity|]. exfalso. cbn [fst] in *.
  destruct (sectionToValue (S (length T))
              (match reviver' with Some g => g | None => identity end) None None (T, Throw e))
    as [[[v1 it1] l1]| |] eqn:Hs; try discriminate.
  destruct (sectionToValue_throw _ _ _ _ _ _ _ _ _ _ _ Hd Hs) as [Hlt _]. lia.
Qed.

(** *** One call for every value *)

Lemma countProduces_kinds T1 T2 :
  map kind T1 = map kind T2 -> countProduces T1 = countProduces T2.
Proof.
  unfold countProduces. revert T2. induction T1 as [|t T1 IH]; intros [|t2 T2] H;
    try discriminate; [reflexivity|].
  cbn [map] in H. injection H as Hk H. cbn [filter].
  assert (Hp : producesValue t = producesValue t2)
    by (unfold producesValue; rewrite Hk; reflexivity).
  rewrite Hp. specialize (IH T2 H).
  destruct (producesValue t2); cbn [length]; rewrite IH; reflexivity.
Qed.

Lemma countProduces_app a b : countProduces (a ++ b) = countProduces a + countProduces b.
Proof. unfold countProduces. rewrite filter_app, length_app. reflexivity. Qed.

Lemma producing_app a b : producing (a ++ b) = producing a + producing b.
Proof. unfold producing. rewrite map_app. apply countProduces_app. Qed.

Lemma producing_cons k ks :
  producing (k :: ks)
  = (match k with scalar _ | null | indent => 1 | _ => 0 end) + producing ks.
Proof. unfold producing, countProduces. cbn [map filter]. destruct k; reflexivity. Qed.

Lemma producing_body f t :
  (forall ht, In ht (membersOf t) ->
     forall acc ms, (forall ht', In ht' ms -> In ht' (membersOf (snd ht))) ->
       length (memberCalls f acc ms) = producing (flat_map memberKinds ms)) ->
  forall ht, In ht (membersOf t) ->
    S (length (callsOf f (snd ht))) = producing (bodyKinds (snd ht)).
Proof.
  intros IH ht Hin. destruct (isSection (snd ht)) eqn:Hsec.
  - rewrite (bodyKinds_section _ Hsec), producing_cons, producing_app, producing_cons.
    cbn [producing countProduces map filter length]. rewrite callsOf_members.
    rewrite (IH ht Hin _ _ (fun ht' H => H)). lia.
  - destruct (snd ht) as [v| |ms|its]; try discriminate; reflexivity.
Qed.

Lemma members_count f : forall t acc ms,
  (forall ht, In ht ms -> In ht (membersOf t)) ->
  length (memberCalls f acc ms) = producing (flat_map memberKinds ms).
Proof.
  induction t as [t IH] using tree_members_ind.
  intros acc ms. revert acc. induction ms as [|[h t'] ms IHms]; intros acc Hin; [reflexivity|].
  cbn [memberCalls flat_map fst snd]. unfold memberKinds at 1. cbn [fst snd].
  rewrite length_app. cbn [length].
  rewrite (IHms _ (fun ht H => Hin ht (or_intror H))).
  change ((headKind h :: bodyKinds t') ++ flat_map memberKinds ms)
    with (headKind h :: (bodyKinds t' ++ flat_map memberKinds ms)).
  rewrite producing_cons, producing_app.
  pose proof (producing_body f t IH (h, t') (Hin _ (or_introl eq_refl))) as Hb.
  cbn [snd] in Hb. destruct h; cbn [headKind]; lia.
Qed.

Lemma calls_count f t T :
  map kind T = flat_map memberKinds (membersOf t) ->
  length (callsOf f t) = countProduces T.
Proof.
  intros HT. rewrite callsOf_members, (members_count f t _ _ (fun ht H => H)).
  unfold producing. apply countProduces_kinds. rewrite HT, map_map.
  cbn [kind]. apply map_id.
Qed.

(** *** The sections of a document that is being read *)

Lemma kindsZ_cons lv outer :
  kindsZ (lv :: outer)
  = match outer with [] => [] | _ :: _ => kindsZ outer ++ [indent] end ++ levelKinds lv.
Proof. reflexivity. Qed.

Lemma flat_map_snoc {A B} (g : A -> list B) l x :
  flat_map g (l ++ [x]) = flat_map g l ++ g x.
Proof. rewrite flat_map_app. cbn [flat_map]. rewrite app_nil_r. reflexivity. Qed.

(** The one that waits is given no value. *)
Lemma kindsZ_settle lv outer ll :
  (snd lv <> None <-> ll <> None) ->
  kindsZ (lv :: outer) ++ owedNull ll = kindsZ (settle (lv :: outer)).
Proof.
  intros Hw. cbn [settle]. rewrite !kindsZ_cons, <- app_assoc. f_equal.
  unfold levelKinds, settled. cbn [fst snd]. destruct lv as [done [h|]]; cbn [fst snd] in *.
  - destruct ll as [l|]; [|exfalso; apply (proj1 Hw); [discriminate | reflexivity]].
    cbn [owedNull waitingKind]. rewrite flat_map_snoc, <- !app_assoc. reflexivity.
  - destruct ll as [l|]; [exfalso; apply (proj2 Hw); [discriminate | reflexivity]|].
    cbn [owedNull waitingKind]. rewrite !app_nil_r. reflexivity.
Qed.

Lemma membersOf_sectionOf k ms :
  Forall (fun m => headSection (fst m) = k) ms -> membersOf (sectionOf ms) = ms.
Proof.
  intros H. destruct k.
  - (* items *)
    assert (Hm : map (fun t' => (@None str, t')) (map snd ms) = ms).
    { induction H as [|[h t] ms Hh H IH]; [reflexivity|]. cbn [map snd]. rewrite IH.
      destruct h; [discriminate | reflexivity]. }
    destruct ms as [|[[k|] t] ms];
      [reflexivity | inversion H as [|? ? Hh ?]; cbn in Hh; discriminate Hh |].
    cbn [sectionOf membersOf]. exact Hm.
  - (* keys *)
    assert (Hm : map (fun kt => (Some (fst kt), snd kt)) (keyed ms) = ms).
    { induction H as [|[h t] ms Hh H IH]; [reflexivity|].
      destruct h as [k|]; [|discriminate].
      change (keyed ((Some k, t) :: ms)) with ((k, t) :: keyed ms).
      cbn [map fst snd]. rewrite IH. reflexivity. }
    destruct ms as [|[[k|] t] ms];
      [reflexivity | | inversion H as [|? ? Hh ?]; cbn in Hh; discriminate Hh].
    cbn [sectionOf membersOf]. exact Hm.
Qed.

Lemma isSection_sectionOf ms : isSection (sectionOf ms) = true.
Proof. destruct ms as [|[[k|] t] ms]; reflexivity. Qed.

Lemma inhabited_sectionOf k ms :
  ms <> [] -> Forall (fun m => headSection (fst m) = k) ms ->
  Forall (fun m => inhabited (snd m) = true) ms ->
  inhabited (sectionOf ms) = true.
Proof.
  intros Hne Hk Hi.
  assert (Hkeyed : forallb (fun kt => inhabited (snd kt)) (keyed ms) = true).
  { clear Hne Hk. induction Hi as [|[h t] ms Hh H IH]; [reflexivity|].
    destruct h as [k'|]; [|exact IH].
    change (keyed ((Some k', t) :: ms)) with ((k', t) :: keyed ms).
    cbn [forallb snd] in *. rewrite Hh. exact IH. }
  assert (Hitems : forallb inhabited (map snd ms) = true).
  { clear Hne Hk Hkeyed. induction Hi as [|[h t] ms Hh H IH]; [reflexivity|].
    cbn [map snd forallb] in *. rewrite Hh. exact IH. }
  destruct ms as [|[[k'|] t] ms]; [contradiction | |].
  - cbn [sectionOf inhabited]. rewrite Hkeyed. reflexivity.
  - cbn [sectionOf inhabited]. rewrite Hitems. reflexivity.
Qed.

(** The tokens of a section that is closed. *)
Lemma kindsZ_close k done0 done1 h1 outer :
  Forall (fun m => headSection (fst m) = k) done0 ->
  kindsZ ((done0, None) :: (done1, Some h1) :: outer) ++ [outdent]
  = kindsZ (closeLevel ((done0, None) :: (done1, Some h1) :: outer)).
Proof.
  intros Hk. cbn [closeLevel fst]. rewrite !kindsZ_cons.
  unfold levelKinds. cbn [fst snd waitingKind]. rewrite !app_nil_r, flat_map_snoc.
  unfold memberKinds at 4. cbn [fst snd].
  rewrite (bodyKinds_section _ (isSection_sectionOf done0)), (membersOf_sectionOf k done0 Hk).
  repeat (rewrite <- app_assoc || rewrite <- app_comm_cons). reflexivity.
Qed.

Lemma bottomed_tail (x y : str) l :
  LexerSpec.bottomed (x :: y :: l) -> LexerSpec.bottomed (y :: l).
Proof.
  intros [p Hp]. destruct p as [|x' p]; [discriminate|].
  exists p. cbn [app] in Hp. inversion Hp. reflexivity.
Qed.

(** The member that waits is given no value. *)
Lemma reads_settle stk ll z :
  reads stk ll z ->
  reads stk None (settle z) /\ kindsZ z ++ owedNull ll = kindsZ (settle z).
Proof.
  intros (Hall & Hz & Hb). destruct z as [|lv outer]; [contradiction|].
  destruct Hz as (Hw & Hout & Hne). split; [|apply kindsZ_settle; exact Hw].
  split; [|split; [|exact Hb]].
  - inversion Hall as [|fk lv' fks z' Hlv Hrest Hf]; subst. cbn [settle]. constructor; [|exact Hrest].
    destruct Hlv as [Hi Hk]. unfold levelOK, settled. cbn [fst snd]. split.
    + apply Forall_app. split; [exact Hi|]. destruct (snd lv); constructor; [reflexivity|constructor].
    + destruct fk as [k|].
      * destruct Hk as (Hk1 & Hk2 & Hk3). split; [|split].
        -- apply Forall_app. split; [exact Hk1|].
           destruct (snd lv) as [h|] eqn:Hs; constructor; [|constructor].
           cbn [fst]. apply Hk2. reflexivity.
        -- intros h Hh. discriminate.
        -- left. destruct Hk3 as [Hk3 | Hk3].
           ++ intros He. apply app_eq_nil in He. destruct He as [He _]. contradiction.
           ++ destruct (snd lv); [|contradiction].
              intros He. apply app_eq_nil in He. destruct He as [_ He]. discriminate.
      * destruct Hk as [-> ->]. split; reflexivity.
  - cbn [settle snd]. split; [split; intros H; contradiction|]. split; [exact Hout|].
    intros Ho. specialize (Hne Ho). left. unfold settled.
    destruct Hne as [Hne | Hne].
    + intros He. apply app_eq_nil in He. destruct He as [He _]. contradiction.
    + destruct (snd lv); [|contradiction].
      intros He. apply app_eq_nil in He. destruct He as [_ He]. discriminate.
Qed.

(** The innermost section is closed. *)
Lemma reads_close f0 f1 below z :
  reads (f0 :: f1 :: below) None z ->
  reads (f1 :: below) None (closeLevel z) /\
  kindsZ z ++ [outdent] = kindsZ (closeLevel z).
Proof.
  intros (Hall & Hz & Hb).
  inversion Hall as [|fk0 lv0 fks z0 Hlv0 Hrest0 Hf0]; subst.
  inversion Hrest0 as [|fk1 lv1 fks1 z1 Hlv1 Hrest1 Hf1]; subst.
  destruct Hz as (Hw & Hout & Hne).
  inversion Hout as [|? ? Hw1 Hout1]; subst.
  destruct lv0 as [done0 open0], lv1 as [done1 open1]. cbn [fst snd] in *. unfold waits in Hw1.
  cbn [snd] in Hw1. destruct open1 as [h1|]; [|contradiction].
  assert (Ho : open0 = None).
  { destruct open0; [|reflexivity]. exfalso. apply (proj1 Hw); [discriminate | reflexivity]. }
  subst open0.
  specialize (Hne ltac:(discriminate)). destruct Hne as [Hne | Hne]; [|contradiction].
  destruct Hlv0 as [Hi0 Hk0]. destruct Hlv1 as [Hi1 Hk1]. cbn [fst snd] in *.
  destruct (fkind f0) as [k0|]; [|destruct Hk0 as [Hk0 _]; contradiction].
  destruct Hk0 as (Hk0 & _ & _).
  destruct (fkind f1) as [k1|] eqn:Hf1k; [|destruct Hk1 as [_ Hk1]; discriminate].
  destruct Hk1 as (Hk1 & Hk1' & _).
  split; [|apply (kindsZ_close k0); exact Hk0].
  cbn [closeLevel fst]. split; [|split].
  - cbn [map]. rewrite Hf1k.
    constructor; [|exact Hrest1]. unfold levelOK. cbn [fst snd]. split.
    + apply Forall_app. split; [exact Hi1|]. constructor; [|constructor]. cbn [snd].
      apply (inhabited_sectionOf k0); assumption.
    + split; [|split].
      * apply Forall_app. split; [exact Hk1|]. constructor; [|constructor].
        cbn [fst]. apply Hk1'. reflexivity.
      * intros h Hh. discriminate.
      * left. intros He. apply app_eq_nil in He. destruct He as [_ He]. discriminate.
  - cbn [snd]. split; [split; intros H; contradiction|]. split; [exact Hout1|].
    intros _. left. cbn [fst]. intros He. apply app_eq_nil in He. destruct He as [_ He].
    discriminate.
  - cbn [map] in *. apply (bottomed_tail _ _ _ Hb).
Qed.

(** The sections of the entries taken from the stack are closed. *)
Lemma reads_pop popped : forall stk1 z,
  stk1 <> [] ->
  reads (popped ++ stk1) None z ->
  reads stk1 None (closeLevels (length popped) z) /\
  kindsZ z ++ repeat outdent (length popped) = kindsZ (closeLevels (length popped) z).
Proof.
  induction popped as [|f0 popped IH]; intros stk1 z Hne Hr.
  - cbn [length closeLevels repeat]. rewrite app_nil_r. split; [exact Hr | reflexivity].
  - assert (Hnext : exists f1 below, popped ++ stk1 = f1 :: below).
    { destruct (popped ++ stk1) as [|f1 below] eqn:He; [|eauto].
      apply app_eq_nil in He. destruct He as [_ He]. contradiction. }
    destruct Hnext as (f1 & below & He).
    cbn [app] in Hr. rewrite He in Hr.
    destruct (reads_close f0 f1 below z Hr) as [Hr1 Hk1]. rewrite <- He in Hr1.
    destruct (IH stk1 (closeLevel z) Hne Hr1) as [Hr2 Hk2].
    cbn [length closeLevels]. split; [exact Hr2|].
    rewrite <- Hk2, <- Hk1, <- app_assoc. reflexivity.
Qed.

(** A section is opened for the member that waits, and its first member
    is read. *)
Lemma reads_indent stk l l' ind h z :
  reads stk (Some l) z ->
  reads (mkFrame ind (Some (headSection h)) :: stk) (Some l') (([], Some h) :: z) /\
  kindsZ z ++ [indent; headKind h] = kindsZ (([], Some h) :: z).
Proof.
  intros (Hall & Hz & Hb). destruct z as [|lv outer]; [contradiction|].
  destruct Hz as (Hw & Hout & Hne). split.
  - split; [|split].
    + cbn [map fkind]. constructor; [|exact Hall]. split; [constructor|].
      cbn [fst snd]. split; [constructor|]. split; [|right; discriminate].
      intros h' Hh'. inversion Hh'. reflexivity.
    + cbn [snd]. split; [split; intros _; discriminate|]. split.
      * constructor; [|exact Hout]. apply (proj2 Hw). discriminate.
      * intros _. right. discriminate.
    + cbn [map findent]. destruct Hb as [p Hp]. exists (ind :: p). cbn [app]. rewrite Hp.
      reflexivity.
  - transitivity ((kindsZ (lv :: outer) ++ [indent]) ++ [headKind h]);
      [rewrite <- app_assoc; reflexivity | reflexivity].
Qed.

(** A member is read in the innermost section. *)
Lemma reads_head f below ll l' h z :
  fkind f = None \/ fkind f = Some (headSection h) ->
  reads (f :: below) ll z ->
  exists z',
    reads (mkFrame (findent f) (Some (headSection h)) :: below) (Some l') z' /\
    kindsZ z ++ owedNull ll ++ [headKind h] = kindsZ z' /\
    exists done outer, z' = (done, Some h) :: outer.
Proof.
  intros Hfk Hr. destruct (reads_settle _ _ _ Hr) as [(Hall & Hz & Hb) Hk].
  destruct z as [|[done0 open0] outer]; [destruct Hr as (_ & [] & _)|].
  cbn [settle] in *. destruct Hz as (_ & Hout & Hne).
  exists ((settled (done0, open0), Some h) :: outer). split; [|split; [|eauto]].
  - split; [|split; [|exact Hb]].
    + cbn [map fkind] in *. inversion Hall as [|fk lv' fks z' Hlv Hrest Hf]; subst.
      constructor; [|exact Hrest]. destruct Hlv as [Hi Hlv]. cbn [fst snd] in *.
      split; [exact Hi|]. cbn [fst snd]. split; [|split; [|right; discriminate]].
      * destruct Hfk as [Hfk | Hfk]; rewrite Hfk in Hlv.
        -- destruct Hlv as [-> _]. constructor.
        -- apply Hlv.
      * intros h' Hh'. inversion Hh'. reflexivity.
    + cbn [snd]. split; [split; intros _; discriminate|]. split; [exact Hout|].
      intros _. right. discriminate.
  - rewrite app_assoc, Hk, !kindsZ_cons, <- app_assoc. f_equal.
    unfold levelKinds. cbn [fst snd waitingKind]. rewrite app_nil_r. reflexivity.
Qed.

(** The member that waits is given its value. *)
Lemma reads_scalar stk l v done h outer :
  reads stk (Some l) ((done, Some h) :: outer) ->
  reads stk None ((done ++ [(h, TScalar v)], None) :: outer) /\
  kindsZ ((done, Some h) :: outer) ++ [scalar v]
  = kindsZ ((done ++ [(h, TScalar v)], None) :: outer).
Proof.
  intros (Hall & Hz & Hb). destruct Hz as (_ & Hout & _). split.
  - split; [|split; [|exact Hb]].
    + inversion Hall as [|fk lv' fks z' Hlv Hrest Hf]; subst.
      constructor; [|exact Hrest]. destruct Hlv as [Hi Hlv]. cbn [fst snd] in *.
      split; [apply Forall_app; split; [exact Hi | constructor; [reflexivity | constructor]]|].
      cbn [fst snd]. destruct fk as [k|]; [|destruct Hlv as [_ Hlv]; discriminate].
      destruct Hlv as (Hk1 & Hk2 & _). split; [|split].
      * apply Forall_app. split; [exact Hk1|]. constructor; [|constructor].
        cbn [fst]. apply Hk2. reflexivity.
      * intros h' Hh'. discriminate.
      * left. intros He. apply app_eq_nil in He. destruct He as [_ He]. discriminate.
    + cbn [snd]. split; [split; intros H; contradiction|]. split; [exact Hout|].
      intros _. left. cbn [fst]. intros He. apply app_eq_nil in He. destruct He as [_ He].
      discriminate.
  - rewrite !kindsZ_cons, <- app_assoc. f_equal. unfold levelKinds.
    cbn [fst snd waitingKind]. rewrite flat_map_snoc, app_nil_r, <- app_assoc. reflexivity.
Qed.

(** *** The tokens of one line *)

Lemma popOutdents_split ind stk :
  exists popped, stk = popped ++ fst (popOutdents ind stk) /\
                 snd (popOutdents ind stk) = repeat (LT outdent) (length popped).
Proof.
  induction stk as [|f below IH]; cbn [popOutdents]; [exists []; split; reflexivity|].
  destruct (startsWith ind (findent f)); [exists []; split; reflexivity|].
  destruct IH as (popped & Hs & Ho).
  destruct (popOutdents ind below) as [stk' out]. cbn [fst snd] in *.
  exists (f :: popped). cbn [app length repeat]. rewrite <- Hs, Ho. split; reflexivity.
Qed.

Lemma content_shape lno content xs :
  match matchPrefix SPLIT_LINE content with
  | None => throw TypeError
  | Some (_, _, c) =>
      let key' := match getCap 1 c with Some k => k | None => [] end in
      let tail := getCap 2 c in
      (if negb (isEmpty key') then
         k <- lift (decodeLiteral lno key') ;; yield (LT (key k))
       else yield (LT item)) ;;;
      match tail with
      | None => ret tt
      | Some tail' =>
          match matchPrefix multilineRegex tail' with
          | Some _ => yield multiline
          | None =>
              if negb (isEmpty tail') then
                v <- lift (decodeLiteral lno tail') ;; yield (LT (scalar v))
              else ret tt
          end
      end
  end = (xs, Ret tt) ->
  exists h vts, xs = LT (headKind h) :: vts /\ valueShape vts.
Proof.
  destruct (matchPrefix SPLIT_LINE content) as [[[m s'] c]|]; [|discriminate].
  cbv zeta.
  set (value := match getCap 2 c with None => _ | Some _ => _ end).
  assert (Hv : forall vts, value = (vts, Ret tt) -> valueShape vts).
  { unfold value. intros vts. destruct (getCap 2 c) as [tail'|].
    - destruct (matchPrefix multilineRegex tail').
      + intros H. inversion H. right. left. reflexivity.
      + destruct (negb (isEmpty tail')).
        * unfold bind, lift, yield. destruct (decodeLiteral lno tail') as [v|e];
            intros H; inversion H. right. right. eauto.
        * intros H. inversion H. left. reflexivity.
    - intros H. inversion H. left. reflexivity. }
  destruct value as [vts rv].
  destruct (negb (isEmpty match getCap 1 c with Some k => k | None => [] end)).
  - unfold bind, lift, yield.
    destruct (decodeLiteral lno _) as [k|e]; [|discriminate].
    cbn [app]. intros H. inversion H; subst.
    exists (Some k), vts. split; [reflexivity | apply Hv; reflexivity].
  - unfold bind, yield. cbn [app]. intros H. inversion H; subst.
    exists None, vts. split; [reflexivity | apply Hv; reflexivity].
Qed.

Lemma tokenizeLine_shape stk lno ind content stk2 lts :
  tokenizeLine stk lno ind content = (stk2, (lts, Ret tt)) ->
  (stk2 = stk /\ lts = []) \/
  exists h vts,
    valueShape vts /\
    ((str_eqb ind (topIndent (fst (popOutdents ind stk))) = true /\
      stk2 = fst (popOutdents ind stk) /\
      lts = snd (popOutdents ind stk) ++ LT (headKind h) :: vts) \/
     (stk2 = mkFrame ind None :: fst (popOutdents ind stk) /\
      lts = snd (popOutdents ind stk) ++ LT indent :: LT (headKind h) :: vts)).
Proof.
  unfold tokenizeLine.
  destruct (isEmpty content || startsWith content [SEMI]).
  { intros H. inversion H. left. split; reflexivity. }
  destruct (popOutdents ind stk) as [stk1 outs]. cbn [fst snd].
  pose proof (content_shape lno content) as HX.
  set (X := match matchPrefix SPLIT_LINE content with None => _ | Some _ => _ end) in *.
  destruct X as [xs rx].
  destruct (negb (str_eqb ind (topIndent stk1))) eqn:Hi; unfold bind; intros H;
    inversion H; subst; destruct (HX xs eq_refl) as (h & vts & -> & Hv);
    right; exists h, vts; (split; [exact Hv|]).
  - right. split; [reflexivity|]. rewrite <- app_assoc. reflexivity.
  - left. apply negb_false_iff in Hi. rewrite app_nil_r. auto.
Qed.

(** *** The tokens [tokens] makes of them *)

Lemma handleTokens_indent stk ll lno ind rest lts skip out st' skip' :
  handleTokens (mkTokensState stk ll) lno ind rest (LT indent :: lts) skip
  = (out, Ret (st', skip')) ->
  exists l out2,
    ll = Some l /\ out = mkToken lno indent :: out2 /\
    handleTokens (mkTokensState stk None) lno ind rest lts skip = (out2, Ret (st', skip')).
Proof.
  cbn [handleTokens handleToken lastLno stack]. destruct ll as [l|]; [|discriminate].
  unfold bind. cbn [fst snd]. rewrite Nat.add_0_r.
  destruct (handleTokens (mkTokensState stk None) lno ind rest lts skip) as [out2 r2].
  intros H. inversion H; subst. exists l, out2. auto.
Qed.

Lemma handleTokens_key f below ll lno ind rest h lts skip out st' skip' :
  handleTokens (mkTokensState (f :: below) ll) lno ind rest (LT (headKind h) :: lts) skip
  = (out, Ret (st', skip')) ->
  (fkind f = None \/ fkind f = Some (headSection h)) /\
  exists out2,
    out = nullBefore (mkTokensState (f :: below) ll) ++ mkToken lno (headKind h) :: out2 /\
    handleTokens (mkTokensState (mkFrame (findent f) (Some (headSection h)) :: below)
                                (Some lno))
                 lno ind rest lts skip
    = (out2, Ret (st', skip')).
Proof.
  destruct f as [d fk].
  destruct h as [k|]; cbn [headKind headSection handleTokens handleToken stack fkind findent];
    destruct fk as [[|]|]; unfold bind, throw; cbn [fst snd]; try discriminate;
    rewrite ?Nat.add_0_r;
    match goal with
    | |- context [handleTokens ?s lno ind rest lts skip] =>
        destruct (handleTokens s lno ind rest lts skip) as [out2 r2] eqn:H2
    end;
    intros H; inversion H; subst;
    (split; [auto|]); exists out2; rewrite <- app_assoc; split; reflexivity.
Qed.

Lemma handleTokens_value stk l lno ind rest vts skip out st' skip' :
  valueShape vts ->
  handleTokens (mkTokensState stk (Some l)) lno ind rest vts skip = (out, Ret (st', skip')) ->
  (out = [] /\ st' = mkTokensState stk (Some l)) \/
  (exists v, map kind out = [scalar v] /\ st' = mkTokensState stk None).
Proof.
  intros [-> | [-> | [v ->]]].
  - cbn [handleTokens]. intros H. inversion H. left. split; reflexivity.
  - cbn [handleTokens handleToken]. unfold bind, lift.
    destruct (consumeMultiline lno ind rest) as [[t n]|e] eqn:Hc; [|discriminate].
    cbn [fst snd app stack]. intros H. inversion H; subst. right.
    unfold consumeMultiline in Hc.
    destruct (skipn (blankLines rest) rest) as [|l0 rest']; [discriminate|].
    destruct (negb (startsWith (lindent l0) ind) || str_eqb (lindent l0) ind); [discriminate|].
    destruct (collect (lindent l0) (lcontent l0) rest') as [res m].
    inversion Hc; subst. eexists. split; reflexivity.
  - cbn [handleTokens handleToken]. unfold bind. cbn [fst snd app stack].
    intros H. inversion H; subst. right. exists v. split; reflexivity.
Qed.

Lemma kinds_nullBefore st : map kind (nullBefore st) = owedNull (lastLno st).
Proof. unfold nullBefore. destruct (lastLno st); reflexivity. Qed.

(** The value of the member that waits, if the line has one. *)
Lemma value_reads stk l z done h outer lno ind rest vts skip out st' skip' :
  z = (done, Some h) :: outer ->
  reads stk (Some l) z -> valueShape vts ->
  handleTokens (mkTokensState stk (Some l)) lno ind rest vts skip = (out, Ret (st', skip')) ->
  exists z', reads (stack st') (lastLno st') z' /\ kindsZ z ++ map kind out = kindsZ z'.
Proof.
  intros -> Hr Hv H.
  destruct (handleTokens_value _ _ _ _ _ _ _ _ _ _ Hv H) as [[-> ->] | (v & Hk & ->)].
  - exists ((done, Some h) :: outer). cbn [stack lastLno map]. rewrite app_nil_r.
    split; [exact Hr | reflexivity].
  - destruct (reads_scalar stk l v done h outer Hr) as [Hr' Hk'].
    eexists. cbn [stack lastLno]. rewrite Hk. split; [exact Hr' | exact Hk'].
Qed.

(** The key or the item of a line, and its value. *)
Lemma head_reads f below ll z lno ind rest h vts skip out st' skip' :
  reads (f :: below) ll z -> valueShape vts ->
  handleTokens (mkTokensState (f :: below) ll) lno ind rest (LT (headKind h) :: vts) skip
  = (out, Ret (st', skip')) ->
  exists z', reads (stack st') (lastLno st') z' /\ kindsZ z ++ map kind out = kindsZ z'.
Proof.
  intros Hr Hv H.
  destruct (handleTokens_key _ _ _ _ _ _ _ _ _ _ _ _ H) as (Hfk & out2 & -> & H2).
  destruct (reads_head f below ll lno h z Hfk Hr) as (z1 & Hr1 & Hk1 & done & outer & Hz1).
  destruct (value_reads _ _ _ _ _ _ _ _ _ _ _ _ _ _ Hz1 Hr1 Hv H2) as (z' & Hr' & Hk').
  exists z'. split; [exact Hr'|].
  rewrite map_app, kinds_nullBefore. cbn [map kind lastLno].
  rewrite <- Hk', <- Hk1. repeat (rewrite <- app_assoc || rewrite <- app_comm_cons).
  reflexivity.
Qed.

Lemma bottomed_nonempty (stk : list frame) :
  LexerSpec.bottomed (map findent stk) -> stk <> [].
Proof. intros [p Hp] ->. destruct p; discriminate. Qed.

(** What one line adds to the sections read. *)
Lemma line_reads st z lno ind content rest stk2 lts out st' skip :
  reads (stack st) (lastLno st) z ->
  tokenizeLine (stack st) lno ind content = (stk2, (lts, Ret tt)) ->
  handleTokens (mkTokensState stk2 (lastLno st)) lno ind rest lts 0 = (out, Ret (st', skip)) ->
  exists z', reads (stack st') (lastLno st') z' /\ kindsZ z ++ map kind out = kindsZ z'.
Proof.
  intros Hr Hl H.
  destruct (tokenizeLine_shape _ _ _ _ _ _ Hl)
    as [[-> ->] | (h & vts & Hv & [(Heq & -> & ->) | (-> & ->)])].
  - cbn [handleTokens] in H. inversion H; subst. exists z. cbn [stack lastLno map].
    rewrite app_nil_r. split; [exact Hr | reflexivity].
  - destruct (popOutdents_split ind (stack st)) as (popped & Hs & Ho).
    pose proof Hr as (_ & _ & Hb).
    destruct (popOutdents_frames ind (stack st) Hb) as (Hb1 & _ & _).
    pose proof (bottomed_nonempty _ Hb1) as Hne.
    set (stk1 := fst (popOutdents ind (stack st))) in *.
    rewrite Ho in H. destruct popped as [|f0 popped].
    + cbn [app] in Hs. cbn [length repeat app] in H. rewrite <- Hs in H.
      destruct (stack st) as [|f below] eqn:Hst; [contradiction|].
      exact (head_reads _ _ _ _ _ _ _ _ _ _ _ _ _ Hr Hv H).
    + cbn [length] in H. rewrite handleTokens_outdents in H.
      destruct (handleTokens (mkTokensState stk1 None) lno ind rest (LT (headKind h) :: vts) 0)
        as [out2 r2] eqn:H2. cbn [fst snd] in H. inversion H; subst. clear H.
      destruct (reads_settle _ _ _ Hr) as [Hr1 Hk1]. rewrite Hs in Hr1.
      destruct (reads_pop (f0 :: popped) stk1 _ Hne Hr1) as [Hr2 Hk2].
      destruct stk1 as [|f below] eqn:Hstk1; [contradiction|].
      destruct (head_reads _ _ _ _ _ _ _ _ _ _ _ _ _ Hr2 Hv H2) as (z' & Hr' & Hk').
      exists z'. split; [exact Hr'|].
      rewrite !map_app, kinds_nullBefore. cbn [map kind lastLno].
      rewrite map_app, map_kind_repeat.
      rewrite <- Hk', <- Hk2, <- Hk1. cbn [length repeat].
      repeat (rewrite <- app_assoc || rewrite <- app_comm_cons). reflexivity.
  - destruct (popOutdents_split ind (stack st)) as (popped & Hs & Ho).
    set (stk1 := fst (popOutdents ind (stack st))) in *.
    rewrite Ho in H. destruct popped as [|f0 popped].
    + cbn [app] in Hs. cbn [length repeat app] in H.
      destruct (handleTokens_indent _ _ _ _ _ _ _ _ _ _ H) as (l & out2 & Hll & -> & H2).
      destruct (handleTokens_key _ _ _ _ _ _ _ _ _ _ _ _ H2) as (_ & out3 & -> & H3).
      cbn [findent nullBefore lastLno app] in H3 |- *.
      rewrite Hll, Hs in Hr.
      destruct (reads_indent stk1 l lno ind h z Hr) as [Hr1 Hk1].
      destruct z as [|lv outer]; [destruct Hr as (_ & [] & _)|].
      destruct (value_reads _ _ _ _ _ _ _ _ _ _ _ _ _ _ eq_refl Hr1 Hv H3) as (z' & Hr' & Hk').
      exists z'. split; [exact Hr'|]. cbn [map kind].
      rewrite <- Hk', <- Hk1. repeat (rewrite <- app_assoc || rewrite <- app_comm_cons).
      reflexivity.
    + exfalso. cbn [length] in H. rewrite handleTokens_outdents in H.
      destruct (handleTokens (mkTokensState (mkFrame ind None :: stk1) None) lno ind rest
                  (LT indent :: LT (headKind h) :: vts) 0) as [out2 [[st2 sk2]|e]] eqn:H2;
        cbn [fst snd] in H; [|discriminate].
      destruct (handleTokens_indent _ _ _ _ _ _ _ _ _ _ H2) as (l & _ & Hll & _).
      discriminate.
Qed.

(** What the loop over the lines reads. *)
Lemma loop_reads ls : forall st lno skip z T0 out st' lno',
  reads (stack st) (lastLno st) z -> map kind T0 = kindsZ z ->
  tokensLoop st lno skip ls = (out, Ret (st', lno')) ->
  exists z', reads (stack st') (lastLno st') z' /\ map kind (T0 ++ out) = kindsZ z'.
Proof.
  induction ls as [|l ls IH]; intros st lno skip z T0 out st' lno' Hr HT H.
  - cbn [tokensLoop] in H. inversion H; subst. exists z. rewrite app_nil_r. auto.
  - cbn [tokensLoop] in H. destruct skip as [|k]; [|exact (IH _ _ _ _ _ _ _ _ Hr HT H)].
    destruct (tokenizeLine (stack st) lno (lindent l) (lcontent l)) as [stk2 [lts r]] eqn:Hl.
    unfold bind in H.
    destruct (handleTokens (mkTokensState stk2 (lastLno st)) lno (lindent l) ls lts 0)
      as [out1 [[st1 sk1]|e]] eqn:Hh; [|discriminate].
    destruct r as [[]|e]; [|discriminate]. cbn [fst snd] in H.
    destruct (tokensLoop st1 (S lno) sk1 ls) as [out2 r2] eqn:H2.
    inversion H; subst. clear H.
    destruct (line_reads _ _ _ _ _ _ _ _ _ _ _ Hr Hl Hh) as (z1 & Hr1 & Hk1).
    destruct (IH st1 (S lno) sk1 z1 (T0 ++ out1) out2 st' lno' Hr1) as (z' & Hr' & Hk').
    + rewrite map_app, HT. exact Hk1.
    + exact H2.
    + exists z'. split; [exact Hr'|]. rewrite app_assoc. exact Hk'.
Qed.

(** *** The tokens of a document *)

Lemma document_sectionOf k ms :
  Forall (fun m => headSection (fst m) = k) ms ->
  Forall (fun m => inhabited (snd m) = true) ms ->
  document (sectionOf ms) = true /\ membersOf (sectionOf ms) = ms.
Proof.
  intros Hk Hi. split; [|exact (membersOf_sectionOf k ms Hk)].
  destruct ms as [|[h t] ms]; [reflexivity|].
  assert (Hne : (h, t) :: ms <> []) by discriminate.
  pose proof (inhabited_sectionOf k _ Hne Hk Hi) as Hin.
  destruct h as [k'|]; [|exact Hin].
  cbn [sectionOf document] in *. cbn [inhabited] in Hin.
  apply andb_true_iff in Hin. apply Hin.
Qed.

(** When [tokens] returns, its tokens are those of a document. *)
Lemma tokens_document input :
  snd (tokens input) = Ret tt ->
  exists t, document t = true /\
            map kind (fst (tokens input)) = flat_map memberKinds (membersOf t).
Proof.
  unfold tokens, bind, lift.
  destruct (splitLines (split newlineRegex input)) as [ls|e]; cbn [fst snd app];
    [|discriminate].
  destruct (tokensLoop (mkTokensState [mkFrame [] None] None) 0 0 ls)
    as [body [[st lno]|e]] eqn:Hloop; cbn [fst snd]; [|discriminate].
  intros _.
  destruct (loop_reads ls (mkTokensState [mkFrame [] None] None) 0 0 [([], None)] []
              body st lno) as (z & Hr & Hk).
  { cbn [stack lastLno]. split; [|split].
    - cbn [map fkind]. constructor; [|constructor].
      split; [constructor | split; reflexivity].
    - cbn [snd]. split; [split; intros H; exfalso; apply H; reflexivity|].
      split; [constructor|].
      intros H. contradiction.
    - exists []. reflexivity. }
  { reflexivity. }
  { exact Hloop. }
  cbn [app] in Hk.
  destruct (reads_settle _ _ _ Hr) as [Hr1 Hk1].
  pose proof Hr as (_ & _ & Hb). pose proof (bottomed_nonempty _ Hb) as Hne.
  destruct (exists_last Hne) as (popped & bottom & Hst).
  rewrite Hst in Hr1.
  assert (Hnb : [bottom] <> []) by discriminate.
  destruct (reads_pop popped [bottom] _ Hnb Hr1) as [Hr2 Hk2].
  destruct Hr2 as (Hall & Hz & _).
  cbn [map] in Hall. inversion Hall as [|fk lv fks zs Hlv Hrest Hf]; subst.
  inversion Hrest; subst.
  match goal with Heq : _ = closeLevels _ _ |- _ => rewrite <- Heq in * end.
  destruct Hz as (Hw & _ & _).
  assert (Ho : snd lv = None).
  { destruct (snd lv); [|reflexivity]. exfalso. apply (proj1 Hw); [discriminate | reflexivity]. }
  destruct Hlv as [Hi Hkind].
  assert (Hdoc : document (sectionOf (fst lv)) = true /\
                 membersOf (sectionOf (fst lv)) = fst lv).
  { destruct (fkind bottom) as [k|].
    - destruct Hkind as (Hk0 & _ & _). apply (document_sectionOf k); assumption.
    - destruct Hkind as [-> _]. split; reflexivity. }
  destruct Hdoc as [Hdoc Hm].
  exists (sectionOf (fst lv)). split; [exact Hdoc|].
  rewrite Hm, !map_app, Hk, kinds_nullBefore, closeStack_outdents, Hst, length_app.
  cbn [length]. rewrite Nat.add_sub.
  rewrite app_assoc, Hk1, Hk2. cbn [kindsZ]. unfold levelKinds. rewrite Ho.
  cbn [waitingKind]. rewrite app_nil_r. reflexivity.
Qed.

(** C8. The calls of the reviver.  When [tokens] returns on an input, its
    tokens are those of a document: a tree whose top is a section, in
    which every section below the top has a member, and whose tokens are
    for every member its key, or the item, followed by its scalar, by
    [null], or by the tokens of its own members between [indent] and
    [outdent].  On such an input [parse] with a reviver [f] returns, and
    the calls of [f] are, member by member in the order of the document,
    the calls for the members of the member and then one call for the
    member itself: with its key, or for an item with the index it
    takes in its list, and with its value, which for a section is the map
    or the list assembled from what [f] returned for its members.  The
    last call has the empty key and the value assembled for the
    document, and what it returns is the result of [parse].  So [f] is
    called once for every token that produces a value (a scalar, a
    missing value, a nested section) and once for the document, and
    never twice for the same.  [parse] returns only when [tokens]
    returns.  The example: with a reviver that turns  3s  under  timeout
    into 3000, the document  listen  with the indented line  timeout = 3s
    gives the map of  listen  to the map of  timeout  to 3000. *)
Theorem reviver_called_bottom_up :
  (forall input,
     snd (tokens input) = Ret tt ->
     exists t,
       document t = true /\
       map kind (fst (tokens input)) = flat_map memberKinds (membersOf t) /\
       forall f,
         parseLog input (Some f)
         = Done (f [] (assembled f t), callsOf f t ++ [([], assembled f t)]) /\
         length (callsOf f t) = countProduces (fst (tokens input))) /\
  (forall input f v log,
     parseLog input (Some f) = Done (v, log) -> snd (tokens input) = Ret tt) /\
  parse (u "listen" ++ [LF] ++ u "  timeout = 3s") (Some timeoutReviver)
  = Done (VMap [(u "listen", VMap [(u "timeout", VNumber 3000)])]).
Proof.
  split; [|split; [|vm_compute; reflexivity]].
  - intros input Hret. destruct (tokens_document input Hret) as (t & Hd & HT).
    exists t. split; [exact Hd|]. split; [exact HT|]. intros f. split.
    + apply parseLog_by; [exact Hd | | exact HT].
      destruct (tokens input) as [T r]. cbn [fst snd] in *. rewrite Hret. reflexivity.
    + apply calls_count. exact HT.
  - intros input f v log H. exact (parseLog_returns input (Some f) v log H).
Qed.

Lemma reviver_called_bottom_up_witness :
  exists t,
    document t = true /\
    map kind (fst (tokens (u "listen" ++ [LF] ++ u "  timeout = 3s")))
    = flat_map memberKinds (membersOf t) /\
    forall f,
      parseLog (u "listen" ++ [LF] ++ u "  timeout = 3s") (Some f)
      = Done (f [] (assembled f t), callsOf f t ++ [([], assembled f t)]) /\
      length (callsOf f t)
      = countProduces (fst (tokens (u "listen" ++ [LF] ++ u "  timeout = 3s"))).
Proof.
  apply (proj1 reviver_called_bottom_up (u "listen" ++ [LF] ++ u "  timeout = 3s")).
  vm_compute. reflexivity.
Defined.

End ReviverProps.
